(* ===== verification/_CoqProject ===== *)
-Q . S2P
Prelude.v
Config.v
Float64.v
NetAddr.v
AddrText.v
Limiter.v
RateLimit.v
BandwidthManager.v
Bandwidth.v
BandwidthSpec.v
Metrics.v
Balancer.v
BalancerSpec.v
Health.v
BalancerInv.v
BalancerConc.v
ProxyProtocol.v
Proxy.v
Acl.v
Tls.v
Server.v
ServerSpec.v
ServerClients.v
ServerHealth.v
Reconcile.v
Cluster.v
Main.v
Throughput.v
