(* ===== verification/Prelude.v ===== *)
(** * layer4-lb: a verification library

    layer4-lb is a TCP load balancer.  A rule of its configuration listens on an
    address and forwards every connection to one of its backends.  An accepted
    connection passes the access list and the per-client rate limiter of its
    rule; its task then asks the load balancer for a backend and the bandwidth
    manager for the token buckets of the client, announces the client to the
    backend (PROXY protocol), optionally speaks TLS on either side, and relays
    both directions through rate-limited streams.  Health checkers report to the
    load balancer, a change of the configuration file updates the backends, a
    gossip cluster exchanges usage figures, and metrics count what happens.  A
    second binary measures throughput.

    ** Files

    - [Prelude]: results and their notation, machine integers, shared lemmas,
      tactics and the hint database [lb].
    - [Config] ([src/src/config/mod.rs]): the configuration types and [validate].
    - [Float64]: the [f64] arithmetic of the token bucket.  A finite [f64] is the
      integer count of its units of [2^-1074]; sums, products, quotients and
      conversions round to nearest, ties to even.
    - [NetAddr]: the standard library's addresses, their parser and printer, as
      far as the sources use them.  [AddrText]: printing and parsing are inverse
      on all addresses, so the text of an address determines it.
    - [Limiter], [RateLimit], [BandwidthManager] ([src/src/traffic/limiter.rs]):
      the token bucket [SimpleLimiter], the connection rate limiter, and the
      manager that hands out shared buckets.
    - [Bandwidth], [BandwidthSpec] ([src/src/traffic/bandwidth.rs]): the
      rate-limited stream, poll by poll, and what any number of streams over
      shared buckets do.
    - [Metrics] ([src/src/metrics/mod.rs]): the metrics, the calls on them, the
      interface of the registry, and the HTTP handler.
    - [Balancer], [BalancerSpec], [BalancerInv], [BalancerConc]
      ([src/src/core/balancer.rs]): the load balancer with its operations; their
      specifications; sequences of operations with their guards; concurrent tasks,
      one atomic access at a time.
    - [Health] ([src/src/core/health.rs]): probes, rounds and the checker's task.
    - [ProxyProtocol], [Proxy] ([src/src/networking/]): the v2 header with a
      receiver as its specification; one proxied connection as a sequence of
      operations and metric calls in a state and error monad; the certificate
      verifier.
    - [Acl] ([src/src/networking/acl.rs]): access lists over an interface of the
      [ipnet] crate.  [Tls] ([tls.rs], [src/src/common/error.rs]): loading the
      server certificate, and the error type.
    - [Server], [ServerSpec], [ServerClients], [ServerHealth], [Reconcile]
      ([src/src/main.rs]): startup, accept, the connection task and reload over
      the state the tasks share; the tasks as a labelled step relation with its
      invariant; what one client gets; how health follows the reports; how the
      backend lists follow the configuration.
    - [Cluster] ([src/src/cluster/mod.rs]): the gossip actor over interfaces of
      foca and bincode.
    - [Main] ([src/src/main.rs]): the process: boot, cluster, metrics endpoint,
      file watcher and reload loop.
    - [Throughput] ([src/utilities/throughput.rs]): the sink and the flooding
      client.

    ** How state and operations correspond

    A struct is a record with the source's fields, an enum an inductive type, a
    method a function from the old state to the new one.  An [Arc] that tasks
    share is an index into a heap or store ([World] for backends, [LimStore] for
    buckets), so that sharing and aliasing are visible.  Atomics are fields of
    the shared state, [usize] arithmetic wraps at [2^64].  Clock readings are
    arguments, one per reading the code makes.  Metric calls are logged and
    interpreted by a registry.  Fallible code returns [result], a panic is a
    value of its own where it can occur.  Code of other crates (tokio's I/O,
    timers and [Notify], ipnet, prometheus, rustls, foca, bincode, notify,
    serde_yaml) is a class or record of operations with the laws its
    documentation states; each has a concrete instance on which the properties
    are exercised.  The number of worker threads is that of the class [Runtime].

    Tasks interleave.  The selection of a backend is interleaved at every atomic
    access, both in [BalancerConc] and in the server: a step
    [ServerSpec.sv_does] is one atomic access of a selecting task
    ([BalancerConc.task_step]), at most [worker_threads] of which are inside
    [next_backend] at once, or a stretch of another task as a whole (a decision of
    an acceptor, the limiters and the end of a connection, a report of a checker,
    a draw on a bucket, a reload).  The drain flags, new backends and new list of
    a reload are one step there, and separate ones in [BalancerConc.sys_step].
    [Main.w_step] adds the watcher's thread and the loop, which reconciles one
    rule at a time.
    [solo_refines_next_backend] and [connects] show that a selection nobody
    interferes with is [next_backend], and [process_reaches] that the process is
    a run of the server.

    ** What the theorems show

    - Load balancing: [next_backend] picks the first eligible backend in round
      robin order and is fair; counters are exact under any sequence of operations
      and under any interleaving of atomic accesses.  The connection limit is a
      soft one: a running server exceeds it, by less than the number of worker
      threads ([concurrent_limit_exceeded] shows that it does).  A reload keeps
      counters and health of the addresses it keeps.
    - Rate limiting: a bucket grants at most its burst plus its rate times the
      elapsed time, with the rounding error explicit, and grants what is due; the
      bound holds for the connections one client gets from a running server.  For
      the bytes its connections move in one direction it holds up to what is read
      or written beyond a permit asked for a smaller buffer ([overdrawn]), which
      is nothing when a stream polls with the buffer it waited with.  Client-side
      buckets are shared exactly by the connections of one client; so are the
      backend-side ones, against their documentation.
    - Rate-limited streams: transparent to the stream they wrap, free of panics,
      terminating, and resumed after a computed sleep.
    - Admission: the access list denotes a documented policy, and a running server
      serves only whom it admits.
    - Proxying: the header decodes back to the addresses, the operations follow a
      fixed plan, gauges and counters are settled however a connection ends, and
      an unverified backend gets no data.
    - Health: a probe passes exactly when the answer is in time and positive; a
      round decides eligibility, probes are at least the interval apart, and in a
      running server a listed backend is as its last report says.  There is no
      upper bound on the time between probes: timers may be late.
    - The process: it boots exactly when its inputs allow; the state of the server
      is well-typed; no change of the file made while it is watched is lost, and
      at rest the running backends are those of the file.  A change made between
      the read at startup and the watch goes unnoticed until the next one.
    - Cluster: updates round-trip, the channel is bounded, and the updates logged
      are those decoded from received broadcasts, unaltered and in order.
      Throughput: the sink's reports are exact.
    - Departures of the code from its documentation or intention are theorems
      too: the malformed header for mixed families, reloads without validation,
      the gauge that drifts, the overshoot of the limit, the permit that
      underpays, the connection that misses the start signal, and others.

    ** Bounds and fuel

    [acquire] has fuel two: [acquire_two_turns] shows that more changes nothing.
    A poll consumes a list of clock readings; [polls_terminate] shows that four
    are enough.  [until_n_ready] takes one reading per turn;
    [until_n_ready_one_sleep] shows that two turns are enough for a task alone on
    its bucket.  [fmt_digits] has sixteen rounds, enough for 16-bit numbers
    ([fmt_digits_text]).  Time differences are below [2^53] seconds, for which
    the conversion of a [Duration] to [f64] is exact to the digit the theorems
    use.

    ** Not modelled

    - Parsing of YAML and of the command line, logging, HTTP and TLS protocols,
      and the rendering of metrics: code of other crates, which the definitions
      take as parameters.  Socket calls are parameters too, one outcome per call
      and acceptor.
    - [copy_bidirectional]: its outcome is a parameter of a connection, its polls
      are any sequence of polls in [BandwidthSpec].  Wakers: a poll says that it
      waits, not who wakes it.
    - The replacement of the watched file by another of the same name, where what
      the watcher sees depends on the platform; a change is a modification the
      watcher reports.
    - Weak memory: atomic accesses interleave, as if sequentially consistent.
    - The averages the flooding client prints, and the Python and shell scripts of
      [src/utilities/], which only exercise the program. *)

From stdpp Require Export base tactics option list gmap strings.
From Stdlib Require Export ZArith Lia.

(** ** Results: the [Result<T, E>] of the sources *)

Inductive result (A E : Type) : Type :=
| Ok (a : A)
| Err (e : E).
Arguments Ok {A E} a.
Arguments Err {A E} e.

Definition is_ok {A E} (r : result A E) : bool :=
  match r with Ok _ => true | Err _ => false end.

Definition result_bind {A B E} (r : result A E) (k : A → result B E) : result B E :=
  match r with Ok a => k a | Err e => Err e end.

Declare Scope lb_scope.
Delimit Scope lb_scope with lb.
(** [let? x := e in k] is [let x = e?; k]. *)
Notation "'let?' x ':=' e 'in' k" :=
  (result_bind e (λ x, k)) (at level 10, x pattern, k at level 200) : lb_scope.
Open Scope lb_scope.

(** ** Machine integers

    Integers are kept as [Z]; a value of an unsigned Rust type of [w] bits
    satisfies [is_uN w].  Arithmetic that can leave the range is written with
    its wrap-around ([usize_wrap]), as a release build executes it. *)

Definition is_uN (w x : Z) : Prop := (0 <= x < 2 ^ w)%Z.
Abbreviation is_u8 := (is_uN 8).
Abbreviation is_u16 := (is_uN 16).
Abbreviation is_u32 := (is_uN 32).
Abbreviation is_u64 := (is_uN 64).
Abbreviation is_usize := (is_uN 64).

Definition USIZE_MODULUS : Z := 2 ^ 64.
Definition usize_wrap (x : Z) : Z := (x mod USIZE_MODULUS)%Z.

Lemma USIZE_MODULUS_pos : (0 < USIZE_MODULUS)%Z.
Proof. reflexivity. Qed.

Lemma usize_wrap_range x : is_usize (usize_wrap x).
Proof. apply Z.mod_pos_bound. reflexivity. Qed.

Lemma usize_wrap_small x : is_usize x → usize_wrap x = x.
Proof. apply Z.mod_small. Qed.

Create HintDb lb.
#[export] Hint Resolve usize_wrap_range USIZE_MODULUS_pos : lb.

(** ** Tactics *)

(** Split a hypothesis on the result of the scrutinee of a [match]. *)
Ltac case_scrut E :=
  match goal with
  | |- context [match ?x with _ => _ end] => destruct x eqn:E
  end.

(** Turn boolean comparisons of the context into propositions. *)
Ltac bool_to_prop :=
  repeat match goal with
  | H : (_ <=? _)%Z = true |- _ => apply Z.leb_le in H
  | H : (_ <=? _)%Z = false |- _ => apply Z.leb_gt in H
  | H : (_ <? _)%Z = true |- _ => apply Z.ltb_lt in H
  | H : (_ <? _)%Z = false |- _ => apply Z.ltb_ge in H
  | H : (_ =? _)%Z = true |- _ => apply Z.eqb_eq in H
  | H : (_ =? _)%Z = false |- _ => apply Z.eqb_neq in H
  | H : (_ && _)%bool = true |- _ => apply andb_prop in H as [??]
  | H : negb _ = true |- _ => apply negb_true_iff in H
  | H : negb _ = false |- _ => apply negb_false_iff in H
  | H : bool_decide _ = true |- _ => apply bool_decide_eq_true in H
  | H : bool_decide _ = false |- _ => apply bool_decide_eq_false in H
  end.

(** ** Lists *)

(** [Iterator::find] keeps the first element that satisfies the predicate. *)
Fixpoint find_first {A} (f : A → bool) (l : list A) : option A :=
  match l with
  | [] => None
  | x :: l => if f x then Some x else find_first f l
  end.

Lemma find_first_Some {A} (f : A → bool) l x :
  find_first f l = Some x →
  ∃ l1 l2, l = l1 ++ x :: l2 ∧ f x = true ∧ Forall (λ y, f y = false) l1.
Proof.
  induction l as [|y l IH]; simpl; [done|].
  destruct (f y) eqn:Hy; intros H; simplify_eq.
  - by exists [], l.
  - destruct (IH H) as (l1 & l2 & -> & Hx & Hl1).
    exists (y :: l1), l2. auto.
Qed.

Lemma find_first_None {A} (f : A → bool) l :
  find_first f l = None ↔ Forall (λ y, f y = false) l.
Proof.
  induction l as [|y l IH]; simpl; [done|].
  rewrite Forall_cons, <- IH. clear IH. destruct (f y); naive_solver.
Qed.

Lemma find_first_Some_elem {A} (f : A → bool) l x :
  find_first f l = Some x → x ∈ l ∧ f x = true.
Proof.
  intros (l1 & l2 & -> & Hx & _)%find_first_Some. set_solver.
Qed.

Lemma find_first_ext {A} (f g : A → bool) l :
  (∀ x, x ∈ l → f x = g x) → find_first f l = find_first g l.
Proof.
  induction l as [|y l IH]; intros Hfg; simpl; [done|].
  rewrite (Hfg y) by set_solver. rewrite IH; [done|set_solver].
Qed.

Lemma find_first_fmap {A B} (h : A → B) (f : B → bool) l :
  find_first f (h <$> l) = h <$> find_first (λ x, f (h x)) l.
Proof. induction l as [|x l IH]; simpl; [done|]. by case_match. Qed.
