(* ===== verification/Config.v ===== *)
(** * Configuration: [src/config/mod.rs]

    The configuration records the YAML file is deserialised into and
    [Config::validate], with the error it reports. *)

From S2P Require Import Prelude.
From stdpp Require Import pretty.

(** [ConfigError]; the string is the argument of the variant. *)
Inductive ConfigError :=
| MissingField (msg : string)
| InvalidValue (msg : string).

Record LogConfig := { log_level : string }.

Record ClusterConfig := {
  cluster_enabled : bool;
  bind_addr : string;
  peers : list string;
}.

Inductive BackendConfig :=
| Simple (a : string)
| Detailed (addr : string) (drain : bool).

(** The drain flag of a detailed entry that does not give one. *)
Definition default_drain : bool := false.
Definition detailed (addr : string) (drain : option bool) : BackendConfig :=
  Detailed addr (default default_drain drain).

(** The [match] on a [BackendConfig] that [LoadBalancer::new] and
    [LoadBalancer::update_backends] both make. *)
Definition backend_addr_drain (c : BackendConfig) : string * bool :=
  match c with
  | Simple a => (a, false)
  | Detailed addr drain => (addr, drain)
  end.

Record HealthCheckConfig := {
  hc_enabled : bool;
  interval_ms : Z;
  timeout_ms : Z;
  hc_protocol : string;
  hc_path : option string;
}.

Record TlsConfig := {
  tls_enabled : bool;
  tls_cert : string;
  tls_key : string;
}.

Record RateLimitConfig := {
  rl_enabled : bool;
  requests_per_second : Z;
  burst : Z;
}.

Record ClientBandwidthConfig := {
  client_upload_per_sec : Z;
  client_download_per_sec : Z;
}.

Record BackendBandwidthConfig := {
  backend_upload_per_sec : Z;
  backend_download_per_sec : Z;
}.

Record BandwidthLimitConfig := {
  bw_enabled : bool;
  bw_client : option ClientBandwidthConfig;
  bw_backend : option BackendBandwidthConfig;
}.

Record BackendTlsConfig := {
  backend_tls_enabled : bool;
  ignore_verify : bool;
}.

Record LBRule := {
  r_name : string;
  r_listen : string;
  r_backends : list BackendConfig;
  r_protocol : option string;
  r_proxy_protocol : bool;
  r_tls : option TlsConfig;
  r_backend_tls : option BackendTlsConfig;
  r_rate_limit : option RateLimitConfig;
  r_bandwidth_limit : option BandwidthLimitConfig;
  r_backend_connection_limit : option Z;
  r_health_check : option HealthCheckConfig;
  r_allow_list : option (list string);
  r_deny_list : option (list string);
}.

Record Config := {
  c_rules : list LBRule;
  c_cluster : option ClusterConfig;
  c_log : option LogConfig;
}.

(** The [#[error(...)]] text of each variant. *)
Definition config_error_display (e : ConfigError) : string :=
  match e with
  | MissingField m => "Missing configuration: " +:+ m
  | InvalidValue m => "Invalid configuration: " +:+ m
  end.

(** The two checks [validate] makes of the rule of index [i]. *)
Definition validate_rule (i : nat) (rule : LBRule) : result unit ConfigError :=
  if bool_decide (r_backends rule = []) then
    Err (InvalidValue ("Rule '" +:+ r_name rule +:+ "' (index " +:+ pretty i
                       +:+ ") has no backends"))
  else if bool_decide (r_listen rule = "") then
    Err (InvalidValue ("Rule '" +:+ r_name rule +:+ "' has no listen address"))
  else Ok tt.

(** The loop over [self.rules.iter().enumerate()]. *)
Fixpoint validate_rules (i : nat) (rs : list LBRule) : result unit ConfigError :=
  match rs with
  | [] => Ok tt
  | rule :: rs => let? _ := validate_rule i rule in validate_rules (S i) rs
  end.

Definition validate (c : Config) : result unit ConfigError :=
  if bool_decide (c_rules c = []) then Err (MissingField "rules are empty")
  else validate_rules 0 (c_rules c).

(** ** What [validate] guarantees *)

Definition rule_ok (rule : LBRule) : Prop :=
  r_backends rule ≠ [] ∧ r_listen rule ≠ "".

Lemma validate_rule_ok i rule : validate_rule i rule = Ok tt ↔ rule_ok rule.
Proof. unfold validate_rule, rule_ok. repeat case_bool_decide; naive_solver. Qed.

Lemma validate_rules_ok i rs : validate_rules i rs = Ok tt ↔ Forall rule_ok rs.
Proof.
  revert i. induction rs as [|rule rs IH]; intros i; simpl; [done|].
  rewrite Forall_cons, <- (IH (S i)), <- (validate_rule_ok i).
  destruct (validate_rule i rule) as [[]|]; naive_solver.
Qed.

Lemma validate_rules_err i rs e :
  validate_rules i rs = Err e →
  ∃ k rule, rs !! k = Some rule ∧ ¬ rule_ok rule ∧
    Forall rule_ok (take k rs) ∧ validate_rule (i + k) rule = Err e.
Proof.
  revert i. induction rs as [|rule rs IH]; intros i; simpl; [done|].
  destruct (validate_rule i rule) as [[]|e'] eqn:Hr; simpl; intros H.
  - destruct (IH _ H) as (k & rule' & Hk & Hbad & Hpre & He).
    exists (S k), rule'. rewrite Nat.add_succ_r.
    apply validate_rule_ok in Hr. simpl. auto.
  - simplify_eq. exists 0%nat, rule. rewrite Nat.add_0_r, <- (validate_rule_ok i).
    rewrite Hr. split_and!; [done|done|constructor|done].
Qed.

(** C35: [Config::validate] accepts exactly the configurations with at least
    one rule in which every rule has a backend and a listen address; otherwise
    it reports the empty rule list, or the first offending rule with its index
    in the message, and never a later one. *)
Theorem validate_correct (c : Config) :
  match validate c with
  | Ok _ => c_rules c ≠ [] ∧ Forall rule_ok (c_rules c)
  | Err (MissingField m) => m = "rules are empty" ∧ c_rules c = []
  | Err (InvalidValue m) =>
      ∃ k rule, c_rules c !! k = Some rule ∧ Forall rule_ok (take k (c_rules c)) ∧
        ((r_backends rule = [] ∧
          m = "Rule '" +:+ r_name rule +:+ "' (index " +:+ pretty k +:+ ") has no backends") ∨
         (r_backends rule ≠ [] ∧ r_listen rule = "" ∧
          m = "Rule '" +:+ r_name rule +:+ "' has no listen address"))
  end.
Proof.
  unfold validate. case_bool_decide as Hne; [done|].
  destruct (validate_rules 0 (c_rules c)) as [[]|e] eqn:Hv.
  - split; [done|]. by apply validate_rules_ok in Hv.
  - apply validate_rules_err in Hv as (k & rule & Hk & _ & Hpre & He).
    unfold validate_rule in He. simpl in He.
    repeat case_bool_decide; simplify_eq/=; exists k, rule;
      (split; [done|]; split; [done|]; auto).
Qed.
