(* ===== verification/Float64.v ===== *)
(** * IEEE 754 binary64 and [std::time] as the limiter uses them

    [SimpleLimiter] keeps its tokens in an [f64] and measures time with
    [Instant] and [Duration].  A finite [f64] is a multiple of the least
    subnormal [2^-1074], so it is represented exactly by an integer: the number
    of those units.  Every operation is the exact operation followed by a
    rounding to 53 significant bits, to nearest with ties to even, as IEEE 754
    prescribes.  The two zeros are identified (no operation of the limiter
    tells them apart); the limiter's values never reach the overflow threshold
    [2^1024], which [Limiter] proves of each of them, so infinities are not
    represented. *)

From S2P Require Import Prelude.
Open Scope Z_scope.

(** ** Rounding *)

(** [n / d] rounded to the nearest integer, ties to even ([d > 0]). *)
Definition rdiv (n d : Z) : Z :=
  let q := n / d in
  let r := n mod d in
  if 2 * r <? d then q
  else if d <? 2 * r then q + 1
  else if Z.even q then q else q + 1.

(** The exponent of the last place kept when [n / d] is rounded to 53 bits. *)
Definition place (n d : Z) : Z := Z.max 0 (Z.log2 (Z.abs n / d) - 52).

(** [n / d], a rational number of units, rounded to a 53-bit significand. *)
Definition fround (n d : Z) : Z :=
  let e := place n d in rdiv n (d * 2 ^ e) * 2 ^ e.

(** One, in units of [2^-1074]. *)
Definition F64_ONE : Z := 2 ^ 1074.

Definition f64_of_int (n : Z) : Z := fround (n * F64_ONE) 1.
Definition fadd (x y : Z) : Z := fround (x + y) 1.
Definition fsub (x y : Z) : Z := fround (x - y) 1.
Definition fmul (x y : Z) : Z := fround (x * y) F64_ONE.
(** Division by a positive number. *)
Definition fdiv (x y : Z) : Z := fround (x * F64_ONE) y.
Definition fmin (x y : Z) : Z := Z.min x y.

#[global] Arguments F64_ONE : simpl never.
#[global] Arguments f64_of_int : simpl never.
#[global] Arguments fadd : simpl never.
#[global] Arguments fsub : simpl never.
#[global] Arguments fmul : simpl never.
#[global] Arguments fdiv : simpl never.

(** ** [std::time] *)

(** A [Duration] is a number of nanoseconds, an [Instant] a reading of the
    monotonic clock in nanoseconds. *)
Definition NANOS_PER_SEC : Z := 1000000000.

(** [Instant::duration_since], which saturates at zero. *)
Definition duration_since (now earlier : Z) : Z := Z.max 0 (now - earlier).

(** [Duration::as_secs_f64]: whole seconds plus nanoseconds over [1e9]. *)
Definition as_secs_f64 (d : Z) : Z :=
  fadd (f64_of_int (d / NANOS_PER_SEC))
       (fdiv (f64_of_int (d mod NANOS_PER_SEC)) (f64_of_int NANOS_PER_SEC)).

(** [Duration::from_secs_f64] of a non-negative number of seconds: the nearest
    nanosecond, ties to even; [None] is its panic, on a negative argument or one
    that overflows the 64-bit count of seconds. *)
Definition from_secs_f64 (x : Z) : option Z :=
  if x <? 0 then None
  else
    let d := rdiv (x * NANOS_PER_SEC) F64_ONE in
    if d <? 2 ^ 64 * NANOS_PER_SEC then Some d else None.

(** ** Rounding to the nearest integer *)

Lemma rdiv_bounds n d : 0 < d → 2 * n - d <= 2 * (d * rdiv n d) <= 2 * n + d.
Proof.
  intros Hd. unfold rdiv.
  pose proof (Z.div_mod n d ltac:(lia)) as Hn.
  pose proof (Z.mod_pos_bound n d Hd) as Hr.
  set (q := n / d) in *. set (r := n mod d) in *.
  destruct (Z.ltb_spec (2 * r) d); [nia|].
  destruct (Z.ltb_spec d (2 * r)); [nia|].
  destruct (Z.even q); nia.
Qed.

Lemma rdiv_ge n d k : 0 < d → k * d <= n → k <= rdiv n d.
Proof.
  intros Hd Hk. unfold rdiv.
  assert (k <= n / d) by (apply Z.div_le_lower_bound; lia).
  repeat case_match; lia.
Qed.

Lemma rdiv_le n d k : 0 < d → n <= k * d → rdiv n d <= k.
Proof. intros Hd Hk. pose proof (rdiv_bounds n d Hd). nia. Qed.

Lemma rdiv_exact k d : 0 < d → rdiv (k * d) d = k.
Proof.
  intros Hd. pose proof (rdiv_le (k * d) d k Hd). pose proof (rdiv_ge (k * d) d k Hd). lia.
Qed.

(** ** Representable numbers

    [is_f64 x]: [x] is a non-negative number with a significand of at most 53
    bits.  The token counts and durations of the limiter are never negative. *)

Definition is_f64 (x : Z) : Prop := ∃ m e, 0 <= e ∧ 0 <= m < 2 ^ 53 ∧ x = m * 2 ^ e.

Lemma is_f64_nonneg x : is_f64 x → 0 <= x.
Proof. intros (m & e & He & Hm & ->). nia. Qed.

Lemma is_f64_scaled m e : 0 <= e → 0 <= m <= 2 ^ 53 → is_f64 (m * 2 ^ e).
Proof.
  intros He Hm. destruct (decide (m = 2 ^ 53)) as [->|].
  - exists 1, (53 + e). rewrite Z.pow_add_r by lia. split_and!; [lia|lia|lia|ring].
  - exists m, e. split_and!; lia.
Qed.

Lemma is_f64_min x y : is_f64 x → is_f64 y → is_f64 (fmin x y).
Proof. unfold fmin. intros ??. by destruct (Z.min_spec x y) as [[_ ->]|[_ ->]]. Qed.

Lemma place_nonneg n d : 0 <= place n d.
Proof. unfold place. lia. Qed.

(** When some place is dropped, the quotient has more than 53 bits. *)
Lemma place_pos n d :
  0 < d → 0 <= n → 0 < place n d → 2 ^ 52 * 2 ^ place n d * d <= n.
Proof.
  intros Hd Hn Hp. unfold place in *. rewrite Z.abs_eq in * by done.
  set (q := n / d) in *.
  rewrite Z.max_r in * by lia.
  assert (0 < q) by (destruct (Z.le_gt_cases q 0) as [Hq|]; [|done];
    rewrite Z.log2_nonpos in Hp by done; lia).
  rewrite <- Z.pow_add_r by lia. replace (52 + (Z.log2 q - 52)) with (Z.log2 q) by lia.
  pose proof (Z.log2_spec q ltac:(done)) as [Hl _].
  pose proof (Z.mul_div_le n d Hd). fold q in H0. nia.
Qed.

Lemma place_upper n d : 0 < d → 0 <= n → n < 2 ^ 53 * 2 ^ place n d * d.
Proof.
  intros Hd Hn. pose proof (place_nonneg n d) as Hp.
  rewrite <- Z.pow_add_r by lia. unfold place in *. rewrite Z.abs_eq in * by done.
  set (q := n / d) in *.
  assert (Hq : q < 2 ^ (53 + Z.max 0 (Z.log2 q - 52))).
  { destruct (Z.le_gt_cases q 0).
    - assert (0 < 2 ^ (53 + Z.max 0 (Z.log2 q - 52))) by (apply Z.pow_pos_nonneg; lia). lia.
    - destruct (Z.log2_spec q ltac:(done)) as [_ Hu].
      eapply Z.lt_le_trans; [exact Hu|]. apply Z.pow_le_mono_r; lia. }
  pose proof (Z.mul_succ_div_gt n d Hd). fold q in H. nia.
Qed.

Lemma fround_err n d :
  0 < d → 2 * n - d * 2 ^ place n d <= 2 * (d * fround n d) <= 2 * n + d * 2 ^ place n d.
Proof.
  intros Hd. unfold fround. pose proof (place_nonneg n d) as Hp.
  assert (0 < 2 ^ place n d) by (apply Z.pow_pos_nonneg; lia).
  pose proof (rdiv_bounds n (d * 2 ^ place n d) ltac:(nia)). nia.
Qed.

Lemma fround_ge n d x : 0 < d → 0 <= n → is_f64 x → x * d <= n → x <= fround n d.
Proof.
  intros Hd Hn (m & k & Hk & Hm & ->) Hx. unfold fround.
  pose proof (place_nonneg n d) as Hp. set (e := place n d) in *.
  assert (H2e : 0 < 2 ^ e) by (apply Z.pow_pos_nonneg; lia).
  destruct (Z.le_gt_cases e k) as [Hek|Hek].
  - replace k with ((k - e) + e) in * by lia. rewrite Z.pow_add_r in * by lia.
    assert (m * 2 ^ (k - e) <= rdiv n (d * 2 ^ e)) by (apply rdiv_ge; nia). nia.
  - pose proof (place_pos n d Hd Hn) as Hpp. fold e in Hpp.
    assert (2 ^ 52 <= rdiv n (d * 2 ^ e)) by (apply rdiv_ge; nia).
    assert (2 ^ (k + 1) <= 2 ^ e) by (apply Z.pow_le_mono_r; lia).
    rewrite Z.pow_add_r in * by lia.
    assert (0 < 2 ^ k) by (apply Z.pow_pos_nonneg; lia). nia.
Qed.

Lemma fround_le n d x : 0 < d → 0 <= n → is_f64 x → n <= x * d → fround n d <= x.
Proof.
  intros Hd Hn (m & k & Hk & Hm & ->) Hx. unfold fround.
  pose proof (place_nonneg n d) as Hp. set (e := place n d) in *.
  assert (H2e : 0 < 2 ^ e) by (apply Z.pow_pos_nonneg; lia).
  destruct (Z.le_gt_cases e k) as [Hek|Hek].
  - replace k with ((k - e) + e) in * by lia. rewrite Z.pow_add_r in * by lia.
    assert (rdiv n (d * 2 ^ e) <= m * 2 ^ (k - e)) by (apply rdiv_le; nia). nia.
  - pose proof (place_pos n d Hd Hn ltac:(fold e; lia)) as Hpp. fold e in Hpp.
    assert (2 ^ (k + 1) <= 2 ^ e) by (apply Z.pow_le_mono_r; lia).
    rewrite Z.pow_add_r in * by lia.
    assert (0 < 2 ^ k) by (apply Z.pow_pos_nonneg; lia).
    exfalso.
    assert (2 ^ 52 * 2 ^ e <= m * 2 ^ k) by nia. nia.
Qed.

Lemma fround_f64 n d : 0 < d → 0 <= n → is_f64 (fround n d).
Proof.
  intros Hd Hn. unfold fround. pose proof (place_nonneg n d) as Hp.
  assert (H2e : 0 < 2 ^ place n d) by (apply Z.pow_pos_nonneg; lia).
  apply is_f64_scaled; [done|]. split.
  - apply rdiv_ge; nia.
  - apply rdiv_le; [nia|]. pose proof (place_upper n d Hd Hn). nia.
Qed.

Lemma fround_exact d x : 0 < d → is_f64 x → fround (x * d) d = x.
Proof.
  intros Hd Hx. pose proof (is_f64_nonneg x Hx).
  pose proof (fround_ge (x * d) d x Hd ltac:(nia) Hx ltac:(lia)).
  pose proof (fround_le (x * d) d x Hd ltac:(nia) Hx ltac:(lia)). lia.
Qed.

Lemma fround_nonneg n d : 0 < d → 0 <= n → 0 <= fround n d.
Proof. intros ??. by apply is_f64_nonneg, fround_f64. Qed.

(** Relative error of a rounding outside the subnormal range: at most
    [2^-53]. *)
Lemma fround_rel n d :
  0 < d → n = 0 ∨ 2 ^ 52 * d <= n →
  (2 ^ 53 - 1) * n <= 2 ^ 53 * (d * fround n d) <= (2 ^ 53 + 1) * n.
Proof.
  intros Hd [->|Hn].
  - assert (is_f64 0) as H0 by (exists 0, 0; lia).
    pose proof (fround_exact d 0 Hd H0) as Hz. rewrite Z.mul_0_l in Hz. rewrite Hz. lia.
  - pose proof (fround_err n d Hd) as He.
    assert (2 ^ 52 * 2 ^ place n d * d <= n).
    { destruct (Z.eq_dec (place n d) 0) as [->|]; [lia|].
      apply place_pos; [lia|lia|]. pose proof (place_nonneg n d). lia. }
    nia.
Qed.

(** Error of a rounding at any magnitude: the relative part and a part of the
    order of the least subnormal. *)
Lemma fround_abs n d :
  0 < d → 0 <= n →
  2 ^ 53 * n - (n + 2 ^ 52 * d) <= 2 ^ 53 * (d * fround n d) <= 2 ^ 53 * n + (n + 2 ^ 52 * d).
Proof.
  intros Hd Hn. destruct (Z.le_gt_cases (2 ^ 52 * d) n) as [Hc|Hc].
  - pose proof (fround_rel n d Hd (or_intror Hc)). lia.
  - pose proof (fround_err n d Hd) as He.
    destruct (Z.eq_dec (place n d) 0) as [H0|H0].
    + rewrite H0 in He. lia.
    + pose proof (place_nonneg n d). pose proof (place_pos n d Hd Hn ltac:(lia)).
      assert (0 < 2 ^ place n d) by (apply Z.pow_pos_nonneg; lia). nia.
Qed.

(** Rounding an integer number of units is relatively accurate at any
    magnitude, since small integers are representable. *)
Lemma fround_unit_rel n :
  0 <= n → (2 ^ 53 - 1) * n <= 2 ^ 53 * fround n 1 <= (2 ^ 53 + 1) * n.
Proof.
  intros Hn. destruct (Z.le_gt_cases (2 ^ 52) n) as [Hc|Hc].
  - pose proof (fround_rel n 1 ltac:(lia) ltac:(lia)). lia.
  - assert (is_f64 n) as Hf by (exists n, 0; lia).
    pose proof (fround_exact 1 n ltac:(lia) Hf) as He. rewrite Z.mul_1_r in He. lia.
Qed.

(** ** The operations *)

Lemma F64_ONE_pos : 0 < F64_ONE.
Proof. apply Z.pow_pos_nonneg; lia. Qed.

Lemma F64_ONE_split : F64_ONE = 2 ^ 100 * 2 ^ 974.
Proof. unfold F64_ONE. by rewrite <- Z.pow_add_r. Qed.

(** Scaled integers below [2^53] are representable. *)
Lemma int_f64 n : 0 <= n <= 2 ^ 53 → is_f64 (n * F64_ONE).
Proof. intros Hn. unfold F64_ONE. apply is_f64_scaled; lia. Qed.

Lemma f64_of_int_exact n : 0 <= n <= 2 ^ 53 → f64_of_int n = n * F64_ONE.
Proof.
  intros Hn. unfold f64_of_int. rewrite <- (Z.mul_1_r (n * F64_ONE)) at 1.
  apply fround_exact; [lia|]. by apply int_f64.
Qed.

Lemma fadd_f64 x y : 0 <= x + y → is_f64 (fadd x y).
Proof. intros. apply fround_f64; lia. Qed.

Lemma fadd_ge x y z : is_f64 z → z <= x + y → z <= fadd x y.
Proof. intros Hz ?. pose proof (is_f64_nonneg z Hz). apply fround_ge; [lia|lia|done|lia]. Qed.

Lemma fadd_le x y z : 0 <= x + y → is_f64 z → x + y <= z → fadd x y <= z.
Proof. intros. apply fround_le; [lia|lia|done|lia]. Qed.

Lemma fadd_rel x y :
  2 ^ 52 <= x + y →
  (2 ^ 53 - 1) * (x + y) <= 2 ^ 53 * fadd x y <= (2 ^ 53 + 1) * (x + y).
Proof. intros. pose proof (fround_rel (x + y) 1 ltac:(lia) ltac:(lia)). unfold fadd. lia. Qed.

(** Subtracting an integer from a token count that covers it is exact: the
    difference has no bit below the last place of the minuend. *)
Lemma fsub_int_exact x n :
  is_f64 x → 0 <= n → n * F64_ONE <= x → x <= 2 ^ 53 * F64_ONE →
  fsub x (n * F64_ONE) = x - n * F64_ONE ∧ is_f64 (x - n * F64_ONE).
Proof.
  intros (m & e & He & Hm & ->) Hn Hle Hx.
  assert (is_f64 (m * 2 ^ e - n * F64_ONE)) as Hf.
  { unfold F64_ONE in *. destruct (Z.le_gt_cases e 1074) as [Hc|Hc].
    - replace 1074 with ((1074 - e) + e) in * by lia. rewrite Z.pow_add_r in * by lia.
      assert (0 < 2 ^ e) by (apply Z.pow_pos_nonneg; lia).
      exists (m - n * 2 ^ (1074 - e)), e.
      assert (0 <= 2 ^ (1074 - e)) by (apply Z.pow_nonneg; lia).
      split_and!; [lia|nia|nia|nia].
    - replace e with ((e - 1074) + 1074) in * by lia. rewrite Z.pow_add_r in * by lia.
      assert (0 < 2 ^ 1074) by (apply Z.pow_pos_nonneg; lia).
      replace (m * (2 ^ (e - 1074) * 2 ^ 1074) - n * 2 ^ 1074)
        with ((m * 2 ^ (e - 1074) - n) * 2 ^ 1074) by ring.
      apply is_f64_scaled; [lia|]. generalize dependent (2 ^ 1074). nia. }
  split; [|done]. unfold fsub.
  rewrite <- (Z.mul_1_r (_ - _)) at 1. apply fround_exact; [lia|done].
Qed.

Lemma F64_ONE_ge : 2 ^ 200 <= F64_ONE.
Proof. unfold F64_ONE. apply Z.pow_le_mono_r; lia. Qed.

(** Dividing an integer by [1e9] loses at most a relative [2^-53]. *)
Lemma fdiv_nanos_bounds r :
  0 <= r < NANOS_PER_SEC →
  let f := fdiv (f64_of_int r) (f64_of_int NANOS_PER_SEC) in
  is_f64 f ∧
  (2 ^ 53 - 1) * (r * F64_ONE) <= 2 ^ 53 * (NANOS_PER_SEC * f) <= (2 ^ 53 + 1) * (r * F64_ONE).
Proof.
  intros Hr. unfold NANOS_PER_SEC in *. cbn zeta.
  rewrite !f64_of_int_exact by lia. unfold fdiv.
  pose proof F64_ONE_ge as H1. set (u := F64_ONE) in *.
  split; [apply fround_f64; nia|].
  pose proof (fround_rel (r * u * u) (1000000000 * u) ltac:(lia)
    ltac:(destruct (Z.eq_dec r 0) as [->|]; [left; lia|right; nia])) as [Hlo Hhi].
  set (f := fround _ _) in *. split.
  - apply (Z.mul_le_mono_pos_r _ _ u); [lia|].
    replace (2 ^ 53 * (1000000000 * f) * u) with (2 ^ 53 * (1000000000 * u * f)) by ring. lia.
  - apply (Z.mul_le_mono_pos_r _ _ u); [lia|].
    replace (2 ^ 53 * (1000000000 * f) * u) with (2 ^ 53 * (1000000000 * u * f)) by ring. lia.
Qed.

Lemma as_secs_f64_f64 d : 0 <= d <= 2 ^ 53 * NANOS_PER_SEC → is_f64 (as_secs_f64 d).
Proof.
  intros Hd. unfold as_secs_f64.
  assert (0 <= d / NANOS_PER_SEC <= 2 ^ 53) as Hs.
  { unfold NANOS_PER_SEC in *. split; [apply Z.div_pos; lia|]. apply Z.div_le_upper_bound; lia. }
  destruct (fdiv_nanos_bounds (d mod NANOS_PER_SEC)) as [Hf _].
  { apply Z.mod_pos_bound. done. }
  apply is_f64_nonneg in Hf. rewrite (f64_of_int_exact (d / _)) by done.
  apply fadd_f64. pose proof F64_ONE_pos. nia.
Qed.

(** [as_secs_f64] is within two roundings of the exact number of seconds. *)
Lemma as_secs_f64_bounds d :
  0 <= d <= 2 ^ 53 * NANOS_PER_SEC →
  (2 ^ 53 - 1) ^ 2 * (d * F64_ONE) <= 2 ^ 106 * (NANOS_PER_SEC * as_secs_f64 d)
    <= (2 ^ 53 + 1) ^ 2 * (d * F64_ONE).
Proof.
  intros Hd. unfold as_secs_f64.
  assert (Hs : 0 <= d / NANOS_PER_SEC <= 2 ^ 53).
  { unfold NANOS_PER_SEC in *. split; [apply Z.div_pos; lia|]. apply Z.div_le_upper_bound; lia. }
  pose proof (Z.div_mod d NANOS_PER_SEC ltac:(done)) as Hdm.
  assert (Hr : 0 <= d mod NANOS_PER_SEC < NANOS_PER_SEC) by (apply Z.mod_pos_bound; done).
  destruct (fdiv_nanos_bounds _ Hr) as [Hf Hfb].
  apply is_f64_nonneg in Hf. rewrite (f64_of_int_exact (d / _)) by done.
  set (s := d / NANOS_PER_SEC) in *. set (r := d mod NANOS_PER_SEC) in *.
  set (f := fdiv _ _) in *. clearbody f s r.
  pose proof F64_ONE_ge as H1. set (u := F64_ONE) in *. clearbody u.
  unfold NANOS_PER_SEC in *. subst d.
  destruct (Z.eq_dec r 0) as [->|Hr0]; [destruct (Z.eq_dec s 0) as [->|Hs0]|].
  - assert (f = 0) as -> by lia. rewrite !Z.mul_0_l. change (fadd 0 0) with 0. lia.
  - pose proof (fadd_rel (s * u) f ltac:(nia)). nia.
  - pose proof (fadd_rel (s * u) f ltac:(nia)). nia.
Qed.

(** Multiplying by an integer rate costs one more rounding. *)
Lemma fmul_int_bounds x rate :
  is_f64 x → x = 0 ∨ 2 ^ 52 <= x → 0 <= rate <= 2 ^ 53 →
  let y := fmul x (f64_of_int rate) in
  is_f64 y ∧ (2 ^ 53 - 1) * (x * rate) <= 2 ^ 53 * y <= (2 ^ 53 + 1) * (x * rate).
Proof.
  intros Hx Hx0 Hr. cbn zeta. rewrite f64_of_int_exact by done. unfold fmul.
  pose proof (is_f64_nonneg x Hx). pose proof F64_ONE_pos as H1.
  set (u := F64_ONE) in *. clearbody u.
  split; [apply fround_f64; nia|].
  assert (x * (rate * u) = 0 ∨ 2 ^ 52 * u <= x * (rate * u)) as Hn.
  { rewrite Z.mul_assoc. destruct (Z.eq_dec (x * rate) 0) as [->|]; [by left|right].
    destruct Hx0 as [->|]; [lia|]. assert (1 <= rate) by nia.
    apply Z.mul_le_mono_nonneg_r; nia. }
  destruct (fround_rel (x * (rate * u)) u H1 Hn) as [Hlo Hhi].
  set (y := fround _ _) in *. split.
  - apply (Z.mul_le_mono_pos_r _ _ u); lia.
  - apply (Z.mul_le_mono_pos_r _ _ u); lia.
Qed.
