(* ===== verification/NetAddr.v ===== *)
(** * Network addresses of the standard library

    [IpAddr], [SocketAddr] and their textual forms, as far as the sources use
    them. *)

From Stdlib Require Import Ascii.
From S2P Require Import Prelude.
Open Scope Z_scope.

(** [IpAddr], by its octets. *)
Inductive IpAddr :=
| V4 (octets : list Z)
| V6 (octets : list Z).

#[export] Instance IpAddr_eq_dec : EqDecision IpAddr.
Proof. solve_decision. Defined.

#[export] Instance IpAddr_countable : Countable IpAddr.
Proof.
  refine (inj_countable' (λ ip, match ip with V4 o => inl o | V6 o => inr o end)
    (λ s, match s with inl o => V4 o | inr o => V6 o end) _).
  by intros [].
Defined.

Definition ip_wf (ip : IpAddr) : Prop :=
  match ip with
  | V4 o => length o = 4%nat ∧ Forall is_u8 o
  | V6 o => length o = 16%nat ∧ Forall is_u8 o
  end.

(** [SocketAddr]: an address and a port (the flow information and scope of an
    IPv6 socket address are not used by the sources). *)
Record SocketAddr := { ip : IpAddr; port : Z }.

Definition sockaddr_wf (a : SocketAddr) : Prop := ip_wf (ip a) ∧ is_u16 (port a).

(** ** Parsing: the parser of [core::net]

    A parser consumes a prefix of the text; on failure it leaves the text where
    it was, which the option type expresses. *)

Definition parser (A : Type) : Type := string → option (A * string).

Definition read_given_char (c : ascii) : parser unit := λ s,
  match s with
  | String c' s => if bool_decide (c' = c) then Some (tt, s) else None
  | EmptyString => None
  end.

(** [read_separator]: the separator, except before the first item. *)
Definition read_separator {A} (sep : ascii) (index : nat) (inner : parser A) : parser A := λ s,
  match index with
  | O => inner s
  | S _ => '(_, s) ← read_given_char sep s; inner s
  end.

(** [char::to_digit]. *)
Definition to_digit (radix : Z) (c : ascii) : option Z :=
  let n := Z.of_N (N_of_ascii c) in
  let d := if (48 <=? n) && (n <=? 57) then Some (n - 48)
           else if (97 <=? n) && (n <=? 122) then Some (n - 87)
           else if (65 <=? n) && (n <=? 90) then Some (n - 55)
           else None in
  match d with
  | Some d => if d <? radix then Some d else None
  | None => None
  end.

(** The digit loop of [read_number]: [bound] is one more than the largest value
    of the target type. *)
Fixpoint read_digits (radix bound : Z) (max_digits : nat) (acc : Z) (count : nat) (s : string)
    : option (Z * nat * string) :=
  match s with
  | String c s' =>
      match to_digit radix c with
      | Some d =>
          let acc := acc * radix + d in
          if bound <=? acc then None
          else if (max_digits <? S count)%nat then None
          else read_digits radix bound max_digits acc (S count) s'
      | None => Some (acc, count, s)
      end
  | EmptyString => Some (acc, count, s)
  end.

Definition starts_with_zero (s : string) : bool :=
  match s with String c _ => bool_decide (c = "0"%char) | EmptyString => false end.

Definition read_number (radix bound : Z) (max_digits : nat) (allow_zero_prefix : bool) : parser Z := λ s,
  '(r, count, rest) ← read_digits radix bound max_digits 0 0 s;
  if (count =? 0)%nat then None
  else if negb allow_zero_prefix && starts_with_zero s && (1 <? count)%nat then None
  else Some (r, rest).

(** [read_ipv4_addr]: four decimal octets without leading zeros. *)
Definition read_ipv4_addr : parser (list Z) := λ s,
  let octet i := read_separator "."%char i (read_number 10 256 3 false) in
  '(a, s) ← octet 0%nat s;
  '(b, s) ← octet 1%nat s;
  '(c, s) ← octet 2%nat s;
  '(d, s) ← octet 3%nat s;
  Some ([a; b; c; d], s).

(** [read_groups] of an IPv6 address: the 16-bit groups read, whether the last
    two came from an embedded IPv4 address, and the rest; [left] groups can
    still be stored, [i] are. *)
Fixpoint read_groups (left i : nat) (s : string) : list Z * bool * string :=
  match left with
  | O => ([], false, s)
  | S left' =>
      let ipv4 := match left' with
                  | O => None
                  | S _ => read_separator ":"%char i read_ipv4_addr s
                  end in
      match ipv4 with
      | Some ([a; b; c; d], s) => ([a * 256 + b; c * 256 + d], true, s)
      | _ =>
          match read_separator ":"%char i (read_number 16 65536 4 true) s with
          | Some (g, s) =>
              let '(gs, v4, s) := read_groups left' (S i) s in (g :: gs, v4, s)
          | None => ([], false, s)
          end
      end
  end.

Definition octets_of_groups (gs : list Z) : list Z :=
  mjoin ((λ g, [Z.shiftr g 8; Z.land g 255]) <$> gs).

Definition read_ipv6_addr : parser (list Z) := λ s,
  let '(head, head_ipv4, s) := read_groups 8 0 s in
  if (length head =? 8)%nat then Some (octets_of_groups head, s)
  else if head_ipv4 then None
  else
    '(_, s) ← read_given_char ":"%char s;
    '(_, s) ← read_given_char ":"%char s;
    let '(tail, _, s) := read_groups (8 - (length head + 1)) 0 s in
    Some (octets_of_groups
            (head ++ replicate (8 - length head - length tail) 0 ++ tail), s).

(** [read_ip_addr] and [IpAddr::from_str], which wants the whole text. *)
Definition read_ip_addr : parser IpAddr := λ s,
  match read_ipv4_addr s with
  | Some (o, s) => Some (V4 o, s)
  | None => '(o, s) ← read_ipv6_addr s; Some (V6 o, s)
  end.

Definition parse_ip (s : string) : option IpAddr :=
  '(a, rest) ← read_ip_addr s;
  if bool_decide (rest = "") then Some a else None.

Example parse_v4 : parse_ip "192.168.1.1" = Some (V4 [192; 168; 1; 1]).
Proof. reflexivity. Qed.
Example parse_leading_zero : parse_ip "192.168.01.1" = None.
Proof. reflexivity. Qed.
Example parse_octet_range : parse_ip "192.168.256.1" = None.
Proof. reflexivity. Qed.
Example parse_v6_loopback : parse_ip "::1" = Some (V6 (replicate 15 0 ++ [1])).
Proof. reflexivity. Qed.
Example parse_v6_mapped :
  parse_ip "::ffff:10.0.0.1" = Some (V6 (replicate 10 0 ++ [255; 255; 10; 0; 0; 1])).
Proof. reflexivity. Qed.
Example parse_v6_full :
  parse_ip "2001:db8:0:0:1:0:0:1" = Some (V6 [32; 1; 13; 184; 0; 0; 0; 0; 0; 1; 0; 0; 0; 0; 0; 1]).
Proof. reflexivity. Qed.
Example parse_cidr_is_no_address : parse_ip "10.0.0.0/24" = None.
Proof. reflexivity. Qed.

(** ** Printing: [Display] of the addresses *)

Definition digit_char (d : Z) : ascii :=
  ascii_of_N (Z.to_N (if d <? 10 then d + 48 else d + 87)).

(** The digits of an integer of at most 16 bits, most significant first; 16
    rounds are enough for every radix. *)
Fixpoint fmt_digits (fuel : nat) (radix n : Z) (tail : string) : string :=
  match fuel with
  | O => tail
  | S fuel =>
      let tail := String (digit_char (n mod radix)) tail in
      if n <? radix then tail else fmt_digits fuel radix (n / radix) tail
  end.
Definition fmt_uint (radix n : Z) : string := fmt_digits 16 radix n "".

Fixpoint join (sep : string) (l : list string) : string :=
  match l with
  | [] => ""
  | [x] => x
  | x :: l => x +:+ sep +:+ join sep l
  end.

Definition fmt_ipv4 (o : list Z) : string := join "." (fmt_uint 10 <$> o).

Fixpoint groups_of_octets (o : list Z) : list Z :=
  match o with
  | a :: b :: o => (a * 256 + b) :: groups_of_octets o
  | _ => []
  end.

(** The first longest run of zero groups, as (start, length): [cur] is the run
    being read, [best] the longest so far. *)
Fixpoint longest_zeroes (i : nat) (gs : list Z) (cur best : nat * nat) : nat * nat :=
  match gs with
  | [] => best
  | g :: gs =>
      if g =? 0 then
        let cur := (if (cur.2 =? 0)%nat then i else cur.1, S cur.2) in
        longest_zeroes (S i) gs cur (if (best.2 <? cur.2)%nat then cur else best)
      else longest_zeroes (S i) gs (0%nat, 0%nat) best
  end.

Definition fmt_subslice (gs : list Z) : string := join ":" (fmt_uint 16 <$> gs).

Definition fmt_ipv6 (o : list Z) : string :=
  if bool_decide (take 12 o = replicate 10 0 ++ [255; 255])
  then "::ffff:" +:+ fmt_ipv4 (drop 12 o)
  else
    let gs := groups_of_octets o in
    let '(start, len) := longest_zeroes 0 gs (0%nat, 0%nat) (0%nat, 0%nat) in
    if (1 <? len)%nat
    then fmt_subslice (take start gs) +:+ "::" +:+ fmt_subslice (drop (start + len) gs)
    else fmt_subslice gs.

Definition ip_to_string (a : IpAddr) : string :=
  match a with V4 o => fmt_ipv4 o | V6 o => fmt_ipv6 o end.

Example print_v4 : ip_to_string (V4 [192; 168; 0; 10]) = "192.168.0.10".
Proof. reflexivity. Qed.
Example print_v6 :
  ip_to_string (V6 [32; 1; 13; 184; 0; 0; 0; 0; 0; 1; 0; 0; 0; 0; 0; 1]) = "2001:db8::1:0:0:1".
Proof. reflexivity. Qed.
Example print_v6_any : ip_to_string (V6 (replicate 16 0)) = "::".
Proof. reflexivity. Qed.
Example print_v6_mapped :
  ip_to_string (V6 (replicate 10 0 ++ [255; 255; 10; 0; 0; 1])) = "::ffff:10.0.0.1".
Proof. reflexivity. Qed.

(** ** IPv4 addresses are read back as printed *)

(** The text after a number: nothing, or a character that is no digit. *)
Definition no_digit (radix : Z) (s : string) : Prop :=
  match s with String c _ => to_digit radix c = None | EmptyString => True end.

(** Reading the printed form of [n] and stopping at what follows it; the check
    is run for every octet. *)
Definition reads_back (n : Z) (rest : string) : Prop :=
  read_number 10 256 3 false (fmt_uint 10 n +:+ rest) = Some (n, rest).

Lemma read_digits_stop radix bound m acc k rest :
  no_digit radix rest → read_digits radix bound m acc k rest = Some (acc, k, rest).
Proof. destruct rest as [|c s]; simpl; [done|]. by intros ->. Qed.

Lemma octet_reads_back n rest : is_u8 n → no_digit 10 rest → reads_back n rest.
Proof.
  intros Hn Hr.
  assert (Hall : Forall (λ n, reads_back n rest) (seqZ 0 256)).
  { cbv [seqZ fmap list_fmap seq Z.to_nat Pos.to_nat Pos.iter_op Init.Nat.add].
    repeat (apply Forall_cons; split;
      [unfold reads_back, read_number; simpl; by rewrite read_digits_stop|]).
    apply Forall_nil. done. }
  rewrite Forall_forall in Hall. apply Hall, elem_of_seqZ.
  unfold is_uN in Hn. lia.
Qed.

Lemma append_assoc (x y z : string) : (x +:+ y) +:+ z = x +:+ (y +:+ z).
Proof. induction x as [|c x IH]; [done|]. exact (f_equal (String c) IH). Qed.

Lemma append_nil_r (x : string) : x +:+ "" = x.
Proof. induction x as [|c x IH]; [done|]. exact (f_equal (String c) IH). Qed.

Lemma append_nil_l (x : string) : "" +:+ x = x.
Proof. done. Qed.

#[local] Arguments fmt_uint : simpl never.
#[local] Arguments read_number : simpl never.

Lemma read_ipv4_print a b c d rest :
  Forall is_u8 [a; b; c; d] → no_digit 10 rest →
  read_ipv4_addr (fmt_ipv4 [a; b; c; d] +:+ rest) = Some ([a; b; c; d], rest).
Proof.
  intros Ho Hr. rewrite !Forall_cons in Ho. destruct Ho as (Ha & Hb & Hc & Hd & _).
  unfold read_ipv4_addr, fmt_ipv4. cbn [fmap list_fmap join].
  rewrite !append_assoc. simpl.
  rewrite (octet_reads_back a) by done. simpl. rewrite append_nil_l.
  rewrite (octet_reads_back b) by done. simpl. rewrite append_nil_l.
  rewrite (octet_reads_back c) by done. simpl. rewrite append_nil_l.
  by rewrite (octet_reads_back d).
Qed.

(** The printed form of an IPv4 address is parsed to that address. *)
Lemma parse_print_v4 o : ip_wf (V4 o) → parse_ip (ip_to_string (V4 o)) = Some (V4 o).
Proof.
  intros [Hl Ho]. destruct o as [|a [|b [|c [|d [|]]]]]; try done.
  unfold parse_ip, read_ip_addr. cbn [ip_to_string].
  rewrite <-(append_nil_r (fmt_ipv4 _)), (read_ipv4_print a b c d "") by done.
  done.
Qed.

Fixpoint has_char (c : ascii) (s : string) : bool :=
  match s with
  | String c' s => bool_decide (c' = c) || has_char c s
  | EmptyString => false
  end.

Lemma has_char_append c x y : has_char c (x +:+ y) = has_char c x || has_char c y.
Proof.
  induction x as [|c' x IH]; [done|].
  change (String c' x +:+ y) with (String c' (x +:+ y)). simpl. by rewrite IH, orb_assoc.
Qed.

Lemma octet_no_slash n : is_u8 n → has_char "/" (fmt_uint 10 n) = false.
Proof.
  intros Hn.
  assert (Hall : forallb (λ n, negb (has_char "/" (fmt_uint 10 n))) (seqZ 0 256) = true)
    by (vm_compute; reflexivity).
  rewrite forallb_forall in Hall. apply negb_true_iff, Hall, list_elem_of_In, elem_of_seqZ.
  unfold is_uN in Hn. lia.
Qed.

Lemma ipv4_no_slash o : Forall is_u8 o → has_char "/" (fmt_ipv4 o) = false.
Proof.
  unfold fmt_ipv4. induction 1 as [|n o Hn Ho IH]; [done|]. rewrite fmap_cons.
  destruct o as [|m o]; cbn [join]; [by apply octet_no_slash|].
  rewrite fmap_cons in IH |- *.
  by rewrite !has_char_append, octet_no_slash, IH.
Qed.

(** ** [SocketAddr::from_str] *)

(** A decimal number with any number of digits. *)
Definition read_decimal (bound : Z) : parser Z := λ s,
  read_number 10 bound (String.length s) true s.

Definition read_port : parser Z := λ s,
  '(_, s) ← read_given_char ":" s; read_decimal 65536 s.

(** An optional [%scope], which the model does not keep. *)
Definition skip_scope_id (s : string) : string :=
  match ('(_, s) ← read_given_char "%" s; read_decimal (2 ^ 32) s) with
  | Some (_, s) => s
  | None => s
  end.

Definition read_socket_addr : parser SocketAddr := λ s,
  match ('(o, s) ← read_ipv4_addr s; '(p, s) ← read_port s; Some ({| ip := V4 o; port := p |}, s)) with
  | Some r => Some r
  | None =>
      '(_, s) ← read_given_char "[" s;
      '(o, s) ← read_ipv6_addr s;
      '(_, s) ← read_given_char "]" (skip_scope_id s);
      '(p, s) ← read_port s;
      Some ({| ip := V6 o; port := p |}, s)
  end.

Definition parse_socket_addr (s : string) : option SocketAddr :=
  '(a, rest) ← read_socket_addr s;
  if bool_decide (rest = "") then Some a else None.

Example parse_listen_v4 :
  parse_socket_addr "0.0.0.0:8080" = Some {| ip := V4 [0; 0; 0; 0]; port := 8080 |}.
Proof. reflexivity. Qed.
Example parse_listen_v6 :
  parse_socket_addr "[::1]:443" = Some {| ip := V6 (replicate 15 0 ++ [1]); port := 443 |}.
Proof. reflexivity. Qed.
Example parse_listen_name : parse_socket_addr "localhost:8080" = None.
Proof. reflexivity. Qed.
Example parse_listen_port_range : parse_socket_addr "0.0.0.0:65536" = None.
Proof. reflexivity. Qed.
