(* ===== verification/AddrText.v ===== *)
(** * The text of an address determines the address

    [Display] and [FromStr] of [IpAddr] (see [NetAddr.v]) are inverse on every
    address, IPv4 and IPv6, with its compressed and IPv4-mapped forms.  The
    server keeps the backend buckets of a client under the text of the client's
    address, so this is what keeps the buckets of two clients apart. *)

From Stdlib Require Import Ascii.
From S2P Require Import Prelude NetAddr.
Open Scope Z_scope.

(** ** Numbers *)

(** The text of a list of digits, and their value after [acc]. *)
Fixpoint digits_text (ds : list Z) (tail : string) : string :=
  match ds with
  | [] => tail
  | d :: ds => String (digit_char d) (digits_text ds tail)
  end.

Fixpoint digits_value (radix acc : Z) (ds : list Z) : Z :=
  match ds with
  | [] => acc
  | d :: ds => digits_value radix (acc * radix + d) ds
  end.

Definition is_digit (radix d : Z) : Prop := 0 <= d < radix.

Lemma digits_text_app ds1 ds2 tail :
  digits_text (ds1 ++ ds2) tail = digits_text ds1 (digits_text ds2 tail).
Proof. induction ds1 as [|d ds1 IH]; [done|]. simpl. by rewrite IH. Qed.

Lemma digits_text_append ds tail rest :
  digits_text ds tail +:+ rest = digits_text ds (tail +:+ rest).
Proof. induction ds as [|d ds IH]; [done|]. exact (f_equal (String _) IH). Qed.

Lemma digits_value_app radix acc ds1 ds2 :
  digits_value radix acc (ds1 ++ ds2) = digits_value radix (digits_value radix acc ds1) ds2.
Proof. revert acc. induction ds1 as [|d ds1 IH]; [done|]. intros acc. apply IH. Qed.

(** What is read so far never exceeds the whole number. *)
Lemma digits_value_ge radix acc ds :
  1 <= radix → 0 <= acc → Forall (is_digit radix) ds → acc <= digits_value radix acc ds.
Proof.
  intros Hr Ha Hd. revert acc Ha. induction Hd as [|d ds Hd _ IH]; intros acc Ha; simpl; [lia|].
  unfold is_digit in Hd. assert (acc <= acc * radix + d) by nia. etrans; [done|]. apply IH. lia.
Qed.

Lemma to_digit_char radix d : 0 <= d < radix → radix <= 16 → to_digit radix (digit_char d) = Some d.
Proof.
  intros Hd Hr. assert (Hin : d ∈ seqZ 0 16) by (apply elem_of_seqZ; lia).
  cbv [seqZ fmap list_fmap seq Z.to_nat Pos.to_nat Pos.iter_op Init.Nat.add] in Hin.
  repeat (apply elem_of_cons in Hin as [->|Hin];
    [match goal with |- to_digit radix (digit_char ?d) = _ =>
       change (to_digit radix (digit_char d)) with (if d <? radix then Some d else None) end;
     by rewrite (proj2 (Z.ltb_lt _ _)) by lia|]).
  by apply elem_of_nil in Hin.
Qed.

(** The digit loop of the reader, on the digits of a number. *)
Lemma read_digits_text radix bound m acc k ds rest :
  1 <= radix <= 16 → 0 <= acc → Forall (is_digit radix) ds →
  digits_value radix acc ds < bound → (k + length ds ≤ m)%nat → no_digit radix rest →
  read_digits radix bound m acc k (digits_text ds rest) =
    Some (digits_value radix acc ds, (k + length ds)%nat, rest).
Proof.
  intros Hr Ha Hd Hv Hk Hrest. revert acc k Ha Hv Hk.
  induction Hd as [|d ds Hd Hds IH]; intros acc k Ha Hv Hk; simpl in *.
  { rewrite read_digits_stop by done. by rewrite Nat.add_0_r. }
  unfold is_digit in Hd. rewrite to_digit_char by lia.
  assert (acc * radix + d <= digits_value radix (acc * radix + d) ds)
    by (apply digits_value_ge; [lia|nia|done]).
  destruct (Z.leb_spec bound (acc * radix + d)); [lia|].
  destruct (Nat.ltb_spec m (S k)); [lia|].
  rewrite IH; [|nia|done|lia]. by rewrite Nat.add_succ_r.
Qed.

(** The printer's digits: their value is the number, there are at most [k] of
    them when the number is below [radix ^ k]. *)
Lemma fmt_digits_text fuel radix n tail :
  2 <= radix → 0 <= n < 2 ^ Z.of_nat fuel → (0 < fuel)%nat →
  ∃ ds, fmt_digits fuel radix n tail = digits_text ds tail ∧ ds ≠ [] ∧
    Forall (is_digit radix) ds ∧ digits_value radix 0 ds = n ∧
    ∀ k, (0 < k)%nat → n < radix ^ Z.of_nat k → (length ds ≤ k)%nat.
Proof.
  intros Hr. revert n tail. induction fuel as [|fuel IH]; intros n tail Hn Hf; [lia|].
  cbn [fmt_digits]. pose proof (Z.mod_pos_bound n radix ltac:(lia)) as Hm.
  destruct (Z.ltb_spec n radix) as [Hlt|Hge].
  - exists [n mod radix]. split_and!; [done|done|by apply Forall_singleton|..].
    + cbn [digits_value]. rewrite Z.mod_small; lia.
    + cbn [length]. lia.
  - assert (Hdiv : 0 <= n / radix < 2 ^ Z.of_nat fuel).
    { rewrite Nat2Z.inj_succ, Z.pow_succ_r in Hn by lia. split; [apply Z.div_pos; lia|].
      apply Z.div_lt_upper_bound; [lia|]. nia. }
    assert (1 <= n / radix) by (apply Z.div_le_lower_bound; lia).
    destruct fuel as [|fuel']; [simpl in Hdiv; lia|].
    destruct (IH (n / radix) (String (digit_char (n mod radix)) tail) Hdiv ltac:(lia))
      as (ds & -> & Hne & Hds & Hv & Hl).
    exists (ds ++ [n mod radix]). rewrite digits_text_app, digits_value_app. split_and!.
    + done.
    + by destruct ds.
    + apply Forall_app. by rewrite Forall_singleton.
    + rewrite Hv. cbn [digits_value]. pose proof (Z.div_mod n radix). lia.
    + intros k Hk Hnk. rewrite length_app. simpl. destruct k as [|[|k]]; [lia|simpl in Hnk; lia|].
      enough (length ds ≤ S k)%nat by lia. apply Hl; [lia|].
      rewrite (Nat2Z.inj_succ (S k)), Z.pow_succ_r in Hnk by lia.
      apply Z.div_lt_upper_bound; lia.
Qed.

(** A 16-bit group is printed with one to four hexadecimal digits. *)
Lemma group_text g :
  is_u16 g → ∃ ds, fmt_uint 16 g = digits_text ds "" ∧ ds ≠ [] ∧ Forall (is_digit 16) ds ∧
    digits_value 16 0 ds = g ∧ (length ds ≤ 4)%nat.
Proof.
  unfold is_uN. intros Hg.
  destruct (fmt_digits_text 16 16 g "" ltac:(lia) ltac:(simpl in *; lia) ltac:(lia))
    as (ds & H1 & H2 & H3 & H4 & H5).
  exists ds. split_and!; try done. apply H5; [lia|]. simpl in *. lia.
Qed.

Lemma group_reads_back g rest :
  is_u16 g → no_digit 16 rest → read_number 16 65536 4 true (fmt_uint 16 g +:+ rest) = Some (g, rest).
Proof.
  intros Hg Hrest. destruct (group_text g Hg) as (ds & -> & Hne & Hds & Hv & Hl).
  unfold is_uN in Hg. rewrite digits_text_append, append_nil_l. unfold read_number.
  rewrite read_digits_text; [|lia|lia|done|rewrite Hv; simpl in *; lia|lia|done]. simpl.
  destruct ds; [done|]. simpl in *. by rewrite Hv.
Qed.

(** ** A group is not the start of an IPv4 address *)

(** The text after its leading decimal digits. *)
Fixpoint skip_decimal (s : string) : string :=
  match s with
  | String c s' => match to_digit 10 c with Some _ => skip_decimal s' | None => s end
  | EmptyString => s
  end.

Lemma read_digits_rest bound m acc k s v k' rest :
  read_digits 10 bound m acc k s = Some (v, k', rest) → rest = skip_decimal s.
Proof.
  revert acc k. induction s as [|c s IH]; intros acc k; cbn [read_digits skip_decimal];
    [by intros [= _ _ <-]|].
  destruct (to_digit 10 c); [|by intros [= _ _ <-]].
  destruct (bound <=? _); [done|]. destruct (m <? S k)%nat; [done|]. apply IH.
Qed.

Lemma read_number_rest bound m z s v rest :
  read_number 10 bound m z s = Some (v, rest) → rest = skip_decimal s.
Proof.
  unfold read_number. destruct (read_digits 10 bound m 0 0 s) as [[[v' k] rest']|] eqn:Hr; [|done].
  apply read_digits_rest in Hr as ->. simpl.
  destruct (k =? 0)%nat; [done|]. destruct (_ && _ && _); [done|]. by intros [= _ <-].
Qed.

Definition starts_with (c : ascii) (s : string) : bool :=
  match s with String c' _ => bool_decide (c' = c) | EmptyString => false end.

Lemma read_ipv4_needs_dot s : starts_with "." (skip_decimal s) = false → read_ipv4_addr s = None.
Proof.
  intros Hs. unfold read_ipv4_addr. cbn [read_separator].
  destruct (read_number 10 256 3 false s) as [[v rest]|] eqn:Hr; [|done].
  apply read_number_rest in Hr as ->. cbn [mbind option_bind].
  unfold read_given_char. destruct (skip_decimal s) as [|c s']; [done|].
  simpl in Hs. by rewrite Hs.
Qed.

Lemma hex_not_dot d : is_digit 16 d → bool_decide (digit_char d = "."%char) = false.
Proof.
  unfold is_digit. intros Hd.
  assert (Hall : forallb (λ d, negb (bool_decide (digit_char d = "."%char))) (seqZ 0 16) = true)
    by (vm_compute; reflexivity).
  rewrite forallb_forall in Hall. apply negb_true_iff, Hall, list_elem_of_In, elem_of_seqZ. lia.
Qed.

Lemma group_no_dot ds rest :
  Forall (is_digit 16) ds → starts_with "." (skip_decimal rest) = false →
  starts_with "." (skip_decimal (digits_text ds rest)) = false.
Proof.
  intros Hds Hrest. induction Hds as [|d ds Hd _ IH]; [done|]. simpl.
  destruct (to_digit 10 (digit_char d)) eqn:Ht; [done|]. simpl. by apply hex_not_dot.
Qed.

(** ** Groups *)

(** What follows a list of groups: nothing, or a colon that no group follows. *)
Definition groups_end (rest : string) : Prop :=
  rest = "" ∨ ∃ s, rest = "::" +:+ s.

(** A group with what separates it from the group before, if there is one. *)
Definition group_item (i : nat) (g : Z) : string :=
  match i with O => fmt_uint 16 g | S _ => ":" +:+ fmt_uint 16 g end.

Fixpoint groups_text (i : nat) (gs : list Z) : string :=
  match gs with
  | [] => ""
  | g :: gs => group_item i g +:+ groups_text (S i) gs
  end.

Lemma groups_text_later i j gs : groups_text (S i) gs = groups_text (S j) gs.
Proof. revert i j. induction gs as [|g gs IH]; intros i j; [done|]. simpl. by rewrite (IH _ (S j)). Qed.

Lemma fmt_subslice_text gs : fmt_subslice gs = groups_text 0 gs.
Proof.
  unfold fmt_subslice. destruct gs as [|g gs]; [done|]. revert g.
  induction gs as [|g' gs IH]; intros g.
  { cbn. by rewrite append_nil_r. }
  specialize (IH g'). rewrite fmap_cons in IH |- *. rewrite fmap_cons.
  change (fmt_uint 16 g +:+ ":" +:+ join ":" (fmt_uint 16 g' :: (fmt_uint 16 <$> gs)) =
    fmt_uint 16 g +:+ (":" +:+ fmt_uint 16 g') +:+ groups_text 2 gs).
  rewrite IH. cbn [groups_text group_item]. f_equal. rewrite append_assoc.
  do 2 f_equal. apply groups_text_later.
Qed.

Lemma groups_rest_no_digit i gs rest :
  groups_end rest → no_digit 16 (groups_text (S i) gs +:+ rest) ∧
  starts_with "." (skip_decimal (groups_text (S i) gs +:+ rest)) = false.
Proof.
  intros Hend. destruct gs as [|g gs].
  - simpl. rewrite append_nil_l. by destruct Hend as [->|[s ->]].
  - cbn [groups_text group_item]. by rewrite !append_assoc.
Qed.

(** No group starts where the groups end. *)
Lemma groups_end_stops {A} i (p : parser A) rest :
  groups_end rest → (p "" = None) → (∀ s, p (":" +:+ s) = None) → read_separator ":" i p rest = None.
Proof.
  intros [->|[s ->]] Hp1 Hp2; destruct i as [|i]; cbn [read_separator]; try done.
  - exact (Hp2 (":" +:+ s)).
  - change ("::" +:+ s) with (String ":" (":" +:+ s)). cbn [read_given_char]. simpl. apply Hp2.
Qed.

Lemma read_groups_hex left i s :
  read_separator ":" i read_ipv4_addr s = None →
  read_groups (S left) i s =
    match read_separator ":" i (read_number 16 65536 4 true) s with
    | Some (g, s) => let '(gs, v4, s) := read_groups left (S i) s in (g :: gs, v4, s)
    | None => ([], false, s)
    end.
Proof. intros Hv4. cbn [read_groups]. destruct left; [done|]. by rewrite Hv4. Qed.

Lemma read_groups_text left i gs rest :
  Forall is_u16 gs → (length gs ≤ left)%nat → groups_end rest →
  read_groups left i (groups_text i gs +:+ rest) = (gs, false, rest).
Proof.
  intros Hgs. revert left i. induction Hgs as [|g gs Hg Hgs IH]; intros left i Hl Hend.
  - cbn [groups_text]. rewrite append_nil_l. destruct left as [|left]; [done|].
    rewrite read_groups_hex by by apply groups_end_stops. by rewrite groups_end_stops by done.
  - simpl in Hl. destruct left as [|left]; [lia|]. cbn [groups_text].
    rewrite append_assoc. destruct (groups_rest_no_digit i gs rest Hend) as [Hnd Hdot].
    set (tail := groups_text (S i) gs +:+ rest) in *.
    assert (Hsep : ∀ A (p : parser A), read_separator ":" i p (group_item i g +:+ tail) = p (fmt_uint 16 g +:+ tail)).
    { intros A p. destruct i as [|i]; [done|]. cbn [group_item]. by rewrite append_assoc. }
    rewrite read_groups_hex, Hsep, group_reads_back by first [done|rewrite Hsep;
      destruct (group_text g Hg) as (ds & -> & _ & Hds & _); rewrite digits_text_append, append_nil_l;
      by apply read_ipv4_needs_dot, group_no_dot].
    unfold tail. rewrite IH by (done || lia). done.
Qed.

(** ** Octets and groups *)

Lemma group_octets a b : is_u8 a → is_u8 b →
  Z.shiftr (a * 256 + b) 8 = a ∧ Z.land (a * 256 + b) 255 = b ∧ is_u16 (a * 256 + b).
Proof.
  unfold is_uN. intros Ha Hb. change (2 ^ 8) with 256 in *. change (2 ^ 16) with 65536. split_and!; try lia.
  - rewrite Z.shiftr_div_pow2 by lia. change (2 ^ 8) with 256.
    rewrite Z.div_add_l by lia. rewrite Z.div_small by lia. lia.
  - change 255 with (Z.ones 8). rewrite Z.land_ones by lia. change (2 ^ 8) with 256.
    rewrite Z.add_comm, Z.mod_add by lia. by apply Z.mod_small.
Qed.

Lemma octets_groups n o :
  length o = (2 * n)%nat → Forall is_u8 o →
  octets_of_groups (groups_of_octets o) = o ∧ Forall is_u16 (groups_of_octets o) ∧
  length (groups_of_octets o) = n.
Proof.
  revert o. induction n as [|n IH]; intros o Hl Ho; [by destruct o|].
  destruct o as [|a [|b o]]; try (simpl in Hl; lia).
  rewrite !Forall_cons in Ho. destruct Ho as (Ha & Hb & Ho).
  destruct (IH o ltac:(simpl in Hl; lia) Ho) as (IH1 & IH2 & IH3).
  destruct (group_octets a b Ha Hb) as (E1 & E2 & E3). cbn [groups_of_octets]. split_and!.
  - change (Z.shiftr (a * 256 + b) 8 :: Z.land (a * 256 + b) 255 ::
      octets_of_groups (groups_of_octets o) = a :: b :: o). by rewrite IH1, E1, E2.
  - by constructor.
  - simpl. by rewrite IH3.
Qed.

(** ** The run of zeros that is compressed *)

(** A run [(start, len)] lies in [gs], and its groups are zero. *)
Definition zero_run (gs : list Z) (r : nat * nat) : Prop :=
  (r.1 + r.2 ≤ length gs)%nat ∧ take r.2 (drop r.1 gs) = replicate r.2 0.

Lemma zero_run_none gs : zero_run gs (0%nat, 0%nat).
Proof. split; simpl; [lia|done]. Qed.

Lemma zero_run_app gs gs' r : zero_run gs r → zero_run (gs ++ gs') r.
Proof.
  intros [Hl He]. split; [rewrite length_app; lia|].
  rewrite drop_app_le by lia. rewrite take_app_le by (rewrite length_drop; lia). done.
Qed.

(** [cur] ends where the reader stands, unless it is empty. *)
Lemma zero_run_snoc gs s k :
  zero_run gs (s, k) → (s + k = length gs)%nat → zero_run (gs ++ [0]) (s, S k).
Proof.
  unfold zero_run. simpl. intros [Hl He] Hend. rewrite length_app. simpl. split; [lia|].
  rewrite drop_app_le by lia. rewrite take_ge in He by (rewrite length_drop; lia).
  rewrite He. rewrite take_ge by (rewrite length_app, length_replicate; simpl; lia).
  by rewrite <-replicate_S_end.
Qed.

Lemma longest_zeroes_run pre gs cur best :
  zero_run pre best → zero_run pre cur → (cur.2 = 0%nat ∨ (cur.1 + cur.2 = length pre)%nat) →
  zero_run (pre ++ gs) (longest_zeroes (length pre) gs cur best).
Proof.
  revert pre cur best. induction gs as [|g gs IH]; intros pre cur best Hb Hc Hend; cbn [longest_zeroes].
  { by rewrite app_nil_r. }
  replace (pre ++ g :: gs) with ((pre ++ [g]) ++ gs) by by rewrite <-(assoc_L app).
  replace (S (length pre)) with (length (pre ++ [g])) by (rewrite length_app; simpl; lia).
  destruct (Z.eqb_spec g 0) as [->|Hne].
  - set (cur' := (_, S cur.2)).
    assert (Hc' : zero_run (pre ++ [0]) cur' ∧ (cur'.1 + cur'.2 = length (pre ++ [0%Z]))%nat).
    { rewrite length_app. unfold cur'. simpl. destruct cur as [s k]. simpl in *.
      destruct (Nat.eqb_spec k 0) as [->|Hk].
      - split; [|lia]. apply zero_run_snoc; [|lia]. split; simpl; [lia|done].
      - split; [|lia]. apply zero_run_snoc; [done|lia]. }
    destruct Hc' as [Hc1 Hc2]. apply IH; [|done|by right].
    destruct (best.2 <? cur'.2)%nat; [done|]. by apply zero_run_app.
  - apply IH; [by apply zero_run_app|apply zero_run_none|by left].
Qed.

Lemma zero_run_split gs s k :
  zero_run gs (s, k) → gs = take s gs ++ replicate k 0 ++ drop (s + k) gs.
Proof.
  intros [_ He]. simpl in He. rewrite <-He, <-(drop_drop gs), !take_drop. done.
Qed.

(** ** The round trip *)

Lemma read_ipv6_full gs :
  length gs = 8%nat → Forall is_u16 gs →
  read_ipv6_addr (fmt_subslice gs) = Some (octets_of_groups gs, "").
Proof.
  intros Hl Hgs. unfold read_ipv6_addr. rewrite <-(append_nil_r (fmt_subslice gs)), fmt_subslice_text.
  rewrite read_groups_text by (done || lia || by left). by rewrite Hl.
Qed.

Lemma read_given_char_eq c s : read_given_char c (String c s) = Some (tt, s).
Proof. unfold read_given_char. by rewrite bool_decide_true. Qed.

Lemma read_ipv6_compressed hd tl k :
  Forall is_u16 hd → Forall is_u16 tl → (length hd + k + length tl = 8)%nat → (1 < k)%nat →
  read_ipv6_addr (fmt_subslice hd +:+ "::" +:+ fmt_subslice tl) =
    Some (octets_of_groups (hd ++ replicate k 0 ++ tl), "").
Proof.
  intros Hh Ht Hl Hk. unfold read_ipv6_addr. rewrite fmt_subslice_text.
  rewrite read_groups_text; [|done|lia|by right; eexists].
  destruct (Nat.eqb_spec (length hd) 8); [lia|].
  change ("::" +:+ fmt_subslice tl) with (String ":" (String ":" (fmt_subslice tl))).
  do 2 (rewrite read_given_char_eq; cbn [mbind option_bind]).
  rewrite <-(append_nil_r (fmt_subslice tl)), fmt_subslice_text.
  rewrite read_groups_text by (done || lia || by left).
  replace (8 - length hd - length tl)%nat with k by lia. done.
Qed.

Lemma read_ipv6_mapped a b c d :
  Forall is_u8 [a; b; c; d] →
  read_ipv6_addr ("::ffff:" +:+ fmt_ipv4 [a; b; c; d]) =
    Some (replicate 10 0 ++ [255; 255; a; b; c; d], "").
Proof.
  intros Ho. pose proof (read_ipv4_print a b c d "" Ho I) as Hv4. rewrite append_nil_r in Hv4.
  rewrite !Forall_cons in Ho. destruct Ho as (Ha & Hb & Hc & Hd & _).
  set (t := fmt_ipv4 [a; b; c; d]) in *. unfold read_ipv6_addr.
  change ("::ffff:" +:+ t) with (String ":" (String ":" ("ffff:" +:+ t))).
  assert (Hr : read_groups 7 0 ("ffff:" +:+ t) = ([65535; a * 256 + b; c * 256 + d], true, "")).
  { rewrite read_groups_hex by (by apply read_ipv4_needs_dot).
    change (read_separator ":" 0 (read_number 16 65536 4 true) ("ffff:" +:+ t))
      with (Some (65535, String ":" t)). cbv iota beta.
    cbn [read_groups read_separator]. rewrite read_given_char_eq. cbn [mbind option_bind]. by rewrite Hv4. }
  change (read_groups 8 0 (String ":" (String ":" ("ffff:" +:+ t))))
    with (@nil Z, false, String ":" (String ":" ("ffff:" +:+ t))). cbv iota beta.
  do 2 (rewrite read_given_char_eq; cbn [mbind option_bind]).
  change (8 - (length (@nil Z) + 1))%nat with 7%nat. rewrite Hr.
  destruct (group_octets a b Ha Hb) as (E1 & E2 & _), (group_octets c d Hc Hd) as (E3 & E4 & _).
  cbn -[Z.shiftr Z.land Z.mul Z.add]. by rewrite E1, E2, E3, E4.
Qed.

Lemma read_ipv6_print o :
  ip_wf (V6 o) → read_ipv6_addr (fmt_ipv6 o) = Some (o, "").
Proof.
  intros [Hl Ho]. unfold fmt_ipv6. case_bool_decide as Hm.
  - assert (Hd : Forall is_u8 (drop 12 o)) by by apply Forall_drop.
    rewrite <-(take_drop 12 o) at 2. rewrite Hm.
    assert (length (drop 12 o) = 4)%nat as Hl' by (rewrite length_drop; lia).
    destruct (drop 12 o) as [|a [|b [|c [|d [|]]]]]; try done. by apply read_ipv6_mapped.
  - destruct (octets_groups 8 o Hl Ho) as (Ho' & Hgs & Hg8).
    pose proof (longest_zeroes_run [] (groups_of_octets o) _ _ (zero_run_none []) (zero_run_none [])
      (or_introl eq_refl)) as Hrun. simpl in Hrun.
    destruct (longest_zeroes 0 (groups_of_octets o) _ _) as [s k].
    destruct (Nat.ltb_spec 1 k) as [Hk|Hk]; [|by rewrite read_ipv6_full, Ho'].
    pose proof (zero_run_split _ _ _ Hrun) as Hsplit. destruct Hrun as [Hin _]. simpl in Hin.
    rewrite (read_ipv6_compressed _ _ k); [by rewrite <-Hsplit, Ho'|by apply Forall_take|
      by apply Forall_drop| |done].
    rewrite length_take, length_drop. lia.
Qed.

Lemma skip_decimal_groups gs rest :
  Forall is_u16 gs → groups_end rest →
  starts_with "." (skip_decimal (fmt_subslice gs +:+ rest)) = false.
Proof.
  intros Hgs Hend. rewrite fmt_subslice_text. destruct Hgs as [|g gs Hg Hgs].
  { cbn [groups_text]. rewrite append_nil_l. by destruct Hend as [->|[s ->]]. }
  cbn [groups_text group_item]. rewrite append_assoc.
  destruct (group_text g Hg) as (ds & -> & _ & Hds & _). rewrite digits_text_append, append_nil_l.
  apply group_no_dot; [done|]. by apply groups_rest_no_digit.
Qed.

(** The text of an IPv6 address is not that of an IPv4 address. *)
Lemma fmt_ipv6_not_ipv4 o : ip_wf (V6 o) → read_ipv4_addr (fmt_ipv6 o) = None.
Proof.
  intros [Hl Ho]. apply read_ipv4_needs_dot. unfold fmt_ipv6. case_bool_decide; [done|].
  destruct (octets_groups 8 o Hl Ho) as (_ & Hgs & _).
  destruct (longest_zeroes 0 (groups_of_octets o) _ _) as [s k].
  destruct (1 <? k)%nat.
  - apply skip_decimal_groups; [by apply Forall_take|]. right. by eexists.
  - rewrite <-(append_nil_r (fmt_subslice _)). apply skip_decimal_groups; [done|by left].
Qed.

(** Every address is read back from its text. *)
Theorem parse_print a : ip_wf a → parse_ip (ip_to_string a) = Some a.
Proof.
  destruct a as [o|o]; intros Hwf; [by apply parse_print_v4|].
  unfold parse_ip, read_ip_addr. cbn [ip_to_string].
  rewrite fmt_ipv6_not_ipv4, read_ipv6_print by done. done.
Qed.

Lemma ip_to_string_inj a b : ip_wf a → ip_wf b → ip_to_string a = ip_to_string b → a = b.
Proof.
  intros Ha Hb Heq. pose proof (parse_print a Ha) as Hpa. rewrite Heq, parse_print in Hpa by done.
  by injection Hpa.
Qed.
