(* ===== verification/Limiter.v ===== *)
(** * Token buckets: [src/src/traffic/limiter.rs]

    [SimpleLimiter], the token bucket in [f64] arithmetic; [RateLimiter], one
    bucket per client address; [BandwidthManager], the shared buckets the
    rate-limited streams draw from.  Every [Instant::now()] of the source is a
    clock reading passed as an argument. *)

From S2P Require Import Prelude Float64 Config NetAddr.
Open Scope Z_scope.

(** ** [SimpleLimiter] *)

Record SimpleLimiterState := {
  tokens : Z;        (* f64 *)
  last_update : Z;   (* Instant *)
}.

Record SimpleLimiter := {
  rate_per_sec : Z;
  burst_size : Z;
  state : SimpleLimiterState;
}.

Definition with_state (l : SimpleLimiter) (st : SimpleLimiterState) : SimpleLimiter :=
  {| rate_per_sec := rate_per_sec l; burst_size := burst_size l; state := st |}.

Module SimpleLimiter.

(** [SimpleLimiter::new]; [now] is its [Instant::now()]. *)
Definition new (rate burst now : Z) : SimpleLimiter :=
  {| rate_per_sec := rate; burst_size := burst;
     state := {| tokens := f64_of_int burst; last_update := now |} |}.

(** [elapsed * self.rate_per_sec as f64] for [d] nanoseconds. *)
Definition new_tokens (rate d : Z) : Z := fmul (as_secs_f64 d) (f64_of_int rate).

Definition refill_state (rate burst : Z) (st : SimpleLimiterState) (now : Z) : SimpleLimiterState :=
  let elapsed := duration_since now (last_update st) in
  let nt := new_tokens rate elapsed in
  if 0 <? nt then
    {| tokens := fmin (fadd (tokens st) nt) (f64_of_int burst); last_update := now |}
  else st.

(** [refill], under the mutex. *)
Definition refill (l : SimpleLimiter) (now : Z) : SimpleLimiter :=
  with_state l (refill_state (rate_per_sec l) (burst_size l) (state l) now).

(** [state.tokens -= n as f64]. *)
Definition take_tokens (l : SimpleLimiter) (n : Z) : SimpleLimiter :=
  with_state l {| tokens := fsub (tokens (state l)) (f64_of_int n);
                  last_update := last_update (state l) |}.

Definition check_n (l : SimpleLimiter) (n now : Z) : SimpleLimiter * result unit unit :=
  let l := refill l now in
  if f64_of_int n <=? tokens (state l) then (take_tokens l n, Ok tt)
  else (l, Err tt).

(** What one turn of the loop of [until_n_ready] does while it holds the lock:
    return, sleep for a duration, or panic in [Duration::from_secs_f64] (a rate
    of zero makes the quotient infinite). *)
Inductive turn := Granted | SleepFor (d : Z) | Panicked.

Definition until_turn (l : SimpleLimiter) (n now : Z) : SimpleLimiter * turn :=
  let l := refill l now in
  if f64_of_int n <=? tokens (state l) then (take_tokens l n, Granted)
  else
    let missing := fsub (f64_of_int n) (tokens (state l)) in
    if rate_per_sec l =? 0 then (l, Panicked)
    else
      let seconds_needed := fdiv missing (f64_of_int (rate_per_sec l)) in
      (l, match from_secs_f64 seconds_needed with
          | Some d => SleepFor d
          | None => Panicked
          end).

(** The loop of [until_n_ready] when no other task draws on the bucket: a sleep
    of [d] that starts at [now] is over at [now + d + late k], [late k] being
    how late the [k]-th wake-up is.  [UDone] is [Ok(())] (the source has no
    [Err] path) with the bucket and the time it leaves; [URunning] a loop that is
    still running when the fuel is out. *)
Inductive until_outcome :=
| UDone (l : SimpleLimiter) (t : Z)
| URunning
| UPanic.

Fixpoint until_n_ready (fuel : nat) (late : nat → Z) (l : SimpleLimiter) (n now : Z)
    : until_outcome :=
  match fuel with
  | O => URunning
  | S fuel =>
      match until_turn l n now with
      | (l, Granted) => UDone l now
      | (l, SleepFor d) =>
          until_n_ready fuel (λ k, late (S k)) l n (now + d + late 0%nat)
      | (l, Panicked) => UPanic
      end
  end.

(** A sequence of [check_n] calls, each with the clock reading it makes: the
    final bucket and the tokens granted. *)
Fixpoint run_checks (l : SimpleLimiter) (calls : list (Z * Z)) : SimpleLimiter * Z :=
  match calls with
  | [] => (l, 0)
  | (now, n) :: calls =>
      let (l, r) := check_n l n now in
      let (l, g) := run_checks l calls in
      (l, (if is_ok r then n else 0) + g)
  end.

(** ** The bucket invariant *)

Definition wf (l : SimpleLimiter) : Prop :=
  is_u32 (rate_per_sec l) ∧ is_u32 (burst_size l) ∧ is_f64 (tokens (state l)) ∧
  tokens (state l) <= burst_size l * F64_ONE.

(** Clock readings that a [Duration] of less than [2^53] seconds separates. *)
Definition in_range (d : Z) : Prop := d <= 2 ^ 53 * NANOS_PER_SEC.

Lemma u32_f64_exact n : is_u32 n → f64_of_int n = n * F64_ONE.
Proof. unfold is_uN. intros. apply f64_of_int_exact. lia. Qed.

Lemma u32_is_f64 n : is_u32 n → is_f64 (n * F64_ONE).
Proof. unfold is_uN. intros. apply int_f64. lia. Qed.

(** The tokens a refill adds for [d] nanoseconds are [rate * d / 1e9] up to
    three roundings. *)
Lemma new_tokens_bounds rate d :
  is_u32 rate → 0 <= d → in_range d →
  is_f64 (new_tokens rate d) ∧
  (2 ^ 53 - 4) * (rate * d * F64_ONE) <= 2 ^ 53 * (NANOS_PER_SEC * new_tokens rate d)
    <= (2 ^ 53 + 4) * (rate * d * F64_ONE).
Proof.
  unfold is_uN, in_range. intros Hr Hd Hrange. unfold new_tokens.
  pose proof (as_secs_f64_f64 d ltac:(lia)) as Hf.
  pose proof (as_secs_f64_bounds d ltac:(lia)) as [Hlo Hhi].
  pose proof (is_f64_nonneg _ Hf) as Hnn.
  set (x := as_secs_f64 d) in *. clearbody x.
  pose proof F64_ONE_ge as H1.
  assert (x = 0 ∨ 2 ^ 52 <= x) as Hx.
  { unfold NANOS_PER_SEC in *. destruct (Z.eq_dec d 0) as [->|]; [left; lia|right].
    assert (F64_ONE <= d * F64_ONE) by nia. lia. }
  destruct (fmul_int_bounds x rate Hf Hx ltac:(lia)) as [Hyf [Hylo Hyhi]].
  split; [done|].
  set (y := fmul _ _) in *. clearbody y. set (u := F64_ONE) in *. clearbody u.
  unfold NANOS_PER_SEC in *.
  apply (Z.mul_le_mono_nonneg_r _ _ rate ltac:(lia)) in Hlo, Hhi.
  replace (2 ^ 106 * (1000000000 * x) * rate) with (2 ^ 106 * (1000000000 * (x * rate))) in * by ring.
  replace ((2 ^ 53 - 1) ^ 2 * (d * u) * rate) with ((2 ^ 53 - 1) ^ 2 * (rate * d * u)) in * by ring.
  replace ((2 ^ 53 + 1) ^ 2 * (d * u) * rate) with ((2 ^ 53 + 1) ^ 2 * (rate * d * u)) in * by ring.
  assert (0 <= rate * d * u) by nia.
  set (xr := x * rate) in *. set (rdu := rate * d * u) in *. clearbody xr rdu. lia.
Qed.

Lemma new_tokens_nonneg rate d :
  is_u32 rate → 0 <= d → in_range d → 0 <= new_tokens rate d.
Proof. intros. by apply is_f64_nonneg, new_tokens_bounds. Qed.

(** A positive amount is far above the subnormal range. *)
Lemma new_tokens_normal rate d :
  is_u32 rate → 0 <= d → in_range d → 0 < new_tokens rate d → 2 ^ 52 <= new_tokens rate d.
Proof.
  intros Hr Hd Hrange Hp. destruct (new_tokens_bounds rate d Hr Hd Hrange) as [_ [Hlo Hhi]].
  pose proof F64_ONE_ge. unfold NANOS_PER_SEC, is_uN in *.
  assert (1 <= rate * d) by nia. nia.
Qed.

Lemma new_tokens_pos rate d :
  is_u32 rate → 0 < rate → 0 < d → in_range d → 0 < new_tokens rate d.
Proof.
  intros Hr Hr0 Hd Hrange.
  destruct (new_tokens_bounds rate d Hr ltac:(lia) Hrange) as [_ [Hlo Hhi]].
  pose proof F64_ONE_ge. unfold NANOS_PER_SEC in *. assert (1 <= rate * d) by nia. nia.
Qed.

(** No [f64] of a refill comes near the overflow threshold [2^1024]. *)
Lemma refill_finite rate d x :
  is_u32 rate → 0 <= d → in_range d → 0 <= x <= 2 ^ 32 * F64_ONE →
  as_secs_f64 d <= 2 ^ 54 * F64_ONE ∧ new_tokens rate d <= 2 ^ 86 * F64_ONE ∧
  fadd x (new_tokens rate d) <= 2 ^ 87 * F64_ONE.
Proof.
  intros Hr Hd Hrange Hx. pose proof (as_secs_f64_bounds d) as Hs.
  destruct (new_tokens_bounds rate d Hr Hd Hrange) as [Hf [_ Hn]]. apply is_f64_nonneg in Hf.
  pose proof (fround_unit_rel (x + new_tokens rate d) ltac:(lia)) as Ha.
  unfold fadd. pose proof F64_ONE_pos. unfold in_range, NANOS_PER_SEC, is_uN in *.
  specialize (Hs ltac:(lia)).
  assert (d * F64_ONE <= 2 ^ 53 * 1000000000 * F64_ONE) by (apply Z.mul_le_mono_nonneg_r; lia).
  assert (rate * d * F64_ONE <= 2 ^ 85 * 1000000000 * F64_ONE)
    by (apply Z.mul_le_mono_nonneg_r; nia).
  lia.
Qed.

(** ** [refill] *)

Section refill.
Context (l : SimpleLimiter) (Hwf : wf l) (now : Z).
Context (Hrange : in_range (now - last_update (state l))).

Let T := tokens (state l).
Let B := burst_size l * F64_ONE.
Let d := duration_since now (last_update (state l)).
Let nt := new_tokens (rate_per_sec l) d.

Lemma elapsed_ok : 0 <= d ∧ in_range d.
Proof.
  unfold d, duration_since, in_range, NANOS_PER_SEC in *. lia.
Qed.

(** The two outcomes of [refill], in exact terms. *)
Lemma refill_cases :
  (nt = 0 ∧ refill l now = l) ∨
  (2 ^ 52 <= nt ∧ last_update (state (refill l now)) = now ∧
   last_update (state l) < now ∧
   tokens (state (refill l now)) = fmin (fadd T nt) B).
Proof.
  destruct elapsed_ok as [Hd0 Hd1]. destruct Hwf as (Hr & Hb & Hf & Hle).
  unfold refill, refill_state. fold d. fold nt.
  pose proof (new_tokens_nonneg _ d Hr Hd0 Hd1) as Hn. fold nt in Hn.
  destruct (Z.ltb_spec 0 nt) as [Hp|Hp].
  - right. split; [by apply new_tokens_normal|]. simpl. split; [done|]. split.
    + destruct (new_tokens_bounds _ d Hr Hd0 Hd1) as [_ [_ Hhi]]. fold nt in Hhi.
      assert (d ≠ 0) by (intros E; rewrite E in Hhi; unfold NANOS_PER_SEC in *; lia).
      unfold d, duration_since in *. lia.
    + by rewrite (u32_f64_exact _ Hb).
  - left. split; [lia|]. destruct l as [? ? []]; reflexivity.
Qed.

Lemma refill_frame :
  rate_per_sec (refill l now) = rate_per_sec l ∧ burst_size (refill l now) = burst_size l.
Proof. done. Qed.

Lemma refill_wf : wf (refill l now).
Proof.
  destruct refill_cases as [[_ ->]|(Hnt & _ & _ & Ht)]; [done|].
  destruct Hwf as (Hr & Hb & Hf & Hle). unfold wf. rewrite Ht.
  destruct refill_frame as [-> ->]. pose proof (is_f64_nonneg T Hf).
  split_and!; [done|done| |unfold fmin, B; lia].
  apply is_f64_min; [apply fadd_f64; lia|]. by apply u32_is_f64.
Qed.

(** [refill] reaches every representable level the exact sum reaches. *)
Lemma refill_reaches z :
  is_f64 z → z <= B → z <= T + nt → z <= tokens (state (refill l now)).
Proof.
  intros Hz HzB HzT. destruct refill_cases as [[Hnt ->]|(Hnt & _ & _ & ->)].
  - unfold T in HzT. lia.
  - unfold fmin. apply Z.min_glb; [|done]. by apply fadd_ge.
Qed.

Lemma refill_mono : T <= tokens (state (refill l now)).
Proof.
  destruct Hwf as (Hr & Hb & Hf & Hle). destruct elapsed_ok.
  apply refill_reaches; [done|done|].
  pose proof (new_tokens_nonneg _ d Hr ltac:(done) ltac:(done)). fold nt in H1. lia.
Qed.

Lemma refill_clock :
  last_update (state l) <= last_update (state (refill l now)) <= Z.max now (last_update (state l)).
Proof. destruct refill_cases as [[_ ->]|(_ & -> & ? & _)]; lia. Qed.

(** The tokens gained are bounded by the rate times the clock advance, up to
    the relative error of [new_tokens] and half a unit in the last place of the
    burst. *)
Lemma refill_upper :
  2 ^ 53 * NANOS_PER_SEC * tokens (state (refill l now)) <=
  2 ^ 53 * NANOS_PER_SEC * T
  + (2 ^ 53 + 4) * (rate_per_sec l * (last_update (state (refill l now)) - last_update (state l)) * F64_ONE)
  + NANOS_PER_SEC * B.
Proof.
  destruct Hwf as (Hr & Hb & Hf & Hle). destruct elapsed_ok as [Hd0 Hd1].
  pose proof (is_f64_nonneg T Hf) as HT. fold T B in Hle.
  destruct refill_cases as [[_ ->]|(Hnt & -> & Hlt & ->)].
  { fold T. unfold NANOS_PER_SEC. lia. }
  destruct (new_tokens_bounds _ d Hr Hd0 Hd1) as [_ [_ Hhi]]. fold nt in Hhi.
  replace (now - last_update (state l)) with d by (unfold d, duration_since; lia).
  pose proof (fadd_rel T nt ltac:(lia)) as [_ Hadd].
  set (g := rate_per_sec l * d * F64_ONE) in *. clearbody g nt T B.
  unfold fmin, NANOS_PER_SEC in *.
  destruct (Z.le_gt_cases (T + nt) B); lia.
Qed.

End refill.

(** ** [check_n] *)

Lemma take_tokens_frame l n :
  last_update (state (take_tokens l n)) = last_update (state l) ∧
  rate_per_sec (take_tokens l n) = rate_per_sec l ∧
  burst_size (take_tokens l n) = burst_size l.
Proof. done. Qed.

Lemma take_tokens_exact l n :
  wf l → is_u32 n → n * F64_ONE <= tokens (state l) →
  tokens (state (take_tokens l n)) = tokens (state l) - n * F64_ONE ∧ wf (take_tokens l n).
Proof.
  intros (Hr & Hb & Hf & Hle) Hn Hcov. pose proof F64_ONE_pos.
  destruct (fsub_int_exact (tokens (state l)) n) as [He Hf']; [done| |done| |].
  { unfold is_uN in Hn. lia. }
  { unfold is_uN in Hb. nia. }
  assert (Ht : tokens (state (take_tokens l n)) = tokens (state l) - n * F64_ONE).
  { unfold take_tokens. simpl. by rewrite u32_f64_exact. }
  split; [done|]. unfold wf. rewrite Ht. split_and!; [done|done|done|].
  unfold is_uN in Hn. destruct (take_tokens_frame l n) as (_ & _ & ->). nia.
Qed.

(** Both branches of [check_n], in exact terms. *)
Lemma check_n_cases l n now :
  wf l → is_u32 n → in_range (now - last_update (state l)) →
  let l' := refill l now in
  (n * F64_ONE <= tokens (state l') ∧ check_n l n now = (take_tokens l' n, Ok tt)) ∨
  (tokens (state l') < n * F64_ONE ∧ check_n l n now = (l', Err tt)).
Proof.
  intros Hwf Hn Hr. cbn zeta. unfold check_n. rewrite (u32_f64_exact n Hn).
  destruct (Z.leb_spec (n * F64_ONE) (tokens (state (refill l now)))); [left|right]; done.
Qed.

Lemma check_n_wf l n now :
  wf l → is_u32 n → in_range (now - last_update (state l)) → wf (check_n l n now).1.
Proof.
  intros Hwf Hn Hr. pose proof (refill_wf l Hwf now Hr) as Hwf'.
  destruct (check_n_cases l n now Hwf Hn Hr) as [[Hc ->]|[_ ->]]; [|done].
  by apply take_tokens_exact.
Qed.

Lemma check_n_frame l n now :
  rate_per_sec (check_n l n now).1 = rate_per_sec l ∧
  burst_size (check_n l n now).1 = burst_size l.
Proof. unfold check_n. by case_match. Qed.

Lemma check_n_clock l n now :
  wf l → is_u32 n → in_range (now - last_update (state l)) →
  last_update (state l) <= last_update (state (check_n l n now).1)
    <= Z.max now (last_update (state l)).
Proof.
  intros Hwf Hn Hr. pose proof (refill_clock l Hwf now Hr) as Hclk.
  destruct (check_n_cases l n now Hwf Hn Hr) as [[_ ->]|[_ ->]]; cbn [fst]; [|exact Hclk].
  destruct (take_tokens_frame (refill l now) n) as [-> _]. exact Hclk.
Qed.

(** Accounting of one call: what it grants plus what it leaves is covered by
    what it found plus what the clock advance is worth. *)
Lemma check_n_account l n now :
  wf l → is_u32 n → in_range (now - last_update (state l)) →
  let l' := (check_n l n now).1 in
  let g := if is_ok (check_n l n now).2 then n else 0 in
  2 ^ 53 * NANOS_PER_SEC * (tokens (state l') + g * F64_ONE) <=
  2 ^ 53 * NANOS_PER_SEC * tokens (state l)
  + (2 ^ 53 + 4) * (rate_per_sec l * (last_update (state l') - last_update (state l)) * F64_ONE)
  + NANOS_PER_SEC * (burst_size l * F64_ONE).
Proof.
  intros Hwf Hn Hr. cbn zeta.
  pose proof (refill_upper l Hwf now Hr) as Hup. pose proof (refill_wf l Hwf now Hr) as Hwf'.
  destruct (check_n_cases l n now Hwf Hn Hr) as [[Hc ->]|[_ ->]]; cbn [fst snd is_ok].
  - destruct (take_tokens_exact _ n Hwf' Hn Hc) as [-> _].
    destruct (take_tokens_frame (refill l now) n) as [-> _].
    rewrite Z.sub_add. exact Hup.
  - rewrite Z.mul_0_l, Z.add_0_r. exact Hup.
Qed.

(** ** The rate bound *)

Fixpoint nondecreasing (t : Z) (ts : list Z) : Prop :=
  match ts with
  | [] => True
  | t' :: ts => t <= t' ∧ nondecreasing t' ts
  end.

Fixpoint end_time (t : Z) (ts : list Z) : Z :=
  match ts with [] => t | t' :: ts => end_time t' ts end.

Lemma nondecreasing_end t ts : nondecreasing t ts → t <= end_time t ts.
Proof.
  revert t. induction ts as [|t' ts IH]; intros t; simpl; [lia|].
  intros [? ?%IH]. lia.
Qed.

Lemma run_checks_account l calls t :
  wf l → Forall (λ c, is_u32 c.2) calls → last_update (state l) <= t →
  nondecreasing t calls.*1 → in_range (end_time t calls.*1 - last_update (state l)) →
  let l' := (run_checks l calls).1 in
  let g := (run_checks l calls).2 in
  wf l' ∧ last_update (state l) <= last_update (state l') <= end_time t calls.*1 ∧
  2 ^ 53 * NANOS_PER_SEC * (tokens (state l') + g * F64_ONE) <=
  2 ^ 53 * NANOS_PER_SEC * tokens (state l)
  + (2 ^ 53 + 4) * (rate_per_sec l * (last_update (state l') - last_update (state l)) * F64_ONE)
  + Z.of_nat (length calls) * (NANOS_PER_SEC * (burst_size l * F64_ONE)).
Proof.
  revert l t. induction calls as [|[now n] calls IH]; intros l t Hwf Hn Ht Hmono Hr.
  { simpl. split_and!; [done|lia|done|]. lia. }
  apply Forall_cons in Hn as [Hn Hns]. rewrite fmap_cons in *.
  cbn [nondecreasing end_time fst snd] in *. destruct Hmono as [Htn Hmono].
  pose proof (nondecreasing_end _ _ Hmono) as Hend.
  assert (Hr1 : in_range (now - last_update (state l))) by (unfold in_range in *; lia).
  pose proof (check_n_account l n now Hwf Hn Hr1) as Hacc.
  pose proof (check_n_wf l n now Hwf Hn Hr1) as Hwf1.
  pose proof (check_n_frame l n now) as [Hrate Hburst].
  pose proof (check_n_clock l n now Hwf Hn Hr1) as Hclk.
  cbn [run_checks length].
  destruct (check_n l n now) as [l1 r]. cbn [fst snd] in *.
  specialize (IH l1 now Hwf1 Hns ltac:(lia) Hmono ltac:(unfold in_range in *; lia)).
  destruct (run_checks l1 calls) as [l2 g2]. cbn [fst snd] in *.
  destruct IH as (Hwf2 & Hclk2 & Hacc2).
  rewrite Hrate, Hburst in Hacc2.
  split_and!; [done|lia|lia|].
  replace (last_update (state l2) - last_update (state l))
    with ((last_update (state l2) - last_update (state l1))
          + (last_update (state l1) - last_update (state l))) by lia.
  rewrite Nat2Z.inj_succ. unfold NANOS_PER_SEC in *. lia.
Qed.

Lemma run_checks_bound l calls t :
  wf l → Forall (λ c, is_u32 c.2) calls → last_update (state l) <= t →
  nondecreasing t calls.*1 →
  in_range (end_time t calls.*1 - last_update (state l)) →
  2 ^ 53 * NANOS_PER_SEC * (run_checks l calls).2 <=
  2 ^ 53 * NANOS_PER_SEC * burst_size l
  + (2 ^ 53 + 4) * (rate_per_sec l * (end_time t calls.*1 - last_update (state l)))
  + Z.of_nat (length calls) * (NANOS_PER_SEC * burst_size l).
Proof.
  intros Hwf Hn Ht Hmono Hr.
  destruct (run_checks_account l calls t Hwf Hn Ht Hmono Hr)
    as ((_ & _ & Hf & _) & Hclk & Hacc).
  destruct Hwf as (Hrate & Hb & _ & Hle). apply is_f64_nonneg in Hf.
  pose proof F64_ONE_pos as Hu. set (u := F64_ONE) in *. clearbody u.
  unfold is_uN, NANOS_PER_SEC in *.
  set (t1 := last_update (state (run_checks l calls).1)) in *.
  set (te := end_time _ _) in *. set (t0 := last_update (state l)) in *.
  assert (rate_per_sec l * (t1 - t0) * u <= rate_per_sec l * (te - t0) * u).
  { apply Z.mul_le_mono_nonneg_r; [lia|]. apply Z.mul_le_mono_nonneg_l; lia. }
  apply (Z.mul_le_mono_pos_r _ _ u); [done|]. lia.
Qed.

(** C8: however a sequence of [check_n] calls is made on a bucket, the tokens
    it grants are at most the burst plus the rate times the time elapsed, up to
    the rounding of the [f64] arithmetic: a relative [2^-51] on the refills and
    [burst * 2^-53] per call.  In integers, with nanosecond clock readings. *)
Theorem check_n_rate_bound l calls :
  wf l → Forall (λ c, is_u32 c.2) calls →
  nondecreasing (last_update (state l)) calls.*1 →
  in_range (end_time (last_update (state l)) calls.*1 - last_update (state l)) →
  let elapsed := end_time (last_update (state l)) calls.*1 - last_update (state l) in
  2 ^ 53 * NANOS_PER_SEC * (run_checks l calls).2 <=
  2 ^ 53 * NANOS_PER_SEC * burst_size l
  + (2 ^ 53 + 4) * (rate_per_sec l * elapsed)
  + Z.of_nat (length calls) * (NANOS_PER_SEC * burst_size l).
Proof. intros. by apply run_checks_bound. Qed.

(** ** Waiting for tokens *)

Lemma until_turn_cases l n now :
  wf l → is_u32 n → 0 < rate_per_sec l → in_range (now - last_update (state l)) →
  let l' := refill l now in
  (n * F64_ONE <= tokens (state l') ∧ until_turn l n now = (take_tokens l' n, Granted)) ∨
  (tokens (state l') < n * F64_ONE ∧
   until_turn l n now =
     (l', match from_secs_f64 (fdiv (fsub (n * F64_ONE) (tokens (state l')))
                                    (rate_per_sec l * F64_ONE)) with
          | Some d => SleepFor d
          | None => Panicked
          end)).
Proof.
  intros Hwf Hn Hp Hr. cbn zeta. unfold until_turn. rewrite (u32_f64_exact n Hn).
  destruct (refill_frame l now) as [-> _].
  rewrite (u32_f64_exact (rate_per_sec l)) by (by destruct Hwf).
  destruct (Z.leb_spec (n * F64_ONE) (tokens (state (refill l now)))); [left; done|right].
  split; [done|]. by rewrite (proj2 (Z.eqb_neq _ _)) by lia.
Qed.

(** The computed sleep: it does not panic, and its length is the exact waiting
    time up to a nanosecond and the rounding. *)
Lemma wait_bounds rate missing :
  is_u32 rate → 0 < rate → 0 < missing <= 2 ^ 32 * F64_ONE →
  ∃ w, from_secs_f64 (fdiv (fround missing 1) (rate * F64_ONE)) = Some w ∧
    0 <= w <= 2 ^ 34 * NANOS_PER_SEC ∧
    2 ^ 53 * (2 * NANOS_PER_SEC * missing)
      <= 2 ^ 53 * (rate * F64_ONE * (2 * w + 1))
         + 4 * NANOS_PER_SEC * missing + 2 ^ 54 * NANOS_PER_SEC * rate ∧
    2 ^ 53 * (rate * F64_ONE * (2 * w - 1))
      <= 2 ^ 53 * (2 * NANOS_PER_SEC * missing)
         + 6 * NANOS_PER_SEC * missing + 2 ^ 54 * NANOS_PER_SEC * rate.
Proof.
  unfold is_uN. intros Hr Hp Hm. pose proof F64_ONE_ge as H1.
  pose proof (fround_unit_rel missing ltac:(lia)) as Hmi.
  set (mi := fround missing 1) in *. clearbody mi.
  set (u := F64_ONE) in *.
  pose proof (fround_abs (mi * u) (rate * u) ltac:(nia) ltac:(nia)) as Hs.
  assert (0 <= fdiv mi (rate * u)) as Hs0 by (apply fround_nonneg; nia).
  unfold fdiv in *. fold u in Hs0 |- *. set (s := fround _ _) in *. clearbody s.
  assert (Hs' : 2 ^ 53 * mi - (mi + 2 ^ 52 * rate) <= 2 ^ 53 * (rate * s)
                <= 2 ^ 53 * mi + (mi + 2 ^ 52 * rate)).
  { split; apply (Z.mul_le_mono_pos_r _ _ u); lia. }
  assert (s <= 2 ^ 33 * u) by nia.
  unfold from_secs_f64. fold u. rewrite (proj2 (Z.ltb_ge s 0)) by lia.
  pose proof (rdiv_bounds (s * NANOS_PER_SEC) u ltac:(lia)) as Hw.
  pose proof (rdiv_ge (s * NANOS_PER_SEC) u 0 ltac:(lia) ltac:(unfold NANOS_PER_SEC; lia)).
  set (w := rdiv _ _) in *. clearbody w u. unfold NANOS_PER_SEC in *.
  assert (w <= 2 ^ 34 * 1000000000) by nia.
  exists w. rewrite (proj2 (Z.ltb_lt w _)) by lia. split; [done|]. split; [lia|].
  assert (rate * (2 * (s * 1000000000) - u) <= rate * (2 * (u * w)) <= rate * (2 * (s * 1000000000) + u))
    by (split; apply Z.mul_le_mono_nonneg_l; lia).
  lia.
Qed.

Lemma refill_at_now l now :
  wf l → 0 < rate_per_sec l → last_update (state l) <= now →
  in_range (now - last_update (state l)) → last_update (state (refill l now)) = now.
Proof.
  intros Hwf Hp Hle Hr. destruct (refill_cases l Hwf now Hr) as [[Hnt ->]|(_ & -> & _)]; [|done].
  destruct (Z.eq_dec (last_update (state l)) now) as [|Hne]; [done|].
  destruct Hwf as (Hu & _).
  pose proof (new_tokens_pos (rate_per_sec l) (duration_since now (last_update (state l))) Hu Hp
    ltac:(unfold duration_since; lia) ltac:(unfold duration_since, in_range in *; lia)). lia.
Qed.

(** A bucket that has waited [w + late] nanoseconds, [w] being the computed
    sleep and [late >= 1], covers the request. *)
Lemma refill_after_wait l n now w late :
  wf l → 0 < rate_per_sec l → last_update (state l) = now →
  0 < n <= burst_size l → n <= 2 ^ 18 * rate_per_sec l →
  0 <= w → 1 <= late → in_range (w + late) →
  2 ^ 53 * (2 * NANOS_PER_SEC * (n * F64_ONE - tokens (state l)))
    <= 2 ^ 53 * (rate_per_sec l * F64_ONE * (2 * w + 1))
       + 4 * NANOS_PER_SEC * (n * F64_ONE - tokens (state l))
       + 2 ^ 54 * NANOS_PER_SEC * rate_per_sec l →
  n * F64_ONE <= tokens (state (refill l (now + w + late))).
Proof.
  intros Hwf Hp <- Hn Hnr Hw Hl Hr Hwait. pose proof Hwf as (Hu & Hb & Hf & Hle).
  pose proof F64_ONE_ge as H1. apply refill_reaches; [done| | | |].
  - replace (last_update (state l) + w + late - last_update (state l)) with (w + late) by lia. done.
  - apply u32_is_f64. unfold is_uN in *. lia.
  - apply Z.mul_le_mono_nonneg_r; lia.
  - unfold duration_since.
    replace (Z.max 0 (last_update (state l) + w + late - last_update (state l)))
      with (w + late) by lia.
    destruct (new_tokens_bounds (rate_per_sec l) (w + late) Hu ltac:(lia) Hr) as [_ [Hlo _]].
    apply is_f64_nonneg in Hf.
    assert (rate_per_sec l * (w + 1) * F64_ONE <= rate_per_sec l * (w + late) * F64_ONE).
    { apply Z.mul_le_mono_nonneg_r; [lia|]. apply Z.mul_le_mono_nonneg_l; lia. }
    assert (n * F64_ONE <= 2 ^ 18 * rate_per_sec l * F64_ONE)
      by (apply Z.mul_le_mono_nonneg_r; lia).
    assert (2 ^ 200 * rate_per_sec l <= rate_per_sec l * F64_ONE) by nia.
    set (nt := new_tokens _ _) in *. set (T := tokens (state l)) in *.
    set (r := rate_per_sec l) in *. unfold NANOS_PER_SEC in *. clearbody nt T r.
    set (u := F64_ONE) in *. clearbody u. lia.
Qed.

(** A turn of [until_n_ready] never panics on a bucket with a rate, and when it
    sleeps, a turn made after the deadline with the bucket untouched is granted
    (for requests within the burst and [2^18] seconds' worth of rate). *)
Lemma until_turn_total l n now :
  wf l → is_u32 n → 0 < rate_per_sec l → last_update (state l) <= now →
  in_range (now - last_update (state l)) →
  let l' := (until_turn l n now).1 in
  wf l' ∧ last_update (state l') = now ∧
  match (until_turn l n now).2 with
  | Granted => True
  | SleepFor d => 0 <= d ∧ (0 < n <= burst_size l → n <= 2 ^ 18 * rate_per_sec l →
      ∀ t, now + d < t → in_range (t - now) → (until_turn l' n t).2 = Granted)
  | Panicked => False
  end.
Proof.
  intros Hwf Hn Hp Hle Hr. pose proof Hwf as (Hu & Hb & _ & _). cbn zeta.
  pose proof (refill_wf l Hwf now Hr) as Hwf1.
  pose proof (refill_at_now l now Hwf Hp Hle Hr) as Hat.
  destruct (refill_frame l now) as [Hfr Hfb].
  destruct (until_turn_cases l n now Hwf Hn Hp Hr) as [[Hc ->]|[Hc ->]]; cbn [fst snd].
  { split; [by apply take_tokens_exact|].
    by destruct (take_tokens_frame (refill l now) n) as [-> _]. }
  pose proof Hwf1 as (_ & _ & Hf1 & _). apply is_f64_nonneg in Hf1. pose proof F64_ONE_ge as H1.
  destruct (wait_bounds (rate_per_sec l) (n * F64_ONE - tokens (state (refill l now))))
    as (w & Hw & Hwr & Hlo & _); [done|done|unfold is_uN in *; nia|].
  unfold fsub. rewrite Hw. split; [done|]. split; [done|]. split; [lia|]. intros Hnb Hnr t Ht Hrt.
  assert (Hcov : n * F64_ONE <= tokens (state (refill (refill l now) t))).
  { replace t with (now + w + (t - now - w)) by lia.
    apply refill_after_wait; rewrite ?Hfr, ?Hfb; try done; [lia|lia|].
    by replace (w + (t - now - w)) with (t - now) by lia. }
  destruct (until_turn_cases (refill l now) n t Hwf1 Hn ltac:(by rewrite Hfr)
    ltac:(by rewrite Hat)) as [[_ ->]|[Hno _]]; [done|lia].
Qed.

(** C24: a task that alone draws on a bucket gets its tokens after at most one
    sleep: the request is granted at once, or after the computed sleep if the
    wake-up is at least a nanosecond late.  Requests within the burst and at
    most [2^18] seconds' worth of rate; the sleep is never longer than the
    exact waiting time of the whole request plus two nanoseconds. *)
Theorem until_n_ready_one_sleep fuel late l n now :
  wf l → 0 < n <= burst_size l → n <= 2 ^ 18 * rate_per_sec l →
  last_update (state l) <= now → in_range (now - last_update (state l)) →
  1 <= late 0%nat <= 2 ^ 52 * NANOS_PER_SEC →
  ∃ l' t, until_n_ready (S (S fuel)) late l n now = UDone l' t ∧ wf l' ∧
    (t = now ∨ rate_per_sec l * (t - now - late 0%nat) <= NANOS_PER_SEC * n + 2 * rate_per_sec l).
Proof.
  intros Hwf Hn Hnr Hle Hr Hlate. pose proof Hwf as (Hu & Hb & _ & _).
  assert (Hp : 0 < rate_per_sec l) by lia.
  assert (Hnu : is_u32 n) by (unfold is_uN in *; lia).
  pose proof (refill_wf l Hwf now Hr) as Hwf1.
  pose proof (refill_at_now l now Hwf Hp Hle Hr) as Hat.
  destruct (refill_frame l now) as [Hfr Hfb].
  destruct (until_turn_cases l n now Hwf Hnu Hp Hr) as [[Hc Ht]|[Hc Ht]];
    remember (S fuel) as fuel' eqn:Hfuel; cbn [until_n_ready]; rewrite Ht.
  { eexists _, _. split; [done|]. split; [|by left]. by apply take_tokens_exact. }
  pose proof Hwf1 as (_ & _ & Hf1 & Hle1). apply is_f64_nonneg in Hf1.
  pose proof F64_ONE_ge as H1.
  destruct (wait_bounds (rate_per_sec l) (n * F64_ONE - tokens (state (refill l now))))
    as (w & Hw & Hwr & Hlo & Hhi); [done|done|unfold is_uN in *; nia|].
  unfold fsub. rewrite Hw.
  assert (Hrange : in_range (w + late 0%nat)) by (unfold in_range, NANOS_PER_SEC in *; lia).
  assert (Hcov : n * F64_ONE <= tokens (state (refill (refill l now) (now + w + late 0%nat)))).
  { apply refill_after_wait; rewrite ?Hfr, ?Hfb; try done; lia. }
  subst fuel'. cbn [until_n_ready].
  assert (Hr2 : in_range (now + w + late 0%nat - last_update (state (refill l now)))).
  { rewrite Hat. unfold in_range in *. lia. }
  destruct (until_turn_cases (refill l now) n (now + w + late 0%nat) Hwf1 Hnu
    ltac:(by rewrite Hfr) Hr2) as [[_ ->]|[Hno _]]; [|lia].
  eexists _, _. split; [done|]. split.
  - apply take_tokens_exact; [|done|done]. by apply refill_wf.
  - right. replace (now + w + late 0%nat - now - late 0%nat) with w by lia.
    unfold NANOS_PER_SEC, is_uN in *. set (T := tokens _) in *. clearbody T.
    set (u := F64_ONE) in *. clearbody u.
    apply (Z.mul_le_mono_pos_r _ _ u); [lia|]. nia.
Qed.

(** A request larger than the burst is never granted: however long the
    loop runs, it sleeps, wakes and finds too few tokens. *)
Theorem until_n_ready_beyond_burst fuel late l n now :
  wf l → is_u32 n → burst_size l < n → 0 < rate_per_sec l →
  last_update (state l) <= now → in_range (now - last_update (state l)) →
  (∀ k, 0 <= late k <= 2 ^ 52 * NANOS_PER_SEC) →
  until_n_ready fuel late l n now = URunning.
Proof.
  revert late l now. induction fuel as [|fuel IH]; intros late l now Hwf Hn Hb Hp Hle Hr Hlate;
    cbn [until_n_ready]; [done|].
  pose proof (refill_wf l Hwf now Hr) as Hwf1.
  pose proof (refill_at_now l now Hwf Hp Hle Hr) as Hat.
  destruct (refill_frame l now) as [Hfr Hfb].
  pose proof Hwf1 as (Hu1 & _ & Hf1 & Hle1). apply is_f64_nonneg in Hf1.
  rewrite Hfb in Hle1. rewrite Hfr in Hu1. pose proof F64_ONE_ge as H1.
  assert (burst_size l * F64_ONE < n * F64_ONE) by (apply Z.mul_lt_mono_pos_r; lia).
  destruct (until_turn_cases l n now Hwf Hn Hp Hr) as [[Hc _]|[_ ->]]; [lia|].
  destruct (wait_bounds (rate_per_sec l) (n * F64_ONE - tokens (state (refill l now))))
    as (w & Hw & Hwr & _ & _); [done|done|unfold is_uN in *; nia|].
  unfold fsub. rewrite Hw. specialize (Hlate 0%nat) as Hl0.
  apply IH; rewrite ?Hfr, ?Hfb, ?Hat; try done; [lia|].
  unfold in_range, NANOS_PER_SEC in *. lia.
Qed.

(** A turn of [until_n_ready] draws on the bucket as [check_n] does. *)
Lemma until_turn_check l n now :
  (until_turn l n now).1 = (check_n l n now).1 ∧
  ((until_turn l n now).2 = Granted ↔ is_ok (check_n l n now).2 = true).
Proof.
  unfold until_turn, check_n.
  destruct (f64_of_int n <=? tokens (state (refill l now))); [done|].
  destruct (rate_per_sec (refill l now) =? 0); [done|]. split; [done|].
  by destruct (from_secs_f64 _).
Qed.

Lemma run_checks_app l c1 c2 :
  run_checks l (c1 ++ c2) =
    let (l1, g1) := run_checks l c1 in
    let (l2, g2) := run_checks l1 c2 in (l2, g1 + g2).
Proof.
  revert l. induction c1 as [|[now n] c1 IH]; intros l; cbn [app run_checks].
  { by destruct (run_checks l c2). }
  destruct (check_n l n now) as [l1 r]. rewrite IH.
  destruct (run_checks l1 c1) as [l2 g1]. destruct (run_checks l2 c2) as [l3 g2].
  f_equal. lia.
Qed.

Lemma run_checks_frame l cs :
  rate_per_sec (run_checks l cs).1 = rate_per_sec l ∧ burst_size (run_checks l cs).1 = burst_size l.
Proof.
  revert l. induction cs as [|[now n] cs IH]; intros l; cbn [run_checks]; [done|].
  pose proof (check_n_frame l n now) as [E1 E2].
  destruct (check_n l n now) as [l1 r]. specialize (IH l1).
  destruct (run_checks l1 cs) as [l2 g]. cbn [fst snd] in *. destruct IH. split; congruence.
Qed.

Lemma run_checks_nonneg l cs : Forall (λ c, is_u32 c.2) cs → 0 <= (run_checks l cs).2.
Proof.
  intros Hcs. revert l. induction Hcs as [|[now n] cs Hn Hcs IH]; intros l; cbn [run_checks]; [done|].
  destruct (check_n l n now) as [l1 r]. specialize (IH l1).
  destruct (run_checks l1 cs) as [l2 g]. cbn [fst snd] in *. unfold is_uN in Hn.
  destruct (is_ok r); lia.
Qed.

(** Leaving readings out keeps a sequence nondecreasing, and it ends no later. *)
Lemma nondecreasing_weaken t t' ts : t <= t' → nondecreasing t' ts → nondecreasing t ts.
Proof. destruct ts as [|u ts]; simpl; [done|]. intros ? [??]. split; [lia|done]. Qed.

Lemma nondecreasing_sublist t ts us :
  us `sublist_of` ts → nondecreasing t ts → nondecreasing t us ∧ end_time t us <= end_time t ts.
Proof.
  intros Hs. revert t. induction Hs as [|x us ts Hs IH|x us ts Hs IH]; intros t; simpl.
  - split; [done|lia].
  - intros [? ?%IH]. naive_solver.
  - intros [Hx Hts]. destruct (IH _ Hts) as [IH1 IH2]. split; [by eapply nondecreasing_weaken|].
    destruct us; simpl in *; [|done]. apply nondecreasing_end in Hts. lia.
Qed.

(** ** Creation and the contract of [check_n] *)

Lemma new_wf rate burst now : is_u32 rate → is_u32 burst → wf (new rate burst now).
Proof.
  intros Hr Hb. unfold new, wf. cbn [rate_per_sec burst_size state tokens].
  rewrite (u32_f64_exact _ Hb). split_and!; [done|done|by apply u32_is_f64|lia].
Qed.

(** [check_n] preserves the bucket invariant (the token count is a number
    between zero and the burst), never lowers the count by refilling, and either
    takes exactly the tokens asked for, without rounding, when the refilled
    bucket holds them, or takes none and reports [Err]. *)
Theorem check_n_spec l n now :
  wf l → is_u32 n → in_range (now - last_update (state l)) →
  let avail := tokens (state (refill l now)) in
  let l' := (check_n l n now).1 in
  wf l' ∧ tokens (state l) <= avail <= burst_size l * F64_ONE ∧
  match (check_n l n now).2 with
  | Ok _ => n * F64_ONE <= avail ∧ tokens (state l') = avail - n * F64_ONE
  | Err _ => avail < n * F64_ONE ∧ tokens (state l') = avail
  end.
Proof.
  intros Hwf Hn Hr. cbn zeta. split; [by apply check_n_wf|].
  pose proof (refill_wf l Hwf now Hr) as Hwf1. pose proof Hwf1 as (_ & _ & _ & Hle1).
  split; [split; [by apply refill_mono|done]|].
  destruct (check_n_cases l n now Hwf Hn Hr) as [[Hc ->]|[Hc ->]]; cbn [fst snd]; [|done].
  split; [done|]. by apply take_tokens_exact.
Qed.

(** The bucket delivers its nominal rate: a request within the burst is
    granted as soon as the rate times the time since the last update covers it
    (up to a relative [2^-51]), whatever was drawn before. *)
Theorem check_n_available l n now :
  wf l → 0 < n <= burst_size l → in_range (now - last_update (state l)) →
  2 ^ 53 * NANOS_PER_SEC * n <= (2 ^ 53 - 4) * (rate_per_sec l * (now - last_update (state l))) →
  (check_n l n now).2 = Ok tt.
Proof.
  intros Hwf Hn Hr Hlong. pose proof Hwf as (Hu & Hb & Hf & _).
  assert (Hnu : is_u32 n) by (unfold is_uN in *; lia).
  destruct (check_n_cases l n now Hwf Hnu Hr) as [[_ ->]|[Hc _]]; [done|].
  exfalso. apply (Z.lt_irrefl (n * F64_ONE)). eapply Z.le_lt_trans; [|exact Hc].
  pose proof F64_ONE_pos as H1.
  apply refill_reaches; [done|done|by apply u32_is_f64|apply Z.mul_le_mono_nonneg_r; lia|].
  set (d := now - last_update (state l)) in *.
  assert (0 < d) by (unfold is_uN, NANOS_PER_SEC in *; nia).
  unfold duration_since. fold d. replace (Z.max 0 d) with d by lia.
  destruct (new_tokens_bounds (rate_per_sec l) d Hu ltac:(lia) Hr) as [_ [Hlo _]].
  apply is_f64_nonneg in Hf. set (nt := new_tokens _ _) in *. clearbody nt.
  apply (Z.mul_le_mono_nonneg_r _ _ F64_ONE ltac:(lia)) in Hlong.
  unfold NANOS_PER_SEC in *. lia.
Qed.

(** ** The properties at concrete buckets *)

Lemma new_wf_10_5 : wf (new 10 5 0).
Proof. apply new_wf; unfold is_uN; lia. Qed.

Lemma check_n_rate_bound_witness :
  2 ^ 53 * NANOS_PER_SEC * (run_checks (new 10 5 0) [(0, 5); (1000000000, 3)]).2 <=
  2 ^ 53 * NANOS_PER_SEC * 5 + (2 ^ 53 + 4) * (10 * 1000000000) + 2 * (NANOS_PER_SEC * 5).
Proof.
  refine (check_n_rate_bound (new 10 5 0) [(0, 5); (1000000000, 3)] new_wf_10_5 _ _ _).
  - repeat constructor; unfold is_uN; simpl; lia.
  - simpl. lia.
  - unfold in_range, NANOS_PER_SEC. simpl. lia.
Defined.

(** An empty bucket, on which a request has to sleep. *)
Definition empty_10_5 : SimpleLimiter :=
  {| rate_per_sec := 10; burst_size := 5; state := {| tokens := 0; last_update := 0 |} |}.

Lemma empty_wf_10_5 : wf empty_10_5.
Proof.
  split; [unfold is_uN; simpl; lia|]. split; [unfold is_uN; simpl; lia|]. split.
  - exists 0, 0. simpl. lia.
  - pose proof F64_ONE_pos. cbn [empty_10_5 state tokens burst_size]. lia.
Qed.

Definition sleeps (t : turn) : bool := match t with SleepFor _ => true | _ => false end.

Lemma until_n_ready_one_sleep_witness :
  sleeps (until_turn empty_10_5 3 0).2 = true ∧
  ∃ l' t, until_n_ready 2 (λ _, 1) empty_10_5 3 0 = UDone l' t ∧ wf l' ∧
    (t = 0 ∨ 10 * (t - 0 - 1) <= NANOS_PER_SEC * 3 + 2 * 10).
Proof.
  split; [vm_compute; reflexivity|].
  refine (until_n_ready_one_sleep 0 (λ _, 1) empty_10_5 3 0 empty_wf_10_5 _ _ _ _ _);
    unfold in_range, NANOS_PER_SEC; simpl; lia.
Defined.

Lemma until_n_ready_beyond_burst_witness :
  until_n_ready 100 (λ _, 0) (new 10 5 0) 6 0 = URunning.
Proof.
  refine (until_n_ready_beyond_burst 100 (λ _, 0) (new 10 5 0) 6 0 new_wf_10_5 _ _ _ _ _ _);
    unfold is_uN, in_range, NANOS_PER_SEC; simpl; lia.
Defined.

Lemma check_n_spec_witness : wf (check_n (new 10 5 0) 6 1000).1.
Proof.
  refine (proj1 (check_n_spec (new 10 5 0) 6 1000 new_wf_10_5 _ _));
    unfold is_uN, in_range, NANOS_PER_SEC; simpl; lia.
Defined.

Lemma check_n_available_witness : (check_n (new 10 5 0) 4 500000000).2 = Ok tt.
Proof.
  refine (check_n_available (new 10 5 0) 4 500000000 new_wf_10_5 _ _ _);
    unfold in_range, NANOS_PER_SEC; simpl; lia.
Defined.

End SimpleLimiter.
