(* ===== verification/RateLimit.v ===== *)
(** * Per-client rate limiting: [RateLimiter] of [src/src/traffic/limiter.rs]

    One token bucket per client address, created on the first connection of
    the address.  The theorems reduce a run of the limiter over connections of
    many clients to independent runs of [SimpleLimiter], one per client. *)

From S2P Require Import Prelude Float64 Config NetAddr Limiter.
Open Scope Z_scope.

Record RateLimiter := {
  limiters : gmap IpAddr SimpleLimiter;
  rl_config : RateLimitConfig;
}.

#[local] Opaque SimpleLimiter.check_n SimpleLimiter.new.

Module RateLimiter.

Definition new (config : RateLimitConfig) : RateLimiter :=
  {| limiters := ∅; rl_config := config |}.

(** The bucket [check] inserts for a client it has not seen. *)
Definition fresh_bucket (config : RateLimitConfig) (now : Z) : SimpleLimiter :=
  SimpleLimiter.new (Z.max (requests_per_second config) 1) (Z.max (burst config) 1) now.

(** [check]; [created] is the clock reading of [SimpleLimiter::new], made only
    when the address is new, and [now] the one of [check_n]. *)
Definition check (rl : RateLimiter) (ip : IpAddr) (created now : Z) : RateLimiter * bool :=
  if negb (rl_enabled (rl_config rl)) then (rl, true)
  else
    let limiter := default (fresh_bucket (rl_config rl) created) (limiters rl !! ip) in
    let (limiter, r) := SimpleLimiter.check_n limiter 1 now in
    ({| limiters := <[ip := limiter]> (limiters rl); rl_config := rl_config rl |}, is_ok r).

(** ** Runs over a sequence of connections *)

Record attempt := { at_ip : IpAddr; at_created : Z; at_now : Z }.

Fixpoint run (rl : RateLimiter) (evs : list attempt) : RateLimiter * list bool :=
  match evs with
  | [] => (rl, [])
  | e :: evs =>
      let (rl, b) := check rl (at_ip e) (at_created e) (at_now e) in
      let (rl, bs) := run rl evs in
      (rl, b :: bs)
  end.

(** How many connections of [ip] were admitted. *)
Fixpoint admitted (ip : IpAddr) (evs : list attempt) (outs : list bool) : Z :=
  match evs, outs with
  | e :: evs, b :: outs =>
      (if bool_decide (at_ip e = ip) && b then 1 else 0) + admitted ip evs outs
  | _, _ => 0
  end.

(** The connections of one client, and the [check_n] calls they make. *)
Definition of_client (ip : IpAddr) (evs : list attempt) : list attempt :=
  filter (λ e, at_ip e = ip) evs.

Definition calls (evs : list attempt) : list (Z * Z) := (λ e, (at_now e, 1)) <$> evs.

(** The bucket a client starts a run with. *)
Definition start_bucket (rl : RateLimiter) (ip : IpAddr) (evs : list attempt) : option SimpleLimiter :=
  match limiters rl !! ip with
  | Some l => Some l
  | None => (λ e, fresh_bucket (rl_config rl) (at_created e)) <$> head (of_client ip evs)
  end.

Lemma check_enabled rl ip created now :
  rl_enabled (rl_config rl) = true →
  let l := default (fresh_bucket (rl_config rl) created) (limiters rl !! ip) in
  check rl ip created now =
    ({| limiters := <[ip := (SimpleLimiter.check_n l 1 now).1]> (limiters rl);
        rl_config := rl_config rl |},
     is_ok (SimpleLimiter.check_n l 1 now).2).
Proof. intros He. unfold check. rewrite He. simpl. by destruct (SimpleLimiter.check_n _ _ _). Qed.

(** The run of one client is a run of its own bucket, whatever the others do. *)
Lemma run_client rl evs ip :
  rl_enabled (rl_config rl) = true →
  match start_bucket rl ip evs with
  | None =>
      limiters (run rl evs).1 !! ip = None ∧ admitted ip evs (run rl evs).2 = 0
  | Some l =>
      let r := SimpleLimiter.run_checks l (calls (of_client ip evs)) in
      limiters (run rl evs).1 !! ip = Some r.1 ∧ admitted ip evs (run rl evs).2 = r.2
  end.
Proof.
  revert rl. induction evs as [|e evs IH]; intros rl He.
  { unfold start_bucket, of_client. simpl. by destruct (limiters rl !! ip). }
  cbn [run]. rewrite (check_enabled rl _ _ _ He).
  set (l0 := default _ _).
  set (rl1 := {| limiters := <[at_ip e := _]> (limiters rl); rl_config := rl_config rl |}).
  specialize (IH rl1 He).
  destruct (run rl1 evs) as [rl2 bs] eqn:Hrun. cbn [fst snd admitted] in *.
  unfold start_bucket, of_client in *. rewrite filter_cons.
  destruct (decide (at_ip e = ip)) as [<-|Hne].
  - rewrite bool_decide_true by done. simpl in IH. rewrite lookup_insert_eq in IH.
    destruct IH as [IH1 IH2].
    assert (match limiters rl !! at_ip e with
            | Some l => Some l
            | None => Some (fresh_bucket (rl_config rl) (at_created e))
            end = Some l0) as Hl0 by (unfold l0; by destruct (limiters rl !! at_ip e)).
    cbn [head fmap option_fmap option_map]. rewrite Hl0.
    cbn [calls fmap list_fmap SimpleLimiter.run_checks].
    destruct (SimpleLimiter.check_n l0 1 (at_now e)) as [l1 r]. cbn [fst snd] in *.
    fold (calls (filter (λ e0, at_ip e0 = at_ip e) evs)) in *.
    change (list_fmap attempt (Z * Z)%type (λ e0, (at_now e0, 1)) (filter (λ e0, at_ip e0 = at_ip e) evs))
      with (calls (filter (λ e0, at_ip e0 = at_ip e) evs)).
    destruct (SimpleLimiter.run_checks l1 _) as [l2 g]. cbn [fst snd] in *.
    rewrite IH1, IH2. done.
  - rewrite bool_decide_false by done. simpl in IH. rewrite lookup_insert_ne in IH by done.
    exact IH.
Qed.

(** ** The guarantee to the client *)

(** Connections are handled in the order of their clock readings, the bucket of
    a new client being created before it is checked. *)
Fixpoint ordered (t : Z) (evs : list attempt) : Prop :=
  match evs with
  | [] => True
  | e :: evs => t <= at_created e <= at_now e ∧ ordered (at_now e) evs
  end.

Definition finish (t : Z) (evs : list attempt) : Z :=
  SimpleLimiter.end_time t (at_now <$> evs).

Lemma finish_cons t e evs : finish t (e :: evs) = finish (at_now e) evs.
Proof. done. Qed.

Lemma ordered_mono t t' evs : t' <= t → ordered t evs → ordered t' evs.
Proof. destruct evs as [|e evs]; simpl; [done|]. intros ? [??]. split; [lia|done]. Qed.

Lemma ordered_finish t evs : ordered t evs → t <= finish t evs.
Proof.
  revert t. induction evs as [|e evs IH]; intros t; [done|].
  rewrite finish_cons. intros [? ?%IH]. lia.
Qed.

(** The readings of one client are ordered too, and end no later. *)
Lemma ordered_client ip t evs :
  ordered t evs →
  ordered t (of_client ip evs) ∧ finish t (of_client ip evs) <= finish t evs.
Proof.
  unfold of_client. revert t. induction evs as [|e evs IH]; intros t Ho; [done|].
  destruct Ho as [He Ho]. destruct (IH _ Ho) as [IH1 IH2].
  rewrite filter_cons. case_decide as Hip.
  - split; [done|]. exact IH2.
  - split; [by eapply ordered_mono; [|exact IH1]; lia|].
    rewrite finish_cons. etrans; [|exact IH2].
    destruct (filter (λ e0, at_ip e0 = ip) evs) as [|e' evs'] eqn:Hf; [unfold finish; simpl; lia|done].
Qed.

Lemma ordered_calls t evs :
  ordered t evs → SimpleLimiter.nondecreasing t (calls evs).*1 ∧
  SimpleLimiter.end_time t (calls evs).*1 = finish t evs.
Proof.
  revert t. induction evs as [|e evs IH]; intros t; [done|].
  intros [He [IH1 IH2]%IH]. rewrite finish_cons, <- IH2. split; [split; [simpl; lia|done]|done].
Qed.

Lemma calls_unit evs : Forall (λ c, is_u32 c.2) (calls evs).
Proof. apply Forall_fmap, Forall_true. intros e. simpl. done. Qed.

Lemma fresh_bucket_wf config now :
  is_u32 (requests_per_second config) → is_u32 (burst config) →
  SimpleLimiter.wf (fresh_bucket config now).
Proof. unfold is_uN. intros. apply SimpleLimiter.new_wf; unfold is_uN; lia. Qed.

(** ** Invariant *)

(** Every bucket is one of the configuration, in a consistent state. *)
Definition bucket_ok (config : RateLimitConfig) (l : SimpleLimiter) : Prop :=
  SimpleLimiter.wf l ∧ rate_per_sec l = Z.max (requests_per_second config) 1 ∧
  burst_size l = Z.max (burst config) 1.
Definition limiters_ok (rl : RateLimiter) : Prop :=
  map_Forall (λ _, bucket_ok (rl_config rl)) (limiters rl).

(** Clock readings that are within the range of a [Duration] of the client's
    bucket, or of the creation of one. *)
Definition timely (rl : RateLimiter) (ip : IpAddr) (created now : Z) : Prop :=
  SimpleLimiter.in_range (now - created) ∧
  ∀ l, limiters rl !! ip = Some l → SimpleLimiter.in_range (now - last_update (state l)).

Definition config_typed (config : RateLimitConfig) : Prop :=
  is_u32 (requests_per_second config) ∧ is_u32 (burst config).

Lemma check_config rl ip created now : rl_config (check rl ip created now).1 = rl_config rl.
Proof. unfold check. destruct (negb _); [done|]. by destruct (SimpleLimiter.check_n _ _ _). Qed.

Lemma check_ok rl ip created now :
  config_typed (rl_config rl) → limiters_ok rl → timely rl ip created now →
  limiters_ok (check rl ip created now).1.
Proof.
  intros [Hr Hb] Hok [Hc Ht]. destruct (rl_enabled (rl_config rl)) eqn:He.
  2: { unfold check. by rewrite He. }
  rewrite (check_enabled _ _ _ _ He). cbn [fst].
  apply map_Forall_insert_2; [|exact Hok].
  set (l0 := default (fresh_bucket (rl_config rl) created) (limiters rl !! ip)).
  enough (Hl : bucket_ok (rl_config rl) l0 ∧ SimpleLimiter.in_range (now - last_update (state l0))).
  { destruct Hl as [(Hwf & E1 & E2) Hin]. destruct (SimpleLimiter.check_n_frame l0 1 now) as [F1 F2].
    unfold bucket_ok. rewrite F1, F2. split; [|exact (conj E1 E2)].
    apply SimpleLimiter.check_n_wf; [exact Hwf|unfold is_uN; lia|exact Hin]. }
  unfold l0. destruct (limiters rl !! ip) as [l|] eqn:Hlook; cbn [default].
  - split; [exact (Hok _ _ Hlook)|by apply Ht].
  - change (last_update (state (fresh_bucket (rl_config rl) created))) with created.
    split; [|exact Hc]. split; [by apply fresh_bucket_wf|]. by split.
Qed.

(** In any interleaving of connections of any clients, the connections of
    one client that [RateLimiter::check] admits are at most
    [max(burst, 1)] plus [max(requests_per_second, 1)] per second elapsed, up to
    the rounding of the token arithmetic; connections of other clients do not
    count against it. *)
Theorem client_rate_bound config evs ip t0 :
  rl_enabled config = true → is_u32 (requests_per_second config) → is_u32 (burst config) →
  ordered t0 evs → SimpleLimiter.in_range (finish t0 evs - t0) →
  let R := Z.max (requests_per_second config) 1 in
  let B := Z.max (burst config) 1 in
  2 ^ 53 * NANOS_PER_SEC * admitted ip evs (run (new config) evs).2 <=
  2 ^ 53 * NANOS_PER_SEC * B + (2 ^ 53 + 4) * (R * (finish t0 evs - t0))
  + Z.of_nat (length (of_client ip evs)) * (NANOS_PER_SEC * B).
Proof.
  intros He Hr Hb Ho Hrange R B.
  pose proof (run_client (new config) evs ip He) as Hrun.
  destruct (ordered_client ip t0 evs Ho) as [Hoc Hfin].
  pose proof (ordered_finish t0 evs Ho) as Hge.
  unfold start_bucket in Hrun. change (limiters (new config)) with (∅ : gmap IpAddr SimpleLimiter) in Hrun.
  rewrite lookup_empty in Hrun.
  destruct (of_client ip evs) as [|e cs] eqn:Hcs; simpl in Hrun.
  { destruct Hrun as [_ ->]. unfold is_uN, NANOS_PER_SEC in *. simpl. nia. }
  destruct Hrun as [_ Hadm]. fold (calls (e :: cs)) in *. destruct Hoc as [Hoe Hoc].
  set (l := fresh_bucket config (at_created e)) in *.
  assert (ordered (at_created e) (e :: cs)) as Ho' by (split; [lia|done]).
  destruct (ordered_calls _ _ Ho') as [Hmono Hend].
  rewrite finish_cons, <- (finish_cons t0) in Hend.
  pose proof (SimpleLimiter.run_checks_bound l (calls (e :: cs)) (at_created e)
    (fresh_bucket_wf _ _ Hr Hb) (calls_unit _)) as Hbound.
  change (last_update (state l)) with (at_created e) in Hbound.
  change (burst_size l) with B in Hbound. change (rate_per_sec l) with R in Hbound.
  rewrite Hend in Hbound. unfold SimpleLimiter.in_range in *.
  specialize (Hbound ltac:(lia) Hmono ltac:(lia)).
  assert (R * (finish t0 (e :: cs) - at_created e) <= R * (finish t0 evs - t0))
    by (apply Z.mul_le_mono_nonneg_l; lia).
  change (admitted ip evs (run (new config) evs).2 = (SimpleLimiter.run_checks l (calls (e :: cs))).2) in Hadm.
  rewrite Hadm. unfold calls in Hbound at 2. rewrite length_fmap in Hbound. lia.
Qed.

(** A disabled rate limiter admits every connection and keeps no state. *)
Theorem rate_limit_disabled rl ip created now :
  rl_enabled (rl_config rl) = false → check rl ip created now = (rl, true).
Proof. intros He. unfold check. by rewrite He. Qed.

Lemma rate_limit_disabled_witness :
  let rl := new {| rl_enabled := false; requests_per_second := 1; burst := 0 |} in
  check rl (V4 [10; 0; 0; 1]) 0 0 = (rl, true).
Proof. intros rl. exact (rate_limit_disabled rl (V4 [10; 0; 0; 1]) 0 0 eq_refl). Defined.

End RateLimiter.
