(* ===== verification/BandwidthManager.v ===== *)
(** * Shared bandwidth buckets: [BandwidthManager] of [src/src/traffic/limiter.rs]

    The manager hands out [Arc<SimpleLimiter>]s that the rate-limited streams
    of several connections hold at once.  An [Arc] is an index into a store of
    buckets, so that sharing is visible in the model. *)

From S2P Require Import Prelude Float64 Config NetAddr Limiter.
Open Scope Z_scope.

#[local] Opaque SimpleLimiter.new.

(** The heap of [Arc<SimpleLimiter>] allocations. *)
Record LimStore := {
  lim_next : nat;
  lim_heap : gmap nat SimpleLimiter;
}.

Definition alloc_limiter (st : LimStore) (l : SimpleLimiter) : LimStore * nat :=
  ({| lim_next := S (lim_next st); lim_heap := <[lim_next st := l]> (lim_heap st) |}, lim_next st).

Record BandwidthManager := {
  bm_config : BandwidthLimitConfig;
  client_upload : gmap IpAddr nat;
  client_download : gmap IpAddr nat;
  backend_upload : gmap string nat;
  backend_download : gmap string nat;
}.

Module BandwidthManager.

Definition new (config : BandwidthLimitConfig) : BandwidthManager :=
  {| bm_config := config; client_upload := ∅; client_download := ∅;
     backend_upload := ∅; backend_download := ∅ |}.

Definition BURST : Z := 65536.

(** [get_or_create_limiter]; [now] is the clock reading of [SimpleLimiter::new]. *)
Definition get_or_create_limiter `{Countable K} (map : gmap K nat) (key : K) (rate now : Z)
    (st : LimStore) : gmap K nat * LimStore * nat :=
  match map !! key with
  | Some limiter => (map, st, limiter)
  | None =>
      let (st, lid) := alloc_limiter st (SimpleLimiter.new (Z.max rate 1024) BURST now) in
      (<[key := lid]> map, st, lid)
  end.

Definition get_client_upload_limiter (bm : BandwidthManager) (ip : IpAddr) (now : Z) (st : LimStore)
    : BandwidthManager * LimStore * option nat :=
  if negb (bw_enabled (bm_config bm)) then (bm, st, None)
  else match bw_client (bm_config bm) with
  | None => (bm, st, None)
  | Some limits =>
      let '(m, st, lid) := get_or_create_limiter (client_upload bm) ip
                             (client_upload_per_sec limits) now st in
      ({| bm_config := bm_config bm; client_upload := m; client_download := client_download bm;
          backend_upload := backend_upload bm; backend_download := backend_download bm |}, st, Some lid)
  end.

Definition get_client_download_limiter (bm : BandwidthManager) (ip : IpAddr) (now : Z) (st : LimStore)
    : BandwidthManager * LimStore * option nat :=
  if negb (bw_enabled (bm_config bm)) then (bm, st, None)
  else match bw_client (bm_config bm) with
  | None => (bm, st, None)
  | Some limits =>
      let '(m, st, lid) := get_or_create_limiter (client_download bm) ip
                             (client_download_per_sec limits) now st in
      ({| bm_config := bm_config bm; client_upload := client_upload bm; client_download := m;
          backend_upload := backend_upload bm; backend_download := backend_download bm |}, st, Some lid)
  end.

Definition get_backend_upload_limiter (bm : BandwidthManager) (key : string) (now : Z) (st : LimStore)
    : BandwidthManager * LimStore * option nat :=
  if negb (bw_enabled (bm_config bm)) then (bm, st, None)
  else match bw_backend (bm_config bm) with
  | None => (bm, st, None)
  | Some limits =>
      let '(m, st, lid) := get_or_create_limiter (backend_upload bm) key
                             (backend_upload_per_sec limits) now st in
      ({| bm_config := bm_config bm; client_upload := client_upload bm;
          client_download := client_download bm;
          backend_upload := m; backend_download := backend_download bm |}, st, Some lid)
  end.

Definition get_backend_download_limiter (bm : BandwidthManager) (key : string) (now : Z) (st : LimStore)
    : BandwidthManager * LimStore * option nat :=
  if negb (bw_enabled (bm_config bm)) then (bm, st, None)
  else match bw_backend (bm_config bm) with
  | None => (bm, st, None)
  | Some limits =>
      let '(m, st, lid) := get_or_create_limiter (backend_download bm) key
                             (backend_download_per_sec limits) now st in
      ({| bm_config := bm_config bm; client_upload := client_upload bm;
          client_download := client_download bm;
          backend_upload := backend_upload bm; backend_download := m |}, st, Some lid)
  end.

(** ** The four getters, uniformly *)

(** Which bucket is asked for. *)
Inductive slot :=
| ClientUpload (ip : IpAddr)
| ClientDownload (ip : IpAddr)
| BackendUpload (key : string)
| BackendDownload (key : string).

Definition get (s : slot) (bm : BandwidthManager) (now : Z) (st : LimStore)
    : BandwidthManager * LimStore * option nat :=
  match s with
  | ClientUpload ip => get_client_upload_limiter bm ip now st
  | ClientDownload ip => get_client_download_limiter bm ip now st
  | BackendUpload key => get_backend_upload_limiter bm key now st
  | BackendDownload key => get_backend_download_limiter bm key now st
  end.

Definition held (bm : BandwidthManager) (s : slot) : option nat :=
  match s with
  | ClientUpload ip => client_upload bm !! ip
  | ClientDownload ip => client_download bm !! ip
  | BackendUpload key => backend_upload bm !! key
  | BackendDownload key => backend_download bm !! key
  end.

(** The rate the configuration gives a slot; [None] when the slot is not
    limited. *)
Definition slot_rate (config : BandwidthLimitConfig) (s : slot) : option Z :=
  if negb (bw_enabled config) then None
  else match s with
  | ClientUpload _ => client_upload_per_sec <$> bw_client config
  | ClientDownload _ => client_download_per_sec <$> bw_client config
  | BackendUpload _ => backend_upload_per_sec <$> bw_backend config
  | BackendDownload _ => backend_download_per_sec <$> bw_backend config
  end.

(** What [get] does, in one statement for the four getters. *)
Lemma get_spec s bm now st :
  match slot_rate (bm_config bm) s with
  | None => get s bm now st = (bm, st, None)
  | Some rate =>
      match held bm s with
      | Some lid => get s bm now st = (bm, st, Some lid)
      | None => ∃ bm',
          get s bm now st =
            (bm', (alloc_limiter st (SimpleLimiter.new (Z.max rate 1024) BURST now)).1,
             Some (lim_next st)) ∧
          bm_config bm' = bm_config bm ∧ held bm' s = Some (lim_next st) ∧
          ∀ s', s' ≠ s → held bm' s' = held bm s'
      end
  end.
Proof.
  destruct bm as [[en oc ob] cu cd bu bd].
  destruct en, oc, ob, s; try done;
    unfold get, get_client_upload_limiter, get_client_download_limiter,
      get_backend_upload_limiter, get_backend_download_limiter, get_or_create_limiter; simpl;
    case_match; try done; simpl;
    (eexists; split; [done|]; split; [done|]; split; [apply lookup_insert_eq|]);
    intros [] Hne; simpl; try done; rewrite lookup_insert_ne; congruence.
Qed.

(** ** Invariant

    Streams draw on the buckets they hold while new connections ask for
    buckets: the two kinds of steps interleave freely. *)

Inductive step : BandwidthManager * LimStore → BandwidthManager * LimStore → Prop :=
| step_get s now bm st :
    step (bm, st) (get s bm now st).1
| step_draw lid n now bm st l :
    lim_heap st !! lid = Some l → is_u32 n →
    SimpleLimiter.in_range (now - last_update (state l)) →
    step (bm, st)
      (bm, {| lim_next := lim_next st;
              lim_heap := <[lid := (SimpleLimiter.check_n l n now).1]> (lim_heap st) |}).

Definition config_wf (config : BandwidthLimitConfig) : Prop :=
  ∀ s rate, slot_rate config s = Some rate → is_u32 rate.

(** A bucket as [get_or_create_limiter] makes it for a slot of rate [rate]. *)
Definition bucket_for (rate : Z) (l : SimpleLimiter) : Prop :=
  rate_per_sec l = Z.max rate 1024 ∧ burst_size l = BURST ∧ SimpleLimiter.wf l.

Record inv (c : BandwidthManager * LimStore) : Prop := {
  inv_config : config_wf (bm_config c.1);
  inv_fresh : ∀ lid l, lim_heap c.2 !! lid = Some l → (lid < lim_next c.2)%nat;
  inv_held : ∀ s lid, held c.1 s = Some lid →
    ∃ rate l, slot_rate (bm_config c.1) s = Some rate ∧
              lim_heap c.2 !! lid = Some l ∧ bucket_for rate l;
  inv_inj : ∀ s s' lid, held c.1 s = Some lid → held c.1 s' = Some lid → s = s';
}.

#[export] Instance slot_eq_dec : EqDecision slot.
Proof. solve_decision. Defined.

Lemma fresh_bucket_for rate now : is_u32 rate → bucket_for rate (SimpleLimiter.new (Z.max rate 1024) BURST now).
Proof.
  unfold is_uN. intros Hr. split_and!; [done|done|].
  apply SimpleLimiter.new_wf; unfold is_uN, BURST; lia.
Qed.

Lemma inv_get s now bm st : inv (bm, st) → inv (get s bm now st).1.
Proof.
  intros [Hc Hf Hh Hi]. simpl in *. pose proof (get_spec s bm now st) as Hs.
  destruct (slot_rate (bm_config bm) s) as [rate|] eqn:Hrate; [|by rewrite Hs].
  destruct (held bm s) as [lid|] eqn:Hheld; [by rewrite Hs|].
  destruct Hs as (bm' & -> & Hcfg & Hnew & Hold). simpl.
  assert (Hlook : ∀ s' lid, held bm' s' = Some lid →
    (s' = s ∧ lid = lim_next st) ∨ (s' ≠ s ∧ held bm s' = Some lid ∧ (lid < lim_next st)%nat)).
  { intros s' lid H. destruct (decide (s' = s)) as [->|Hne]; [left; by simplify_eq|right].
    rewrite Hold in H by done. split_and!; [done|done|].
    destruct (Hh _ _ H) as (? & ? & _ & Hl & _). eauto. }
  split; simpl.
  - by rewrite Hcfg.
  - intros lid l. rewrite lookup_insert. case_decide; [lia|]. intros ?%Hf. lia.
  - intros s' lid H. rewrite Hcfg. destruct (Hlook _ _ H) as [[-> ->]|(Hne & H' & Hlt)].
    + eexists _, _. split; [done|]. rewrite lookup_insert_eq. split; [done|].
      apply fresh_bucket_for. by eapply Hc.
    + destruct (Hh _ _ H') as (rate' & l & ? & Hl & ?). exists rate', l.
      rewrite lookup_insert_ne by lia. done.
  - intros s1 s2 lid H1 H2.
    destruct (Hlook _ _ H1) as [[-> ->]|(? & H1' & ?)], (Hlook _ _ H2) as [[-> ?]|(? & H2' & ?)];
      [done|lia|lia|by eapply Hi].
Qed.

Lemma bm_inv_step c c' : step c c' → inv c → inv c'.
Proof.
  intros Hstep Hinv. destruct Hstep as [s now bm st|lid n now bm st l Hl Hn Hr].
  { by apply inv_get. }
  destruct Hinv as [Hc Hf Hh Hi]. simpl in *. split; simpl; [done| | |done].
  - intros lid' l'. rewrite lookup_insert. case_decide; [subst; eauto|apply Hf].
  - intros s lid' H. destruct (Hh _ _ H) as (rate & l' & Hrate & Hl' & Hb).
    rewrite lookup_insert. case_decide as Heq; [|eauto].
    subst lid'. rewrite Hl in Hl'. simplify_eq. destruct Hb as (Hb1 & Hb2 & Hb3).
    destruct (SimpleLimiter.check_n_frame l' n now) as [E1 E2].
    eexists _, _. split; [done|]. split; [done|]. split_and!.
    + by rewrite E1.
    + by rewrite E2.
    + by apply SimpleLimiter.check_n_wf.
Qed.

Lemma held_step c c' s lid : step c c' → held c.1 s = Some lid → held c'.1 s = Some lid.
Proof.
  intros Hstep H. destruct Hstep as [s' now bm st|]; [|done]. simpl in *.
  pose proof (get_spec s' bm now st) as Hs.
  destruct (slot_rate (bm_config bm) s'); [|by rewrite Hs].
  destruct (held bm s') eqn:Hh; [by rewrite Hs|].
  destruct Hs as (bm' & -> & _ & _ & Hold). simpl. rewrite Hold; [done|congruence].
Qed.

Lemma bm_inv_steps c c' : rtc step c c' → inv c → inv c'.
Proof. induction 1; eauto using bm_inv_step. Qed.

Lemma held_steps c c' s lid : rtc step c c' → held c.1 s = Some lid → held c'.1 s = Some lid.
Proof. induction 1; eauto using held_step. Qed.

Lemma inv_new config st :
  config_wf config → (∀ lid l, lim_heap st !! lid = Some l → (lid < lim_next st)%nat) →
  inv (new config, st).
Proof. intros Hc Hf. split; [done|done| |]; intros []; simpl; rewrite lookup_empty; done. Qed.

(** [r] is what a connection should use for the slot [s]: nothing when the
    configuration does not limit it, and the bucket of the slot otherwise. *)
Definition bucket_of (bm : BandwidthManager) (s : slot) (r : option nat) : Prop :=
  match slot_rate (bm_config bm) s with
  | None => r = None
  | Some _ => is_Some r ∧ r = held bm s
  end.

Lemma get_config s bm now st : bm_config (get s bm now st).1.1 = bm_config bm.
Proof.
  pose proof (get_spec s bm now st) as Hs. destruct (slot_rate _ s); [|by rewrite Hs].
  destruct (held bm s); [by rewrite Hs|]. by destruct Hs as (bm' & -> & Hc & _).
Qed.

Lemma get_bucket_of s bm now st : bucket_of (get s bm now st).1.1 s (get s bm now st).2.
Proof.
  unfold bucket_of. rewrite get_config. pose proof (get_spec s bm now st) as Hs.
  destruct (slot_rate _ s); [|by rewrite Hs]. destruct (held bm s) as [lid|] eqn:Hh.
  - rewrite Hs. cbn [fst snd]. by rewrite Hh.
  - destruct Hs as (bm' & -> & _ & Hh' & _). cbn [fst snd]. by rewrite Hh'.
Qed.

Lemma get_keeps_bucket s s' bm now st r :
  bucket_of bm s r → bucket_of (get s' bm now st).1.1 s r.
Proof.
  unfold bucket_of. rewrite get_config. destruct (slot_rate (bm_config bm) s) eqn:Hr; [|done].
  intros [[lid ->] Hlid]. split; [done|]. pose proof (get_spec s' bm now st) as Hs.
  destruct (slot_rate _ s'); [|by rewrite Hs]. destruct (held bm s') eqn:Hh; [by rewrite Hs|].
  destruct Hs as (bm' & -> & _ & _ & Hold). cbn. rewrite Hold; [done|congruence].
Qed.

(** A slot (a client or backend key and a direction) keeps one bucket for
    the life of the manager: whatever connections ask for and draw in between,
    asking again returns the same bucket, and it still has the configured rate
    (at least 1024 bytes per second), the 64 KiB burst and a consistent state. *)
Theorem bucket_stable c c' s now now' lid :
  inv c →
  (get s c.1 now c.2).2 = Some lid → rtc step (get s c.1 now c.2).1 c' →
  (get s c'.1 now' c'.2).2 = Some lid ∧
  ∃ rate l, slot_rate (bm_config c'.1) s = Some rate ∧
    lim_heap c'.2 !! lid = Some l ∧ bucket_for rate l.
Proof.
  intros Hinv Hget Hrun. destruct c as [bm st]. simpl in *.
  assert (Hinv1 : inv (get s bm now st).1) by by apply inv_get.
  assert (Hheld : held (get s bm now st).1.1 s = Some lid).
  { pose proof (get_spec s bm now st) as Hs.
    destruct (slot_rate (bm_config bm) s); [|by rewrite Hs in Hget].
    destruct (held bm s) eqn:Hh; [rewrite Hs in Hget |- *; simpl in *; congruence|].
    destruct Hs as (bm' & Hs & _ & Hnew & _). rewrite Hs in Hget |- *. simpl in *. congruence. }
  pose proof (held_steps _ _ _ _ Hrun Hheld) as Hheld'.
  destruct (inv_held _ (bm_inv_steps _ _ Hrun Hinv1) _ _ Hheld') as (rate & l & Hrate & Hl & Hb).
  split; [|eauto]. pose proof (get_spec s c'.1 now' c'.2) as Hs.
  rewrite Hrate, Hheld' in Hs. by rewrite Hs.
Qed.

(** Distinct slots never share a bucket, so the traffic of one client (or
    key), or of the other direction, is never charged to another. *)
Theorem buckets_not_shared config st0 c s s' lid :
  config_wf config → (∀ lid l, lim_heap st0 !! lid = Some l → (lid < lim_next st0)%nat) →
  rtc step (new config, st0) c →
  s ≠ s' → held c.1 s = Some lid → held c.1 s' ≠ Some lid.
Proof.
  intros Hc Hf Hrun Hne Hs Hs'. apply Hne.
  eapply inv_inj; [|exact Hs|exact Hs']. eapply bm_inv_steps; [done|]. by apply inv_new.
Qed.

(** A configuration that limits both sides, and an empty store. *)
Definition sample_config : BandwidthLimitConfig :=
  {| bw_enabled := true;
     bw_client := Some {| client_upload_per_sec := 100000; client_download_per_sec := 200000 |};
     bw_backend := None |}.
Definition empty_store : LimStore := {| lim_next := 0; lim_heap := ∅ |}.

Lemma sample_config_wf : config_wf sample_config.
Proof. intros [] rate; cbn; intros [= <-]; unfold is_uN; lia. Qed.

Lemma empty_store_fresh lid l : lim_heap empty_store !! lid = Some l → (lid < lim_next empty_store)%nat.
Proof. simpl. by rewrite lookup_empty. Qed.

Lemma bucket_stable_witness :
  let a := V4 [10; 0; 0; 1] in
  let c := get (ClientUpload a) (new sample_config) 0 empty_store in
  let c' := get (ClientDownload a) c.1.1 7 c.1.2 in
  (get (ClientUpload a) c'.1.1 9 c'.1.2).2 = Some 0%nat.
Proof.
  intros a c c'.
  refine (proj1 (bucket_stable (new sample_config, empty_store) c'.1 (ClientUpload a) 0 9 0 _ _ _)).
  - apply inv_new; [apply sample_config_wf|apply empty_store_fresh].
  - reflexivity.
  - apply rtc_once. exact (step_get (ClientDownload a) 7 c.1.1 c.1.2).
Defined.

Lemma buckets_not_shared_witness :
  let a := V4 [10; 0; 0; 1] in
  let c := get (ClientUpload a) (new sample_config) 0 empty_store in
  let c' := get (ClientDownload a) c.1.1 0 c.1.2 in
  held c'.1.1 (ClientDownload a) = Some 1%nat ∧ held c'.1.1 (ClientDownload a) ≠ Some 0%nat.
Proof.
  intros a c c'. split; [reflexivity|].
  refine (buckets_not_shared sample_config empty_store c'.1 (ClientUpload a) (ClientDownload a) 0
    sample_config_wf empty_store_fresh _ _ _); [|done|reflexivity].
  eapply rtc_l; [exact (step_get (ClientUpload a) 0 (new sample_config) empty_store)|].
  apply rtc_once. exact (step_get (ClientDownload a) 0 c.1.1 c.1.2).
Defined.

End BandwidthManager.
