(* ===== verification/Bandwidth.v ===== *)
(** * The rate-limited stream: [src/src/traffic/bandwidth.rs]

    [RateLimitedStream] wraps a stream and pays for every read and write with
    tokens of a shared bucket.  The wrapped stream, the read buffer and the
    timer are tokio's: their operations are the class [AsyncIo], what their
    documentation promises the class [AsyncIoLaws].  A poll is a function of
    the clock readings it makes; the buckets live in the store of
    [BandwidthManager.v], so streams that share a bucket see each other's
    draws. *)

From S2P Require Import Prelude Float64 Config NetAddr Limiter BandwidthManager.
Open Scope Z_scope.

#[local] Opaque SimpleLimiter.check_n SimpleLimiter.until_turn.

Inductive Poll (A : Type) :=
| Ready (a : A)
| Pending.
Arguments Ready {A} a.
Arguments Pending {A}.

(** ** The asynchronous I/O of the runtime *)

Class AsyncIo := {
  Stream : Type;
  ReadBuf : Type;
  IoError : Type;
  inner_poll_read : Stream → ReadBuf → Stream * ReadBuf * Poll (result unit IoError);
  inner_poll_write : Stream → list Z → Stream * Poll (result Z IoError);
  inner_poll_flush : Stream → Stream * Poll (result unit IoError);
  inner_poll_shutdown : Stream → Stream * Poll (result unit IoError);
  remaining : ReadBuf → Z;
  filled : ReadBuf → list Z;
  (** [buf.take(n)]: a view of the first [n] unfilled bytes. *)
  take_view : ReadBuf → Z → ReadBuf;
  (** [buf.advance(n)] after a view of [buf] was written to: the next [n] bytes,
      as the view left them, count as filled; [None] is its panic. *)
  advance : ReadBuf → ReadBuf → Z → option ReadBuf;
  initialized : ReadBuf → Prop;
  (** Whether a [sleep] with a deadline is over when polled at a time. *)
  sleep_over : Z → Z → bool;
}.

Class AsyncIoLaws (IO : AsyncIo) := {
  remaining_nonneg b : 0 <= remaining b;
  take_view_spec b n : 0 <= n <= remaining b →
    remaining (take_view b n) = n ∧ filled (take_view b n) = [];
  (** a read appends to the buffer and stays within it *)
  inner_read_spec s b s' b' :
    inner_poll_read s b = (s', b', Ready (Ok tt)) →
    ∃ data, filled b' = filled b ++ data ∧ Z.of_nat (length data) <= remaining b;
  (** a write accepts a prefix *)
  inner_write_spec s d s' n :
    inner_poll_write s d = (s', Ready (Ok n)) → 0 <= n <= Z.of_nat (length d);
  advance_spec b v n b' :
    advance b v n = Some b' → n = Z.of_nat (length (filled v)) → filled b' = filled b ++ filled v;
  (** [advance] panics only beyond the initialised part of the buffer *)
  advance_initialized b v n :
    initialized b → 0 <= n <= remaining b → is_Some (advance b v n);
  sleep_over_spec deadline now : sleep_over deadline now = true → deadline <= now;
}.

Module RateLimitedStream.
Section stream.
Context `{IO : AsyncIo}.

(** The boxed future around [limiter_clone.until_n_ready(n)]: between turns of
    its loop it is asleep until a deadline. *)
Record permit := {
  p_limiter : nat;
  p_n : Z;
  p_sleep : option Z;
}.

Record RateLimitedStream := {
  inner : Stream;
  read_limiter : option nat;
  write_limiter : option nat;
  read_permit_fut : option permit;
  write_permit_fut : option permit;
}.

Definition new (s : Stream) (read_limiter write_limiter : option nat) : RateLimitedStream :=
  {| inner := s; read_limiter := read_limiter; write_limiter := write_limiter;
     read_permit_fut := None; write_permit_fut := None |}.

Definition with_inner (this : RateLimitedStream) (s : Stream) : RateLimitedStream :=
  {| inner := s; read_limiter := read_limiter this; write_limiter := write_limiter this;
     read_permit_fut := read_permit_fut this; write_permit_fut := write_permit_fut this |}.
Definition with_read_fut (this : RateLimitedStream) (f : option permit) : RateLimitedStream :=
  {| inner := inner this; read_limiter := read_limiter this; write_limiter := write_limiter this;
     read_permit_fut := f; write_permit_fut := write_permit_fut this |}.
Definition with_write_fut (this : RateLimitedStream) (f : option permit) : RateLimitedStream :=
  {| inner := inner this; read_limiter := read_limiter this; write_limiter := write_limiter this;
     read_permit_fut := read_permit_fut this; write_permit_fut := f |}.

Definition with_bucket (st : LimStore) (lid : nat) (l : SimpleLimiter) : LimStore :=
  {| lim_next := lim_next st; lim_heap := <[lid := l]> (lim_heap st) |}.

(** ** Waiting for a permit

    [fut.as_mut().poll(cx)]: the loop of [until_n_ready], from where the future
    stands to its next suspension.  It consumes the clock readings [ts], one
    per turn and one per poll of a sleep; [PermitStuck] is a loop still running
    when they are used up.  The deadline of a sleep is counted from the reading of
    its turn; that of [sleep] itself, a moment later, only makes it later, which
    [sleep_over] allows for.  (A bucket is never missing from the store: an [Arc]
    keeps it.) *)
Inductive permit_poll :=
| PermitReady
| PermitPending (f : permit)
| PermitPanic
| PermitStuck.

Definition asleep (f : permit) (until : option Z) : permit :=
  {| p_limiter := p_limiter f; p_n := p_n f; p_sleep := until |}.

Fixpoint poll_permit (f : permit) (ts : list Z) (st : LimStore) : LimStore * list Z * permit_poll :=
  match ts with
  | [] => (st, [], PermitStuck)
  | now :: ts =>
      match p_sleep f with
      | Some deadline =>
          if sleep_over deadline now then poll_permit (asleep f None) ts st
          else (st, ts, PermitPending f)
      | None =>
          match lim_heap st !! p_limiter f with
          | None => (st, ts, PermitPanic)
          | Some l =>
              let (l, t) := SimpleLimiter.until_turn l (p_n f) now in
              let st := with_bucket st (p_limiter f) l in
              match t with
              | SimpleLimiter.Granted => (st, ts, PermitReady)
              | SimpleLimiter.SleepFor d => poll_permit (asleep f (Some (now + d))) ts st
              | SimpleLimiter.Panicked => (st, ts, PermitPanic)
              end
          end
      end
  end.

(** ** Acquiring tokens

    Steps 1 and 2 of one turn of the loop of [poll_read], and of [poll_write]:
    the permit future left behind, the store, the readings left, and how the
    turn ends. *)
Inductive acquired :=
| Acquired        (** fall through to the I/O *)
| Again           (** [continue] *)
| Waiting         (** [return Poll::Pending] *)
| Nothing         (** the buffer is empty (full, for a read) *)
| Panicking
| Stuck.

Definition CHUNK_SIZE : Z := 16384.

Definition acquire_turn (lid : nat) (fut : option permit) (rem : Z) (ts : list Z) (st : LimStore)
    : option permit * LimStore * list Z * acquired :=
  match fut with
  | Some f =>
      match poll_permit f ts st with
      | (st, ts, PermitReady) => (None, st, ts, Acquired)
      | (st, ts, PermitPending f) => (Some f, st, ts, Waiting)
      | (st, ts, PermitPanic) => (Some f, st, ts, Panicking)
      | (st, ts, PermitStuck) => (Some f, st, ts, Stuck)
      end
  | None =>
      if rem =? 0 then (None, st, ts, Nothing)
      else
        let n_req := Z.min rem CHUNK_SIZE in
        match ts, lim_heap st !! lid with
        | [], _ => (None, st, [], Stuck)
        | _ :: ts, None => (None, st, ts, Panicking)
        | now :: ts, Some l =>
            let (l, r) := SimpleLimiter.check_n l n_req now in
            let st := with_bucket st lid l in
            match r with
            | Err _ => (Some {| p_limiter := lid; p_n := n_req; p_sleep := None |}, st, ts, Again)
            | Ok _ => (None, st, ts, Acquired)
            end
        end
  end.

(** The loop around it; [Again] when the fuel is out. *)
Fixpoint acquire (fuel : nat) (lid : nat) (fut : option permit) (rem : Z) (ts : list Z) (st : LimStore)
    : option permit * LimStore * list Z * acquired :=
  match fuel with
  | O => (fut, st, ts, Again)
  | S fuel =>
      match acquire_turn lid fut rem ts st with
      | (fut, st, ts, Again) => acquire fuel lid fut rem ts st
      | done => done
      end
  end.

(** ** The operations *)

Inductive outcome (A : Type) :=
| Polled (p : Poll (result A IoError))
| Panic
| Unfinished.
Arguments Polled {A} p.
Arguments Panic {A}.
Arguments Unfinished {A}.

Definition poll_read (this : RateLimitedStream) (buf : ReadBuf) (ts : list Z) (st : LimStore)
    : RateLimitedStream * ReadBuf * LimStore * outcome unit :=
  match read_limiter this with
  | Some limiter =>
      let '(fut, st, _, a) := acquire 2 limiter (read_permit_fut this) (remaining buf) ts st in
      let this := with_read_fut this fut in
      match a with
      | Waiting => (this, buf, st, Polled Pending)
      | Nothing => (this, buf, st, Polled (Ready (Ok tt)))
      | Panicking => (this, buf, st, Panic)
      | Stuck | Again => (this, buf, st, Unfinished)
      | Acquired =>
          let rem := remaining buf in
          if rem =? 0 then (this, buf, st, Polled (Ready (Ok tt)))
          else
            let to_read := Z.min rem CHUNK_SIZE in
            let small_buf := take_view buf to_read in
            let '(s, small_buf, r) := inner_poll_read (inner this) small_buf in
            let this := with_inner this s in
            match r with
            | Ready (Ok _) =>
                let n_read := Z.of_nat (length (filled small_buf)) in
                match advance buf small_buf n_read with
                | Some buf => (this, buf, st, Polled (Ready (Ok tt)))
                | None => (this, buf, st, Panic)
                end
            | Ready (Err e) => (this, buf, st, Polled (Ready (Err e)))
            | Pending => (this, buf, st, Polled Pending)
            end
      end
  | None =>
      let '(s, buf, r) := inner_poll_read (inner this) buf in
      (with_inner this s, buf, st, Polled r)
  end.

Definition poll_write (this : RateLimitedStream) (buf : list Z) (ts : list Z) (st : LimStore)
    : RateLimitedStream * LimStore * outcome Z :=
  match write_limiter this with
  | Some limiter =>
      let len := Z.of_nat (length buf) in
      let '(fut, st, _, a) := acquire 2 limiter (write_permit_fut this) len ts st in
      let this := with_write_fut this fut in
      match a with
      | Waiting => (this, st, Polled Pending)
      | Nothing => (this, st, Polled (Ready (Ok 0)))
      | Panicking => (this, st, Panic)
      | Stuck | Again => (this, st, Unfinished)
      | Acquired =>
          if len =? 0 then (this, st, Polled (Ready (Ok 0)))
          else
            let to_write := Z.min len CHUNK_SIZE in
            let truncated_buf := take (Z.to_nat to_write) buf in
            let '(s, r) := inner_poll_write (inner this) truncated_buf in
            (with_inner this s, st, Polled r)
      end
  | None =>
      let '(s, r) := inner_poll_write (inner this) buf in
      (with_inner this s, st, Polled r)
  end.

Definition poll_flush (this : RateLimitedStream) : RateLimitedStream * Poll (result unit IoError) :=
  let (s, r) := inner_poll_flush (inner this) in (with_inner this s, r).

Definition poll_shutdown (this : RateLimitedStream) : RateLimitedStream * Poll (result unit IoError) :=
  let (s, r) := inner_poll_shutdown (inner this) in (with_inner this s, r).

End stream.
Arguments Polled {IO A} p.
Arguments Panic {IO A}.
Arguments Unfinished {IO A}.
End RateLimitedStream.
