(* ===== verification/BandwidthSpec.v ===== *)
(** * What the rate-limited stream promises

    Bytes moved under a bucket are paid for, up to what a poll moves beyond the
    permit it waited for, so any number of streams sharing the bucket together
    stay within its rate up to that; the wrapper neither alters nor reorders the
    bytes; its polls end and do not panic.  Two ways in which the accounting is
    off: a permit taken for a smaller buffer, and tokens lost when the wrapped
    stream is not ready. *)

From S2P Require Import Prelude Float64 Config NetAddr Limiter BandwidthManager Bandwidth.
Open Scope Z_scope.

Import RateLimitedStream.
#[local] Opaque SimpleLimiter.check_n SimpleLimiter.until_turn SimpleLimiter.new.

Section stream.
Context `{IO : AsyncIo}.

(** ** Draws on one bucket *)

(** From [st] to [st'] the bucket [lid], [l] at the start, sees the calls [cs] and no other
    bucket is touched; the calls are made at readings of [ts], of which [ts'] are
    left. *)
Definition drew (lid : nat) (ts ts' : list Z) (st st' : LimStore) (l : SimpleLimiter)
    (cs : list (Z * Z)) : Prop :=
  lim_heap st !! lid = Some l ∧
  lim_heap st' = <[lid := (SimpleLimiter.run_checks l cs).1]> (lim_heap st) ∧
  Forall (λ c, 0 < c.2 <= CHUNK_SIZE) cs ∧
  ∃ used, ts = used ++ ts' ∧ cs.*1 `sublist_of` used.

Definition granted (l : SimpleLimiter) (cs : list (Z * Z)) : Z := (SimpleLimiter.run_checks l cs).2.

Lemma drew_nil lid ts st l : lim_heap st !! lid = Some l → drew lid ts ts st st l [].
Proof.
  intros Hl. split_and!; [done|by rewrite insert_id|constructor|]. exists []. done.
Qed.

(** A reading that draws nothing. *)
Lemma drew_skip lid t ts ts' st st' l cs :
  drew lid ts ts' st st' l cs → drew lid (t :: ts) ts' st st' l cs.
Proof.
  intros (Hl & Hh & Hn & used & -> & Hs). split_and!; [done..|].
  exists (t :: used). split; [done|]. by apply sublist_cons.
Qed.

Lemma drew_trans lid ts1 ts2 ts3 st1 st2 st3 l cs1 cs2 :
  drew lid ts1 ts2 st1 st2 l cs1 →
  drew lid ts2 ts3 st2 st3 (SimpleLimiter.run_checks l cs1).1 cs2 →
  drew lid ts1 ts3 st1 st3 l (cs1 ++ cs2) ∧
  granted l (cs1 ++ cs2) = granted l cs1 + granted (SimpleLimiter.run_checks l cs1).1 cs2.
Proof.
  intros (Hl & Hh & Hn & u1 & -> & Hs1) (Hl2 & Hh2 & Hn2 & u2 & -> & Hs2).
  unfold drew, granted. rewrite SimpleLimiter.run_checks_app.
  destruct (SimpleLimiter.run_checks l cs1) as [l1 g1]. cbn [fst snd] in *.
  destruct (SimpleLimiter.run_checks l1 cs2) as [l2 g2]. cbn [fst snd] in *.
  split; [|done]. split_and!; [done| |by apply Forall_app|].
  - by rewrite Hh2, Hh, insert_insert_eq.
  - exists (u1 ++ u2). rewrite <-(assoc_L app), fmap_app. split; [done|]. by apply sublist_app.
Qed.

Lemma drew_check lid now ts n st l :
  lim_heap st !! lid = Some l → 0 < n <= CHUNK_SIZE →
  drew lid (now :: ts) ts st (with_bucket st lid (SimpleLimiter.check_n l n now).1) l [(now, n)] ∧
  granted l [(now, n)] = if is_ok (SimpleLimiter.check_n l n now).2 then n else 0.
Proof.
  intros Hl Hn. unfold drew, granted. cbn [SimpleLimiter.run_checks].
  destruct (SimpleLimiter.check_n l n now) as [l1 r]. cbn [fst snd with_bucket lim_heap].
  split; [|lia]. split_and!; [done|done|by constructor|]. by exists [now].
Qed.

Lemma drew_granted_nonneg lid ts ts' st st' l cs :
  drew lid ts ts' st st' l cs → 0 <= granted l cs.
Proof.
  intros (_ & _ & Hn & _). apply SimpleLimiter.run_checks_nonneg.
  eapply Forall_impl; [exact Hn|]. unfold is_uN, CHUNK_SIZE. simpl. lia.
Qed.

(** ** Permits *)

(** A permit of a stream limited by [lid]. *)
Definition permit_ok (lid : nat) (f : option permit) : Prop :=
  match f with Some f => p_limiter f = lid ∧ 0 < p_n f <= CHUNK_SIZE | None => True end.

(** A permit pays for [rem] bytes of buffer, or for as many as one turn moves. *)
Definition covers (f : option permit) (rem : Z) : Prop :=
  match f with Some f => Z.min rem CHUNK_SIZE <= p_n f | None => True end.

(** The bytes that a poll which moves [k] bytes moves beyond the permit that was
    pending when it began. *)
Definition beyond (f : option permit) (k : Z) : Z :=
  match f with Some f => Z.max 0 (k - p_n f) | None => 0 end.

Lemma beyond_nonneg f k : 0 <= beyond f k.
Proof. unfold beyond. destruct f; lia. Qed.

Lemma beyond_covers f rem k : covers f rem → k <= Z.min rem CHUNK_SIZE → beyond f k = 0.
Proof. unfold beyond, covers. destruct f; lia. Qed.

Lemma poll_permit_drew lid f ts st l st' ts' r :
  permit_ok lid (Some f) → lim_heap st !! lid = Some l → poll_permit f ts st = (st', ts', r) →
  ∃ cs, drew lid ts ts' st st' l cs ∧
    (r = PermitReady → p_n f <= granted l cs) ∧
    (∀ f', r = PermitPending f' → permit_ok lid (Some f')).
Proof.
  revert f st l. induction ts as [|now ts IH]; intros f st l [Hf Hn] Hl; cbn [poll_permit].
  { intros [= <- <- <-]. exists []. split; [by apply drew_nil|]. done. }
  destruct (p_sleep f) as [deadline|].
  { destruct (sleep_over deadline now).
    - intros H. destruct (IH (asleep f None) st l) as (cs & Hd & H1 & H2); [done|done|done|].
      exists cs. split; [by apply drew_skip|done].
    - intros [= <- <- <-]. exists []. split; [by apply drew_skip, drew_nil|].
      split; [done|]. by intros f' [= <-]. }
  subst lid. rewrite Hl.
  destruct (drew_check (p_limiter f) now ts (p_n f) st l Hl Hn) as [Hd Hg].
  destruct (SimpleLimiter.until_turn_check l (p_n f) now) as [E1 E2]. rewrite <-E1 in Hd.
  destruct (SimpleLimiter.until_turn l (p_n f) now) as [l1 t]. cbn [fst snd] in *.
  destruct t as [|d|].
  - intros [= <- <- <-]. eexists. split; [exact Hd|]. split; [|done].
    rewrite Hg, (proj1 E2 eq_refl). lia.
  - intros H. destruct (IH (asleep f (Some (now + d))) (with_bucket st (p_limiter f) l1)
      (SimpleLimiter.run_checks l [(now, p_n f)]).1) as (cs & Hd2 & H1 & H2); [done| |done|].
    { destruct Hd as (_ & -> & _). by rewrite lookup_insert_eq. }
    destruct (drew_trans _ _ _ _ _ _ _ _ _ _ Hd Hd2) as [Hd3 Hg3].
    eexists. split; [exact Hd3|]. split; [|done]. intros Hr. rewrite Hg3, Hg.
    specialize (H1 Hr). cbn [asleep p_n] in H1. destruct (is_ok _); lia.
  - intros [= <- <- <-]. eexists. split; [exact Hd|done].
Qed.

Lemma acquire_turn_drew lid fut rem ts st l fut' st' ts' a :
  permit_ok lid fut → 0 <= rem → lim_heap st !! lid = Some l →
  acquire_turn lid fut rem ts st = (fut', st', ts', a) →
  ∃ cs, drew lid ts ts' st st' l cs ∧ permit_ok lid fut' ∧
    match a with
    | Acquired => ∀ k, k <= Z.min rem CHUNK_SIZE → k <= granted l cs + beyond fut k
    | Again => covers fut' rem ∧ is_Some fut'
    | _ => True
    end.
Proof.
  intros Hf Hrem Hl. destruct fut as [f|]; cbn [acquire_turn].
  { destruct (poll_permit f ts st) as [[st1 ts1] r] eqn:Hp.
    destruct (poll_permit_drew _ _ _ _ _ _ _ _ Hf Hl Hp) as (cs & Hd & H1 & H2).
    destruct r; intros [= <- <- <- <-]; exists cs; (split; [done|]); (split; [by eauto|]); try done.
    intros k _. cbn [beyond]. specialize (H1 eq_refl). lia. }
  destruct (Z.eqb_spec rem 0).
  { intros [= <- <- <- <-]. exists []. split; [by apply drew_nil|done]. }
  destruct ts as [|now ts].
  { intros [= <- <- <- <-]. exists []. split; [by apply drew_nil|done]. }
  rewrite Hl. assert (Hn : 0 < Z.min rem CHUNK_SIZE <= CHUNK_SIZE) by (unfold CHUNK_SIZE; lia).
  destruct (drew_check lid now ts _ st l Hl Hn) as [Hd Hg].
  destruct (SimpleLimiter.check_n l _ now) as [l1 [[]|[]]]; cbn [fst snd is_ok] in *;
    intros [= <- <- <- <-]; eexists; (split; [exact Hd|]).
  - split; [done|]. intros k Hk. cbn [beyond]. lia.
  - split; [by split|]. cbn [covers p_n]. split; [lia|done].
Qed.

(** Two turns always suffice: the second one has a permit to wait for. *)
Lemma acquire_drew lid fut rem ts st l fut' st' ts' a :
  permit_ok lid fut → 0 <= rem → lim_heap st !! lid = Some l →
  acquire 2 lid fut rem ts st = (fut', st', ts', a) →
  ∃ cs, drew lid ts ts' st st' l cs ∧ permit_ok lid fut' ∧ a ≠ Again ∧
    (a = Acquired → ∀ k, k <= Z.min rem CHUNK_SIZE → k <= granted l cs + beyond fut k).
Proof.
  intros Hf Hrem Hl. cbn [acquire].
  destruct (acquire_turn lid fut rem ts st) as [[[fut1 st1] ts1] a1] eqn:H1.
  destruct (acquire_turn_drew _ _ _ _ _ _ _ _ _ _ Hf Hrem Hl H1) as (cs & Hd & Hok & Ha).
  destruct a1; try (intros [= <- <- <- <-]; exists cs; naive_solver).
  destruct Ha as [Hcov [f ->]].
  destruct (acquire_turn lid (Some f) rem ts1 st1) as [[[fut2 st2] ts2] a2] eqn:H2.
  assert (Hl1 : lim_heap st1 !! lid = Some (SimpleLimiter.run_checks l cs).1).
  { destruct Hd as (_ & -> & _). by rewrite lookup_insert_eq. }
  destruct (acquire_turn_drew _ _ _ _ _ _ _ _ _ _ Hok Hrem Hl1 H2) as (cs2 & Hd2 & Hok2 & Ha2).
  destruct (drew_trans _ _ _ _ _ _ _ _ _ _ Hd Hd2) as [Hd3 Hg3].
  pose proof (drew_granted_nonneg _ _ _ _ _ _ _ Hd).
  assert (a2 ≠ Again).
  { cbn [acquire_turn] in H2. destruct (poll_permit f ts1 st1) as [[? ?] []]; congruence. }
  destruct a2; try done; intros [= <- <- <- <-];
    (eexists; split; [exact Hd3|]; split; [done|]; split; [done|]); [|done..].
  intros _ k Hk. specialize (Ha2 k Hk). rewrite (beyond_covers _ _ _ Hcov Hk) in Ha2.
  pose proof (beyond_nonneg fut k). lia.
Qed.

Context `{!AsyncIoLaws IO}.

(** ** One poll *)

Definition len {A} (l : list A) : Z := Z.of_nat (length l).

(** What a read poll leaves of a limited stream: the bytes it appends are paid
    for, up to those beyond the permit that was pending. *)
Lemma poll_read_drew this buf ts st lid l this' buf' st' o :
  read_limiter this = Some lid → permit_ok lid (read_permit_fut this) →
  lim_heap st !! lid = Some l → poll_read this buf ts st = (this', buf', st', o) →
  ∃ cs ts', drew lid ts ts' st st' l cs ∧ permit_ok lid (read_permit_fut this') ∧
    ∃ data, filled buf' = filled buf ++ data ∧ len data <= Z.min (remaining buf) CHUNK_SIZE ∧
      len data <= granted l cs + beyond (read_permit_fut this) (len data).
Proof.
  intros Hlim Hok Hl. unfold poll_read. rewrite Hlim.
  pose proof (remaining_nonneg buf) as Hrem.
  destruct (acquire _ _ _ _ _ _) as [[[fut st1] ts1] a] eqn:Hacq.
  destruct (acquire_drew _ _ _ _ _ _ _ _ _ _ Hok Hrem Hl Hacq) as (cs & Hd & Hok' & _ & Hpaid).
  pose proof (drew_granted_nonneg _ _ _ _ _ _ _ Hd) as Hg.
  assert (Hsame : ∃ data, filled buf = filled buf ++ data ∧ len data <= Z.min (remaining buf) CHUNK_SIZE ∧
    len data <= granted l cs + beyond (read_permit_fut this) (len data)).
  { exists []. rewrite app_nil_r. pose proof (beyond_nonneg (read_permit_fut this) 0).
    unfold len, CHUNK_SIZE. change (Z.of_nat (length [])) with 0. split_and!; [done|lia|lia]. }
  destruct a; try (intros [= <- <- <- <-]; by exists cs, ts1).
  destruct (Z.eqb_spec (remaining buf) 0) as [|Hne]; [intros [= <- <- <- <-]; by exists cs, ts1|].
  cbn [inner with_read_fut].
  destruct (inner_poll_read _ _) as [[s v] r] eqn:Hin.
  destruct r as [[[]|e]|]; [|intros [= <- <- <- <-]; by exists cs, ts1..].
  destruct (take_view_spec buf (Z.min (remaining buf) CHUNK_SIZE)) as [Hv1 Hv2];
    [unfold CHUNK_SIZE; lia|].
  destruct (inner_read_spec _ _ _ _ Hin) as (data & Hv & Hdata).
  rewrite Hv2 in Hv. rewrite Hv1 in Hdata. cbn [app] in Hv.
  destruct (advance _ _ _) as [b|] eqn:Hadv; intros [= <- <- <- <-]; [|by exists cs, ts1].
  exists cs, ts1. split; [done|]. split; [done|]. exists data.
  rewrite (advance_spec _ _ _ _ Hadv eq_refl), Hv. split_and!; [done|done|]. by apply Hpaid.
Qed.

Definition accepted {A} (o : outcome (IO := IO) A) (f : A → Z) : Z :=
  match o with Polled (Ready (Ok a)) => f a | _ => 0 end.

Lemma poll_write_drew this d ts st lid l this' st' o :
  write_limiter this = Some lid → permit_ok lid (write_permit_fut this) →
  lim_heap st !! lid = Some l → poll_write this d ts st = (this', st', o) →
  ∃ cs ts', drew lid ts ts' st st' l cs ∧ permit_ok lid (write_permit_fut this') ∧
    accepted o id <= Z.min (len d) CHUNK_SIZE ∧
    accepted o id <= granted l cs + beyond (write_permit_fut this) (accepted o id).
Proof.
  intros Hlim Hok Hl. unfold poll_write. rewrite Hlim.
  destruct (acquire _ _ _ _ _ _) as [[[fut st1] ts1] a] eqn:Hacq.
  destruct (acquire_drew lid _ _ _ _ _ _ _ _ _ Hok (Nat2Z.is_nonneg _) Hl Hacq) as (cs & Hd & Hok' & _ & Hpaid).
  pose proof (drew_granted_nonneg _ _ _ _ _ _ _ Hd) as Hg.
  assert (Hzero : 0 <= Z.min (len d) CHUNK_SIZE ∧ 0 <= granted l cs + beyond (write_permit_fut this) 0).
  { pose proof (beyond_nonneg (write_permit_fut this) 0). unfold len, CHUNK_SIZE. lia. }
  destruct a; try (intros [= <- <- <-]; by exists cs, ts1).
  destruct (Z.eqb_spec (Z.of_nat (length d)) 0) as [|Hne]; [intros [= <- <- <-]; by exists cs, ts1|].
  cbn [inner with_write_fut].
  destruct (inner_poll_write _ _) as [s r] eqn:Hin. intros [= <- <- <-].
  exists cs, ts1. split; [done|]. split; [done|].
  destruct r as [[n|e]|]; [|done..]. apply inner_write_spec in Hin.
  rewrite length_take in Hin. unfold accepted, id.
  assert (Hn : n <= Z.min (len d) CHUNK_SIZE) by (unfold len; lia).
  split; [done|]. by apply Hpaid.
Qed.

(** Polls change neither the limiters nor the other direction's permit. *)
Definition same_limiters (s s' : RateLimitedStream) : Prop :=
  read_limiter s' = read_limiter s ∧ write_limiter s' = write_limiter s.

Lemma poll_read_frame this buf ts st this' buf' st' o :
  poll_read this buf ts st = (this', buf', st', o) →
  same_limiters this this' ∧ write_permit_fut this' = write_permit_fut this ∧
  (read_limiter this = None → st' = st ∧ read_permit_fut this' = read_permit_fut this).
Proof.
  unfold poll_read, same_limiters. destruct (read_limiter this) as [lid|] eqn:Hlim.
  - destruct (acquire _ _ _ _ _ _) as [[[fut st1] ts1] []]; repeat case_match;
      intros; simplify_eq; simpl; rewrite ?Hlim; done.
  - destruct (inner_poll_read _ _) as [[s b] r]. intros; simplify_eq. simpl. by rewrite Hlim.
Qed.

Lemma poll_write_frame this d ts st this' st' o :
  poll_write this d ts st = (this', st', o) →
  same_limiters this this' ∧ read_permit_fut this' = read_permit_fut this ∧
  (write_limiter this = None → st' = st ∧ write_permit_fut this' = write_permit_fut this).
Proof.
  unfold poll_write, same_limiters. destruct (write_limiter this) as [lid|] eqn:Hlim.
  - destruct (acquire _ _ _ _ _ _) as [[[fut st1] ts1] []]; repeat case_match;
      intros; simplify_eq; simpl; rewrite ?Hlim; done.
  - destruct (inner_poll_write _ _) as [s r]. intros; simplify_eq. simpl. by rewrite Hlim.
Qed.

(** ** Any number of streams over shared buckets *)

Record net := { streams : list RateLimitedStream; store : LimStore }.

Inductive event :=
| PollRead (i : nat) (buf : ReadBuf) (ts : list Z)
| PollWrite (i : nat) (d : list Z) (ts : list Z).

Definition readings (e : event) : list Z :=
  match e with PollRead _ _ ts | PollWrite _ _ ts => ts end.

(** One poll, and the bytes it moves under the bucket [lid]. *)
Definition exec (lid : nat) (n : net) (e : event) : net * Z :=
  match e with
  | PollRead i buf ts =>
      match streams n !! i with
      | None => (n, 0)
      | Some s =>
          let '(s', buf', st, _) := poll_read s buf ts (store n) in
          ({| streams := <[i := s']> (streams n); store := st |},
           if decide (read_limiter s = Some lid) then len (filled buf') - len (filled buf) else 0)
      end
  | PollWrite i d ts =>
      match streams n !! i with
      | None => (n, 0)
      | Some s =>
          let '(s', st, o) := poll_write s d ts (store n) in
          ({| streams := <[i := s']> (streams n); store := st |},
           if decide (write_limiter s = Some lid) then accepted o id else 0)
      end
  end.

Fixpoint run (lid : nat) (n : net) (es : list event) : net * Z :=
  match es with
  | [] => (n, 0)
  | e :: es =>
      let (n, k) := exec lid n e in
      let (n, k') := run lid n es in (n, k + k')
  end.

(** The permit that is pending when a poll begins. *)
Definition pending_permit (n : net) (e : event) : option permit :=
  match e with
  | PollRead i _ _ => s ← streams n !! i; read_permit_fut s
  | PollWrite i _ _ => s ← streams n !! i; write_permit_fut s
  end.

(** The bytes that the polls of a run move under [lid] beyond the permits they
    had waited for. *)
Fixpoint overdrawn (lid : nat) (n : net) (es : list event) : Z :=
  match es with
  | [] => 0
  | e :: es => beyond (pending_permit n e) (exec lid n e).2 + overdrawn lid (exec lid n e).1 es
  end.

(** A stream that waits for a permit is polled again with a buffer that the
    permit covers. *)
Definition stable (n : net) (e : event) : Prop :=
  covers (pending_permit n e) match e with PollRead _ buf _ => remaining buf | PollWrite _ d _ => len d end.

Fixpoint stable_run (lid : nat) (n : net) (es : list event) : Prop :=
  match es with
  | [] => True
  | e :: es => stable n e ∧ stable_run lid (exec lid n e).1 es
  end.

Definition limiter_ok (st : LimStore) (lim : option nat) (f : option permit) : Prop :=
  ∀ lid, lim = Some lid → is_Some (lim_heap st !! lid) ∧ permit_ok lid f.
Definition stream_ok (st : LimStore) (s : RateLimitedStream) : Prop :=
  limiter_ok st (read_limiter s) (read_permit_fut s) ∧
  limiter_ok st (write_limiter s) (write_permit_fut s).
Definition net_ok (n : net) : Prop := Forall (stream_ok (store n)) (streams n).

Definition keeps_buckets (st st' : LimStore) : Prop :=
  ∀ lid, is_Some (lim_heap st !! lid) → is_Some (lim_heap st' !! lid).

Lemma stream_ok_mono st st' s : keeps_buckets st st' → stream_ok st s → stream_ok st' s.
Proof. intros Hk [Hr Hw]. split; intros lid Hlid; [apply Hr in Hlid|apply Hw in Hlid]; naive_solver. Qed.

Lemma drew_keeps lid ts ts' st st' l cs : drew lid ts ts' st st' l cs → keeps_buckets st st'.
Proof. intros (_ & Hh & _) lid' Hl. rewrite Hh, lookup_insert. by case_decide. Qed.

(** What a poll of a well-formed stream does to the bucket [lid], whichever
    bucket the stream draws on. *)
Definition charged (lid : nat) (ts : list Z) (st st' : LimStore) (l : SimpleLimiter) (bytes : Z) : Prop :=
  ∃ cs, lim_heap st' !! lid = Some (SimpleLimiter.run_checks l cs).1 ∧
    cs.*1 `sublist_of` ts ∧ Forall (λ c, 0 < c.2 <= CHUNK_SIZE) cs ∧ bytes <= granted l cs.

Lemma charged_drew lid' lid ts ts' st st' l' l cs bytes :
  drew lid' ts ts' st st' l' cs → lim_heap st !! lid = Some l →
  (lid' = lid → bytes <= granted l' cs) → (lid' ≠ lid → bytes <= 0) →
  charged lid ts st st' l bytes.
Proof.
  intros (Hl' & Hh & Hn & used & -> & Hs) Hl Heq Hne. destruct (decide (lid' = lid)) as [->|Hd].
  - rewrite Hl in Hl'. simplify_eq. exists cs. rewrite Hh, lookup_insert_eq.
    split_and!; [done| |done|by apply Heq]. by apply sublist_inserts_r.
  - exists []. rewrite Hh, lookup_insert_ne by done.
    split_and!; [done|apply sublist_nil_l|constructor|by apply Hne].
Qed.

Lemma charged_nothing lid ts st l bytes :
  lim_heap st !! lid = Some l → bytes <= 0 → charged lid ts st st l bytes.
Proof. intros Hl Hb. exists []. split_and!; [done|apply sublist_nil_l|constructor|done]. Qed.

(** The two directions of a stream, limited or not. *)
Lemma poll_read_charged lid s buf ts st l s' buf' st' o :
  stream_ok st s → lim_heap st !! lid = Some l →
  poll_read s buf ts st = (s', buf', st', o) →
  let k := if decide (read_limiter s = Some lid) then len (filled buf') - len (filled buf) else 0 in
  keeps_buckets st st' ∧ stream_ok st' s' ∧ k <= Z.min (remaining buf) CHUNK_SIZE ∧
  charged lid ts st st' l (k - beyond (read_permit_fut s) k).
Proof.
  intros Hs Hl Hp k. pose proof (remaining_nonneg buf) as Hrem.
  assert (H0 : 0 <= Z.min (remaining buf) CHUNK_SIZE) by (unfold CHUNK_SIZE; lia).
  pose proof (beyond_nonneg (read_permit_fut s) 0). destruct (poll_read_frame _ _ _ _ _ _ _ _ Hp) as ([F1 F2] & F3 & F4).
  destruct (read_limiter s) as [lid'|] eqn:Hlim; [|destruct (F4 eq_refl) as [-> F5]];
    destruct Hs as [Hr Hw].
  - destruct (Hr lid' Hlim) as [[l' Hl'] Hperm].
    destruct (poll_read_drew _ _ _ _ _ _ _ _ _ _ Hlim Hperm Hl' Hp)
      as (cs & ts' & Hd & Hperm' & data & Hdata & Hmin & Hpaid).
    assert (Hlen : len (filled buf') - len (filled buf) = len data).
    { rewrite Hdata. unfold len. rewrite length_app. lia. }
    pose proof (drew_keeps _ _ _ _ _ _ _ Hd) as Hk. split_and!; [done| | |].
    + split; intros lid1 H1; [rewrite F1 in H1|rewrite F2 in H1]; simplify_eq.
      * split; [apply Hk; eauto|done].
      * rewrite F3. destruct (Hw _ H1). split; [by apply Hk|done].
    + unfold k. rewrite Hlen. case_decide; lia.
    + unfold k. rewrite Hlen. eapply charged_drew; [exact Hd|done| |].
      * intros ->. rewrite decide_True by done. lia.
      * intros. rewrite decide_False by congruence. lia.
  - unfold k. rewrite decide_False by done. split_and!; [by intros ?| |done|apply charged_nothing; [done|lia]].
    split; intros lid1 H1; [congruence|]. rewrite F2 in H1. rewrite F3. by apply Hw.
Qed.

Lemma poll_write_charged lid s d ts st l s' st' o :
  stream_ok st s → lim_heap st !! lid = Some l →
  poll_write s d ts st = (s', st', o) →
  let k := if decide (write_limiter s = Some lid) then accepted o id else 0 in
  keeps_buckets st st' ∧ stream_ok st' s' ∧ k <= Z.min (len d) CHUNK_SIZE ∧
  charged lid ts st st' l (k - beyond (write_permit_fut s) k).
Proof.
  intros Hs Hl Hp k.
  assert (H0 : 0 <= Z.min (len d) CHUNK_SIZE) by (unfold len, CHUNK_SIZE; lia).
  pose proof (beyond_nonneg (write_permit_fut s) 0). destruct (poll_write_frame _ _ _ _ _ _ _ Hp) as ([F1 F2] & F3 & F4).
  destruct (write_limiter s) as [lid'|] eqn:Hlim; [|destruct (F4 eq_refl) as [-> F5]];
    destruct Hs as [Hr Hw].
  - destruct (Hw lid' Hlim) as [[l' Hl'] Hperm].
    destruct (poll_write_drew _ _ _ _ _ _ _ _ _ Hlim Hperm Hl' Hp) as (cs & ts' & Hd & Hperm' & Hmin & Hpaid).
    pose proof (drew_keeps _ _ _ _ _ _ _ Hd) as Hk. split_and!; [done| | |].
    + split; intros lid1 H1; [rewrite F1 in H1|rewrite F2 in H1]; simplify_eq.
      * rewrite F3. destruct (Hr _ H1). split; [by apply Hk|done].
      * split; [apply Hk; eauto|done].
    + unfold k. case_decide; lia.
    + unfold k. eapply charged_drew; [exact Hd|done| |].
      * intros ->. rewrite decide_True by done. lia.
      * intros. rewrite decide_False by congruence. lia.
  - unfold k. rewrite decide_False by done. split_and!; [by intros ?| |done|apply charged_nothing; [done|lia]].
    split; intros lid1 H1; [|congruence]. rewrite F1 in H1. rewrite F3. by apply Hr.
Qed.

Lemma exec_charged lid n e l :
  net_ok n → lim_heap (store n) !! lid = Some l →
  let k := (exec lid n e).2 in
  net_ok (exec lid n e).1 ∧ (stable n e → beyond (pending_permit n e) k = 0) ∧
  charged lid (readings e) (store n) (store (exec lid n e).1) l (k - beyond (pending_permit n e) k).
Proof.
  intros Hok Hl.
  assert (Hup : ∀ i s' st', keeps_buckets (store n) st' → stream_ok st' s' →
    net_ok {| streams := <[i := s']> (streams n); store := st' |}).
  { intros i s' st' Hk Hs. apply Forall_insert; [|done]. cbn [store].
    eapply Forall_impl; [exact Hok|]. intros. by eapply stream_ok_mono. }
  unfold stable. destruct e as [i buf ts|i d ts]; cbn [exec pending_permit readings] in *;
    (destruct (streams n !! i) as [s|] eqn:Hi;
      [|split_and!; [done|done|apply charged_nothing; [done|cbn; lia]]]);
    pose proof (Forall_lookup_1 _ _ _ _ Hok Hi) as Hs; cbn [mbind option_bind].
  - destruct (poll_read s buf ts (store n)) as [[[s' buf'] st'] o] eqn:Hp. cbn [fst snd store].
    destruct (poll_read_charged lid _ _ _ _ _ _ _ _ _ Hs Hl Hp) as (? & ? & ? & ?).
    split_and!; [by apply Hup|intros Hcov; by eapply beyond_covers|done].
  - destruct (poll_write s d ts (store n)) as [[s' st'] o] eqn:Hp. cbn [fst snd store].
    destruct (poll_write_charged lid _ _ _ _ _ _ _ _ Hs Hl Hp) as (? & ? & ? & ?).
    split_and!; [by apply Hup|intros Hcov; by eapply beyond_covers|done].
Qed.

Lemma charged_trans lid ts1 ts2 st1 st2 st3 l b1 b2 :
  charged lid ts1 st1 st2 l b1 →
  (∀ l', lim_heap st2 !! lid = Some l' → charged lid ts2 st2 st3 l' b2) →
  charged lid (ts1 ++ ts2) st1 st3 l (b1 + b2).
Proof.
  intros (cs1 & H1 & Hs1 & Hn1 & Hb1) H. destruct (H _ H1) as (cs2 & H2 & Hs2 & Hn2 & Hb2).
  exists (cs1 ++ cs2). unfold granted in *. rewrite SimpleLimiter.run_checks_app.
  destruct (SimpleLimiter.run_checks l cs1) as [l1 g1]. cbn [fst snd] in *.
  destruct (SimpleLimiter.run_checks l1 cs2) as [l2 g2]. cbn [fst snd] in *.
  split_and!; [done| |by apply Forall_app|lia]. rewrite fmap_app. by apply sublist_app.
Qed.

Lemma run_charged lid n es l :
  net_ok n → lim_heap (store n) !! lid = Some l →
  charged lid (mjoin (readings <$> es)) (store n) (store (run lid n es).1) l
    ((run lid n es).2 - overdrawn lid n es) ∧
  (stable_run lid n es → overdrawn lid n es = 0).
Proof.
  revert n l. induction es as [|e es IH]; intros n l Hok Hl; [split; [by apply charged_nothing|done]|].
  destruct (exec_charged lid n e l Hok Hl) as (Hok1 & Hst1 & Hc1). pose proof Hc1 as (cs1 & Hl1 & _).
  rewrite fmap_cons. cbn [run overdrawn stable_run mjoin list_join]. set (b := beyond _ _) in *.
  destruct (exec lid n e) as [n1 k]. cbn [fst snd] in *.
  pose proof (λ l, IH n1 l Hok1) as IHn. clear IH.
  destruct (run lid n1 es) as [n2 k']. cbn [fst snd] in *. split.
  - replace (k + k' - (b + overdrawn lid n1 es)) with ((k - b) + (k' - overdrawn lid n1 es)) by lia.
    eapply charged_trans; [exact Hc1|]. intros l' Hl'. by apply IHn.
  - intros [H1 H2]. rewrite (Hst1 H1), (proj2 (IHn _ Hl1) H2). done.
Qed.

Lemma run_bound lid n es l :
  net_ok n → lim_heap (store n) !! lid = Some l → SimpleLimiter.wf l →
  let ts := mjoin (readings <$> es) in
  let t0 := last_update (state l) in
  SimpleLimiter.nondecreasing t0 ts → SimpleLimiter.in_range (SimpleLimiter.end_time t0 ts - t0) →
  2 ^ 53 * NANOS_PER_SEC * (run lid n es).2 <=
  2 ^ 53 * NANOS_PER_SEC * (burst_size l + overdrawn lid n es)
  + (2 ^ 53 + 4) * (rate_per_sec l * (SimpleLimiter.end_time t0 ts - t0))
  + len ts * (NANOS_PER_SEC * burst_size l).
Proof.
  intros Hok Hl Hwf ts t0 Hmono Hr.
  destruct (run_charged lid n es l Hok Hl) as [(cs & _ & Hs & Hn & Hb) _]. fold ts in Hs.
  destruct (SimpleLimiter.nondecreasing_sublist _ _ _ Hs Hmono) as [Hmono' Hend].
  assert (Hu : Forall (λ c, is_u32 c.2) cs).
  { eapply Forall_impl; [exact Hn|]. unfold is_uN, CHUNK_SIZE. simpl. lia. }
  pose proof (SimpleLimiter.run_checks_bound l cs t0 Hwf Hu ltac:(done) Hmono'
    ltac:(unfold SimpleLimiter.in_range in *; unfold t0 in *; lia)) as Hbound.
  fold t0 in Hbound. apply sublist_length in Hs. rewrite length_fmap in Hs.
  destruct Hwf as (Hrate & Hburst & _). unfold is_uN in Hrate, Hburst. unfold granted, len in *.
  assert (rate_per_sec l * (SimpleLimiter.end_time t0 cs.*1 - t0)
          <= rate_per_sec l * (SimpleLimiter.end_time t0 ts - t0))
    by (apply Z.mul_le_mono_nonneg_l; lia).
  assert (Z.of_nat (length cs) * (NANOS_PER_SEC * burst_size l)
          <= Z.of_nat (length ts) * (NANOS_PER_SEC * burst_size l))
    by (apply Z.mul_le_mono_nonneg_r; unfold NANOS_PER_SEC; lia).
  unfold NANOS_PER_SEC in *. lia.
Qed.

(** C7: whatever polls any number of streams make in whatever order and with
    whatever buffers, the bytes they together move under one bucket (read by the
    streams that read through it, written by those that write through it) are at
    most its burst plus its rate times the elapsed time, up to the rounding of the
    token arithmetic, plus the bytes that resumed polls move beyond the permits
    they had waited for.  There are none of the latter if a stream that waits is
    polled again with a buffer that its permit covers. *)
Theorem bandwidth_respected lid n es l :
  net_ok n → lim_heap (store n) !! lid = Some l → SimpleLimiter.wf l →
  let ts := mjoin (readings <$> es) in
  let t0 := last_update (state l) in
  SimpleLimiter.nondecreasing t0 ts → SimpleLimiter.in_range (SimpleLimiter.end_time t0 ts - t0) →
  2 ^ 53 * NANOS_PER_SEC * (run lid n es).2 <=
  2 ^ 53 * NANOS_PER_SEC * (burst_size l + overdrawn lid n es)
  + (2 ^ 53 + 4) * (rate_per_sec l * (SimpleLimiter.end_time t0 ts - t0))
  + len ts * (NANOS_PER_SEC * burst_size l) ∧
  (stable_run lid n es → overdrawn lid n es = 0).
Proof.
  intros Hok Hl Hwf ts t0 Hmono Hr. split; [by apply run_bound|].
  by destruct (run_charged lid n es l Hok Hl).
Qed.

(** ** The wrapper is transparent *)

Lemma acquire_nothing lid fut rem ts st fut' st' ts' :
  acquire 2 lid fut rem ts st = (fut', st', ts', Nothing) → rem = 0.
Proof.
  cbn [acquire]. unfold acquire_turn. intros H.
  repeat case_match; simplify_eq; lia.
Qed.

(** C21: a poll of a read-limited stream that reports success either leaves the
    buffer and the wrapped stream as they were, having nothing to fill, or
    appends to the buffer exactly what one poll of the wrapped stream
    delivered, at most 16 KiB; an error or a wait for data is the wrapped
    stream's own; and without a limiter the poll is the wrapped stream's. *)
Theorem poll_read_transparent this buf ts st this' buf' st' r :
  poll_read this buf ts st = (this', buf', st', Polled r) →
  match read_limiter this with
  | None => inner_poll_read (inner this) buf = (inner this', buf', r) ∧ st' = st
  | Some _ =>
      (inner this' = inner this ∧ buf' = buf ∧
       (r = Pending ∨ (r = Ready (Ok tt) ∧ remaining buf = 0))) ∨
      (∃ view, inner_poll_read (inner this) (take_view buf (Z.min (remaining buf) CHUNK_SIZE))
                 = (inner this', view, r) ∧
       match r with
       | Ready (Ok _) => filled buf' = filled buf ++ filled view ∧ len (filled view) <= CHUNK_SIZE
       | _ => buf' = buf
       end)
  end.
Proof.
  unfold poll_read. destruct (read_limiter this) as [lid|].
  2: { destruct (inner_poll_read _ _) as [[s b] r0]. by intros [= <- <- <- <-]. }
  destruct (acquire _ _ _ _ _ _) as [[[fut st1] ts1] a] eqn:Hacq.
  destruct a; try (intros [= <- <- <- <-]; left; naive_solver); cbn [inner with_read_fut].
  - destruct (Z.eqb_spec (remaining buf) 0); [intros [= <- <- <- <-]; left; naive_solver|].
    pose proof (remaining_nonneg buf) as Hrem.
    destruct (take_view_spec buf (Z.min (remaining buf) CHUNK_SIZE)) as [Hv1 Hv2];
      [unfold CHUNK_SIZE; lia|].
    destruct (inner_poll_read _ _) as [[s v] r0] eqn:Hin.
    destruct r0 as [[[]|e]|]; [|intros [= <- <- <- <-]; right; by exists v..].
    destruct (advance _ _ _) as [b|] eqn:Hadv; [|done]. intros [= <- <- <- <-]. right. exists v.
    split; [done|]. split; [by apply (advance_spec _ _ _ _ Hadv)|].
    destruct (inner_read_spec _ _ _ _ Hin) as (data & Hd & Hlen).
    rewrite Hd, Hv2. rewrite Hv1 in Hlen. unfold len. cbn [app]. lia.
  - intros [= <- <- <- <-]. left. split_and!; [done..|]. right. split; [done|].
    by eapply acquire_nothing.
Qed.

(** C31: a poll of a write-limited stream hands the wrapped stream a prefix of
    the data of at most 16 KiB and reports what that accepted, an error or a
    wait being the wrapped stream's own; or it leaves the wrapped stream alone
    and waits, or had nothing to write; and without a limiter the poll is the
    wrapped stream's. *)
Theorem poll_write_transparent this d ts st this' st' r :
  poll_write this d ts st = (this', st', Polled r) →
  match write_limiter this with
  | None => inner_poll_write (inner this) d = (inner this', r) ∧ st' = st
  | Some _ =>
      (inner this' = inner this ∧ (r = Pending ∨ (r = Ready (Ok 0) ∧ d = []))) ∨
      inner_poll_write (inner this) (take (Z.to_nat (Z.min (len d) CHUNK_SIZE)) d) = (inner this', r)
  end.
Proof.
  unfold poll_write. destruct (write_limiter this) as [lid|].
  2: { destruct (inner_poll_write _ _) as [s r0]. by intros [= <- <- <-]. }
  assert (Hnil : Z.of_nat (length d) = 0 → d = []) by (destruct d; [done|simpl; lia]).
  destruct (acquire _ _ _ _ _ _) as [[[fut st1] ts1] a] eqn:Hacq.
  destruct a; try (intros [= <- <- <-]; left; naive_solver); cbn [inner with_write_fut].
  - destruct (Z.eqb_spec (Z.of_nat (length d)) 0); [intros [= <- <- <-]; left; naive_solver|].
    fold (len d). destruct (inner_poll_write _ _) as [s r0] eqn:Hin. intros [= <- <- <-]. by right.
  - intros [= <- <- <-]. left. split; [done|]. right. split; [done|]. apply Hnil.
    by eapply acquire_nothing.
Qed.

(** ** Progress *)

(** A bucket as the bandwidth manager makes them. *)
Definition serving (l : SimpleLimiter) : Prop :=
  SimpleLimiter.wf l ∧ 1024 <= rate_per_sec l ∧ CHUNK_SIZE <= burst_size l.

(** The bucket's clock is behind the readings from [t] on, by less than the range
    of a [Duration]. *)
Definition clock (l : SimpleLimiter) (t : Z) (ts : list Z) : Prop :=
  last_update (state l) <= t ∧ SimpleLimiter.nondecreasing t ts ∧
  SimpleLimiter.in_range (SimpleLimiter.end_time t ts - last_update (state l)).

Lemma clock_cons l t now ts :
  clock l t (now :: ts) →
  last_update (state l) <= now ∧ SimpleLimiter.in_range (now - last_update (state l)) ∧
  ∀ l', last_update (state l) <= last_update (state l') <= now → clock l' now ts.
Proof.
  intros (H1 & [H2 H3] & H4). cbn [SimpleLimiter.end_time] in H4.
  pose proof (SimpleLimiter.nondecreasing_end _ _ H3). unfold clock, SimpleLimiter.in_range in *.
  split_and!; [lia|lia|]. intros l' Hl'. split_and!; [lia|done|lia].
Qed.

(** A sleeping permit finds its tokens after its deadline. *)
Definition ripe (l : SimpleLimiter) (f : permit) : Prop :=
  ∀ deadline t, p_sleep f = Some deadline → deadline < t →
    SimpleLimiter.in_range (t - last_update (state l)) →
    (SimpleLimiter.until_turn l (p_n f) t).2 = SimpleLimiter.Granted.

Lemma serving_turn l n now :
  serving l → 0 < n <= CHUNK_SIZE → last_update (state l) <= now →
  SimpleLimiter.in_range (now - last_update (state l)) →
  let '(l', t) := SimpleLimiter.until_turn l n now in
  serving l' ∧ last_update (state l') = now ∧ t ≠ SimpleLimiter.Panicked ∧
  ∀ lid d, t = SimpleLimiter.SleepFor d →
    ripe l' {| p_limiter := lid; p_n := n; p_sleep := Some (now + d) |}.
Proof.
  intros (Hwf & Hrate & Hburst) Hn Hle Hr.
  assert (Hu : is_u32 n) by (unfold is_uN, CHUNK_SIZE in *; lia).
  destruct (SimpleLimiter.until_turn_total l n now Hwf Hu ltac:(lia) Hle Hr) as (H1 & H2 & H3).
  destruct (SimpleLimiter.until_turn_check l n now) as [E _].
  destruct (SimpleLimiter.check_n_frame l n now) as [F1 F2]. rewrite <-E in F1, F2.
  destruct (SimpleLimiter.until_turn l n now) as [l' t] eqn:Et. cbn [fst snd] in *.
  split; [split; [done|lia]|]. split; [done|]. split; [by intros ->|].
  intros lid d -> deadline u [= <-] Hu' Hru. destruct H3 as [_ H3]. rewrite H2 in Hru.
  apply H3; unfold CHUNK_SIZE in *; lia || done.
Qed.

(** Where a poll on a serving bucket leaves it, and a permit on it. *)
Definition served (lid : nat) (l : SimpleLimiter) (st : LimStore) (fut : option permit) : Prop :=
  ∃ l', lim_heap st !! lid = Some l' ∧ serving l' ∧
    last_update (state l) <= last_update (state l') ∧
    permit_ok lid fut ∧ match fut with Some f => ripe l' f | None => True end.

Lemma poll_permit_progress lid f ts st l t :
  permit_ok lid (Some f) → lim_heap st !! lid = Some l → serving l → clock l t ts → ripe l f →
  let '(st', ts', r) := poll_permit f ts st in
  r ≠ PermitPanic ∧
  match r with
  | PermitReady => served lid l st' None
  | PermitPending f' => served lid l st' (Some f') ∧ is_Some (p_sleep f')
  | _ => True
  end.
Proof.
  revert f st l t. induction ts as [|now ts IH]; intros f st l t [Hf Hn] Hl Hs Hc Hripe;
    cbn [poll_permit]; [done|].
  destruct (clock_cons _ _ _ _ Hc) as (Hle & Hr & Hc').
  destruct (p_sleep f) as [deadline|] eqn:Hsl.
  { destruct (sleep_over deadline now).
    - by apply (IH (asleep f None) st l now); [|done..|apply Hc'; lia|].
    - split; [done|]. split; [|by rewrite Hsl]. exists l. split_and!; [done..|lia|done|done]. }
  subst lid. rewrite Hl. pose proof (serving_turn l (p_n f) now Hs Hn Hle Hr) as Ht.
  destruct (SimpleLimiter.until_turn l (p_n f) now) as [l1 tn].
  destruct Ht as (Hs1 & Hu1 & Hnp & Hripe1).
  assert (Hl1 : lim_heap (with_bucket st (p_limiter f) l1) !! p_limiter f = Some l1)
    by (simpl; by rewrite lookup_insert_eq).
  destruct tn as [|d|]; [| |done].
  - split; [done|]. exists l1. split_and!; [done|done|lia|done|done].
  - specialize (IH (asleep f (Some (now + d))) _ l1 now (conj eq_refl Hn) Hl1 Hs1
      ltac:(apply Hc'; lia) (Hripe1 _ _ eq_refl)).
    destruct (poll_permit _ ts _) as [[st' ts'] r]. destruct IH as [IH1 IH2]. split; [done|].
    unfold served in *. destruct r; [| |done..].
    + destruct IH2 as (l2 & H1 & H2 & H3 & H4). exists l2. split_and!; [done|done|lia|done|done].
    + destruct IH2 as [(l2 & H1 & H2 & H3 & H4 & H5) H6].
      split; [|done]. exists l2. split_and!; [done|done|lia|done|done].
Qed.

(** Whatever others drew on the bucket since the permit fell asleep. *)
Lemma poll_permit_safe lid f ts st l t :
  permit_ok lid (Some f) → lim_heap st !! lid = Some l → serving l → clock l t ts →
  (poll_permit f ts st).2 ≠ PermitPanic.
Proof.
  revert f st l t. induction ts as [|now ts IH]; intros f st l t [Hf Hn] Hl Hs Hc; cbn [poll_permit]; [done|].
  destruct (clock_cons _ _ _ _ Hc) as (Hle & Hr & Hc').
  destruct (p_sleep f) as [deadline|] eqn:Hsl.
  { destruct (sleep_over deadline now); [|done].
    by apply (IH (asleep f None) st l now); [|done..|apply Hc'; lia]. }
  subst lid. rewrite Hl. pose proof (serving_turn l (p_n f) now Hs Hn Hle Hr) as Ht.
  destruct (SimpleLimiter.until_turn l (p_n f) now) as [l1 tn].
  destruct Ht as (Hs1 & Hu1 & Hnp & _). destruct tn as [|d|]; [done| |done].
  apply (IH (asleep f (Some (now + d))) _ l1 now (conj eq_refl Hn)); [|done|apply Hc'; lia].
  simpl. by rewrite lookup_insert_eq.
Qed.

Lemma serving_check l n now :
  serving l → 0 < n <= CHUNK_SIZE → last_update (state l) <= now →
  SimpleLimiter.in_range (now - last_update (state l)) →
  serving (SimpleLimiter.check_n l n now).1 ∧
  last_update (state l) <= last_update (state (SimpleLimiter.check_n l n now).1) <= now.
Proof.
  intros (Hwf & Hrate & Hburst) Hn Hle Hr.
  assert (Hu : is_u32 n) by (unfold is_uN, CHUNK_SIZE in *; lia).
  destruct (SimpleLimiter.check_n_frame l n now) as [F1 F2].
  pose proof (SimpleLimiter.check_n_clock l n now Hwf Hu Hr).
  split; [|lia]. split; [by apply SimpleLimiter.check_n_wf|lia].
Qed.

Lemma acquire_permit_progress fuel lid f rem ts st l t :
  permit_ok lid (Some f) → lim_heap st !! lid = Some l → serving l → clock l t ts → ripe l f →
  let '(fut', st', _, a) := acquire (S fuel) lid (Some f) rem ts st in
  a ≠ Panicking ∧ (a = Waiting → ∃ f', fut' = Some f' ∧ served lid l st' fut' ∧ is_Some (p_sleep f')).
Proof.
  intros Hok Hl Hs Hc Hripe. cbn [acquire acquire_turn].
  pose proof (poll_permit_progress lid f ts st l t Hok Hl Hs Hc Hripe) as H.
  destruct (poll_permit f ts st) as [[st' ts'] r]. destruct H as [Hnp H].
  destruct r; [done| |done|done]. split; [done|]. intros _. destruct H. eauto.
Qed.

Lemma acquire_safe lid fut rem ts st l t :
  permit_ok lid fut → 0 <= rem → lim_heap st !! lid = Some l → serving l → clock l t ts →
  (acquire 2 lid fut rem ts st).2 ≠ Panicking.
Proof.
  intros Hok Hrem Hl Hs Hc.
  assert (Hperm : ∀ n f ts st l t, permit_ok lid (Some f) → lim_heap st !! lid = Some l → serving l →
    clock l t ts → (acquire (S n) lid (Some f) rem ts st).2 ≠ Panicking).
  { intros n f ts0 st0 l0 t0 H1 H2 H3 H4. pose proof (poll_permit_safe _ _ _ _ _ _ H1 H2 H3 H4) as H5.
    cbn [acquire acquire_turn]. by destruct (poll_permit f ts0 st0) as [[? ?] []]. }
  destruct fut as [f|]; [by eapply Hperm|].
  remember 1%nat as fuel eqn:Hfuel. cbn [acquire acquire_turn].
  destruct (Z.eqb_spec rem 0); [done|]. destruct ts as [|now ts]; [done|]. rewrite Hl.
  destruct (clock_cons _ _ _ _ Hc) as (Hle & Hr & Hc').
  assert (Hn : 0 < Z.min rem CHUNK_SIZE <= CHUNK_SIZE) by (unfold CHUNK_SIZE; lia).
  destruct (serving_check l _ now Hs Hn Hle Hr) as [Hs1 Hu1].
  destruct (SimpleLimiter.check_n l _ now) as [l1 [[]|[]]]; cbn [fst] in *; [done|]. subst fuel.
  eapply (Hperm 0%nat _ ts (with_bucket st lid l1) l1 now); [by split| |done|by apply Hc'].
  simpl. by rewrite lookup_insert_eq.
Qed.

(** A poll that finds no permit pending and has to wait leaves one that is asleep. *)
Lemma acquire_progress lid rem ts st l t :
  0 <= rem → lim_heap st !! lid = Some l → serving l → clock l t ts →
  let '(fut', st', _, a) := acquire 2 lid None rem ts st in
  a = Waiting → ∃ f', fut' = Some f' ∧ served lid l st' fut' ∧ is_Some (p_sleep f').
Proof.
  intros Hrem Hl Hs Hc. remember 1%nat as fuel eqn:Hfuel. cbn [acquire acquire_turn].
  destruct (Z.eqb_spec rem 0); [done|]. destruct ts as [|now ts]; [done|]. rewrite Hl.
  destruct (clock_cons _ _ _ _ Hc) as (Hle & Hr & Hc').
  assert (Hn : 0 < Z.min rem CHUNK_SIZE <= CHUNK_SIZE) by (unfold CHUNK_SIZE; lia).
  destruct (serving_check l _ now Hs Hn Hle Hr) as [Hs1 Hu1].
  destruct (SimpleLimiter.check_n l _ now) as [l1 [[]|[]]]; cbn [fst] in *; [done|].
  subst fuel. set (f := {| p_limiter := lid; p_n := _; p_sleep := None |}).
  set (st1 := with_bucket st lid l1).
  assert (Hl1 : lim_heap st1 !! lid = Some l1) by (simpl; by rewrite lookup_insert_eq).
  pose proof (acquire_permit_progress 0 lid f rem ts st1 l1 now (conj eq_refl Hn) Hl1 Hs1
    (Hc' _ Hu1) ltac:(intros ?? [=])) as H.
  destruct (acquire 1 lid (Some f) rem ts st1) as [[[fut' st'] ts'] a]. destruct H as [Hnp H].
  intros Hw. destruct (H Hw) as (f' & -> & (l2 & H1 & H2 & H3 & H4) & H6).
  exists f'. split_and!; [done| |done]. exists l2. split_and!; [done|done|lia|by destruct H4..].
Qed.

(** C30: neither poll panics on a bucket as the bandwidth manager makes them (a
    rate of at least 1024 and a burst of at least 16 KiB), with or without a
    pending permit of that bucket, whatever other streams drew on it meanwhile: the
    wait computed for the missing tokens is a valid duration and the request is
    never zero; for a read, the buffer handed in is initialised. *)
Theorem polls_do_not_panic this buf d ts ts' st lid lid' l l' t t' :
  read_limiter this = Some lid → permit_ok lid (read_permit_fut this) →
  lim_heap st !! lid = Some l → serving l → clock l t ts → initialized buf →
  write_limiter this = Some lid' → permit_ok lid' (write_permit_fut this) →
  lim_heap st !! lid' = Some l' → serving l' → clock l' t' ts' →
  (poll_read this buf ts st).2 ≠ Panic ∧ (poll_write this d ts' st).2 ≠ Panic.
Proof.
  intros Hlim Hok Hl Hs Hc Hinit Hlim' Hok' Hl' Hs' Hc'. split.
  - unfold poll_read. rewrite Hlim. pose proof (remaining_nonneg buf) as Hrem.
    pose proof (acquire_safe _ _ _ _ _ _ _ Hok Hrem Hl Hs Hc) as Hnp.
    destruct (acquire _ _ _ _ _ _) as [[[fut st1] ts1] a]. cbn [snd] in Hnp.
    destruct a; try done. destruct (Z.eqb_spec (remaining buf) 0); [done|].
    cbn [inner with_read_fut].
    destruct (take_view_spec buf (Z.min (remaining buf) CHUNK_SIZE)) as [Hv1 Hv2];
      [unfold CHUNK_SIZE; lia|].
    destruct (inner_poll_read _ _) as [[s v] r] eqn:Hin. destruct r as [[[]|]|]; try done.
    destruct (inner_read_spec _ _ _ _ Hin) as (data & Hd & Hlen). rewrite Hv2 in Hd. cbn [app] in Hd.
    destruct (advance_initialized buf v (Z.of_nat (length (filled v))) Hinit) as [b ->]; [|done].
    rewrite Hd. lia.
  - unfold poll_write. rewrite Hlim'.
    pose proof (acquire_safe _ _ _ _ _ _ _ Hok' (Nat2Z.is_nonneg (length d)) Hl' Hs' Hc') as Hnp.
    destruct (acquire _ _ _ _ _ _) as [[[fut st1] ts1] a]. cbn [snd] in Hnp.
    destruct a; try done. destruct (Z.of_nat (length d) =? 0); [done|].
    by destruct (inner_poll_write _ _).
Qed.

(** C23: a read that has to wait for tokens gets them at the first poll after the
    deadline it computed, if the bucket is then as the read left it, no other
    stream having drawn on it in between (other buckets may have changed): that
    poll clears the permit and polls the wrapped stream. *)
Theorem waiting_read_resumes this buf ts st lid l t this' buf' st' f :
  read_limiter this = Some lid → read_permit_fut this = None →
  lim_heap st !! lid = Some l → serving l → clock l t ts →
  poll_read this buf ts st = (this', buf', st', Polled Pending) → read_permit_fut this' = Some f →
  ∃ deadline, p_sleep f = Some deadline ∧
    ∀ st2 buf2 t2 t3 ts2, lim_heap st2 !! lid = lim_heap st' !! lid →
      sleep_over deadline t2 = true → deadline < t3 →
      SimpleLimiter.in_range (t3 - last_update (state l)) → remaining buf2 ≠ 0 →
      let this2 := (poll_read this' buf2 (t2 :: t3 :: ts2) st2).1.1.1 in
      read_permit_fut this2 = None ∧
      inner this2 = (inner_poll_read (inner this')
                       (take_view buf2 (Z.min (remaining buf2) CHUNK_SIZE))).1.1.
Proof.
  intros Hlim Hnone Hl Hs Hc. unfold poll_read at 1. rewrite Hlim, Hnone.
  pose proof (acquire_progress lid _ ts st l t (remaining_nonneg buf) Hl Hs Hc) as H.
  destruct (acquire _ _ _ _ _ _) as [[[fut st1] ts1] a] eqn:Hacq.
  assert (Hclear : a = Acquired → fut = None).
  { intros ->. cbn [acquire] in Hacq. unfold acquire_turn in Hacq. repeat case_match; by simplify_eq. }
  intros Hp Hfut.
  assert (Hw : a = Waiting ∧ this' = with_read_fut this fut ∧ st' = st1).
  { destruct a; try (by simplify_eq). exfalso. rewrite (Hclear eq_refl) in Hp.
    repeat case_match; simplify_eq. }
  destruct Hw as (-> & -> & ->). destruct (H eq_refl) as (f' & -> & (l' & Hl' & Hs' & Hu & Hok & Hripe) & [dl Hdl]).
  cbn [with_read_fut read_permit_fut] in Hfut. injection Hfut as ->. destruct Hok as [Hpl Hn].
  exists dl. split; [done|]. intros st2 buf2 t2 t3 ts2 Hsame Hover Hlt Hr Hrem. rewrite Hl' in Hsame.
  unfold poll_read. cbn [with_read_fut read_limiter read_permit_fut]. rewrite Hlim.
  assert (Hgr : (SimpleLimiter.until_turn l' (p_n f) t3).2 = SimpleLimiter.Granted).
  { apply (Hripe dl); [done|done|]. unfold SimpleLimiter.in_range in *. lia. }
  cbn [acquire acquire_turn poll_permit]. rewrite Hdl, Hover. cbn [asleep p_sleep p_limiter p_n].
  rewrite Hpl, Hsame. destruct (SimpleLimiter.until_turn l' (p_n f) t3) as [l2 tn]. cbn [snd] in Hgr.
  subst tn. rewrite (proj2 (Z.eqb_neq _ _) Hrem). cbn [inner with_read_fut].
  destruct (inner_poll_read _ _) as [[s v] r]. repeat case_match; done.
Qed.

(** ** Termination

    The fuel of [acquire] and the readings of a poll are enough: the loop of a
    poll turns at most twice, and the loop of the permit inside it ends as soon
    as the clock has moved past a deadline. *)

Fixpoint increasing (ts : list Z) : Prop :=
  match ts with
  | t :: ts => match ts with t' :: _ => t < t' | [] => True end ∧ increasing ts
  | [] => True
  end.

Lemma acquire_two_turns k lid fut rem ts st : acquire (2 + k) lid fut rem ts st = acquire 2 lid fut rem ts st.
Proof.
  assert (Hone : ∀ n f ts st, acquire (S n) lid (Some f) rem ts st = acquire 1 lid (Some f) rem ts st).
  { intros n f ts0 st0. cbn [acquire acquire_turn]. by destruct (poll_permit f ts0 st0) as [[? ?] []]. }
  destruct fut as [f|]; [by rewrite (Hone (1 + k)%nat), (Hone 1%nat)|].
  change (acquire (2 + k) lid None rem ts st) with
    (match acquire_turn lid None rem ts st with
     | (fut, st, ts, Again) => acquire (1 + k) lid fut rem ts st | r => r end).
  change (acquire 2 lid None rem ts st) with
    (match acquire_turn lid None rem ts st with
     | (fut, st, ts, Again) => acquire 1 lid fut rem ts st | r => r end).
  unfold acquire_turn. destruct (rem =? 0); [done|]. destruct ts as [|now ts]; [done|].
  destruct (lim_heap st !! lid) as [l|]; [|done].
  destruct (SimpleLimiter.check_n l _ now) as [l1 [[]|[]]]; [done|]. by rewrite (Hone k).
Qed.

Lemma asleep_permit_ends lid f ts st l t :
  permit_ok lid (Some f) → lim_heap st !! lid = Some l → clock l t ts → increasing ts → ripe l f →
  is_Some (p_sleep f) → (2 ≤ length ts)%nat → (poll_permit f ts st).2 ≠ PermitStuck.
Proof.
  intros [<- Hn] Hl Hc Hinc Hripe [dl Hdl] Hlen. destruct ts as [|t1 [|t2 ts]]; try (simpl in Hlen; lia).
  destruct (clock_cons _ _ _ _ Hc) as (Hle1 & _ & Hc1).
  destruct (clock_cons _ _ _ _ (Hc1 l ltac:(lia))) as (_ & Hr2 & _).
  cbn [poll_permit]. rewrite Hdl. destruct (sleep_over dl t1) eqn:Hover; [|done].
  apply sleep_over_spec in Hover. destruct Hinc as [Hlt _].
  cbn [poll_permit asleep p_sleep p_limiter p_n]. rewrite Hl.
  pose proof (Hripe dl t2 Hdl ltac:(lia) Hr2) as Hg.
  destruct (SimpleLimiter.until_turn l (p_n f) t2) as [l1 tn]. cbn [snd] in Hg. by subst tn.
Qed.

(** A permit about to ask for its tokens. *)
Lemma awake_permit_ends lid f ts st l t :
  permit_ok lid (Some f) → lim_heap st !! lid = Some l → serving l → clock l t ts → increasing ts →
  p_sleep f = None → (3 ≤ length ts)%nat → (poll_permit f ts st).2 ≠ PermitStuck.
Proof.
  intros [<- Hn] Hl Hs Hc Hinc Hsl Hlen.
  destruct ts as [|now ts]; [simpl in Hlen; lia|]. destruct (clock_cons _ _ _ _ Hc) as (Hle & Hr & Hc').
  cbn [poll_permit]. rewrite Hsl, Hl. pose proof (serving_turn l (p_n f) now Hs Hn Hle Hr) as Ht.
  destruct (SimpleLimiter.until_turn l (p_n f) now) as [l1 tn]. destruct Ht as (Hs1 & Hu1 & Hnp & Hripe1).
  destruct tn as [|d|]; [done| |done]. destruct Hinc as [_ Hinc]. cbn [length] in Hlen.
  eapply (asleep_permit_ends (p_limiter f) _ ts _ l1 now); [by split| |apply Hc'; lia|done| |by eexists|lia].
  - simpl. by rewrite lookup_insert_eq.
  - by apply Hripe1.
Qed.

(** Any permit: after its sleep it asks, sleeps once more at most, and asks again. *)
Lemma permit_ends lid f ts st l t :
  permit_ok lid (Some f) → lim_heap st !! lid = Some l → serving l → clock l t ts → increasing ts →
  (4 ≤ length ts)%nat → (poll_permit f ts st).2 ≠ PermitStuck.
Proof.
  intros Hok Hl Hs Hc Hinc Hlen. destruct (p_sleep f) as [dl|] eqn:Hsl.
  2: { eapply awake_permit_ends; try done. lia. }
  destruct ts as [|now ts]; [simpl in Hlen; lia|]. destruct (clock_cons _ _ _ _ Hc) as (Hle & _ & Hc').
  cbn [poll_permit]. rewrite Hsl. destruct (sleep_over dl now); [|done].
  destruct Hinc as [_ Hinc]. cbn [length] in Hlen.
  eapply (awake_permit_ends lid (asleep f None) ts st l now); try done; [apply Hc'; lia|lia].
Qed.

Lemma acquire_ends lid fut rem ts st l t :
  permit_ok lid fut → 0 <= rem → lim_heap st !! lid = Some l → serving l → clock l t ts → increasing ts →
  (4 ≤ length ts)%nat →
  (acquire 2 lid fut rem ts st).2 ≠ Stuck ∧ (acquire 2 lid fut rem ts st).2 ≠ Again.
Proof.
  intros Hok Hrem Hl Hs Hc Hinc Hlen.
  assert (Hperm : ∀ n f ts st, (poll_permit f ts st).2 ≠ PermitStuck →
    (acquire (S n) lid (Some f) rem ts st).2 ≠ Stuck ∧ (acquire (S n) lid (Some f) rem ts st).2 ≠ Again).
  { intros n f ts0 st0 H. cbn [acquire acquire_turn]. by destruct (poll_permit f ts0 st0) as [[? ?] []]. }
  destruct fut as [f|]; [apply Hperm; by eapply permit_ends|].
  remember 1%nat as fuel eqn:Hfuel. cbn [acquire acquire_turn].
  destruct (Z.eqb_spec rem 0); [done|]. destruct ts as [|now ts]; [simpl in Hlen; lia|]. rewrite Hl.
  destruct (clock_cons _ _ _ _ Hc) as (Hle & Hr & Hc'). destruct Hinc as [_ Hinc]. cbn [length] in Hlen.
  assert (Hn : 0 < Z.min rem CHUNK_SIZE <= CHUNK_SIZE) by (unfold CHUNK_SIZE; lia).
  destruct (serving_check l _ now Hs Hn Hle Hr) as [Hs1 Hu1].
  destruct (SimpleLimiter.check_n l _ now) as [l1 [[]|[]]]; cbn [fst] in *; [done|]. subst fuel.
  apply Hperm.
  eapply (awake_permit_ends lid _ ts (with_bucket st lid l1) l1 now); [by split| |done|by apply Hc'|done|done|lia].
  simpl. by rewrite lookup_insert_eq.
Qed.

(** C22: polls terminate: the loop of [poll_read] and [poll_write] around the
    acquisition of tokens turns at most twice, whatever the bucket holds, and a
    poll on a bucket as the bandwidth manager makes them makes at most four clock
    readings, if the clock advances between them, with or without a pending permit
    and whatever other streams drew on the bucket since it fell asleep; it never
    spins waiting for tokens. *)
Theorem polls_terminate this buf d ts ts' st lid lid' l l' t t' :
  read_limiter this = Some lid → permit_ok lid (read_permit_fut this) →
  lim_heap st !! lid = Some l → serving l → clock l t ts →
  write_limiter this = Some lid' → permit_ok lid' (write_permit_fut this) →
  lim_heap st !! lid' = Some l' → serving l' → clock l' t' ts' →
  increasing ts → increasing ts' → (4 ≤ length ts)%nat → (4 ≤ length ts')%nat →
  (poll_read this buf ts st).2 ≠ Unfinished ∧ (poll_write this d ts' st).2 ≠ Unfinished ∧
  ∀ k fut rem, acquire (2 + k) lid fut rem ts st = acquire 2 lid fut rem ts st.
Proof.
  intros Hlim Hok Hl Hs Hc Hlim' Hok' Hl' Hs' Hc' Hinc Hinc' Hlen Hlen'. split_and!.
  - unfold poll_read. rewrite Hlim.
    pose proof (acquire_ends _ _ _ _ _ _ _ Hok (remaining_nonneg buf) Hl Hs Hc Hinc Hlen) as H.
    destruct (acquire _ _ _ _ _ _) as [[[fut st1] ts1] a]. cbn [snd] in H. destruct H as [H1 H2].
    destruct a; try done. destruct (remaining buf =? 0); [done|].
    destruct (inner_poll_read _ _) as [[s v] [[[]|]|]]; try done. by destruct (advance _ _ _).
  - unfold poll_write. rewrite Hlim'.
    pose proof (acquire_ends _ _ _ _ _ _ _ Hok' (Nat2Z.is_nonneg (length d)) Hl' Hs' Hc' Hinc' Hlen') as H.
    destruct (acquire _ _ _ _ _ _) as [[[fut st1] ts1] a]. cbn [snd] in H. destruct H as [H1 H2].
    destruct a; try done. destruct (Z.of_nat (length d) =? 0); [done|]. by destruct (inner_poll_write _ _).
  - intros k fut rem. apply acquire_two_turns.
Qed.
End stream.

(** ** A concrete runtime

    A stream that delivers scripted chunks ([None]: not ready) and accepts every
    write, and a read buffer with its capacity, filled and initialised parts. *)

Record script := { chunks : list (option (list Z)); sent : list Z }.
Record buffer := { capacity : nat; bytes : list Z; init : nat }.

Definition room (b : buffer) : nat := capacity b - length (bytes b).

Definition script_read (s : script) (b : buffer) : script * buffer * Poll (result unit unit) :=
  match chunks s with
  | [] => (s, b, Ready (Ok tt))
  | None :: cs => ({| chunks := cs; sent := sent s |}, b, Pending)
  | Some c :: cs =>
      ({| chunks := (if (length c <=? room b)%nat then cs else Some (drop (room b) c) :: cs);
          sent := sent s |},
       {| capacity := capacity b; bytes := bytes b ++ take (room b) c; init := init b |},
       Ready (Ok tt))
  end.

#[export] Instance script_io : AsyncIo := {|
  Stream := script; ReadBuf := buffer; IoError := unit;
  inner_poll_read := script_read;
  inner_poll_write s d :=
    ({| chunks := chunks s; sent := sent s ++ d |}, Ready (Ok (len d)));
  inner_poll_flush s := (s, Ready (Ok tt));
  inner_poll_shutdown s := (s, Ready (Ok tt));
  remaining b := Z.of_nat (room b);
  filled := bytes;
  take_view _ n := {| capacity := Z.to_nat n; bytes := []; init := 0 |};
  advance b v n :=
    if (length (bytes b) + Z.to_nat n <=? init b)%nat
    then Some {| capacity := capacity b; bytes := bytes b ++ take (Z.to_nat n) (bytes v); init := init b |}
    else None;
  initialized b := init b = capacity b ∧ (length (bytes b) <= capacity b)%nat;
  sleep_over deadline now := deadline <=? now;
|}.

#[export] Instance script_io_laws : AsyncIoLaws script_io.
Proof.
  split; simpl.
  - intros b. lia.
  - intros b n Hn. unfold room. simpl. split; [lia|done].
  - intros s b s' b'. unfold script_read. destruct (chunks s) as [|[c|] cs]; intros; simplify_eq.
    + exists []. rewrite app_nil_r. split; [done|simpl; lia].
    + eexists. split; [done|]. rewrite length_take. lia.
  - intros s d s' n [= _ <-]. unfold len. lia.
  - intros b v n b'. case_match; [|done]. intros [= <-] ->. simpl.
    by rewrite Nat2Z.id, take_ge by lia.
  - intros b v n [Hi Hb] Hn. unfold room in Hn.
    rewrite (proj2 (Nat.leb_le _ _)) by lia. by eexists.
  - intros deadline now. lia.
Defined.

Definition bucket (rate : Z) (t : Z) : SimpleLimiter :=
  {| rate_per_sec := rate; burst_size := 65536; state := {| tokens := t * F64_ONE; last_update := 0 |} |}.
Definition store_of (l : SimpleLimiter) : LimStore := {| lim_next := 1; lim_heap := {[0%nat := l]} |}.
Definition fresh_buf (n : nat) : buffer := {| capacity := n; bytes := []; init := n |}.
Definition reader (cs : list (option (list Z))) : RateLimitedStream :=
  new {| chunks := cs; sent := [] |} (Some 0%nat) None.

Lemma bucket_serving rate t : 1024 <= rate < 2 ^ 32 → 0 <= t <= 65536 → serving (bucket rate t).
Proof.
  intros Hr Ht. split; [|unfold CHUNK_SIZE; simpl; lia].
  split_and!; unfold is_uN; cbn [bucket rate_per_sec burst_size state tokens]; [lia|lia| |].
  - apply SimpleLimiter.u32_is_f64. unfold is_uN. lia.
  - apply Z.mul_le_mono_nonneg_r; [|lia]. pose proof F64_ONE_pos. lia.
Qed.

(** The excess over the bandwidth bound is real: a permit is for the buffer
    of the poll that asked for it.  With an empty bucket of 1024 bytes per second,
    a read that waits with one byte of room and is polled again after a
    millisecond with room for 256 bytes moves 256 bytes. *)
Theorem stale_permit_underpays :
  let n := {| streams := [reader [Some (replicate 256 7)]]; store := store_of (bucket 1024 0) |} in
  let es := [PollRead 0 (fresh_buf 1) [0; 0; 0]; PollRead 0 (fresh_buf 256) [1000000; 1000000]] in
  net_ok n ∧ (run 0 n es).2 = 256 ∧ overdrawn 0 n es = 255.
Proof.
  cbn zeta. split; [|split; vm_compute; reflexivity].
  apply Forall_singleton. split; intros lid [= <-]. split; [by eexists|done].
Qed.

(** Tokens taken for a poll in which the wrapped stream has no data are lost:
    four such polls with room for 100 bytes take 400 tokens without a byte being
    moved. *)
Theorem pending_io_pays :
  let n := {| streams := [reader [None; None; None; None]]; store := store_of (bucket 1024 400) |} in
  let es := replicate 4 (PollRead 0 (fresh_buf 100) [0]) in
  (run 0 n es).2 = 0 ∧ lim_heap (store (run 0 n es).1) !! 0%nat = Some (bucket 1024 0).
Proof. cbn zeta. split; vm_compute; reflexivity. Qed.

(** Two streams share the bucket; the second one waits. *)
Lemma bandwidth_respected_witness :
  let n := {| streams := [reader [Some (replicate 30 7)]; reader [Some (replicate 30 8)]];
              store := store_of (bucket 1024 40) |} in
  let es := [PollRead 1 (fresh_buf 30) [0; 5; 20000000]] in
  2 ^ 53 * NANOS_PER_SEC * (run 0 n es).2 <=
  2 ^ 53 * NANOS_PER_SEC * 65536 + (2 ^ 53 + 4) * (1024 * 20000000) + 3 * (NANOS_PER_SEC * 65536).
Proof.
  intros n es. destruct (bandwidth_respected 0 n es (bucket 1024 40)) as [Hb Hst].
  - repeat apply Forall_cons_2; [| |apply Forall_nil; exact I];
      (split; intros lid [= <-]; split; [by eexists|exact I]).
  - reflexivity.
  - apply bucket_serving; lia.
  - simpl. lia.
  - unfold SimpleLimiter.in_range, NANOS_PER_SEC. simpl. lia.
  - rewrite Hst, Z.add_0_r in Hb; [exact Hb|]. split; exact I.
Defined.

Lemma poll_read_transparent_witness :
  let s := reader [Some [1; 2; 3]] in
  let '(s', buf', st', o) := poll_read s (fresh_buf 8) [0] (store_of (bucket 1024 40)) in
  o = Polled (Ready (Ok tt)) ∧ bytes buf' = [1; 2; 3].
Proof.
  intros s.
  assert (Ho : (poll_read s (fresh_buf 8) [0] (store_of (bucket 1024 40))).2 = Polled (Ready (Ok tt)))
    by (vm_compute; reflexivity).
  destruct (poll_read s (fresh_buf 8) [0] (store_of (bucket 1024 40))) as [[[s' buf'] st'] o] eqn:Hp.
  cbn [snd] in Ho. subst o. split; [reflexivity|].
  destruct (poll_read_transparent s (fresh_buf 8) [0] (store_of (bucket 1024 40)) s' buf' st' _ Hp)
    as [(_ & _ & [Hr|[_ Hr]])|(view & Hin & Hf & _)]; [discriminate Hr|discriminate Hr|].
  injection Hin as _ <-. exact Hf.
Defined.

Definition writer : RateLimitedStream := new {| chunks := []; sent := [] |} (Some 0%nat) (Some 0%nat).

Lemma poll_write_transparent_witness :
  let '(s', st', o) := poll_write writer [1; 2; 3] [0] (store_of (bucket 1024 40)) in
  o = Polled (Ready (Ok 3)) ∧ sent (inner s') = [1; 2; 3].
Proof.
  assert (Ho : (poll_write writer [1; 2; 3] [0] (store_of (bucket 1024 40))).2 = Polled (Ready (Ok 3)))
    by (vm_compute; reflexivity).
  destruct (poll_write writer [1; 2; 3] [0] (store_of (bucket 1024 40))) as [[s' st'] o] eqn:Hp.
  cbn [snd] in Ho. subst o. split; [reflexivity|].
  destruct (poll_write_transparent writer [1; 2; 3] [0] (store_of (bucket 1024 40)) s' st' _ Hp)
    as [(_ & [Hr|[Hr _]])|Hin]; [discriminate Hr|discriminate Hr|].
  injection Hin as <-. reflexivity.
Defined.

(** A stream whose permits have been asleep until 5, on a bucket that others have
    emptied meanwhile. *)
Definition sleeper : RateLimitedStream :=
  let f := Some {| p_limiter := 0; p_n := 80; p_sleep := Some 5 |} in
  with_write_fut (with_read_fut writer f) f.

Lemma sleeper_ok : permit_ok 0 (read_permit_fut sleeper).
Proof. split; [reflexivity|]. unfold CHUNK_SIZE. cbn. lia. Qed.

Lemma sleeper_clock : clock (bucket 1024 0) 0 [6; 7; 8; 9].
Proof. unfold clock, SimpleLimiter.in_range, NANOS_PER_SEC. simpl. lia. Qed.

Lemma polls_do_not_panic_witness :
  (poll_read sleeper (fresh_buf 80) [6; 7; 8; 9] (store_of (bucket 1024 0))).2 ≠ Panic ∧
  (poll_write sleeper [1; 2; 3] [6; 7; 8; 9] (store_of (bucket 1024 0))).2 ≠ Panic.
Proof.
  refine (polls_do_not_panic sleeper (fresh_buf 80) [1; 2; 3] [6; 7; 8; 9] [6; 7; 8; 9] (store_of (bucket 1024 0))
    0 0 (bucket 1024 0) (bucket 1024 0) 0 0 eq_refl sleeper_ok eq_refl _ sleeper_clock _ eq_refl sleeper_ok
    eq_refl _ sleeper_clock).
  - apply bucket_serving; lia.
  - split; simpl; lia.
  - apply bucket_serving; lia.
Defined.

(** A read that finds 40 tokens for 80 bytes of room goes to sleep. *)
Definition sleeping (p : RateLimitedStream * buffer * LimStore * outcome unit) : bool :=
  match p.2, read_permit_fut p.1.1.1 with
  | Polled Pending, Some f => match p_sleep f with Some deadline => deadline <? 2 ^ 40 | None => false end
  | _, _ => false
  end.

(** Polled again at its deadline, it gets its tokens. *)
Lemma waiting_read_resumes_witness :
  let s := reader [Some [1; 2; 3]] in
  let '(s', buf', st', _) := poll_read s (fresh_buf 80) [0; 0; 0] (store_of (bucket 1024 40)) in
  ∃ f deadline, read_permit_fut s' = Some f ∧ p_sleep f = Some deadline ∧
    read_permit_fut (poll_read s' (fresh_buf 80) [deadline; deadline + 1] st').1.1.1 = None.
Proof.
  intros s.
  assert (Ho : sleeping (poll_read s (fresh_buf 80) [0; 0; 0] (store_of (bucket 1024 40))) = true)
    by (vm_compute; reflexivity).
  destruct (poll_read s (fresh_buf 80) [0; 0; 0] (store_of (bucket 1024 40)))
    as [[[s' buf'] st'] o] eqn:Hp.
  unfold sleeping in Ho. cbn [fst snd] in Ho.
  destruct o as [[|]| |]; try discriminate Ho.
  destruct (read_permit_fut s') as [f|] eqn:Hf; [|discriminate Ho].
  destruct (waiting_read_resumes s (fresh_buf 80) [0; 0; 0] (store_of (bucket 1024 40)) 0
    (bucket 1024 40) 0 s' buf' st' f eq_refl eq_refl eq_refl
    (bucket_serving 1024 40 ltac:(lia) ltac:(lia))
    ltac:(unfold clock, SimpleLimiter.in_range, NANOS_PER_SEC; simpl; lia) Hp Hf) as (deadline & Hd & Hresume).
  exists f, deadline. split; [reflexivity|]. split; [exact Hd|]. rewrite Hd in Ho.
  refine (proj1 (Hresume st' (fresh_buf 80) deadline (deadline + 1) [] eq_refl _ _ _ _)).
  - change ((deadline <=? deadline) = true). lia.
  - lia.
  - unfold SimpleLimiter.in_range, NANOS_PER_SEC. cbn [bucket state last_update]. lia.
  - discriminate.
Defined.

Lemma polls_terminate_witness :
  (poll_read sleeper (fresh_buf 80) [6; 7; 8; 9] (store_of (bucket 1024 0))).2 ≠ Unfinished.
Proof.
  refine (proj1 (polls_terminate sleeper (fresh_buf 80) [7; 7] [6; 7; 8; 9] [6; 7; 8; 9] (store_of (bucket 1024 0))
    0 0 (bucket 1024 0) (bucket 1024 0) 0 0 eq_refl sleeper_ok eq_refl _ sleeper_clock eq_refl sleeper_ok eq_refl
    _ sleeper_clock _ _ _ _));
    first [apply bucket_serving; lia | cbn; lia].
Defined.
