(* ===== verification/Metrics.v ===== *)
(** * Metrics: [src/src/metrics/mod.rs]

    The metric families the program registers, the calls it makes on them, the
    interface of the metrics library (the [prometheus] crate) as far as
    theorems about gauges and counters rely on it, and the handler of the HTTP
    endpoint.  The program's components record the calls they make, in order. *)

From S2P Require Import Prelude.
Open Scope Z_scope.

(** The registered families; their label names are in the comments. *)
Inductive gauge :=
| ACTIVE_CONNECTIONS            (* rule_name *)
| BACKEND_ACTIVE_CONNECTIONS    (* rule_name, backend_addr *)
| BACKEND_HEALTH_STATUS.        (* rule_name, backend_addr *)

Inductive counter :=
| TOTAL_CONNECTIONS             (* rule_name *)
| TRAFFIC_BYTES.                (* rule_name, direction *)

Inductive histogram :=
| CONNECTION_DURATION.          (* rule_name *)

#[export] Instance gauge_eq_dec : EqDecision gauge.
Proof. solve_decision. Defined.
#[export] Instance counter_eq_dec : EqDecision counter.
Proof. solve_decision. Defined.

(** A call on the child of a family that [with_label_values] selects. *)
Inductive metric_call :=
| GaugeSet (g : gauge) (labels : list string) (v : Z)
| GaugeInc (g : gauge) (labels : list string)
| GaugeDec (g : gauge) (labels : list string)
| CounterInc (c : counter) (labels : list string)
| CounterIncBy (c : counter) (labels : list string) (n : Z)
| Observe (h : histogram) (labels : list string) (v : Z).

(** ** The interface of the metrics library

    A registry applies calls; the documented behaviour of gauges is that [set]
    stores a value, [inc] and [dec] add and subtract one; counters are 64-bit
    integers that [inc] and [inc_by] raise; and a child is not affected by calls
    on other children. *)
Class Registry (R : Type) := {
  apply : metric_call → R → R;
  read_gauge : gauge → list string → R → Z;
  read_counter : counter → list string → R → Z;
  empty_registry : R;
  read_empty g ls : read_gauge g ls empty_registry = 0;
  read_set g ls v r : read_gauge g ls (apply (GaugeSet g ls v) r) = v;
  read_inc g ls r : read_gauge g ls (apply (GaugeInc g ls) r) = read_gauge g ls r + 1;
  read_dec g ls r : read_gauge g ls (apply (GaugeDec g ls) r) = read_gauge g ls r - 1;
  read_other g ls c r :
    (∀ v, c ≠ GaugeSet g ls v) → c ≠ GaugeInc g ls → c ≠ GaugeDec g ls →
    read_gauge g ls (apply c r) = read_gauge g ls r;
  counter_empty c ls : read_counter c ls empty_registry = 0;
  counter_inc c ls r :
    read_counter c ls (apply (CounterInc c ls) r) = (read_counter c ls r + 1) mod 2 ^ 64;
  counter_inc_by c ls n r :
    read_counter c ls (apply (CounterIncBy c ls n) r) = (read_counter c ls r + n) mod 2 ^ 64;
  counter_other c ls call r :
    call ≠ CounterInc c ls → (∀ n, call ≠ CounterIncBy c ls n) →
    read_counter c ls (apply call r) = read_counter c ls r;
}.

(** A registry that satisfies the interface. *)
Definition gauge_key (g : gauge) (ls : list string) : string * list string :=
  (match g with
   | ACTIVE_CONNECTIONS => "l4lb_active_connections"
   | BACKEND_ACTIVE_CONNECTIONS => "l4lb_backend_active_connections"
   | BACKEND_HEALTH_STATUS => "l4lb_backend_health_status"
   end, ls).

Definition counter_key (c : counter) (ls : list string) : string * list string :=
  (match c with
   | TOTAL_CONNECTIONS => "l4lb_connections_total"
   | TRAFFIC_BYTES => "l4lb_traffic_bytes_total"
   end, ls).

Definition map_apply (c : metric_call) (r : gmap (string * list string) Z)
    : gmap (string * list string) Z :=
  match c with
  | GaugeSet g ls v => <[gauge_key g ls := v]> r
  | GaugeInc g ls => <[gauge_key g ls := default 0 (r !! gauge_key g ls) + 1]> r
  | GaugeDec g ls => <[gauge_key g ls := default 0 (r !! gauge_key g ls) - 1]> r
  | CounterInc c ls => <[counter_key c ls := (default 0 (r !! counter_key c ls) + 1) mod 2 ^ 64]> r
  | CounterIncBy c ls n => <[counter_key c ls := (default 0 (r !! counter_key c ls) + n) mod 2 ^ 64]> r
  | Observe _ _ _ => r
  end.

Lemma gauge_key_inj g ls g' ls' : gauge_key g ls = gauge_key g' ls' → g = g' ∧ ls = ls'.
Proof. destruct g, g'; naive_solver. Qed.
Lemma counter_key_inj c ls c' ls' : counter_key c ls = counter_key c' ls' → c = c' ∧ ls = ls'.
Proof. destruct c, c'; naive_solver. Qed.
Lemma keys_differ g ls c ls' : gauge_key g ls ≠ counter_key c ls'.
Proof. by destruct g, c. Qed.

#[export] Program Instance map_registry : Registry (gmap (string * list string) Z) := {|
  apply := map_apply;
  read_gauge g ls r := default 0 (r !! gauge_key g ls);
  read_counter c ls r := default 0 (r !! counter_key c ls);
  empty_registry := ∅;
|}.
Next Obligation. done. Qed.
Next Obligation. intros. simpl. by rewrite lookup_insert_eq. Qed.
Next Obligation. intros. simpl. by rewrite lookup_insert_eq. Qed.
Next Obligation. intros. simpl. by rewrite lookup_insert_eq. Qed.
Next Obligation.
  intros g ls [] r Hs Hi Hd; simpl; try done; rewrite lookup_insert_ne; try done;
    try (intros [-> ->]%gauge_key_inj; naive_solver); intros Hk; by apply eq_sym, keys_differ in Hk.
Qed.
Next Obligation. done. Qed.
Next Obligation. intros. cbn [map_apply]. by rewrite lookup_insert_eq. Qed.
Next Obligation. intros. cbn [map_apply]. by rewrite lookup_insert_eq. Qed.
Next Obligation.
  intros c ls [] r Hi Hb; cbn [map_apply]; try done; rewrite lookup_insert_ne; try done;
    try (intros [-> ->]%counter_key_inj; naive_solver); apply keys_differ.
Qed.

(** The registry after a log of calls, oldest first. *)
Definition replay `{Registry R} (log : list metric_call) (r : R) : R :=
  foldl (λ r c, apply c r) r log.

Lemma replay_app `{Registry R} l1 l2 (r : R) : replay (l1 ++ l2) r = replay l2 (replay l1 r).
Proof. apply foldl_app. Qed.

(** ** The HTTP endpoint: [metrics_handler]

    [gather] and [TextEncoder] are the library's: [encode] renders the registry
    or fails, [format_type] is the content type. *)

Record Response := {
  status : Z;
  content_type : option string;
  body : string;
}.

Section handler.
Context {R : Type} (encode : R → result string string) (format_type : string).

Definition metrics_handler (registry : R) : Response :=
  match encode registry with
  | Err e => {| status := 500; content_type := None; body := "Error: " +:+ e |}
  | Ok buffer => {| status := 200; content_type := Some format_type; body := buffer |}
  end.

(** The answer is successful exactly when the registry could be rendered, and
    then its body is that rendering. *)
Lemma metrics_handler_status registry :
  status (metrics_handler registry) = 200 ↔ encode registry = Ok (body (metrics_handler registry)).
Proof. unfold metrics_handler. destruct (encode registry); naive_solver. Qed.
End handler.
