(* ===== verification/Balancer.v ===== *)
(** * The load balancer: [src/src/core/balancer.rs]

    Backends are shared through [Arc]s whose fields are atomics: a [World]
    holds the allocated backends and the metric calls made so far, and a
    [LoadBalancer] the identifiers of the backends of its current list.  This
    file has the operations executed one at a time; [BalancerConc] interleaves
    their atomic steps. *)

From S2P Require Import Prelude Config Metrics.
Open Scope Z_scope.

(** ** Data *)

Record Backend := {
  b_rule_name : string;
  addr : string;
  active_connections : Z;   (* AtomicUsize *)
  healthy : bool;           (* AtomicBool *)
  drain : bool;             (* AtomicBool *)
}.

Definition with_active (b : Backend) (n : Z) : Backend :=
  {| b_rule_name := b_rule_name b; addr := addr b; active_connections := n;
     healthy := healthy b; drain := drain b |}.
Definition with_healthy (b : Backend) (h : bool) : Backend :=
  {| b_rule_name := b_rule_name b; addr := addr b; active_connections := active_connections b;
     healthy := h; drain := drain b |}.
Definition with_drain (b : Backend) (d : bool) : Backend :=
  {| b_rule_name := b_rule_name b; addr := addr b; active_connections := active_connections b;
     healthy := healthy b; drain := d |}.

Record World := {
  heap : gmap nat Backend;
  next_id : nat;
  calls : list metric_call;   (* oldest first *)
}.

Definition empty_world : World := {| heap := ∅; next_id := 0; calls := [] |}.

Record LoadBalancer := {
  lb_rule_name : string;
  lb_backends : list nat;          (* ArcSwap<Vec<Arc<Backend>>> *)
  current : Z;                     (* AtomicUsize *)
  connection_limit : option Z;
}.

Record ConnectionGuard := {
  g_rule_name : string;
  g_backend_addr : string;
  g_counter : nat;                 (* the backend whose counter it holds *)
}.

(** ** Effects on the world *)

Definition record_call (c : metric_call) (w : World) : World :=
  {| heap := heap w; next_id := next_id w; calls := calls w ++ [c] |}.

Definition put (id : nat) (b : Backend) (w : World) : World :=
  {| heap := <[id := b]> (heap w); next_id := next_id w; calls := calls w |}.

Definition alloc (b : Backend) (w : World) : nat * World :=
  (next_id w,
   {| heap := <[next_id w := b]> (heap w); next_id := S (next_id w); calls := calls w |}).

(** [Arc::new(Backend { .. })] after the two metric initialisations. *)
Definition new_backend (rule_name a : string) (d : bool) (w : World) : nat * World :=
  let w := record_call (GaugeSet BACKEND_HEALTH_STATUS [rule_name; a] 1) w in
  let w := record_call (GaugeSet BACKEND_ACTIVE_CONNECTIONS [rule_name; a] 0) w in
  alloc {| b_rule_name := rule_name; addr := a; active_connections := 0;
           healthy := true; drain := d |} w.

(** [backends.iter().find(|b| b.addr == addr)]. *)
Definition has_addr (w : World) (a : string) (id : nat) : bool :=
  match heap w !! id with
  | Some b => bool_decide (addr b = a)
  | None => false
  end.

Definition find_addr (w : World) (a : string) (l : list nat) : option nat :=
  find_first (has_addr w a) l.

Module LoadBalancer.

(** ** [LoadBalancer::new] *)

Fixpoint new_backends (rule_name : string) (configs : list BackendConfig) (w : World)
    : list nat * World :=
  match configs with
  | [] => ([], w)
  | c :: configs =>
      let (a, d) := backend_addr_drain c in
      let (id, w) := new_backend rule_name a d w in
      let (ids, w) := new_backends rule_name configs w in
      (id :: ids, w)
  end.

Definition new (rule_name : string) (configs : list BackendConfig) (limit : option Z) (w : World)
    : LoadBalancer * World :=
  let (ids, w) := new_backends rule_name configs w in
  ({| lb_rule_name := rule_name; lb_backends := ids; current := 0; connection_limit := limit |}, w).

(** ** [LoadBalancer::update_backends] *)

(** The closure mapped over the new configurations; [cur] is the list loaded
    before the map. *)
Definition update_one (rule_name : string) (cur : list nat) (c : BackendConfig) (w : World)
    : nat * World :=
  let (a, d) := backend_addr_drain c in
  match find_addr w a cur with
  | Some id =>
      match heap w !! id with
      | Some b => (id, put id (with_drain b d) w)
      | None => (id, w)
      end
  | None => new_backend rule_name a d w
  end.

Fixpoint update_all (rule_name : string) (cur : list nat) (configs : list BackendConfig) (w : World)
    : list nat * World :=
  match configs with
  | [] => ([], w)
  | c :: configs =>
      let (id, w) := update_one rule_name cur c w in
      let (ids, w) := update_all rule_name cur configs w in
      (id :: ids, w)
  end.

Definition update_backends (lb : LoadBalancer) (configs : list BackendConfig) (w : World)
    : LoadBalancer * World :=
  let (ids, w) := update_all (lb_rule_name lb) (lb_backends lb) configs w in
  ({| lb_rule_name := lb_rule_name lb; lb_backends := ids; current := current lb;
      connection_limit := connection_limit lb |}, w).

(** ** [LoadBalancer::set_backend_health] *)

Definition set_backend_health (lb : LoadBalancer) (a : string) (h : bool) (w : World) : World :=
  let w := record_call (GaugeSet BACKEND_HEALTH_STATUS [lb_rule_name lb; a] (if h then 1 else 0)) w in
  match find_addr w a (lb_backends lb) with
  | Some id =>
      match heap w !! id with
      | Some b => put id (with_healthy b h) w
      | None => w
      end
  | None => w
  end.

(** ** [LoadBalancer::next_backend] *)

(** The three guards of the loop body, in the negative order of the source. *)
Definition eligible (limit : option Z) (b : Backend) : bool :=
  if drain b then false
  else if negb (healthy b) then false
  else match limit with
  | Some limit => if limit <=? active_connections b then false else true
  | None => true
  end.

(** Selecting a backend: its counter, its metric and the guard. *)
Definition select (id : nat) (b : Backend) (w : World) : World * (string * ConnectionGuard) :=
  let w := put id (with_active b (usize_wrap (active_connections b + 1))) w in
  let w := record_call (GaugeInc BACKEND_ACTIVE_CONNECTIONS [b_rule_name b; addr b]) w in
  (w, (addr b, {| g_rule_name := b_rule_name b; g_backend_addr := addr b; g_counter := id |})).

(** The loop [for i in 0..len] over the remaining values of [i].  Indexing
    [backends[idx]] cannot fail, [idx] being a remainder by [len]. *)
Fixpoint scan (limit : option Z) (ids : list nat) (start : Z) (todo : list nat) (w : World)
    : World * option (string * ConnectionGuard) :=
  match todo with
  | [] => (w, None)
  | i :: todo =>
      let idx := usize_wrap (start + Z.of_nat i) mod Z.of_nat (length ids) in
      match ids !! Z.to_nat idx with
      | None => (w, None)
      | Some id =>
          match heap w !! id with
          | None => (w, None)
          | Some b =>
              if eligible limit b then let (w, r) := select id b w in (w, Some r)
              else scan limit ids start todo w
          end
      end
  end.

Definition next_backend (lb : LoadBalancer) (w : World)
    : LoadBalancer * World * option (string * ConnectionGuard) :=
  if bool_decide (lb_backends lb = []) then (lb, w, None)
  else
    let start_index := current lb in
    let lb := {| lb_rule_name := lb_rule_name lb; lb_backends := lb_backends lb;
                 current := usize_wrap (current lb + 1);
                 connection_limit := connection_limit lb |} in
    let (w, r) := scan (connection_limit lb) (lb_backends lb) start_index
                    (seq 0 (length (lb_backends lb))) w in
    (lb, w, r).

End LoadBalancer.

(** ** [Drop for ConnectionGuard] *)

Definition drop_guard (g : ConnectionGuard) (w : World) : World :=
  let w := match heap w !! g_counter g with
           | Some b => put (g_counter g) (with_active b (usize_wrap (active_connections b - 1))) w
           | None => w
           end in
  record_call (GaugeDec BACKEND_ACTIVE_CONNECTIONS [g_rule_name g; g_backend_addr g]) w.
