(* ===== verification/BalancerSpec.v ===== *)
(** * Correctness of backend selection

    [next_backend] against its reference definition (the first eligible backend
    of the rotated list), the fairness of the rotation, and the contracts of
    [update_backends] and [set_backend_health]. *)

From S2P Require Import Prelude Config Metrics Balancer.
Open Scope Z_scope.

Import LoadBalancer.

Definition eligible_at (limit : option Z) (w : World) (id : nat) : bool :=
  match heap w !! id with
  | Some b => eligible limit b
  | None => false
  end.

(** Every backend of the list is allocated, and the counter is a [usize]. *)
Definition lb_wf (lb : LoadBalancer) (w : World) : Prop :=
  is_usize (current lb) ∧ Forall (λ id, is_Some (heap w !! id)) (lb_backends lb).

(** The backend the loop looks at in turn [i]. *)
Definition probe (ids : list nat) (start : Z) (i : nat) : nat :=
  default 0%nat (ids !! Z.to_nat (usize_wrap (start + Z.of_nat i) mod Z.of_nat (length ids))).

(** [next_backend] with its result factored out. *)
Definition bump (lb : LoadBalancer) : LoadBalancer :=
  {| lb_rule_name := lb_rule_name lb; lb_backends := lb_backends lb;
     current := usize_wrap (current lb + 1); connection_limit := connection_limit lb |}.

Definition select_at (w : World) (o : option nat) : World * option (string * ConnectionGuard) :=
  match o with
  | None => (w, None)
  | Some id =>
      match heap w !! id with
      | None => (w, None)
      | Some b => let (w, r) := select id b w in (w, Some r)
      end
  end.

Lemma probe_lookup ids start i :
  ids ≠ [] →
  ids !! Z.to_nat (usize_wrap (start + Z.of_nat i) mod Z.of_nat (length ids)) = Some (probe ids start i)
  ∧ probe ids start i ∈ ids.
Proof.
  intros Hne. unfold probe.
  assert (Hlen : 0 < Z.of_nat (length ids)) by (destruct ids; [done|simpl; lia]).
  pose proof (Z.mod_pos_bound (usize_wrap (start + Z.of_nat i)) _ Hlen) as Hb.
  destruct (lookup_lt_is_Some_2 ids
    (Z.to_nat (usize_wrap (start + Z.of_nat i) mod Z.of_nat (length ids)))) as [id Hid]; [lia|].
  rewrite Hid. split; [done|]. by eapply list_elem_of_lookup_2.
Qed.

(** The loop is a search along the probes. *)
Lemma scan_find limit ids start todo w :
  ids ≠ [] → Forall (λ id, is_Some (heap w !! id)) ids →
  scan limit ids start todo w =
  select_at w (find_first (eligible_at limit w) (probe ids start <$> todo)).
Proof.
  intros Hne Hall. induction todo as [|i todo IH]; [done|].
  destruct (probe_lookup ids start i Hne) as [Hlk Hin].
  cbn [scan]. rewrite Hlk. rewrite fmap_cons. cbn [find_first].
  rewrite Forall_forall in Hall. destruct (Hall _ Hin) as [b Hb].
  unfold eligible_at at 1. rewrite Hb.
  destruct (eligible limit b); [|exact IH]. unfold select_at. by rewrite Hb.
Qed.

Lemma next_backend_find lb w :
  lb_wf lb w → lb_backends lb ≠ [] →
  let '(w', r) := select_at w (find_first (eligible_at (connection_limit lb) w)
                    (probe (lb_backends lb) (current lb) <$> seq 0 (length (lb_backends lb)))) in
  next_backend lb w = (bump lb, w', r).
Proof.
  intros [_ Hall] Hne. unfold next_backend. rewrite bool_decide_false by done.
  cbn [connection_limit lb_backends]. rewrite scan_find by done.
  by destruct (select_at _ _).
Qed.

(** Before the counter wraps around, the probes are the rotated list. *)
Lemma probes_rotate ids start :
  0 <= start → start + Z.of_nat (length ids) <= USIZE_MODULUS →
  probe ids start <$> seq 0 (length ids) = rotate (Z.to_nat start) ids.
Proof.
  intros Hs Hlen. apply list_eq. intros i. rewrite list_lookup_fmap.
  destruct (decide (i < length ids)%nat) as [Hi|Hi].
  - rewrite lookup_seq_lt, lookup_rotate_r by done. cbn [fmap option_fmap option_map].
    assert (ids ≠ []) as Hne by (intros ->; simpl in Hi; lia).
    destruct (probe_lookup ids start i Hne) as [Hlk _].
    rewrite Nat.add_0_l, <- Hlk. f_equal.
    rewrite usize_wrap_small by (unfold is_uN, USIZE_MODULUS in *; lia).
    unfold rotate_nat_add. by rewrite Z2Nat.id.
  - rewrite !lookup_ge_None_2; [done|rewrite length_rotate; lia|rewrite length_seq; lia].
Qed.

(** ** Selection *)

(** The frame of a selection: only the counter of the chosen backend moves. *)
Lemma select_heap id b w : heap (select id b w).1 = <[id := with_active b (usize_wrap (active_connections b + 1))]> (heap w).
Proof. done. Qed.

(** C1: [next_backend] is round robin over the eligible backends: it returns
    the first backend of the list rotated by the shared counter that is neither
    draining nor unhealthy nor at its connection limit, raises that backend's
    connection count by one and leaves every other backend as it was; it
    returns [None] and changes no backend when there is none.  The counter
    always advances.  (Before the 64-bit counter wraps around.) *)
Theorem next_backend_round_robin lb w :
  lb_wf lb w → lb_backends lb ≠ [] →
  current lb + Z.of_nat (length (lb_backends lb)) <= USIZE_MODULUS →
  let order := rotate (Z.to_nat (current lb)) (lb_backends lb) in
  let '(lb', w', r) := next_backend lb w in
  lb' = bump lb ∧
  match find_first (eligible_at (connection_limit lb) w) order with
  | None => w' = w ∧ r = None
  | Some id => ∃ b, heap w !! id = Some b ∧
      heap w' = <[id := with_active b (usize_wrap (active_connections b + 1))]> (heap w) ∧
      calls w' = calls w ++ [GaugeInc BACKEND_ACTIVE_CONNECTIONS [b_rule_name b; addr b]] ∧
      r = Some (addr b, {| g_rule_name := b_rule_name b; g_backend_addr := addr b; g_counter := id |})
  end.
Proof.
  intros Hwf Hne Hwrap. cbn zeta. pose proof (next_backend_find lb w Hwf Hne) as Hn.
  rewrite probes_rotate in Hn; [|by destruct Hwf as [[? _] _]|done].
  destruct (find_first _ _) as [id|] eqn:Hf; cbn [select_at] in Hn; [|by rewrite Hn].
  apply find_first_Some_elem in Hf as [_ He]. unfold eligible_at in He.
  destruct (heap w !! id) as [b|] eqn:Hb; [|done].
  simpl in Hn. rewrite Hn. split; [done|]. by exists b.
Qed.

(** Whatever the counter is, a backend that [next_backend] returns belongs
    to the current list and is not draining, is healthy and is below the
    connection limit, and the guard holds its counter. *)
Theorem next_backend_sound lb w lb' w' a g :
  lb_wf lb w → next_backend lb w = (lb', w', Some (a, g)) →
  g_counter g ∈ lb_backends lb ∧ g_backend_addr g = a ∧
  ∃ b, heap w !! g_counter g = Some b ∧ addr b = a ∧ drain b = false ∧ healthy b = true ∧
    match connection_limit lb with Some l => active_connections b < l | None => True end.
Proof.
  intros Hwf Hn. destruct (decide (lb_backends lb = [])) as [He|Hne].
  { unfold next_backend in Hn. by rewrite bool_decide_true in Hn. }
  pose proof (next_backend_find lb w Hwf Hne) as Hf.
  destruct (find_first _ _) as [id|] eqn:Hid; [|cbn in Hf; congruence].
  apply find_first_Some_elem in Hid as [Hin He].
  apply list_elem_of_fmap in Hin as (i & -> & _).
  destruct (probe_lookup (lb_backends lb) (current lb) i Hne) as [_ Hin].
  set (id := probe _ _ _) in *. unfold select_at, eligible_at in *.
  destruct (heap w !! id) as [b|] eqn:Hb; [|done]. simpl in Hf. rewrite Hf in Hn. simplify_eq/=.
  split; [done|]. split; [done|]. exists b. split; [done|]. split; [done|].
  unfold eligible in He. destruct (drain b), (healthy b); try done.
  split; [done|]. split; [done|]. destruct (connection_limit lb) as [l|]; [|done].
  by destruct (Z.leb_spec l (active_connections b)).
Qed.

(** Once the counter has wrapped around in the middle of a scan, the scan
    can miss a backend: with three backends and the counter at its maximum the
    third is never looked at, and a connection is refused although it is
    eligible. *)
Theorem next_backend_wrap_misses :
  let b h := {| b_rule_name := "r"; addr := "a"; active_connections := 0; healthy := h; drain := false |} in
  let w := {| heap := {[0%nat := b false; 1%nat := b false; 2%nat := b true]};
              next_id := 3; calls := [] |} in
  let lb := {| lb_rule_name := "r"; lb_backends := [0; 1; 2]%nat;
               current := USIZE_MODULUS - 1; connection_limit := None |} in
  lb_wf lb w ∧ eligible_at None w 2 = true ∧ (next_backend lb w).2 = None.
Proof.
  cbn zeta. split_and!; [|done|vm_compute; done].
  split; [done|]. simpl. repeat constructor; eexists; reflexivity.
Qed.

(** ** Fairness *)

(** [n] connections in a row: the backends they are given. *)
Fixpoint run_next (n : nat) (lb : LoadBalancer) (w : World) : LoadBalancer * World * list nat :=
  match n with
  | O => (lb, w, [])
  | S n =>
      let '(lb, w, r) := next_backend lb w in
      let '(lb, w, ids) := run_next n lb w in
      (lb, w, match r with Some (_, g) => g_counter g :: ids | None => ids end)
  end.

(** Every backend of the list accepts connections, and there is no limit. *)
Definition all_eligible (lb : LoadBalancer) (w : World) : Prop :=
  connection_limit lb = None ∧ Forall (λ id, eligible_at None w id = true) (lb_backends lb).

Lemma all_eligible_wf lb w : all_eligible lb w → is_usize (current lb) → lb_wf lb w.
Proof.
  intros [_ Hall] Hc. split; [done|]. eapply Forall_impl; [exact Hall|].
  intros id. unfold eligible_at. simpl. destruct (heap w !! id); [eauto|done].
Qed.

(** A connection goes to the first probe, and all backends stay eligible. *)
Lemma next_all_eligible lb w :
  all_eligible lb w → is_usize (current lb) → lb_backends lb ≠ [] →
  ∃ w' a g, next_backend lb w = (bump lb, w', Some (a, g)) ∧
    g_counter g = probe (lb_backends lb) (current lb) 0 ∧ all_eligible (bump lb) w'.
Proof.
  intros Hall Hc Hne. pose proof (next_backend_find lb w (all_eligible_wf _ _ Hall Hc) Hne) as Hf.
  destruct Hall as [Hlim Hall]. rewrite Hlim in Hf.
  destruct (length (lb_backends lb)) as [|n] eqn:Hlen; [by destruct (lb_backends lb)|].
  cbn [seq] in Hf. rewrite fmap_cons in Hf. cbn [find_first] in Hf.
  destruct (probe_lookup (lb_backends lb) (current lb) 0 Hne) as [_ Hin].
  pose proof Hall as Hall'. rewrite Forall_forall in Hall'. rewrite (Hall' _ Hin) in Hf.
  specialize (Hall' _ Hin). unfold eligible_at in Hall'. cbn [select_at] in Hf.
  set (id := probe _ _ _) in *. destruct (heap w !! id) as [b|] eqn:Hb; [|done].
  simpl in Hf. eexists _, _, _. split; [exact Hf|]. split; [done|].
  split; [done|]. simpl. eapply Forall_impl; [exact Hall|]. intros id' He'.
  unfold eligible_at in *. simpl. rewrite lookup_insert. case_decide; [|done]. by subst.
Qed.

Lemma run_next_probes n lb w :
  all_eligible lb w → 0 <= current lb → current lb + Z.of_nat n <= USIZE_MODULUS →
  lb_backends lb ≠ [] →
  (run_next n lb w).2 = (λ j, probe (lb_backends lb) (current lb) j) <$> seq 0 n.
Proof.
  revert lb w. induction n as [|n IH]; intros lb w Hall Hc Hn Hne; [done|].
  destruct (next_all_eligible lb w Hall ltac:(unfold is_uN, USIZE_MODULUS in *; lia) Hne)
    as (w' & a & g & Hnext & Hg & Hall').
  cbn [run_next]. rewrite Hnext.
  destruct (decide (n = 0%nat)) as [->|Hn0]; [by simpl; rewrite Hg|].
  assert (Hcur : current (bump lb) = current lb + 1).
  { apply usize_wrap_small. unfold is_uN, USIZE_MODULUS in *. lia. }
  specialize (IH (bump lb) w' Hall' ltac:(lia) ltac:(lia) Hne). rewrite Hcur in IH.
  destruct (run_next n (bump lb) w') as [[lb2 w2] ids]. cbn [snd] in *. subst ids.
  cbn [seq]. rewrite fmap_cons, Hg. f_equal.
  rewrite <- (fmap_S_seq 0 n), <- list_fmap_compose. apply list_fmap_ext. intros _ j _.
  unfold probe, compose. do 4 f_equal. simpl lb_backends. f_equal. lia.
Qed.

Lemma rotate_perm {A} n (l : list A) : rotate n l ≡ₚ l.
Proof.
  unfold rotate. rewrite Permutation_app_comm. by rewrite take_drop.
Qed.

Lemma probe_shift ids start k j :
  0 <= start → start + Z.of_nat (k * length ids + j) < USIZE_MODULUS →
  probe ids start (k * length ids + j) = probe ids start j.
Proof.
  intros Hs Hw. unfold probe. do 2 f_equal.
  rewrite !usize_wrap_small by (unfold is_uN, USIZE_MODULUS in *; lia).
  rewrite Nat2Z.inj_add, Nat2Z.inj_mul, (Z.add_comm (_ * _)), Z.add_assoc.
  by rewrite Z_mod_plus_full.
Qed.

(** C25: fairness: when every backend accepts connections, any [k] full turns
    ([k * len] consecutive connections, wherever the counter stands) give each
    backend of the list exactly [k] of them.  (The rule sets no connection limit,
    and the counter does not wrap around in between.) *)
Theorem round_robin_fair k lb w :
  all_eligible lb w → 0 <= current lb → lb_backends lb ≠ [] →
  current lb + Z.of_nat (k * length (lb_backends lb)) <= USIZE_MODULUS →
  (run_next (k * length (lb_backends lb)) lb w).2 ≡ₚ mjoin (replicate k (lb_backends lb)).
Proof.
  intros Hall Hc Hne Hw. rewrite run_next_probes by done.
  set (ids := lb_backends lb) in *. set (c := current lb) in *. clear Hall.
  induction k as [|k IH]; [done|]. cbn [replicate mjoin list_join].
  replace (S k * length ids)%nat with (k * length ids + length ids)%nat in * by lia.
  rewrite seq_app, fmap_app, IH by lia. cbn [Nat.add].
  rewrite Permutation_app_comm. apply Permutation_app; [|done].
  transitivity (probe ids c <$> seq 0 (length ids)).
  - rewrite <- (Nat.add_0_r (k * length ids)) at 1.
    rewrite <- fmap_add_seq, <- list_fmap_compose.
    apply Permutation_refl', list_fmap_ext. intros i j Hj.
    apply lookup_seq in Hj as [-> Hlt]. unfold compose. apply probe_shift; lia.
  - rewrite probes_rotate by lia. apply rotate_perm.
Qed.

(** ** [update_backends] *)

(** Equal up to the drain flag: the same counter, health and identity. *)
Definition same_but_drain (b b' : Backend) : Prop := with_drain b false = with_drain b' false.

#[export] Instance same_but_drain_equiv : Equivalence same_but_drain.
Proof. split; unfold same_but_drain; [by intros ?|by intros ??|by intros ??? -> ->]. Qed.

Lemma same_but_drain_addr b b' : same_but_drain b b' → addr b = addr b'.
Proof. unfold same_but_drain, with_drain. congruence. Qed.

Lemma same_but_drain_with b d : same_but_drain b (with_drain b d).
Proof. done. Qed.

(** All allocated identifiers are below the next one. *)
Definition heap_fresh (w : World) : Prop := ∀ id b, heap w !! id = Some b → (id < next_id w)%nat.

(** [w'] comes after [w]: nothing is deallocated, and only drain flags of the
    backends of [w] have changed. *)
Definition extends (w w' : World) : Prop :=
  (next_id w <= next_id w')%nat ∧
  ∀ id b, heap w !! id = Some b → ∃ b', heap w' !! id = Some b' ∧ same_but_drain b b'.

#[export] Instance extends_preorder : PreOrder extends.
Proof.
  split.
  - intros w. split; [done|]. intros id b Hb. by exists b.
  - intros w1 w2 w3 [Hn1 H1] [Hn2 H2]. split; [lia|]. intros id b Hb.
    destruct (H1 _ _ Hb) as (b' & Hb' & E). destruct (H2 _ _ Hb') as (b'' & ? & E').
    exists b''. split; [done|]. by rewrite E.
Qed.

Lemma extends_allocated w w' ids :
  extends w w' → Forall (λ id, is_Some (heap w !! id)) ids → Forall (λ id, is_Some (heap w' !! id)) ids.
Proof.
  intros [_ Hext] Hall. eapply Forall_impl; [exact Hall|]. intros id [b Hb].
  destruct (Hext _ _ Hb) as (b' & ? & _). eauto.
Qed.

(** Searching the old list by address is not disturbed by the update. *)
Lemma extends_find w w' a ids :
  extends w w' → Forall (λ id, is_Some (heap w !! id)) ids → find_addr w' a ids = find_addr w a ids.
Proof.
  intros [_ Hext] Hall. apply find_first_ext. intros id Hid. unfold has_addr.
  rewrite Forall_forall in Hall. destruct (Hall _ Hid) as [b Hb].
  destruct (Hext _ _ Hb) as (b' & -> & E). by rewrite Hb, (same_but_drain_addr _ _ E).
Qed.

Lemma find_addr_Some w a ids id :
  find_addr w a ids = Some id → id ∈ ids ∧ ∃ b, heap w !! id = Some b ∧ addr b = a.
Proof.
  intros [Hin Ha]%find_first_Some_elem. split; [done|]. unfold has_addr in Ha.
  destruct (heap w !! id) as [b|]; [|done]. exists b. by apply bool_decide_eq_true in Ha.
Qed.

Definition fresh_backend (rule_name a : string) (d : bool) : Backend :=
  {| b_rule_name := rule_name; addr := a; active_connections := 0; healthy := true; drain := d |}.

(** One configuration entry: the backend it is mapped to and its state. *)
Lemma update_one_spec rule_name cur c w id w' :
  heap_fresh w → update_one rule_name cur c w = (id, w') →
  extends w w' ∧ heap_fresh w' ∧
  (∀ id', id' ≠ id → heap w' !! id' = heap w !! id') ∧
  match find_addr w (backend_addr_drain c).1 cur with
  | Some id0 => id = id0 ∧ ∃ b, heap w !! id = Some b ∧
      heap w' !! id = Some (with_drain b (backend_addr_drain c).2)
  | None => id = next_id w ∧
      heap w' !! id = Some (fresh_backend rule_name (backend_addr_drain c).1 (backend_addr_drain c).2)
  end.
Proof.
  intros Hfr. unfold update_one. destruct (backend_addr_drain c) as [a d]. cbn [fst snd].
  destruct (find_addr w a cur) as [id0|] eqn:Hf.
  - destruct (find_addr_Some _ _ _ _ Hf) as (_ & b & Hb & _). rewrite Hb. intros [= <- <-].
    split_and!; [split; [done|]| | |done|].
    + intros id b' Hb'. simpl. rewrite lookup_insert. case_decide as E; [subst|by exists b'].
      simplify_eq. eauto using same_but_drain_with.
    + intros id b'. simpl. rewrite lookup_insert. case_decide; [subst|]; eauto.
    + intros id' Hne. simpl. by rewrite lookup_insert_ne.
    + exists b. split; [done|]. simpl. by rewrite lookup_insert_eq.
  - intros [= <- <-]. split_and!; [split; [simpl; lia|]| | |done|].
    + intros id b' Hb'. simpl. pose proof (Hfr _ _ Hb'). rewrite lookup_insert_ne by lia. by exists b'.
    + intros id b'. simpl. rewrite lookup_insert. case_decide; [lia|]. intros ?%Hfr. lia.
    + intros id' Hne. simpl. by rewrite lookup_insert_ne.
    + simpl. by rewrite lookup_insert_eq.
Qed.

Lemma update_all_spec rule_name cur configs w :
  heap_fresh w → Forall (λ id, is_Some (heap w !! id)) cur →
  let (ids, w') := update_all rule_name cur configs w in
  extends w w' ∧ heap_fresh w' ∧ length ids = length configs ∧
  Forall (λ id, is_Some (heap w' !! id)) ids.
Proof.
  revert w. induction configs as [|c configs IH]; intros w Hfr Hcur; simpl; [done|].
  destruct (update_one rule_name cur c w) as [id w1] eqn:H1.
  destruct (update_one_spec _ _ _ _ _ _ Hfr H1) as (Hext & Hfr1 & _ & Hid).
  specialize (IH w1 Hfr1 (extends_allocated _ _ _ Hext Hcur)).
  destruct (update_all rule_name cur configs w1) as [ids w2].
  destruct IH as (Hext2 & Hfr2 & Hlen & Hall).
  split_and!; [by etrans|done|by simpl; f_equal|]. constructor; [|done].
  assert (is_Some (heap w1 !! id)) as [b Hb].
  { destruct (find_addr _ _ _); [destruct Hid as (_ & b & _ & ->)|destruct Hid as (_ & ->)]; eauto. }
  destruct Hext2 as [_ Hext2]. destruct (Hext2 _ _ Hb) as (b' & ? & _). eauto.
Qed.

(** A backend that no entry is mapped to keeps its state. *)
Lemma update_all_untouched rule_name cur configs w id b :
  heap_fresh w → Forall (λ id, is_Some (heap w !! id)) cur → heap w !! id = Some b →
  Forall (λ c, find_addr w (backend_addr_drain c).1 cur ≠ Some id) configs →
  heap (update_all rule_name cur configs w).2 !! id = Some b.
Proof.
  revert w. induction configs as [|c configs IH]; intros w Hfr Hcur Hb Hno; simpl; [done|].
  apply Forall_cons in Hno as [Hc Hno].
  destruct (update_one rule_name cur c w) as [id1 w1] eqn:H1.
  destruct (update_one_spec _ _ _ _ _ _ Hfr H1) as (Hext & Hfr1 & Hframe & Hid).
  assert (id ≠ id1) as Hne.
  { pose proof (Hfr _ _ Hb). destruct (find_addr w _ cur); destruct Hid as [-> _]; [congruence|lia]. }
  specialize (IH w1 Hfr1 (extends_allocated _ _ _ Hext Hcur)).
  rewrite Hframe in IH by done. specialize (IH Hb).
  destruct (update_all rule_name cur configs w1) as [ids w2]. apply IH.
  eapply Forall_impl; [exact Hno|]. intros c' Hc'. simpl in *. by rewrite (extends_find w).
Qed.

(** An address that is served already keeps its backend. *)
Lemma update_all_kept rule_name cur configs w i c id :
  heap_fresh w → Forall (λ id, is_Some (heap w !! id)) cur → configs !! i = Some c →
  find_addr w (backend_addr_drain c).1 cur = Some id →
  (update_all rule_name cur configs w).1 !! i = Some id.
Proof.
  revert w i. induction configs as [|c0 configs IH]; intros w i Hfr Hcur Hi Hf; [done|]. simpl.
  destruct (update_one rule_name cur c0 w) as [id0 w1] eqn:H1.
  destruct (update_one_spec _ _ _ _ _ _ Hfr H1) as (Hext & Hfr1 & _ & Hid).
  specialize (IH w1). destruct i as [|i]; simpl in Hi.
  - simplify_eq. rewrite Hf in Hid. destruct Hid as [-> _].
    by destruct (update_all rule_name cur configs w1).
  - specialize (IH i Hfr1 (extends_allocated _ _ _ Hext Hcur) Hi).
    rewrite (extends_find w) in IH by done. specialize (IH Hf).
    by destruct (update_all rule_name cur configs w1).
Qed.

(** The backend of the [i]-th entry, when the addresses are distinct. *)
Lemma update_all_lookup rule_name cur configs w i c :
  heap_fresh w → Forall (λ id, is_Some (heap w !! id)) cur →
  NoDup ((λ c, (backend_addr_drain c).1) <$> configs) → configs !! i = Some c →
  let a := (backend_addr_drain c).1 in
  let d := (backend_addr_drain c).2 in
  ∃ id, (update_all rule_name cur configs w).1 !! i = Some id ∧
  match find_addr w a cur with
  | Some id0 => id = id0 ∧ ∃ b, heap w !! id = Some b ∧
      heap (update_all rule_name cur configs w).2 !! id = Some (with_drain b d)
  | None => heap w !! id = None ∧
      heap (update_all rule_name cur configs w).2 !! id = Some (fresh_backend rule_name a d)
  end.
Proof.
  cbn zeta. revert w i. induction configs as [|c0 configs IH]; intros w i Hfr Hcur Hnd Hi; [done|].
  rewrite fmap_cons in Hnd. apply NoDup_cons in Hnd as [Hnin Hnd]. simpl.
  destruct (update_one rule_name cur c0 w) as [id0 w1] eqn:H1.
  destruct (update_one_spec _ _ _ _ _ _ Hfr H1) as (Hext & Hfr1 & Hframe & Hid).
  pose proof (extends_allocated _ _ _ Hext Hcur) as Hcur1.
  destruct i as [|i]; simpl in Hi.
  - simplify_eq. clear IH.
    assert (Hlate : ∀ b, heap w1 !! id0 = Some b →
      heap (update_all rule_name cur configs w1).2 !! id0 = Some b).
    { intros b Hb. apply update_all_untouched; [done|done|done|].
      apply Forall_forall. intros c' Hc' Hf. rewrite (extends_find w) in Hf by done.
      destruct (find_addr_Some _ _ _ _ Hf) as (Hin & b0 & Hb0 & Ha0).
      destruct (find_addr w (backend_addr_drain c).1 cur) as [id1|] eqn:Hf1.
      - destruct Hid as [-> _]. destruct (find_addr_Some _ _ _ _ Hf1) as (_ & b1 & Hb1 & Ha1).
        apply Hnin, list_elem_of_fmap. exists c'. split; [congruence|done].
      - destruct Hid as [-> _]. apply Hfr in Hb0. lia. }
    destruct (update_all rule_name cur configs w1) as [ids w2]. simpl in *.
    exists id0. split; [done|].
    destruct (find_addr w (backend_addr_drain c).1 cur); destruct Hid as [-> Hb].
    + destruct Hb as (b & Hb & Hb'). eauto.
    + split; [|by apply Hlate]. apply eq_None_not_Some. intros [b Hb2].
      apply Hfr in Hb2. lia.
  - assert (Hca : (backend_addr_drain c0).1 ≠ (backend_addr_drain c).1).
    { intros E. apply Hnin, list_elem_of_fmap. exists c. split; [done|]. by eapply list_elem_of_lookup_2. }
    destruct (IH w1 i Hfr1 Hcur1 Hnd Hi) as (id & Hlk & Hspec).
    rewrite (extends_find w) in Hspec by done.
    destruct (update_all rule_name cur configs w1) as [ids w2]. simpl in *.
    exists id. split; [done|]. destruct (find_addr w (backend_addr_drain c).1 cur) as [id1|] eqn:Hf.
    + destruct Hspec as (-> & b & Hb & Hb'). split; [done|]. exists b. split; [|done].
      rewrite <- Hframe; [done|]. intros ->.
      destruct (find_addr_Some _ _ _ _ Hf) as (_ & b1 & Hb1 & Ha1).
      destruct (find_addr w (backend_addr_drain c0).1 cur) as [id2|] eqn:Hf0.
      * destruct Hid as (-> & _). destruct (find_addr_Some _ _ _ _ Hf0) as (_ & ? & ? & ?). congruence.
      * destruct Hid as (-> & _). apply Hfr in Hb1. lia.
    + destruct Hspec as [Hnone Hb]. split; [|done].
      apply eq_None_not_Some. intros [b' Hb']. destruct Hext as [_ Hext].
      destruct (Hext _ _ Hb') as (? & ? & _). congruence.
Qed.

(** C15: hot reload keeps what it should: after [update_backends] with distinct
    addresses the list has one backend per entry, in order, with the configured
    drain flag; an address already served keeps its backend (same counter, same
    health), a new one gets a fresh healthy backend without connections; every
    backend allocated before keeps its counter and health, and one removed from
    the list, on which connections may still run, is left exactly as it was. *)
Theorem update_backends_spec lb configs w :
  lb_wf lb w → heap_fresh w → NoDup ((λ c, (backend_addr_drain c).1) <$> configs) →
  let '(lb', w') := update_backends lb configs w in
  lb_wf lb' w' ∧ heap_fresh w' ∧ extends w w' ∧
  current lb' = current lb ∧ connection_limit lb' = connection_limit lb ∧
  length (lb_backends lb') = length configs ∧
  (∀ id b, heap w !! id = Some b → id ∉ lb_backends lb' → heap w' !! id = Some b) ∧
  ∀ i c, configs !! i = Some c →
    let (a, d) := backend_addr_drain c in
    ∃ id, lb_backends lb' !! i = Some id ∧
    match find_addr w a (lb_backends lb) with
    | Some id0 => id = id0 ∧ ∃ b, heap w !! id = Some b ∧ heap w' !! id = Some (with_drain b d)
    | None => heap w !! id = None ∧ heap w' !! id = Some (fresh_backend (lb_rule_name lb) a d)
    end.
Proof.
  intros [Hc Hall] Hfr Hnd. unfold update_backends.
  pose proof (update_all_spec (lb_rule_name lb) (lb_backends lb) configs w Hfr Hall) as Hs.
  pose proof (λ i c, update_all_lookup (lb_rule_name lb) (lb_backends lb) configs w i c Hfr Hall Hnd) as Hl.
  pose proof (λ id b, update_all_untouched (lb_rule_name lb) (lb_backends lb) configs w id b Hfr Hall) as Hu.
  destruct (update_all _ _ configs w) as [ids w']. simpl in *.
  destruct Hs as (Hext & Hfr' & Hlen & Hall').
  split_and!; try done.
  { intros id b Hb Hnin. apply Hu; [done|]. apply Forall_forall. intros c Hcin Hf. apply Hnin.
    apply list_elem_of_lookup_1 in Hcin as [i Hi]. destruct (Hl i c Hi) as (id' & Hid' & Hm).
    rewrite Hf in Hm. destruct Hm as [-> _]. by eapply list_elem_of_lookup_2. }
  intros i c Hi. specialize (Hl i c Hi).
  by destruct (backend_addr_drain c).
Qed.

(** ** [set_backend_health] *)

(** A health report sets the health of the first backend of the current
    list with that address and of no other backend; for an address that is not
    in the list it changes no backend.  The status gauge is set in both
    cases. *)
Theorem set_backend_health_spec lb a h w :
  lb_wf lb w →
  let w' := set_backend_health lb a h w in
  calls w' = calls w ++ [GaugeSet BACKEND_HEALTH_STATUS [lb_rule_name lb; a] (if h then 1 else 0)] ∧
  next_id w' = next_id w ∧
  match find_addr w a (lb_backends lb) with
  | None => heap w' = heap w
  | Some id => ∃ b, heap w !! id = Some b ∧ heap w' = <[id := with_healthy b h]> (heap w)
  end.
Proof.
  intros [_ Hall]. cbn zeta. unfold set_backend_health.
  change (find_addr (record_call _ w) a (lb_backends lb)) with (find_addr w a (lb_backends lb)).
  destruct (find_addr w a (lb_backends lb)) as [id|] eqn:Hf; [|done].
  destruct (find_addr_Some _ _ _ _ Hf) as (_ & b & Hb & _). simpl. rewrite Hb.
  split; [done|]. split; [done|]. by exists b.
Qed.

(** When an address is configured twice, a failed health check takes only
    the first of the two backends out of rotation: connections still go to the
    address that was reported unhealthy. *)
Theorem duplicate_address_not_marked rule_name a w :
  let (lb, w1) := new rule_name [Simple a; Simple a] None w in
  let w2 := set_backend_health lb a false w1 in
  ∃ w3 g, next_backend lb w2 = (bump lb, w3, Some (a, g)).
Proof.
  unfold new. cbn [new_backends backend_addr_drain new_backend alloc record_call heap next_id].
  set (n := next_id w). unfold set_backend_health, find_addr, has_addr.
  cbn [lb_backends find_first heap record_call].
  rewrite lookup_insert_ne, lookup_insert_eq by lia. cbn [addr].
  rewrite bool_decide_true by done. rewrite lookup_insert_ne, lookup_insert_eq by lia.
  unfold next_backend. cbn [lb_backends length seq scan current connection_limit].
  rewrite bool_decide_false by done.
  change (usize_wrap (0 + Z.of_nat 0) mod Z.of_nat 2) with 0.
  change (usize_wrap (0 + Z.of_nat 1) mod Z.of_nat 2) with 1.
  change (Z.to_nat 0) with 0%nat. change (Z.to_nat 1) with 1%nat. cbn [lookup list_lookup].
  cbn [put heap]. rewrite lookup_insert_eq. cbn [eligible with_healthy drain healthy negb].
  rewrite lookup_insert_ne by lia. cbn [record_call heap].
  rewrite lookup_insert_eq. cbn. eexists _, _. reflexivity.
Qed.

(** ** The properties at a concrete load balancer

    Three backends: the first one draining, the second one unhealthy. *)

Definition sample_world : World :=
  {| heap := {[0%nat := {| b_rule_name := "r"; addr := "a"; active_connections := 0; healthy := true; drain := true |};
               1%nat := {| b_rule_name := "r"; addr := "b"; active_connections := 0; healthy := false; drain := false |};
               2%nat := {| b_rule_name := "r"; addr := "c"; active_connections := 4; healthy := true; drain := false |}]};
     next_id := 3; calls := [] |}.
Definition sample_lb : LoadBalancer :=
  {| lb_rule_name := "r"; lb_backends := [0; 1; 2]%nat; current := 7; connection_limit := Some 5 |}.

Lemma sample_wf : lb_wf sample_lb sample_world.
Proof. split; [unfold is_uN; simpl; lia|]. repeat constructor; by eexists. Qed.

Lemma sample_fresh : heap_fresh sample_world.
Proof.
  intros id b Hb. simpl in *. destruct (decide (id < 3)%nat); [done|exfalso].
  by rewrite !lookup_insert_ne, lookup_singleton_ne in Hb by lia.
Qed.

Lemma next_backend_round_robin_witness :
  ∃ g, (next_backend sample_lb sample_world).2 = Some ("c", g) ∧ g_counter g = 2%nat.
Proof.
  pose proof (next_backend_round_robin sample_lb sample_world sample_wf
    ltac:(discriminate) ltac:(unfold USIZE_MODULUS; simpl; lia)) as H.
  destruct (next_backend sample_lb sample_world) as [[lb' w'] r]. destruct H as [_ H].
  change (find_first _ _) with (Some 2%nat) in H.
  destruct H as (b & Hb & _ & _ & ->). injection Hb as <-. eexists. split; reflexivity.
Defined.

Lemma next_backend_sound_witness :
  2%nat ∈ lb_backends sample_lb.
Proof.
  exact (proj1 (next_backend_sound sample_lb sample_world _ _ "c"
    {| g_rule_name := "r"; g_backend_addr := "c"; g_counter := 2 |} sample_wf eq_refl)).
Defined.

Lemma round_robin_fair_witness :
  let b a := {| b_rule_name := "r"; addr := a; active_connections := 0; healthy := true; drain := false |} in
  let w := {| heap := {[0%nat := b "a"; 1%nat := b "b"]}; next_id := 2; calls := [] |} in
  let lb := {| lb_rule_name := "r"; lb_backends := [0; 1]%nat; current := 1; connection_limit := None |} in
  (run_next (3 * 2) lb w).2 ≡ₚ [0; 1; 0; 1; 0; 1]%nat.
Proof.
  intros b w lb. refine (round_robin_fair 3 lb w _ _ _ _).
  - split; [reflexivity|]. repeat constructor.
  - simpl; lia.
  - discriminate.
  - unfold USIZE_MODULUS. simpl. lia.
Defined.

Lemma update_backends_spec_witness :
  let configs := [Simple "d"; Simple "b"] in
  let '(lb', w') := update_backends sample_lb configs sample_world in
  length (lb_backends lb') = 2%nat ∧ extends sample_world w'.
Proof.
  intros configs.
  pose proof (update_backends_spec sample_lb configs sample_world sample_wf sample_fresh
    ltac:(apply (bool_decide_unpack _); vm_compute; exact I)) as H.
  destruct (update_backends sample_lb configs sample_world) as [lb' w'].
  destruct H as (_ & _ & Hext & _ & _ & Hlen & _). split; [exact Hlen|exact Hext].
Defined.

Lemma set_backend_health_spec_witness :
  calls (set_backend_health sample_lb "b" true sample_world) =
    [GaugeSet BACKEND_HEALTH_STATUS ["r"; "b"] 1].
Proof. exact (proj1 (set_backend_health_spec sample_lb "b" true sample_world sample_wf)). Defined.
