(* ===== verification/Health.v ===== *)
(** * Health checks: [src/src/core/health.rs]

    A checker probes its backend over TCP or HTTP within a timeout, reports the
    outcome to the load balancer, sleeps, and starts over.  What the network does during
    a probe is a value of type [probe]; an operation that takes time is a
    [timed] value, [None] standing for one that never completes. *)

From Stdlib Require Import Ascii.
From Stdlib Require String.
From S2P Require Import Prelude Config Metrics Balancer BalancerSpec.
Open Scope Z_scope.

Import LoadBalancer.

(** ** Time *)

Definition timed (A : Type) : Type := option (Z * A).

Definition timed_ret {A} (a : A) : timed A := Some (0, a).
Definition timed_bind {A B} (m : timed A) (k : A → timed B) : timed B :=
  match m with
  | Some (t, a) => match k a with Some (t', b) => Some (t + t', b) | None => None end
  | None => None
  end.

(** tokio's [timeout]: [in_time d t] says that an operation that takes [t] is
    seen to complete under a timeout of [d].  The documentation promises it for
    an operation faster than [d]; a slower one may be seen to complete as well,
    since it is polled before the timer. *)
Class Timer := {
  in_time : Z → Z → bool;
  in_time_before d t : t < d → in_time d t = true;
}.

Definition timeout `{Timer} {A} (d : Z) (fut : timed A) : option A :=
  match fut with
  | Some (t, a) => if in_time d t then Some a else None
  | None => None
  end.

(** ** Probes *)

Fixpoint contains (pat s : string) : bool :=
  String.prefix pat s || match s with String _ s => contains pat s | EmptyString => false end.

Definition CRLF : string := String "013" (String "010" "").

Module Health.
Section health.
Context `{Timer} {E : Type}.

(** What the network does during one probe; [http_read] is the first read into
    the 1024-byte buffer. *)
Record probe := {
  connect : string → timed (result unit E);
  http_write : string → timed (result unit E);
  http_read : timed (result string E);
}.

Definition check_tcp (net : probe) (addr : string) (d : Z) : bool :=
  match timeout d (connect net addr) with
  | Some (Ok _) => true
  | Some (Err _) => false
  | None => false
  end.

Definition request (path addr : string) : string :=
  "GET " +:+ path +:+ " HTTP/1.1" +:+ CRLF +:+ "Host: " +:+ addr +:+ CRLF
    +:+ "Connection: close" +:+ CRLF +:+ CRLF.

(** Replacing invalid UTF-8 ([from_utf8_lossy]) neither adds nor removes an
    occurrence of an ASCII text, so the search is on the bytes read. *)
Definition check_fut (net : probe) (addr path : string) : timed bool :=
  timed_bind (connect net addr) (λ c,
    match c with
    | Ok _ =>
        timed_bind (http_write net (request path addr)) (λ w,
          match w with
          | Err _ => timed_ret false
          | Ok _ =>
              timed_bind (http_read net) (λ r,
                match r with
                | Ok buf =>
                    if (0 <? String.length buf)%nat
                    then (if contains "200 OK" buf then timed_ret true else timed_ret false)
                    else timed_ret false
                | Err _ => timed_ret false
                end)
          end)
    | Err _ => timed_ret false
    end).

Definition check_http (net : probe) (addr path : string) (d : Z) : bool :=
  match timeout d (check_fut net addr path) with
  | Some res => res
  | None => false
  end.

(** The [match] of the loop body of [start_health_check]. *)
Definition check (net : probe) (addr : string) (config : HealthCheckConfig) : bool :=
  let d := timeout_ms config in
  if bool_decide (hc_protocol config = "http")
  then check_http net addr (default "/" (hc_path config)) d
  else check_tcp net addr d.

(** One turn of the loop, up to its sleep. *)
Definition health_round (lb : LoadBalancer) (addr : string) (config : HealthCheckConfig)
    (net : probe) (w : World) : World :=
  let check_res := check net addr config in
  set_backend_health lb addr check_res w.

(** What a round meets besides the network: what the other tasks did to the list
    and the backends since the round before, and how long the probe takes and the
    sleep after it oversleeps, as the clock shows it ([sleep] and [timeout] end
    no earlier than asked, and possibly later). *)
Record round := {
  rd_others : LoadBalancer * World → LoadBalancer * World;
  rd_net : probe;
  rd_took : Z;
  rd_late : Z;
}.

(** The loop of [start_health_check], for as many rounds as are given: the load
    balancer after them, and the time at which each began. *)
Fixpoint health_rounds (addr : string) (config : HealthCheckConfig) (rounds : list round) (now : Z)
    (s : LoadBalancer * World) : LoadBalancer * World * list Z :=
  match rounds with
  | [] => (s, [])
  | r :: rounds =>
      let (lb, w) := rd_others r s in
      let w := health_round lb addr config (rd_net r) w in
      let (s, starts) :=
        health_rounds addr config rounds (now + rd_took r + (interval_ms config + rd_late r)) (lb, w) in
      (s, now :: starts)
  end.

(** The task: [late] is how much the initial sleep oversleeps. *)
Definition start_health_check (addr : string) (config : HealthCheckConfig) (rounds : list round)
    (spawned late : Z) (s : LoadBalancer * World) : LoadBalancer * World * list Z :=
  health_rounds addr config rounds (spawned + (100 + late)) s.

(** ** What a probe establishes *)

Lemma timeout_true (d : Z) (fut : timed bool) :
  match timeout d fut with Some res => res | None => false end = true ↔
  ∃ t, fut = Some (t, true) ∧ in_time d t = true.
Proof.
  unfold timeout. destruct fut as [[t b]|]; [|naive_solver].
  destruct (in_time d t) eqn:Et; naive_solver.
Qed.

Lemma timed_bind_Some {A B} (m : timed A) (k : A → timed B) t b :
  timed_bind m k = Some (t, b) ↔
  ∃ t1 a t2, m = Some (t1, a) ∧ k a = Some (t2, b) ∧ t = t1 + t2.
Proof.
  unfold timed_bind. destruct m as [[t1 a]|]; [|naive_solver].
  destruct (k a) as [[t2 b']|] eqn:E'; [|naive_solver].
  split; [intros [= <- <-]; by exists t1, a, t2|]. intros (? & ? & ? & [= <- <-] & Hk & ->). congruence.
Qed.

(** C32: an HTTP probe passes exactly when the connection is established, the
    request for the configured path is written, and the first read returns a
    response in which the text [200 OK] occurs, all within the timeout. *)
Theorem check_http_spec net addr path d :
  check_http net addr path d = true ↔
  ∃ t1 t2 t3 resp,
    connect net addr = Some (t1, Ok tt) ∧
    http_write net (request path addr) = Some (t2, Ok tt) ∧
    http_read net = Some (t3, Ok resp) ∧
    contains "200 OK" resp = true ∧ in_time d (t1 + t2 + t3) = true.
Proof.
  unfold check_http, check_fut. rewrite timeout_true. split.
  - intros (t & Hf & Ht). apply timed_bind_Some in Hf as (t1 & c & u1 & Hc & Hf & ->).
    destruct c as [[]|e]; [|discriminate Hf].
    apply timed_bind_Some in Hf as (t2 & wr & u2 & Hw & Hf & ->).
    destruct wr as [[]|e]; [|discriminate Hf].
    apply timed_bind_Some in Hf as (t3 & rd & u3 & Hr & Hf & ->).
    destruct rd as [buf|e]; [|discriminate Hf].
    destruct (0 <? String.length buf)%nat; [|discriminate Hf].
    destruct (contains "200 OK" buf) eqn:Hb; [|discriminate Hf].
    injection Hf as <-. exists t1, t2, t3, buf.
    replace (t1 + t2 + t3) with (t1 + (t2 + (t3 + 0))) by lia. done.
  - intros (t1 & t2 & t3 & resp & Hc & Hw & Hr & Hb & Ht). exists (t1 + t2 + t3).
    split; [|done]. replace (t1 + t2 + t3) with (t1 + (t2 + (t3 + 0))) by lia. rewrite Hc. cbn [timed_bind]. rewrite Hw. cbn [timed_bind]. rewrite Hr.
    cbn [timed_bind]. destruct resp as [|ch resp]; [done|].
    change (0 <? String.length (String ch resp))%nat with true. cbn iota. by rewrite Hb.
Qed.

(** ** What a round does to the load balancer *)

Lemma set_health_heap lb a h w :
  heap (set_backend_health lb a h w) =
  match find_addr w a (lb_backends lb) with
  | Some id => match heap w !! id with
               | Some b => <[id := with_healthy b h]> (heap w)
               | None => heap w
               end
  | None => heap w
  end.
Proof.
  unfold set_backend_health.
  change (find_addr (record_call _ w) a (lb_backends lb)) with (find_addr w a (lb_backends lb)).
  destruct (find_addr w a (lb_backends lb)) as [id|]; [|done]. simpl. by destruct (heap w !! id).
Qed.

(** [id] is the only backend of the list with the address [a]. *)
Definition only_at (lb : LoadBalancer) (w : World) (a : string) (id : nat) : Prop :=
  id ∈ lb_backends lb ∧ has_addr w a id = true ∧
  ∀ id', id' ∈ lb_backends lb → has_addr w a id' = true → id' = id.

Lemma find_only lb w a id : only_at lb w a id → find_addr w a (lb_backends lb) = Some id.
Proof.
  intros (Hin & Ha & Huniq). unfold find_addr.
  destruct (find_first (has_addr w a) (lb_backends lb)) as [id'|] eqn:Hf.
  - apply find_first_Some_elem in Hf as [Hin' Ha']. by rewrite (Huniq id').
  - rewrite find_first_None in Hf. rewrite Forall_forall in Hf. specialize (Hf id Hin). congruence.
Qed.

(** C28: after a round for an address that one backend of the list has, that
    backend is eligible for new connections exactly when the probe passed (and
    it is neither draining nor at its connection limit), nothing else about it has
    changed, and nothing at all about any other backend. *)
Theorem health_round_controls_eligibility lb a config net w id b :
  only_at lb w a id → heap w !! id = Some b →
  let w' := health_round lb a config net w in
  eligible_at (connection_limit lb) w' id =
    check net a config && eligible (connection_limit lb) (with_healthy b true) ∧
  heap w' !! id = Some (with_healthy b (check net a config)) ∧
  ∀ id', id' ≠ id → heap w' !! id' = heap w !! id' ∧
    eligible_at (connection_limit lb) w' id' = eligible_at (connection_limit lb) w id'.
Proof.
  intros Hid Hb. cbn zeta. unfold health_round, eligible_at.
  rewrite set_health_heap, (find_only _ _ _ _ Hid), Hb. split_and!.
  - rewrite lookup_insert_eq. unfold eligible. cbn [with_healthy drain healthy active_connections].
    destruct (drain b); [by rewrite andb_false_r|]. by destruct (check net a config).
  - apply lookup_insert_eq.
  - intros id' Hne. by rewrite lookup_insert_ne.
Qed.

(** ** How often a checker probes *)

(** Each time follows the one before by a gap of at least [lo]. *)
Fixpoint apart (lo t : Z) (ts : list Z) : Prop :=
  match ts with
  | [] => True
  | t' :: ts => lo <= t' - t ∧ apart lo t' ts
  end.

(** The clock goes forward. *)
Definition forward (r : round) : Prop := 0 <= rd_took r ∧ 0 <= rd_late r.

Lemma health_rounds_apart a config rounds now s :
  Forall forward rounds →
  match (health_rounds a config rounds now s).2 with
  | t :: ts => t = now ∧ apart (interval_ms config) t ts
  | [] => rounds = []
  end.
Proof.
  intros Hf. revert now s. induction Hf as [|r rounds [Ht Hl] _ IH]; intros now s; [done|].
  cbn [health_rounds]. destruct (rd_others r s) as [lb w].
  specialize (IH (now + rd_took r + (interval_ms config + rd_late r))
    (lb, health_round lb a config (rd_net r) w)).
  destruct (health_rounds a config rounds _ _) as [s' [|t ts]]; [done|]. cbn [snd] in *.
  destruct IH as [-> IH]. split; [done|]. split; [lia|done].
Qed.

(** A checker leaves the backend alone for 100 ms, and from then on for at least
    the interval between two probes, whatever the other tasks do and however late
    the timers are. *)
Theorem checker_probes_apart a config rounds spawned late s :
  0 <= late → Forall forward rounds →
  match (start_health_check a config rounds spawned late s).2 with
  | t :: ts => spawned + 100 <= t ∧ apart (interval_ms config) t ts
  | [] => rounds = []
  end.
Proof.
  intros Hl Hf. pose proof (health_rounds_apart a config rounds (spawned + (100 + late)) s Hf) as Hr.
  unfold start_health_check. destruct (health_rounds _ _ _ _ _) as [s' [|t ts]]; [done|].
  cbn [snd] in *. destruct Hr as [-> Hr]. split; [lia|done].
Qed.

End health.
Arguments probe : clear implicits.
Arguments round : clear implicits.

(** A timer that counts completion at the deadline as in time. *)
#[export] Instance exact_timer : Timer.
Proof. refine {| in_time d t := t <=? d |}. intros d t Ht. lia. Defined.

(** The check looks for its text anywhere in the response, not at the status
    line: an answer [503] whose body mentions [200 OK] passes. *)
Theorem error_response_passes :
  ∃ net : probe unit,
    http_read net = Some (0, Ok ("HTTP/1.1 503 Service Unavailable" +:+ CRLF +:+ CRLF
                                 +:+ "expected 200 OK from upstream")) ∧
    check net "10.0.0.1:80"
      {| hc_enabled := true; interval_ms := 1000; timeout_ms := 500; hc_protocol := "http"; hc_path := None |}
      = true.
Proof.
  eexists {| connect := λ _, Some (0, Ok tt); http_write := λ _, Some (0, Ok tt); http_read := _ |}.
  split; [reflexivity|]. vm_compute. reflexivity.
Qed.

Lemma health_round_controls_eligibility_witness :
  let net : probe unit := {| connect := λ _, None; http_write := λ _, None; http_read := None |} in
  let config := {| hc_enabled := true; interval_ms := 1000; timeout_ms := 500;
                   hc_protocol := "tcp"; hc_path := None |} in
  eligible_at (Some 5) (health_round sample_lb "c" config net sample_world) 2 = false.
Proof.
  intros net config.
  refine (proj1 (health_round_controls_eligibility sample_lb "c" config net sample_world 2
    {| b_rule_name := "r"; addr := "c"; active_connections := 4; healthy := true; drain := false |} _ eq_refl)).
  split; [right; right; left|]. split; [reflexivity|]. intros id' Hid Ha.
  change (id' ∈ [0; 1; 2]%nat) in Hid. rewrite !elem_of_cons in Hid. destruct Hid as [->|[->|[->|[]%not_elem_of_nil]]];
    [discriminate Ha|discriminate Ha|reflexivity].
Defined.

(** A checker whose second probe times out, on an otherwise idle balancer. *)
Example checker_rounds :
  let idle (s : LoadBalancer * World) := s in
  let up : probe unit := {| connect := λ _, Some (3, Ok tt); http_write := λ _, None; http_read := None |} in
  let down : probe unit := {| connect := λ _, None; http_write := λ _, None; http_read := None |} in
  let config := {| hc_enabled := true; interval_ms := 1000; timeout_ms := 500;
                   hc_protocol := "tcp"; hc_path := None |} in
  let r := start_health_check "c" config
    [{| rd_others := idle; rd_net := up; rd_took := 3; rd_late := 1 |};
     {| rd_others := idle; rd_net := down; rd_took := 502; rd_late := 0 |}] 0 2 (sample_lb, sample_world) in
  r.2 = [102; 1106] ∧ eligible_at (Some 5) r.1.2 2 = false.
Proof. split; reflexivity. Qed.
End Health.
