(* ===== verification/BalancerInv.v ===== *)
(** * Invariants of the load balancer under any sequence of operations

    Connections opening and closing, health reports and configuration reloads,
    in any order, each operation executed in one step: connection counters
    equal the number of open connections, the connection limit is respected,
    and the connection gauge is exact as long as no address comes back while
    connections of its previous life are open. *)

From S2P Require Import Prelude Config Metrics Balancer BalancerSpec.
Open Scope Z_scope.

Import LoadBalancer.

(** A load balancer, the world it lives in and the guards of the open
    connections. *)
Record conf := { c_lb : LoadBalancer; c_w : World; c_guards : list ConnectionGuard }.

(** The operations that tasks perform on a load balancer. *)
Inductive op :=
| Connect
| Close
| Health (a : string) (h : bool)
| Update (configs : list BackendConfig).

Inductive op_step : op → conf → conf → Prop :=
| step_connect lb w gs lb' w' a g :
    next_backend lb w = (lb', w', Some (a, g)) →
    op_step Connect {| c_lb := lb; c_w := w; c_guards := gs |}
         {| c_lb := lb'; c_w := w'; c_guards := g :: gs |}
| step_refuse lb w gs lb' w' :
    next_backend lb w = (lb', w', None) →
    op_step Connect {| c_lb := lb; c_w := w; c_guards := gs |}
         {| c_lb := lb'; c_w := w'; c_guards := gs |}
| step_close lb w gs1 g gs2 :
    op_step Close {| c_lb := lb; c_w := w; c_guards := gs1 ++ g :: gs2 |}
         {| c_lb := lb; c_w := drop_guard g w; c_guards := gs1 ++ gs2 |}
| step_health lb w gs a h :
    op_step (Health a h) {| c_lb := lb; c_w := w; c_guards := gs |}
         {| c_lb := lb; c_w := set_backend_health lb a h w; c_guards := gs |}
| step_update lb w gs configs lb' w' :
    update_backends lb configs w = (lb', w') →
    op_step (Update configs) {| c_lb := lb; c_w := w; c_guards := gs |}
         {| c_lb := lb'; c_w := w'; c_guards := gs |}.

Definition step (c c' : conf) : Prop := ∃ o, op_step o c c'.

(** Open connections of the backend [id]. *)
Definition open_on (id : nat) (gs : list ConnectionGuard) : Z :=
  Z.of_nat (length (filter (λ g, g_counter g = id) gs)).

Lemma open_on_cons id g gs :
  open_on id (g :: gs) = (if decide (g_counter g = id) then 1 else 0) + open_on id gs.
Proof. unfold open_on. rewrite filter_cons. case_decide; simpl; lia. Qed.

Lemma open_on_app id gs gs' : open_on id (gs ++ gs') = open_on id gs + open_on id gs'.
Proof. unfold open_on. rewrite filter_app, length_app. lia. Qed.

Lemma open_on_nonneg id gs : 0 <= open_on id gs.
Proof. unfold open_on. lia. Qed.

Lemma open_on_zero id gs : (∀ g, g ∈ gs → g_counter g ≠ id) → open_on id gs = 0.
Proof.
  induction gs as [|g gs IH]; intros Hno; [done|]. rewrite open_on_cons, IH by set_solver.
  rewrite decide_False; [done|]. apply Hno. set_solver.
Qed.

Record inv (c : conf) : Prop := {
  inv_wf : lb_wf (c_lb c) (c_w c);
  inv_fresh : heap_fresh (c_w c);
  inv_guards : Forall (λ g, is_Some (heap (c_w c) !! g_counter g)) (c_guards c);
  inv_count : ∀ id b, heap (c_w c) !! id = Some b →
    active_connections b = usize_wrap (open_on id (c_guards c));
  inv_limit : ∀ l, connection_limit (c_lb c) = Some l → is_usize l →
    ∀ id, open_on id (c_guards c) <= l;
}.

(** ** Frames of the operations *)

(** What [next_backend] did, when it gave a connection. *)
Lemma next_backend_Some lb w lb' w' a g :
  lb_wf lb w → next_backend lb w = (lb', w', Some (a, g)) →
  lb' = bump lb ∧ ∃ b, heap w !! g_counter g = Some b ∧ eligible (connection_limit lb) b = true ∧
    (w', (a, g)) = select (g_counter g) b w.
Proof.
  intros Hwf Hn. destruct (decide (lb_backends lb = [])) as [He|Hne].
  { unfold next_backend in Hn. by rewrite bool_decide_true in Hn. }
  pose proof (next_backend_find lb w Hwf Hne) as Hf.
  destruct (find_first _ _) as [id|] eqn:Hid; [|cbn in Hf; congruence].
  apply find_first_Some_elem in Hid as [_ He]. unfold select_at, eligible_at in *.
  destruct (heap w !! id) as [b|] eqn:Hb; [|done]. simpl in Hf. rewrite Hf in Hn.
  simplify_eq/=. split; [done|]. exists b. done.
Qed.

Lemma next_backend_None lb w lb' w' :
  lb_wf lb w → next_backend lb w = (lb', w', None) →
  w' = w ∧ (lb' = lb ∨ lb' = bump lb).
Proof.
  intros Hwf Hn. destruct (decide (lb_backends lb = [])) as [He|Hne].
  { unfold next_backend in Hn. rewrite bool_decide_true in Hn by done. naive_solver. }
  pose proof (next_backend_find lb w Hwf Hne) as Hf.
  destruct (find_first _ _) as [id|] eqn:Hid.
  - apply find_first_Some_elem in Hid as [_ He]. unfold select_at, eligible_at in *.
    destruct (heap w !! id); [|done]. simpl in Hf. congruence.
  - cbn in Hf. rewrite Hf in Hn. naive_solver.
Qed.

Lemma bump_wf lb w w' :
  lb_wf lb w → (∀ id, is_Some (heap w !! id) → is_Some (heap w' !! id)) → lb_wf (bump lb) w'.
Proof.
  intros [_ Hall] Hmono. split; [apply usize_wrap_range|]. eapply Forall_impl; [exact Hall|]. auto.
Qed.

(** A change of one allocated backend allocates and frees nothing. *)
Lemma insert_alloc (h : gmap nat Backend) id b b' :
  h !! id = Some b → ∀ id', is_Some (<[id := b']> h !! id') ↔ is_Some (h !! id').
Proof.
  intros Hb id'. rewrite lookup_insert. case_decide; [subst|done].
  rewrite Hb. split; eauto.
Qed.

Lemma usize_wrap_add x y : usize_wrap (usize_wrap x + y) = usize_wrap (x + y).
Proof. unfold usize_wrap. by rewrite Zplus_mod_idemp_l. Qed.

Lemma usize_wrap_sub x y : usize_wrap (usize_wrap x - y) = usize_wrap (x - y).
Proof. unfold usize_wrap. by rewrite Zminus_mod_idemp_l. Qed.

(** ** Preservation *)

(** The parts of the invariant that survive when nothing is deallocated and
    counters are unchanged. *)
Lemma inv_transport lb w gs lb' w' :
  inv {| c_lb := lb; c_w := w; c_guards := gs |} →
  lb_wf lb' w' → heap_fresh w' → connection_limit lb' = connection_limit lb →
  (∀ id b', heap w' !! id = Some b' →
     (∃ b, heap w !! id = Some b ∧ active_connections b' = active_connections b) ∨
     (heap w !! id = None ∧ active_connections b' = 0)) →
  (∀ id, is_Some (heap w !! id) → is_Some (heap w' !! id)) →
  inv {| c_lb := lb'; c_w := w'; c_guards := gs |}.
Proof.
  intros [Hwf Hfr Hg Hc Hl] Hwf' Hfr' Hlim Hact Hmono. simpl in *.
  split; simpl; [done|done| | |by rewrite Hlim].
  - eapply Forall_impl; [exact Hg|]. auto.
  - intros id b' Hb'. destruct (Hact _ _ Hb') as [(b & Hb & ->)|[Hn ->]]; [auto|].
    assert (open_on id gs = 0) as ->; [|done].
    apply open_on_zero. intros g Hg' <-. rewrite Forall_forall in Hg. destruct (Hg _ Hg') as [? ?]. congruence.
Qed.

Lemma inv_connect lb w gs lb' w' a g :
  inv {| c_lb := lb; c_w := w; c_guards := gs |} →
  next_backend lb w = (lb', w', Some (a, g)) →
  inv {| c_lb := lb'; c_w := w'; c_guards := g :: gs |}.
Proof.
  intros [Hwf Hfr Hg Hc Hl] Hn. simpl in *.
  destruct (next_backend_Some _ _ _ _ _ _ Hwf Hn) as (-> & b & Hb & He & Hsel).
  injection Hsel as Hw _. set (id := g_counter g) in *.
  assert (Hheap : heap w' = <[id := with_active b (usize_wrap (active_connections b + 1))]> (heap w))
    by by rewrite Hw.
  assert (Hnext : next_id w' = next_id w) by by rewrite Hw.
  pose proof (insert_alloc (heap w) id b (with_active b (usize_wrap (active_connections b + 1))) Hb) as Hal.
  split; cbn [c_lb c_w c_guards].
  - eapply bump_wf; [exact Hwf|]. intros id'. rewrite Hheap. apply Hal.
  - intros id' b'. rewrite Hheap, Hnext, lookup_insert. case_decide; [subst id'; eauto|apply Hfr].
  - constructor; [rewrite Hheap; fold id; rewrite lookup_insert_eq; eauto|].
    eapply Forall_impl; [exact Hg|]. intros g' Hg'. rewrite Hheap. by apply Hal.
  - intros id' b'. rewrite Hheap, lookup_insert, open_on_cons. fold id.
    case_decide as E; [subst id'|by apply Hc]. intros [= <-]. simpl.
    rewrite (Hc _ _ Hb), usize_wrap_add. f_equal. lia.
  - cbn [bump connection_limit]. intros l Hlim Hlu id'. rewrite open_on_cons. fold id. specialize (Hl l Hlim Hlu) as Hle.
    pose proof (Hle id') as Hle'. case_decide as E; [subst id'|lia].
    rewrite Hlim in He. unfold eligible in He. destruct (drain b), (healthy b); try done.
    destruct (Z.leb_spec l (active_connections b)) as [|Hlt]; [done|].
    rewrite (Hc _ _ Hb), usize_wrap_small in Hlt; [lia|].
    pose proof (open_on_nonneg id gs). unfold is_uN in *. lia.
Qed.

Lemma inv_close lb w gs1 g gs2 :
  inv {| c_lb := lb; c_w := w; c_guards := gs1 ++ g :: gs2 |} →
  inv {| c_lb := lb; c_w := drop_guard g w; c_guards := gs1 ++ gs2 |}.
Proof.
  intros [Hwf Hfr Hg Hc Hl]. simpl in *. set (id := g_counter g).
  apply Forall_app in Hg as [Hg1 [[b Hb] Hg2]%Forall_cons].
  assert (Hheap : heap (drop_guard g w) =
    <[id := with_active b (usize_wrap (active_connections b - 1))]> (heap w)).
  { unfold drop_guard. by rewrite Hb. }
  assert (Hnext : next_id (drop_guard g w) = next_id w).
  { unfold drop_guard. by destruct (heap w !! g_counter g). }
  pose proof (insert_alloc (heap w) id b (with_active b (usize_wrap (active_connections b - 1))) Hb) as Hal.
  assert (Hcnt : ∀ id', open_on id' (gs1 ++ gs2) =
    open_on id' (gs1 ++ g :: gs2) - (if decide (id = id') then 1 else 0)).
  { intros id'. rewrite !open_on_app, open_on_cons. fold id. lia. }
  split; cbn [c_lb c_w c_guards].
  - destruct Hwf as [Hcur Hall]. split; [done|]. eapply Forall_impl; [exact Hall|].
    intros id'. rewrite Hheap. apply Hal.
  - intros id' b'. rewrite Hheap, Hnext, lookup_insert. case_decide; [subst id'; eauto|apply Hfr].
  - apply Forall_app. split; [eapply Forall_impl; [exact Hg1|]|eapply Forall_impl; [exact Hg2|]];
      intros g'; rewrite Hheap; apply Hal.
  - intros id' b'. rewrite Hheap, lookup_insert, Hcnt.
    case_decide as E; [|rewrite Z.sub_0_r; apply Hc].
    subst id'. intros [= <-]. simpl. by rewrite (Hc _ _ Hb), usize_wrap_sub.
  - intros l Hlim Hlu id'. rewrite Hcnt. specialize (Hl l Hlim Hlu id'). case_decide; lia.
Qed.

Lemma inv_health lb w gs a h :
  inv {| c_lb := lb; c_w := w; c_guards := gs |} →
  inv {| c_lb := lb; c_w := set_backend_health lb a h w; c_guards := gs |}.
Proof.
  intros Hinv. pose proof Hinv as [[Hcur Hall] Hfr _ _ _]. simpl in *.
  assert (Hspec : next_id (set_backend_health lb a h w) = next_id w ∧
    (heap (set_backend_health lb a h w) = heap w ∨
     ∃ id b, heap w !! id = Some b ∧
       heap (set_backend_health lb a h w) = <[id := with_healthy b h]> (heap w))).
  { unfold set_backend_health. destruct (find_addr _ a _); [|by split; [|left]].
    simpl. destruct (heap w !! n) eqn:Hb; [|by split; [|left]]. split; [done|]. right. eauto. }
  destruct Hspec as [Hnext [Hheap|(id & b & Hb & Hheap)]].
  - eapply inv_transport; [exact Hinv|by split; [|rewrite Hheap]| |done| |];
      rewrite ?Hheap; eauto. intros id b. rewrite Hheap, Hnext. apply Hfr.
  - pose proof (insert_alloc (heap w) id b (with_healthy b h) Hb) as Hal.
    eapply inv_transport; [exact Hinv| | |done| |].
    + split; [done|]. eapply Forall_impl; [exact Hall|]. intros id'. rewrite Hheap. apply Hal.
    + intros id' b'. rewrite Hheap, Hnext, lookup_insert. case_decide; [subst id'; eauto|apply Hfr].
    + intros id' b'. rewrite Hheap, lookup_insert. case_decide; [|eauto]. subst id'.
      intros [= <-]. left. eauto.
    + intros id'. rewrite Hheap. apply Hal.
Qed.

(** Backends that an update allocates start without connections. *)
Lemma update_all_new rule_name cur configs w id b :
  heap_fresh w → heap w !! id = None →
  heap (update_all rule_name cur configs w).2 !! id = Some b → active_connections b = 0.
Proof.
  revert w. induction configs as [|c configs IH]; intros w Hfr Hnone; simpl; [congruence|].
  destruct (update_one rule_name cur c w) as [id1 w1] eqn:H1.
  destruct (update_one_spec _ _ _ _ _ _ Hfr H1) as (Hext & Hfr1 & Hframe & Hid).
  destruct (update_all rule_name cur configs w1) as [ids w2] eqn:H2. simpl.
  destruct (decide (id = id1)) as [->|Hne].
  - destruct (find_addr w _ cur).
    { destruct Hid as (_ & b0 & ? & _). congruence. }
    destruct Hid as (_ & Hnew). clear IH Hnone.
    assert (Hkeep : ∀ w, heap_fresh w → ∀ b0, heap w !! id1 = Some b0 → active_connections b0 = 0 →
      heap (update_all rule_name cur configs w).2 !! id1 = Some b → active_connections b = 0).
    { clear. induction configs as [|c configs IH]; intros w Hfr b0 Hb0 H0; simpl; [congruence|].
      destruct (update_one rule_name cur c w) as [id2 w1] eqn:H1.
      destruct (update_one_spec _ _ _ _ _ _ Hfr H1) as ([_ Hext] & Hfr1 & _ & _).
      destruct (Hext _ _ Hb0) as (b1 & Hb1 & E). specialize (IH w1 Hfr1 b1 Hb1).
      destruct (update_all rule_name cur configs w1). apply IH.
      unfold same_but_drain, with_drain in E. congruence. }
    specialize (Hkeep w1 Hfr1 _ Hnew eq_refl). by rewrite H2 in Hkeep.
  - specialize (IH w1 Hfr1). rewrite H2 in IH. apply IH. by rewrite Hframe.
Qed.

Lemma inv_update lb w gs configs lb' w' :
  inv {| c_lb := lb; c_w := w; c_guards := gs |} →
  update_backends lb configs w = (lb', w') →
  inv {| c_lb := lb'; c_w := w'; c_guards := gs |}.
Proof.
  intros Hinv. pose proof Hinv as [[Hcur Hall] Hfr _ _ _]. simpl in *. unfold update_backends.
  pose proof (update_all_spec (lb_rule_name lb) (lb_backends lb) configs w Hfr Hall) as Hs.
  pose proof (λ id b, update_all_new (lb_rule_name lb) (lb_backends lb) configs w id b Hfr) as Hnew.
  destruct (update_all _ _ configs w) as [ids w1]. intros [= <- <-]. simpl in Hnew.
  destruct Hs as ([_ Hext] & Hfr' & _ & Hall').
  eapply inv_transport; [exact Hinv|by split|done|done| |].
  - intros id b' Hb'. destruct (heap w !! id) as [b|] eqn:Hb.
    + left. destruct (Hext _ _ Hb) as (b1 & Hb1 & E). simplify_eq. exists b. split; [done|].
      unfold same_but_drain, with_drain in E. congruence.
    + right. eauto.
  - intros id [b Hb]. destruct (Hext _ _ Hb) as (b1 & ? & _). eauto.
Qed.

Lemma inv_step c c' : step c c' → inv c → inv c'.
Proof.
  intros [o [lb w gs lb' w' a g Hn|lb w gs lb' w' Hn|lb w gs1 g gs2|lb w gs a h|lb w gs configs lb' w' Hu]] Hinv.
  - by eapply inv_connect.
  - pose proof Hinv as [Hwf Hfr _ _ _]. simpl in *.
    destruct (next_backend_None _ _ _ _ Hwf Hn) as [-> [-> | ->]]; [done|].
    eapply inv_transport; [exact Hinv|by eapply bump_wf|done|done|eauto|done].
  - by apply inv_close.
  - by apply inv_health.
  - by eapply inv_update.
Qed.

Lemma inv_steps c c' : rtc step c c' → inv c → inv c'.
Proof. induction 1; eauto using inv_step. Qed.

(** ** The initial state *)

Lemma new_backends_spec rule_name configs w :
  heap_fresh w → (∀ id b, heap w !! id = Some b → active_connections b = 0) →
  let (ids, w') := new_backends rule_name configs w in
  heap_fresh w' ∧ (∀ id b, heap w' !! id = Some b → active_connections b = 0) ∧
  (∀ id, is_Some (heap w !! id) → is_Some (heap w' !! id)) ∧
  Forall (λ id, is_Some (heap w' !! id)) ids.
Proof.
  revert w. induction configs as [|c configs IH]; intros w Hfr H0;
    cbn [new_backends]; [done|].
  destruct (backend_addr_drain c) as [a d].
  destruct (new_backend rule_name a d w) as [id w1] eqn:H1.
  assert (Hw1 : id = next_id w ∧ heap w1 = <[next_id w := fresh_backend rule_name a d]> (heap w)
                ∧ next_id w1 = S (next_id w)).
  { unfold new_backend, alloc in H1. injection H1 as <- <-. done. }
  destruct Hw1 as (-> & Hheap & Hnext).
  specialize (IH w1). destruct (new_backends rule_name configs w1) as [ids w2].
  destruct IH as (Hfr2 & H02 & Hmono & Hall).
  - intros id b. rewrite Hheap, Hnext, lookup_insert. case_decide; [lia|]. intros ?%Hfr. lia.
  - intros id b. rewrite Hheap, lookup_insert. case_decide; [|eauto]. by intros [= <-].
  - split_and!; [done|done| |].
    + intros id Hid. apply Hmono. rewrite Hheap, lookup_insert. case_decide; [eauto|done].
    + constructor; [|done]. apply Hmono. rewrite Hheap, lookup_insert_eq. eauto.
Qed.

Definition initial (rule_name : string) (configs : list BackendConfig) (limit : option Z) : conf :=
  let (lb, w) := new rule_name configs limit empty_world in
  {| c_lb := lb; c_w := w; c_guards := [] |}.

Lemma inv_initial rule_name configs limit :
  (∀ l, limit = Some l → is_usize l) → inv (initial rule_name configs limit).
Proof.
  intros Hlim. unfold initial, new.
  pose proof (new_backends_spec rule_name configs empty_world) as Hs.
  destruct (new_backends rule_name configs empty_world) as [ids w].
  destruct Hs as (Hfr & H0 & _ & Hall); [by intros id b|by intros id b|].
  split; cbn [c_lb c_w c_guards]; [by split|done|constructor| |].
  - intros id b Hb. by rewrite (H0 _ _ Hb).
  - intros l Hl Hu id. unfold open_on, is_uN in *. simpl. lia.
Qed.

(** ** The guarantees *)

(** No operation changes the limit. *)
Lemma op_step_limit o c c' :
  op_step o c c' → connection_limit (c_lb c') = connection_limit (c_lb c).
Proof.
  intros [lb w gs lb' w' a g Hn|lb w gs lb' w' Hn| | |lb w gs cs lb' w' Hu];
    cbn [c_lb]; try done.
  - unfold next_backend in Hn. destruct (bool_decide _); [done|].
    destruct (scan _ _ _ _ _). by injection Hn as <- _ _.
  - unfold next_backend in Hn. destruct (bool_decide _); [by injection Hn as <- _|].
    destruct (scan _ _ _ _ _). by injection Hn as <- _ _.
  - unfold update_backends in Hu. destruct (update_all _ _ _ _). by injection Hu as <- _.
Qed.

(** In every state that connections, closures, health reports and reloads
    can reach, a backend's connection counter is the number of open connections
    that hold it (modulo the width of the counter), also after the backend has
    left the list. *)
Theorem counter_is_open_connections rule_name configs limit c id b :
  (∀ l, limit = Some l → is_usize l) →
  rtc step (initial rule_name configs limit) c → heap (c_w c) !! id = Some b →
  active_connections b = usize_wrap (open_on id (c_guards c)).
Proof. intros Hl Hrun. eapply inv_count, inv_steps; [done|]. by apply inv_initial. Qed.

(** With operations executed one at a time, no backend ever has more open
    connections than [backend_connection_limit]. *)
Theorem connection_limit_respected rule_name configs l c id :
  is_usize l → rtc step (initial rule_name configs (Some l)) c →
  open_on id (c_guards c) <= l.
Proof.
  intros Hl Hrun.
  assert (Hinv : inv c).
  { eapply inv_steps; [done|]. apply inv_initial. by intros ? [= <-]. }
  eapply inv_limit; [done| |done].
  clear Hinv. remember (initial rule_name configs (Some l)) as c0 eqn:H0.
  assert (connection_limit (c_lb c0) = Some l) as Hc0.
  { subst c0. unfold initial, new. by destruct (new_backends _ _ _). }
  clear H0. induction Hrun as [|c1 c2 c3 Hstep _ IH]; [done|]. apply IH. clear IH.
  destruct Hstep as [o Hstep]. rewrite <- Hc0. by eapply op_step_limit.
Qed.

(** ** The connection gauge *)

Section gauge.
Context `{Reg : Registry R}.

(** The value of [BACKEND_ACTIVE_CONNECTIONS] for a rule and an address. *)
Definition gauge_of (w : World) (rule a : string) : Z :=
  read_gauge BACKEND_ACTIVE_CONNECTIONS [rule; a] (replay (calls w) empty_registry).

(** Open connections with those labels. *)
Definition open_at (rule a : string) (gs : list ConnectionGuard) : Z :=
  Z.of_nat (length (filter (λ g, g_rule_name g = rule ∧ g_backend_addr g = a) gs)).

Lemma open_at_cons rule a g gs :
  open_at rule a (g :: gs) =
  (if decide (g_rule_name g = rule ∧ g_backend_addr g = a) then 1 else 0) + open_at rule a gs.
Proof. unfold open_at. rewrite filter_cons. case_decide; simpl; lia. Qed.

Lemma open_at_app rule a gs gs' :
  open_at rule a (gs ++ gs') = open_at rule a gs + open_at rule a gs'.
Proof. unfold open_at. rewrite filter_app, length_app. lia. Qed.

Lemma gauge_of_call w c rule a :
  gauge_of (record_call c w) rule a =
  read_gauge BACKEND_ACTIVE_CONNECTIONS [rule; a] (apply c (replay (calls w) empty_registry)).
Proof. unfold gauge_of, record_call. cbn [calls]. by rewrite replay_app. Qed.

Lemma gauge_of_inc w rule a rule' a' :
  gauge_of (record_call (GaugeInc BACKEND_ACTIVE_CONNECTIONS [rule'; a']) w) rule a =
  gauge_of w rule a + (if decide (rule' = rule ∧ a' = a) then 1 else 0).
Proof.
  rewrite gauge_of_call. case_decide as E.
  - destruct E as [-> ->]. by rewrite read_inc.
  - rewrite read_other; [unfold gauge_of; lia|done| |done]. naive_solver.
Qed.

Lemma gauge_of_dec w rule a rule' a' :
  gauge_of (record_call (GaugeDec BACKEND_ACTIVE_CONNECTIONS [rule'; a']) w) rule a =
  gauge_of w rule a - (if decide (rule' = rule ∧ a' = a) then 1 else 0).
Proof.
  rewrite gauge_of_call. case_decide as E.
  - destruct E as [-> ->]. by rewrite read_dec.
  - rewrite read_other; [unfold gauge_of; lia|done|done|]. naive_solver.
Qed.

Lemma gauge_of_health w rule a ls v :
  gauge_of (record_call (GaugeSet BACKEND_HEALTH_STATUS ls v) w) rule a = gauge_of w rule a.
Proof. rewrite gauge_of_call. by rewrite read_other. Qed.

(** Creating a backend resets the gauge of its labels. *)
Lemma gauge_of_new_backend rule' a' d w rule a :
  gauge_of (new_backend rule' a' d w).2 rule a =
  if decide (rule' = rule ∧ a' = a) then 0 else gauge_of w rule a.
Proof.
  unfold new_backend. set (w1 := record_call (GaugeSet BACKEND_HEALTH_STATUS _ _) w).
  change (gauge_of (record_call (GaugeSet BACKEND_ACTIVE_CONNECTIONS [rule'; a'] 0) w1) rule a =
    if decide (rule' = rule ∧ a' = a) then 0 else gauge_of w rule a).
  rewrite gauge_of_call. case_decide as E.
  - destruct E as [-> ->]. by rewrite read_set.
  - rewrite read_other; [|naive_solver|done|done].
    transitivity (gauge_of w1 rule a); [done|]. apply gauge_of_health.
Qed.

Lemma update_one_gauge rule_name cur c w rule a :
  (find_addr w (backend_addr_drain c).1 cur = None →
     gauge_of w rule_name (backend_addr_drain c).1 = 0) →
  gauge_of (update_one rule_name cur c w).2 rule a = gauge_of w rule a.
Proof.
  unfold update_one. destruct (backend_addr_drain c) as [a' d]. cbn [fst].
  intros Hz. destruct (find_addr w a' cur) as [id|].
  - by destruct (heap w !! id).
  - rewrite gauge_of_new_backend. case_decide as E; [|done]. destruct E as [-> ->]. by rewrite Hz.
Qed.

Lemma update_all_gauge rule_name cur configs w rule a :
  heap_fresh w → Forall (λ id, is_Some (heap w !! id)) cur →
  Forall (λ c, find_addr w (backend_addr_drain c).1 cur = None →
     gauge_of w rule_name (backend_addr_drain c).1 = 0) configs →
  gauge_of (update_all rule_name cur configs w).2 rule a = gauge_of w rule a.
Proof.
  revert w. induction configs as [|c configs IH]; intros w Hfr Hcur Hz; cbn [update_all]; [done|].
  apply Forall_cons in Hz as [Hc Hz].
  pose proof (λ r a', update_one_gauge rule_name cur c w r a' Hc) as Hg.
  destruct (update_one rule_name cur c w) as [id w1] eqn:H1. cbn [snd] in Hg.
  destruct (update_one_spec _ _ _ _ _ _ Hfr H1) as (Hext & Hfr1 & _ & _).
  specialize (IH w1 Hfr1 (extends_allocated _ _ _ Hext Hcur)).
  destruct (update_all rule_name cur configs w1) as [ids w2]. cbn [snd] in *.
  rewrite IH; [apply Hg|]. eapply Forall_impl; [exact Hz|]. intros c' Hc'. simpl in *.
  rewrite (extends_find w), Hg by done. exact Hc'.
Qed.

(** A reload brings back no address whose earlier connections are still open. *)
Definition quiet (o : op) (c : conf) : Prop :=
  match o with
  | Update configs =>
      Forall (λ cfg, find_addr (c_w c) (backend_addr_drain cfg).1 (lb_backends (c_lb c)) = None →
        open_at (lb_rule_name (c_lb c)) (backend_addr_drain cfg).1 (c_guards c) = 0) configs
  | _ => True
  end.

Definition quiet_step (c c' : conf) : Prop := ∃ o, op_step o c c' ∧ quiet o c.

Definition gauge_exact (c : conf) : Prop :=
  ∀ rule a, gauge_of (c_w c) rule a = open_at rule a (c_guards c).

Lemma gauge_exact_step c c' : quiet_step c c' → inv c → gauge_exact c → gauge_exact c'.
Proof.
  intros (o & Hstep & Hq) Hinv Hg rule a. specialize (Hg rule a) as Hra.
  destruct Hinv as [Hwf Hfr _ _ _].
  destruct Hstep as [lb w gs lb' w' a' g Hn|lb w gs lb' w' Hn|lb w gs1 g gs2|lb w gs a' h|lb w gs cs lb' w' Hu];
    cbn [c_lb c_w c_guards] in *.
  - destruct (next_backend_Some _ _ _ _ _ _ Hwf Hn) as (_ & b & _ & _ & Hsel).
    injection Hsel as -> _ Hgd. rewrite gauge_of_inc, open_at_cons, Hgd. cbn [g_rule_name g_backend_addr].
    change (gauge_of (put _ _ w) rule a) with (gauge_of w rule a). lia.
  - by destruct (next_backend_None _ _ _ _ Hwf Hn) as [-> _].
  - unfold drop_guard. rewrite gauge_of_dec. rewrite open_at_app, open_at_cons in Hra.
    rewrite open_at_app. destruct (heap w !! g_counter g);
      [change (gauge_of (put _ _ w) rule a) with (gauge_of w rule a)|]; lia.
  - unfold set_backend_health. rewrite <- Hra, <- (gauge_of_health w rule a [lb_rule_name lb; a'] (if h then 1 else 0)).
    destruct (find_addr _ a' _) as [id|]; [|done]. by destruct (heap _ !! id).
  - unfold update_backends in Hu. destruct Hwf as [_ Hall].
    rewrite <- Hra, <- (update_all_gauge (lb_rule_name lb) (lb_backends lb) cs w rule a Hfr Hall).
    + destruct (update_all _ _ cs w). by injection Hu as _ <-.
    + eapply Forall_impl; [exact Hq|]. intros cfg Hcfg Hf. cbn in *. rewrite Hg. by apply Hcfg.
Qed.

Lemma new_backends_gauge rule_name configs w rule a :
  (∀ a', gauge_of w rule_name a' = 0) →
  gauge_of (new_backends rule_name configs w).2 rule a = gauge_of w rule a.
Proof.
  revert w. induction configs as [|c configs IH]; intros w H0; cbn [new_backends]; [done|].
  destruct (backend_addr_drain c) as [a' d].
  pose proof (gauge_of_new_backend rule_name a' d w) as Hg.
  destruct (new_backend rule_name a' d w) as [id w1]. cbn [snd] in Hg.
  assert (Hsame : ∀ r x, gauge_of w1 r x = gauge_of w r x).
  { intros r x. rewrite Hg. case_decide as E; [destruct E as [<- <-]|done]. by rewrite H0. }
  specialize (IH w1). destruct (new_backends rule_name configs w1) as [ids w2]. cbn [snd] in *.
  rewrite IH; [apply Hsame|]. intros x. by rewrite Hsame.
Qed.

(** C29: the [l4lb_backend_active_connections] gauge of a rule and address
    equals the number of open connections with those labels in every reachable
    state, provided no reload brings back an address while connections from
    before its removal are open. *)
Theorem connection_gauge_exact rule_name configs limit c rule a :
  (∀ l, limit = Some l → is_usize l) →
  rtc quiet_step (initial rule_name configs limit) c →
  gauge_of (c_w c) rule a = open_at rule a (c_guards c).
Proof.
  intros Hlim Hrun.
  enough (inv c ∧ gauge_exact c) as [_ Hg] by apply Hg.
  assert (Hini : inv (initial rule_name configs limit) ∧ gauge_exact (initial rule_name configs limit)).
  { split; [by apply inv_initial|]. intros r x. unfold initial, new.
    pose proof (new_backends_gauge rule_name configs empty_world r x) as Hg.
    destruct (new_backends rule_name configs empty_world) as [ids w]. cbn in *. rewrite Hg.
    - apply read_empty.
    - intros a'. apply read_empty. }
  revert Hini. induction Hrun as [|c1 c2 c3 Hstep _ IH]; [done|]. intros [Hi Hg]. apply IH. split.
  - destruct Hstep as (o & Hstep & _). eapply inv_step; [|done]. by exists o.
  - by eapply gauge_exact_step.
Qed.

End gauge.

(** The proviso is needed: a connection to [a] is opened, a reload removes
    [a], another one brings it back (resetting the gauge), and the connection
    closes: the gauge ends at minus one with no connection open. *)
Theorem connection_gauge_drifts `{Registry R} :
  ∃ c, rtc step (initial "r" [Simple "a"] None) c ∧ c_guards c = [] ∧
       gauge_of (R := R) (c_w c) "r" "a" = -1.
Proof.
  eexists. split; [|split].
  - eapply rtc_l. { exists Connect. eapply step_connect. reflexivity. }
    eapply rtc_l. { exists (Update [Simple "b"]). apply step_update. reflexivity. }
    eapply rtc_l. { exists (Update [Simple "b"; Simple "a"]). apply step_update. reflexivity. }
    eapply rtc_l. { exists Close. apply (step_close _ _ [] _ []). }
    apply rtc_refl.
  - reflexivity.
  - unfold gauge_of.
    match goal with |- context [calls ?w] =>
      let l := eval vm_compute in (calls w) in change (calls w) with l end.
    cbn [replay foldl]. by rewrite read_dec, read_set.
Qed.

(** ** The properties at a concrete run

    A connection is opened, a reload drains its backend and adds another one. *)

Definition sample_start : conf := initial "r" [Simple "a"] (Some 3).
Definition sample_open : conf :=
  let '(lb, w, r) := next_backend (c_lb sample_start) (c_w sample_start) in
  {| c_lb := lb; c_w := w; c_guards := match r with Some (_, g) => [g] | None => [] end |}.
Definition sample_reloaded : conf :=
  let (lb, w) := update_backends (c_lb sample_open)
                   [Detailed "a" true; Simple "b"] (c_w sample_open) in
  {| c_lb := lb; c_w := w; c_guards := c_guards sample_open |}.

Lemma sample_op_connect : op_step Connect sample_start sample_open.
Proof. apply (step_connect _ _ [] _ _ "a"). vm_compute. reflexivity. Qed.
Lemma sample_op_update :
  op_step (Update [Detailed "a" true; Simple "b"]) sample_open sample_reloaded.
Proof. apply step_update. vm_compute. reflexivity. Qed.

Lemma sample_run : rtc step sample_start sample_reloaded.
Proof.
  eapply rtc_l; [exists Connect; apply sample_op_connect|].
  apply rtc_once. eexists. apply sample_op_update.
Qed.

Lemma sample_limit l : Some 3 = Some l → is_usize l.
Proof. intros [= <-]. unfold is_uN. lia. Qed.

Lemma counter_is_open_connections_witness :
  let b := {| b_rule_name := "r"; addr := "a"; active_connections := 1; healthy := true; drain := true |} in
  heap (c_w sample_reloaded) !! 0%nat = Some b ∧
  active_connections b = usize_wrap (open_on 0 (c_guards sample_reloaded)).
Proof.
  intros b. split; [vm_compute; reflexivity|].
  refine (counter_is_open_connections "r" [Simple "a"] (Some 3) sample_reloaded 0 b
    sample_limit sample_run _). vm_compute. reflexivity.
Defined.

Lemma connection_limit_respected_witness : open_on 0 (c_guards sample_reloaded) <= 3.
Proof.
  refine (connection_limit_respected "r" [Simple "a"] 3 sample_reloaded 0 _ sample_run).
  unfold is_uN. lia.
Defined.

Lemma connection_gauge_exact_witness :
  gauge_of (c_w sample_reloaded) "r" "a" = open_at "r" "a" (c_guards sample_reloaded).
Proof.
  refine (connection_gauge_exact "r" [Simple "a"] (Some 3) sample_reloaded "r" "a" sample_limit _).
  eapply rtc_l; [exists Connect; split; [apply sample_op_connect|exact I]|].
  apply rtc_once. eexists. split; [apply sample_op_update|].
  repeat constructor; vm_compute; discriminate || reflexivity.
Defined.
