(* ===== verification/BalancerConc.v ===== *)
(** * Concurrent connections

    [next_backend] runs on several worker threads at once, on shared atomics.
    Here each atomic access of the source is a step of its own and the steps of
    all connections interleave with health reports and reloads.  Executed
    without interference the steps are [next_backend] itself; interleaved, they
    keep the counters exact but may exceed the connection limit, by less than
    the number of worker threads. *)

From S2P Require Import Prelude Config Metrics Balancer BalancerSpec BalancerInv.
Open Scope Z_scope.

Import LoadBalancer.

(** ** A connection, between its atomic accesses

    [ids] is the list it loaded, [start] what it got from the counter, [i] the
    turn of the loop. *)
Inductive task :=
| TStart                                                  (* about to load the list *)
| TLoaded (ids : list nat)                                (* about to bump the counter *)
| TLoop (ids : list nat) (start : Z) (i : nat)            (* at the head of the loop *)
| TNotDraining (ids : list nat) (start : Z) (i id : nat)  (* about to load [healthy] *)
| THealthy (ids : list nat) (start : Z) (i id : nat)      (* about to load the count *)
| TChosen (id : nat)                                      (* about to raise the count *)
| THolding (g : ConnectionGuard)                          (* proxying *)
| TDone.

(** One atomic access of a task. *)
Definition task_step (lb : LoadBalancer) (w : World) (t : task) : LoadBalancer * World * task :=
  match t with
  | TStart =>
      if bool_decide (lb_backends lb = []) then (lb, w, TDone)
      else (lb, w, TLoaded (lb_backends lb))
  | TLoaded ids => (bump lb, w, TLoop ids (current lb) 0)
  | TLoop ids start i =>
      if (length ids <=? i)%nat then (lb, w, TDone)
      else
        let id := probe ids start i in
        match heap w !! id with
        | Some b => if drain b then (lb, w, TLoop ids start (S i))
                    else (lb, w, TNotDraining ids start i id)
        | None => (lb, w, TDone)
        end
  | TNotDraining ids start i id =>
      match heap w !! id with
      | Some b => if negb (healthy b) then (lb, w, TLoop ids start (S i))
                  else (lb, w, THealthy ids start i id)
      | None => (lb, w, TDone)
      end
  | THealthy ids start i id =>
      match connection_limit lb, heap w !! id with
      | None, _ => (lb, w, TChosen id)
      | Some limit, Some b =>
          if limit <=? active_connections b then (lb, w, TLoop ids start (S i))
          else (lb, w, TChosen id)
      | Some _, None => (lb, w, TDone)
      end
  | TChosen id =>
      match heap w !! id with
      | Some b => let (w, r) := select id b w in (lb, w, THolding r.2)
      | None => (lb, w, TDone)
      end
  | THolding g => (lb, drop_guard g w, TDone)
  | TDone => (lb, w, TDone)
  end.

(** ** Without interference the steps are [next_backend] *)

(** A task that [next_backend] has not returned to yet. *)
Definition selecting (t : task) : bool :=
  match t with THolding _ | TDone => false | _ => true end.

Definition solo (c c' : LoadBalancer * World * task) : Prop :=
  selecting c.2 = true ∧ c' = task_step c.1.1 c.1.2 c.2.

Definition result_task (r : option (string * ConnectionGuard)) : task :=
  match r with Some (_, g) => THolding g | None => TDone end.

Lemma solo_step lb w t c : selecting t = true → rtc solo (task_step lb w t) c → rtc solo (lb, w, t) c.
Proof. intros Ht H. eapply rtc_l; [|exact H]. done. Qed.

Lemma solo_loop lb w ids start i :
  ids ≠ [] → Forall (λ id, is_Some (heap w !! id)) ids → (i <= length ids)%nat →
  let (w', r) := scan (connection_limit lb) ids start (seq i (length ids - i)) w in
  rtc solo (lb, w, TLoop ids start i) (lb, w', result_task r).
Proof.
  intros Hne Hall Hi. remember (length ids - i)%nat as k eqn:Hk.
  revert i Hi Hk. induction k as [|k IH]; intros i Hi Hk.
  { simpl. apply solo_step; [done|]. cbn [task_step].
    rewrite (proj2 (Nat.leb_le _ _)) by lia. done. }
  cbn [seq scan]. destruct (probe_lookup ids start i Hne) as [Hlk Hin]. rewrite Hlk.
  rewrite Forall_forall in Hall. destruct (Hall _ Hin) as [b Hb]. rewrite Hb.
  specialize (IH (S i) ltac:(lia) ltac:(lia)).
  destruct (scan (connection_limit lb) ids start (seq (S i) k) w) as [w' r].
  assert (Hgo : rtc solo (if drain b then (lb, w, TLoop ids start (S i))
                          else (lb, w, TNotDraining ids start i (probe ids start i)))
    (if eligible (connection_limit lb) b
     then (lb, (select (probe ids start i) b w).1, THolding (select (probe ids start i) b w).2.2)
     else (lb, w', result_task r))).
  { unfold eligible. destruct (drain b); [exact IH|].
    apply solo_step; [done|]. cbn [task_step]. rewrite Hb. destruct (healthy b); cbn [negb]; [|exact IH].
    apply solo_step; [done|]. cbn [task_step]. rewrite Hb.
    destruct (connection_limit lb) as [limit|].
    - destruct (limit <=? active_connections b); [exact IH|].
      apply solo_step; [done|]. cbn [task_step]. by rewrite Hb.
    - apply solo_step; [done|]. cbn [task_step]. by rewrite Hb. }
  assert (Hhead : task_step lb w (TLoop ids start i) =
    if drain b then (lb, w, TLoop ids start (S i))
    else (lb, w, TNotDraining ids start i (probe ids start i))).
  { cbn [task_step]. rewrite (proj2 (Nat.leb_gt _ _)) by lia. by rewrite Hb. }
  destruct (eligible (connection_limit lb) b); (apply solo_step; [done|]); rewrite Hhead; exact Hgo.
Qed.

(** C16: the atomic steps of a connection that no other task interferes with,
    up to the return of [next_backend], compute exactly what [next_backend]
    returns and leave the shared state as it does: the step-by-step model refines
    the one-step operation. *)
Theorem solo_refines_next_backend lb w :
  lb_wf lb w →
  let '(lb', w', r) := next_backend lb w in
  rtc solo (lb, w, TStart) (lb', w', result_task r).
Proof.
  intros [Hc Hall]. unfold next_backend. case_bool_decide as Hne.
  { apply solo_step; [done|]. cbn [task_step]. rewrite bool_decide_true by done. done. }
  pose proof (solo_loop (bump lb) w (lb_backends lb) (current lb) 0 Hne Hall ltac:(lia)) as Hl.
  rewrite Nat.sub_0_r in Hl. cbn [connection_limit lb_backends bump] in *.
  destruct (scan _ _ _ _ _) as [w' r].
  apply solo_step; [done|]. cbn [task_step]. rewrite bool_decide_false by done.
  apply solo_step; [done|]. exact Hl.
Qed.

(** ** Interleaving *)

Record sys := { s_lb : LoadBalancer; s_w : World; s_tasks : list task }.

(** A task inside [next_backend].  The function has no await point, so such a
    task occupies a worker thread. *)
Definition inside (t : task) : bool :=
  match t with TStart | THolding _ | TDone => false | _ => true end.

Definition holds (id : nat) (t : task) : bool :=
  match t with THolding g => bool_decide (g_counter g = id) | _ => false end.

Definition chosen (id : nat) (t : task) : bool :=
  match t with TChosen id' => bool_decide (id' = id) | _ => false end.

Definition count (p : task → bool) (ts : list task) : Z :=
  Z.of_nat (length (filter (λ t, p t = true) ts)).

(** [workers] is the number of worker threads of the runtime.  A reload is the
    sequence of its drain stores, allocations and the final list swap; health
    reports and those accesses come at any time. *)
Inductive sys_step (workers : Z) : sys → sys → Prop :=
| sys_spawn lb w ts :
    sys_step workers {| s_lb := lb; s_w := w; s_tasks := ts |}
      {| s_lb := lb; s_w := w; s_tasks := ts ++ [TStart] |}
| sys_task lb w ts i t lb' w' t' :
    ts !! i = Some t → task_step lb w t = (lb', w', t') →
    count inside (<[i := t']> ts) <= workers →
    sys_step workers {| s_lb := lb; s_w := w; s_tasks := ts |}
      {| s_lb := lb'; s_w := w'; s_tasks := <[i := t']> ts |}
| sys_health lb w ts a h :
    sys_step workers {| s_lb := lb; s_w := w; s_tasks := ts |}
      {| s_lb := lb; s_w := set_backend_health lb a h w; s_tasks := ts |}
| sys_drain lb w ts id b d :
    heap w !! id = Some b →
    sys_step workers {| s_lb := lb; s_w := w; s_tasks := ts |}
      {| s_lb := lb; s_w := put id (with_drain b d) w; s_tasks := ts |}
| sys_alloc lb w ts a d :
    sys_step workers {| s_lb := lb; s_w := w; s_tasks := ts |}
      {| s_lb := lb; s_w := (new_backend (lb_rule_name lb) a d w).2; s_tasks := ts |}
| sys_swap lb w ts ids :
    Forall (λ id, is_Some (heap w !! id)) ids →
    sys_step workers {| s_lb := lb; s_w := w; s_tasks := ts |}
      {| s_lb := {| lb_rule_name := lb_rule_name lb; lb_backends := ids; current := current lb;
                    connection_limit := connection_limit lb |};
         s_w := w; s_tasks := ts |}.

Definition allocated (w : World) (id : nat) : Prop := is_Some (heap w !! id).

(** The backends a task refers to are allocated. *)
Definition task_ok (w : World) (t : task) : Prop :=
  match t with
  | TLoaded ids | TLoop ids _ _ => ids ≠ [] ∧ Forall (allocated w) ids
  | TNotDraining ids _ _ id | THealthy ids _ _ id =>
      ids ≠ [] ∧ Forall (allocated w) ids ∧ allocated w id
  | TChosen id => allocated w id
  | THolding g => allocated w (g_counter g)
  | TStart | TDone => True
  end.

Record sys_inv (workers : Z) (s : sys) : Prop := {
  si_fresh : heap_fresh (s_w s);
  si_list : Forall (allocated (s_w s)) (lb_backends (s_lb s));
  si_tasks : Forall (task_ok (s_w s)) (s_tasks s);
  si_count : ∀ id b, heap (s_w s) !! id = Some b →
    active_connections b = usize_wrap (count (holds id) (s_tasks s));
  si_limit : ∀ l, connection_limit (s_lb s) = Some l → l + workers <= USIZE_MODULUS →
    ∀ id, count (holds id) (s_tasks s) + count (chosen id) (s_tasks s) <= Z.max 0 (l + workers - 1);
  si_current : is_usize (current (s_lb s));
}.

(** ** Counting tasks *)

Lemma count_nonneg p ts : 0 <= count p ts.
Proof. unfold count. lia. Qed.

Lemma count_app p ts ts' : count p (ts ++ ts') = count p ts + count p ts'.
Proof. unfold count. rewrite filter_app, length_app. lia. Qed.

Lemma count_cons p t ts : count p (t :: ts) = (if p t then 1 else 0) + count p ts.
Proof. unfold count. rewrite filter_cons. destruct (p t); case_decide; simpl; done || lia. Qed.

Lemma count_insert p ts i t t' :
  ts !! i = Some t →
  count p (<[i := t']> ts) = count p ts - (if p t then 1 else 0) + (if p t' then 1 else 0).
Proof.
  intros Hi. rewrite <- (take_drop_middle ts i t Hi) at 2. rewrite insert_take_drop by
    (by eapply lookup_lt_Some).
  rewrite !count_app, !count_cons. lia.
Qed.

Lemma count_mono (p q : task → bool) ts : (∀ t, p t = true → q t = true) → count p ts <= count q ts.
Proof.
  intros Hpq. induction ts as [|t ts IH]; [done|]. rewrite !count_cons.
  specialize (Hpq t). destruct (p t), (q t); naive_solver lia.
Qed.

Lemma count_none p ts : Forall (λ t, p t = false) ts → count p ts = 0.
Proof. induction 1 as [|t ts Ht _ IH]; [done|]. by rewrite count_cons, Ht, IH. Qed.

Lemma count_holds_unallocated w ts id :
  Forall (task_ok w) ts → heap w !! id = None → count (holds id) ts = 0.
Proof.
  intros Hall Hn. induction Hall as [|t ts Ht _ IH]; [done|]. rewrite count_cons, IH.
  destruct t as [| | | | | |g|]; try done. simpl in *. case_bool_decide; [|done].
  subst. destruct Ht as [b Hb]. congruence.
Qed.

(** ** What a step of a task does to the shared state *)

(** A step that only reads: no counter moves; a task enters [TChosen] only with
    a count it read below the limit. *)
Definition reads_only (lb : LoadBalancer) (w : World) (t t' : task) : Prop :=
  (∀ id, holds id t = false ∧ holds id t' = false ∧ chosen id t = false) ∧
  ∀ id l, chosen id t' = true → connection_limit lb = Some l →
    ∃ b, heap w !! id = Some b ∧ active_connections b < l.

Lemma task_step_cases lb w t lb' w' t' :
  Forall (allocated w) (lb_backends lb) → task_ok w t → task_step lb w t = (lb', w', t') →
  connection_limit lb' = connection_limit lb ∧ lb_backends lb' = lb_backends lb ∧
  (is_usize (current lb) → is_usize (current lb')) ∧
  ((w' = w ∧ task_ok w t' ∧ reads_only lb w t t') ∨
   (∃ id b g, t = TChosen id ∧ t' = THolding g ∧ g_counter g = id ∧ heap w !! id = Some b ∧
      next_id w' = next_id w ∧
      heap w' = <[id := with_active b (usize_wrap (active_connections b + 1))]> (heap w)) ∨
   (∃ g b, t = THolding g ∧ t' = TDone ∧ heap w !! g_counter g = Some b ∧
      next_id w' = next_id w ∧
      heap w' = <[g_counter g := with_active b (usize_wrap (active_connections b - 1))]> (heap w))).
Proof.
  intros Hlist Hok Hstep.
  destruct t as [|ids|ids start i|ids start i id|ids start i id|id|g|]; cbn [task_step] in Hstep.
  - case_bool_decide; simplify_eq; (split_and!; [done|done|done|left; done]).
  - simplify_eq. split_and!; [done|done|intros _; apply usize_wrap_range|left; done].
  - destruct Hok as [Hne Hall]. destruct (probe_lookup ids start i Hne) as [_ Hin].
    pose proof (proj1 (Forall_forall _ _) Hall _ Hin) as Hal.
    repeat case_match; simplify_eq; split_and!; done || (left; done).
  - repeat case_match; simplify_eq; split_and!; try done; left; split_and!; try done; naive_solver.
  - pose proof Hok as (_ & _ & b & Hb). rewrite Hb in Hstep.
    destruct (connection_limit lb) as [limit|] eqn:Hlim;
      [destruct (Z.leb_spec limit (active_connections b))|]; simplify_eq;
      (split_and!; [done..|]; left; split; [done|]; split; [naive_solver|]; split; [done|]).
    + done.
    + intros id' l. simpl. case_bool_decide; [|done]. intros _ Hl. simplify_eq. eauto.
    + intros id' l _. congruence.
  - destruct (heap w !! id) as [b|] eqn:Hb; [|by destruct Hok as [? ?]; congruence].
    simpl in Hstep. simplify_eq. split_and!; [done..|]. right. left. by eexists _, _, _.
  - destruct Hok as [b Hb]. unfold drop_guard in Hstep. rewrite Hb in Hstep. simplify_eq.
    split_and!; [done..|]. right. right. by eexists _, _.
  - simplify_eq. split_and!; [done..|left; done].
Qed.

Lemma allocated_insert w w' id b b' :
  heap w !! id = Some b → heap w' = <[id := b']> (heap w) → ∀ id', allocated w id' → allocated w' id'.
Proof. intros Hb Hh id'. unfold allocated. rewrite Hh. by apply (insert_alloc _ id b). Qed.

Lemma task_ok_mono w w' t :
  (∀ id, allocated w id → allocated w' id) → task_ok w t → task_ok w' t.
Proof.
  intros Hm. destruct t; simpl; try done; try naive_solver eauto using Forall_impl.
Qed.

(** Nothing but counters of new backends, flags and the list changes. *)
Lemma sys_transport workers lb w ts lb' w' ts' :
  sys_inv workers {| s_lb := lb; s_w := w; s_tasks := ts |} →
  heap_fresh w' → Forall (allocated w') (lb_backends lb') → Forall (task_ok w') ts' →
  connection_limit lb' = connection_limit lb → is_usize (current lb') →
  (∀ id, count (holds id) ts' = count (holds id) ts ∧ count (chosen id) ts' = count (chosen id) ts) →
  (∀ id b', heap w' !! id = Some b' →
     (∃ b, heap w !! id = Some b ∧ active_connections b' = active_connections b) ∨
     (heap w !! id = None ∧ active_connections b' = 0)) →
  sys_inv workers {| s_lb := lb'; s_w := w'; s_tasks := ts' |}.
Proof.
  intros [Hfr Hl Ht Hc Hlim _] Hfr' Hl' Ht' Heq Hcur Hcnt Hact. cbn [s_lb s_w s_tasks] in *.
  split; cbn [s_lb s_w s_tasks]; [done|done|done| | |done].
  - intros id b' Hb'. destruct (Hcnt id) as [-> _].
    destruct (Hact _ _ Hb') as [(b & Hb & ->)|[Hn ->]]; [by apply Hc|].
    by rewrite (count_holds_unallocated w).
  - rewrite Heq. intros l Hlm Hw id. destruct (Hcnt id) as [-> ->]. by apply Hlim.
Qed.

(** ** Preservation *)

(** A task that only reads. *)
Lemma inv_task_reads workers lb w ts i t lb' t' :
  sys_inv workers {| s_lb := lb; s_w := w; s_tasks := ts |} →
  ts !! i = Some t → count inside (<[i := t']> ts) <= workers →
  connection_limit lb' = connection_limit lb → lb_backends lb' = lb_backends lb →
  is_usize (current lb') → task_ok w t' → reads_only lb w t t' →
  sys_inv workers {| s_lb := lb'; s_w := w; s_tasks := <[i := t']> ts |}.
Proof.
  intros [Hfr Hl Ht Hc Hlim _] Hi Hwk Hlm Hbk Hcur Hok [Hno Hch]. cbn [s_lb s_w s_tasks] in *.
  assert (Hh : ∀ id, count (holds id) (<[i := t']> ts) = count (holds id) ts).
  { intros id. rewrite (count_insert _ _ _ _ _ Hi). destruct (Hno id) as (-> & -> & _). lia. }
  split; cbn [s_lb s_w s_tasks]; [done|by rewrite Hbk| | | |done].
  - by apply Forall_insert.
  - intros id b Hb. rewrite Hh. by apply Hc.
  - rewrite Hlm. intros l Hl' Hw id. rewrite Hh. specialize (Hlim l Hl' Hw id) as Hle.
    destruct (Hno id) as (_ & _ & Hcf).
    pose proof (count_insert (chosen id) _ _ _ t' Hi) as Hci. rewrite Hcf in Hci.
    destruct (chosen id t') eqn:Hct; [|lia].
    destruct (Hch id l Hct Hl') as (b & Hb & Hlt). rewrite (Hc _ _ Hb) in Hlt.
    pose proof (count_nonneg (holds id) ts). pose proof (count_nonneg (chosen id) ts).
    rewrite usize_wrap_small in Hlt by (unfold is_uN, USIZE_MODULUS in *; lia).
    assert (count (chosen id) (<[i := t']> ts) <= count inside (<[i := t']> ts)).
    { apply count_mono. by intros []. }
    lia.
Qed.

(** A task that raises or lowers the count of the backend it holds. *)
Lemma inv_task_moves workers lb w ts i t lb' w' t' id b delta :
  sys_inv workers {| s_lb := lb; s_w := w; s_tasks := ts |} → ts !! i = Some t →
  connection_limit lb' = connection_limit lb → lb_backends lb' = lb_backends lb →
  is_usize (current lb') → heap w !! id = Some b → next_id w' = next_id w →
  heap w' = <[id := with_active b (usize_wrap (active_connections b + delta))]> (heap w) →
  task_ok w t' →
  (∀ id', (if holds id' t' then 1 else 0) - (if holds id' t then 1 else 0) =
          if decide (id = id') then delta else 0) →
  (∀ id', (if holds id' t' then 1 else 0) + (if chosen id' t' then 1 else 0)
          <= (if holds id' t then 1 else 0) + (if chosen id' t then 1 else 0)) →
  sys_inv workers {| s_lb := lb'; s_w := w'; s_tasks := <[i := t']> ts |}.
Proof.
  intros [Hfr Hl Ht Hc Hlim _] Hi Hlm Hbk Hcur Hb Hnext Hheap Hok Hdelta Hsum. cbn [s_lb s_w s_tasks] in *.
  pose proof (allocated_insert w w' id b _ Hb Hheap) as Hal.
  split; cbn [s_lb s_w s_tasks].
  - intros id' b'. rewrite Hheap, Hnext, lookup_insert. case_decide; [subst; eauto|apply Hfr].
  - rewrite Hbk. eapply Forall_impl; [exact Hl|]. apply Hal.
  - apply Forall_insert; [|by eapply task_ok_mono]. eapply Forall_impl; [exact Ht|].
    intros t0. by apply task_ok_mono.
  - intros id' b'. rewrite Hheap, (count_insert _ _ _ _ _ Hi), lookup_insert.
    specialize (Hdelta id'). case_decide as E.
    + subst id'. intros [= <-]. simpl. rewrite (Hc _ _ Hb), usize_wrap_add. f_equal. lia.
    + intros Hb'. rewrite (Hc _ _ Hb'). f_equal. lia.
  - rewrite Hlm. intros l Hl' Hw id'. specialize (Hlim l Hl' Hw id').
    rewrite !(count_insert _ _ _ _ _ Hi). specialize (Hsum id'). lia.
  - done.
Qed.

Lemma sys_inv_task workers lb w ts i t lb' w' t' :
  sys_inv workers {| s_lb := lb; s_w := w; s_tasks := ts |} →
  ts !! i = Some t → task_step lb w t = (lb', w', t') →
  count inside (<[i := t']> ts) <= workers →
  sys_inv workers {| s_lb := lb'; s_w := w'; s_tasks := <[i := t']> ts |}.
Proof.
  intros Hinv Hi Hstep Hwk. pose proof Hinv as [_ Hl Ht _ _ Hc]. cbn [s_lb s_w s_tasks] in *.
  pose proof (proj1 (Forall_lookup _ _) Ht i t Hi) as Hok.
  destruct (task_step_cases _ _ _ _ _ _ Hl Hok Hstep)
    as (Hlm & Hbk & Hcur & [(-> & Hok' & Hr)|[(id & b & g & -> & -> & Hg & Hb & Hnx & Hh)|(g & b & -> & -> & Hb & Hnx & Hh)]]).
  - eapply inv_task_reads; eauto.
  - eapply (inv_task_moves _ _ _ _ _ _ _ _ _ id b 1); try done.
    + by apply Hcur.
    + simpl. rewrite Hg. by eexists.
    + intros id'. simpl. rewrite Hg. by case_bool_decide; case_decide.
    + intros id'. simpl. rewrite Hg. by case_bool_decide.
  - eapply (inv_task_moves _ _ _ _ _ _ _ _ _ (g_counter g) b (-1)); try done.
    + by apply Hcur.
    + intros id'. simpl. by case_bool_decide; case_decide.
    + intros id'. simpl. by case_bool_decide.
Qed.

(** Changing a flag of a backend. *)
Lemma sys_inv_flag workers lb w ts w' id b b' :
  sys_inv workers {| s_lb := lb; s_w := w; s_tasks := ts |} →
  heap w !! id = Some b → active_connections b' = active_connections b →
  next_id w' = next_id w → heap w' = <[id := b']> (heap w) →
  sys_inv workers {| s_lb := lb; s_w := w'; s_tasks := ts |}.
Proof.
  intros Hinv Hb Hact Hnx Hh. pose proof Hinv as [Hfr Hl Ht _ _ Hcur]. cbn [s_lb s_w s_tasks] in *.
  pose proof (allocated_insert w w' id b b' Hb Hh) as Hal.
  eapply sys_transport; [exact Hinv| | | |done|done|done|].
  - intros id' b0. rewrite Hh, Hnx, lookup_insert. case_decide; [subst; eauto|apply Hfr].
  - eapply Forall_impl; [exact Hl|]. apply Hal.
  - eapply Forall_impl; [exact Ht|]. intros t. by apply task_ok_mono.
  - intros id' b0. rewrite Hh, lookup_insert. case_decide; [|eauto].
    subst id'. intros [= <-]. left. eauto.
Qed.

Lemma sys_inv_step workers s s' : sys_step workers s s' → sys_inv workers s → sys_inv workers s'.
Proof.
  intros [lb w ts|lb w ts i t lb' w' t' Hi Hst Hwk|lb w ts a h|lb w ts id b d Hb|lb w ts a d|lb w ts ids Hids] Hinv;
    pose proof Hinv as [Hfr Hl Ht _ _ Hcur]; cbn [s_lb s_w s_tasks] in *.
  - eapply sys_transport; [exact Hinv|done|done| |done|done| |eauto].
    + apply Forall_app. split; [done|]. by constructor.
    + intros id. by rewrite !count_app, !Z.add_0_r.
  - by eapply sys_inv_task.
  - unfold set_backend_health. destruct (find_addr _ a _) as [id|] eqn:Hf.
    + simpl. destruct (heap w !! id) as [b|] eqn:Hb; [by eapply (sys_inv_flag _ _ w _ _ id b (with_healthy b h))|].
      by eapply sys_transport; eauto.
    + by eapply sys_transport; eauto.
  - by eapply (sys_inv_flag _ _ w _ _ id b (with_drain b d)).
  - assert (Hal : ∀ id, allocated w id → allocated (new_backend (lb_rule_name lb) a d w).2 id).
    { intros id Hid. unfold allocated. simpl. rewrite lookup_insert. case_decide; [eauto|done]. }
    eapply sys_transport; [exact Hinv| | | |done|done|done|].
    + intros id b. simpl. rewrite lookup_insert. case_decide; [lia|]. intros ?%Hfr. lia.
    + eapply Forall_impl; [exact Hl|]. apply Hal.
    + eapply Forall_impl; [exact Ht|]. intros t. by apply task_ok_mono.
    + intros id b. simpl. rewrite lookup_insert. case_decide; [|eauto].
      subst id. intros [= <-]. right. split; [|done].
      apply eq_None_not_Some. intros [b0 ?%Hfr]. lia.
  - eapply sys_transport; eauto.
Qed.

(** The whole of a reload, as one step. *)
Lemma sys_inv_update workers lb w ts configs lb' w' :
  sys_inv workers {| s_lb := lb; s_w := w; s_tasks := ts |} → update_backends lb configs w = (lb', w') →
  sys_inv workers {| s_lb := lb'; s_w := w'; s_tasks := ts |}.
Proof.
  intros Hinv. pose proof Hinv as [Hfr Hl Ht _ _ Hcur]. cbn [s_lb s_w s_tasks] in *. unfold update_backends.
  pose proof (update_all_spec (lb_rule_name lb) (lb_backends lb) configs w Hfr Hl) as Hs.
  pose proof (λ id b, update_all_new (lb_rule_name lb) (lb_backends lb) configs w id b Hfr) as Hnew.
  destruct (update_all _ _ configs w) as [ids w1]. intros [= <- <-]. simpl in Hnew.
  destruct Hs as ([_ Hext] & Hfr' & _ & Hall').
  eapply sys_transport; [exact Hinv|done|done| |done|done|done|].
  - eapply Forall_impl; [exact Ht|]. intros t. apply task_ok_mono. intros id [b Hb].
    destruct (Hext _ _ Hb) as (b1 & ? & _). by exists b1.
  - intros id b' Hb'. destruct (heap w !! id) as [b|] eqn:Hb; [|right; eauto].
    left. destruct (Hext _ _ Hb) as (b1 & Hb1 & E). simplify_eq. exists b. split; [done|].
    unfold same_but_drain, with_drain in E. congruence.
Qed.

(** Tasks that neither hold nor have chosen a backend come and go. *)
Lemma sys_retask workers lb w ts w' ts' :
  sys_inv workers {| s_lb := lb; s_w := w; s_tasks := ts |} →
  heap w' = heap w → next_id w' = next_id w → Forall (task_ok w) ts' →
  (∀ id, count (holds id) ts' = count (holds id) ts ∧ count (chosen id) ts' = count (chosen id) ts) →
  sys_inv workers {| s_lb := lb; s_w := w'; s_tasks := ts' |}.
Proof.
  intros Hinv Hh Hn Ht' Hcnt. pose proof Hinv as [Hfr Hl Ht _ _ Hcur]. cbn [s_lb s_w s_tasks] in *.
  assert (Hal : ∀ id, allocated w id → allocated w' id) by (unfold allocated; intros id; by rewrite Hh).
  eapply sys_transport; [exact Hinv| | | |done|done|done|].
  - intros id b. rewrite Hh, Hn. apply Hfr.
  - eapply Forall_impl; [exact Hl|]. apply Hal.
  - eapply Forall_impl; [exact Ht'|]. intros t. by apply task_ok_mono.
  - intros id b. rewrite Hh. eauto.
Qed.

(** A task in the middle of the others. *)
Lemma sys_inv_task_mid workers lb w ts1 t ts2 lb' w' t' :
  sys_inv workers {| s_lb := lb; s_w := w; s_tasks := ts1 ++ t :: ts2 |} →
  task_step lb w t = (lb', w', t') → count inside (ts1 ++ t' :: ts2) <= workers →
  sys_inv workers {| s_lb := lb'; s_w := w'; s_tasks := ts1 ++ t' :: ts2 |}.
Proof.
  intros Hinv Hst Hwk. assert (Hmid : <[length ts1 := t']> (ts1 ++ t :: ts2) = ts1 ++ t' :: ts2).
  { rewrite insert_app_r_alt by lia. by rewrite Nat.sub_diag. }
  rewrite <-Hmid in Hwk |- *. eapply sys_inv_task; [exact Hinv| |exact Hst|exact Hwk].
  by apply list_lookup_middle.
Qed.

(** A connection that ends. *)
Lemma sys_inv_drop workers lb w ts1 g ts2 :
  sys_inv workers {| s_lb := lb; s_w := w; s_tasks := ts1 ++ THolding g :: ts2 |} →
  sys_inv workers {| s_lb := lb; s_w := drop_guard g w; s_tasks := ts1 ++ ts2 |}.
Proof.
  intros Hinv. pose proof Hinv as [_ _ Ht _ _ Hcur]. cbn [s_lb s_w s_tasks] in *.
  apply Forall_app in Ht as [Ht1 [[b Hb] Ht2]%Forall_cons].
  assert (Hd : sys_inv workers {| s_lb := lb; s_w := drop_guard g w; s_tasks := ts1 ++ TDone :: ts2 |}).
  { assert (Hmid : <[length ts1 := TDone]> (ts1 ++ THolding g :: ts2) = ts1 ++ TDone :: ts2).
    { rewrite insert_app_r_alt by lia. by rewrite Nat.sub_diag. }
    rewrite <-Hmid.
    eapply (inv_task_moves _ _ _ _ _ (THolding g) _ _ _ (g_counter g) b (-1)); [exact Hinv| |done..|exact Hb| | |done| |].
    - by apply list_lookup_middle.
    - unfold drop_guard. by rewrite Hb.
    - unfold drop_guard. by rewrite Hb.
    - intros id'. simpl. by case_bool_decide; case_decide.
    - intros id'. simpl. by case_bool_decide. }
  eapply sys_retask; [exact Hd|done|done| |].
  - apply (si_tasks _ _) in Hd. cbn [s_w s_tasks] in Hd.
    apply Forall_app in Hd as [? [_ ?]%Forall_cons]. by apply Forall_app.
  - intros id. by rewrite !count_app, !count_cons.
Qed.

Lemma sys_inv_steps workers s s' : rtc (sys_step workers) s s' → sys_inv workers s → sys_inv workers s'.
Proof. induction 1; eauto using sys_inv_step. Qed.

(** ** The guarantees *)

Definition sys_initial (rule_name : string) (configs : list BackendConfig) (limit : option Z) : sys :=
  let (lb, w) := new rule_name configs limit empty_world in
  {| s_lb := lb; s_w := w; s_tasks := [] |}.

Lemma sys_inv_initial workers rule_name configs limit :
  sys_inv workers (sys_initial rule_name configs limit).
Proof.
  unfold sys_initial, new.
  pose proof (new_backends_spec rule_name configs empty_world) as Hs.
  destruct (new_backends rule_name configs empty_world) as [ids w].
  destruct Hs as (Hfr & H0 & _ & Hall); [by intros id b|by intros id b|].
  split; cbn [s_lb s_w s_tasks]; [done|done|constructor| | |unfold is_uN; simpl; lia].
  - intros id b Hb. by rewrite (H0 _ _ Hb).
  - intros l _ _ id. unfold count. simpl. lia.
Qed.

Lemma task_step_limit lb w t lb' w' t' :
  task_step lb w t = (lb', w', t') → connection_limit lb' = connection_limit lb.
Proof. intros Hst. destruct t; cbn [task_step] in Hst; repeat case_match; by simplify_eq. Qed.

Lemma sys_step_limit workers s s' :
  sys_step workers s s' → connection_limit (s_lb s') = connection_limit (s_lb s).
Proof.
  intros [|lb w ts i t lb' w' t' _ Hst _| | | |]; try done. by eapply task_step_limit.
Qed.

Lemma sys_steps_limit workers s s' :
  rtc (sys_step workers) s s' → connection_limit (s_lb s') = connection_limit (s_lb s).
Proof. induction 1 as [|s1 s2 s3 Hs _ IH]; [done|]. rewrite IH. by eapply sys_step_limit. Qed.

(** C9: under any interleaving of the atomic accesses of any number of
    connections with health reports and reloads, a backend's counter is the
    number of connections that hold a guard on it. *)
Theorem concurrent_counter_exact workers rule_name configs limit s id b :
  rtc (sys_step workers) (sys_initial rule_name configs limit) s →
  heap (s_w s) !! id = Some b →
  active_connections b = usize_wrap (count (holds id) (s_tasks s)).
Proof.
  intros Hrun. eapply si_count, sys_inv_steps; [exact Hrun|]. apply sys_inv_initial.
Qed.

(** C10: the check of the limit and the increment are two accesses, so
    concurrent connections can overshoot the limit, but by less than the number
    of worker threads: at most [limit + workers - 1] connections are open on a
    backend, and never more than the limit with one worker. *)
Theorem concurrent_limit_bound workers rule_name configs l s id :
  is_usize l → 1 <= workers → l + workers <= USIZE_MODULUS →
  rtc (sys_step workers) (sys_initial rule_name configs (Some l)) s →
  count (holds id) (s_tasks s) <= l + workers - 1.
Proof.
  intros Hl Hw Hm Hrun.
  assert (Hinv : sys_inv workers s) by (eapply sys_inv_steps; [exact Hrun|apply sys_inv_initial]).
  assert (Hlim : connection_limit (s_lb s) = Some l).
  { rewrite (sys_steps_limit _ _ _ Hrun). unfold sys_initial, new. by destruct (new_backends _ _ _). }
  pose proof (si_limit _ _ Hinv l Hlim Hm id) as Hle.
  pose proof (count_nonneg (chosen id) (s_tasks s)). unfold is_uN in Hl. lia.
Qed.

(** Running a schedule: each element names the task that makes its next access. *)
Fixpoint run_schedule (workers : Z) (sched : list nat) (s : sys) : option sys :=
  match sched with
  | [] => Some s
  | i :: sched =>
      t ← s_tasks s !! i;
      let '(lb, w, t) := task_step (s_lb s) (s_w s) t in
      let ts := <[i := t]> (s_tasks s) in
      if count inside ts <=? workers
      then run_schedule workers sched {| s_lb := lb; s_w := w; s_tasks := ts |}
      else None
  end.

Lemma run_schedule_steps workers sched s s' :
  run_schedule workers sched s = Some s' → rtc (sys_step workers) s s'.
Proof.
  revert s. induction sched as [|i sched IH]; intros [lb w ts]; cbn [run_schedule s_lb s_w s_tasks].
  { intros [= <-]. done. }
  destruct (ts !! i) as [t|] eqn:Hi; [|done]. cbn [mbind option_bind].
  destruct (task_step lb w t) as [[lb1 w1] t1] eqn:Hst.
  destruct (Z.leb_spec (count inside (<[i := t1]> ts)) workers); [|done].
  intros Hrun%IH. eapply rtc_l; [|exact Hrun]. by eapply sys_task.
Qed.

(** The overshoot is real: with two worker threads and a limit of one, two
    connections that both read the count before either raises it end up open on
    the same backend. *)
Theorem concurrent_limit_exceeded :
  ∃ s, rtc (sys_step 2) (sys_initial "r" [Simple "a"] (Some 1)) s ∧
       count (holds 0) (s_tasks s) = 2.
Proof.
  set (s0 := sys_initial "r" [Simple "a"] (Some 1)).
  set (s2 := {| s_lb := s_lb s0; s_w := s_w s0; s_tasks := [TStart; TStart] |}).
  assert (rtc (sys_step 2) s0 s2) as Hspawn.
  { eapply rtc_l; [apply (sys_spawn 2 _ _ [])|]. eapply rtc_l; [apply sys_spawn|]. done. }
  destruct (run_schedule 2 [0; 0; 0; 0; 0; 1; 1; 1; 1; 1; 0; 1]%nat s2) as [s|] eqn:Hrun;
    [|vm_compute in Hrun; discriminate].
  exists s. split.
  - etrans; [exact Hspawn|]. by apply run_schedule_steps in Hrun.
  - vm_compute in Hrun. injection Hrun as <-. reflexivity.
Qed.

(** ** The properties at a concrete run: one connection that gets its backend *)

Definition sample_spawned : sys :=
  let s := sys_initial "r" [Simple "a"] (Some 1) in
  {| s_lb := s_lb s; s_w := s_w s; s_tasks := [TStart] |}.
Definition sample_end : sys := default sample_spawned (run_schedule 1 [0; 0; 0; 0; 0; 0]%nat sample_spawned).

Lemma sample_sys_run : rtc (sys_step 1) (sys_initial "r" [Simple "a"] (Some 1)) sample_end.
Proof.
  eapply rtc_l; [apply (sys_spawn 1 _ _ [])|].
  apply (run_schedule_steps 1 [0; 0; 0; 0; 0; 0]%nat). vm_compute. reflexivity.
Qed.

Lemma solo_refines_next_backend_witness :
  let s := sys_initial "r" [Simple "a"] None in
  ∃ lb' w' g, rtc solo (s_lb s, s_w s, TStart) (lb', w', result_task (Some ("a", g))).
Proof.
  intros s. assert (Hwf : lb_wf (s_lb s) (s_w s)).
  { split; [unfold is_uN; simpl; lia|]. repeat constructor; by eexists. }
  pose proof (solo_refines_next_backend (s_lb s) (s_w s) Hwf) as H.
  destruct (next_backend (s_lb s) (s_w s)) as [[lb' w'] r] eqn:E.
  vm_compute in E. injection E as <- <- <-. eexists _, _, _. exact H.
Defined.

Lemma concurrent_counter_exact_witness :
  ∃ b, heap (s_w sample_end) !! 0%nat = Some b ∧
       active_connections b = usize_wrap (count (holds 0) (s_tasks sample_end)).
Proof.
  eexists. split; [vm_compute; reflexivity|].
  apply (concurrent_counter_exact 1 "r" [Simple "a"] (Some 1) sample_end 0 _ sample_sys_run).
  vm_compute. reflexivity.
Defined.

Lemma concurrent_limit_bound_witness : count (holds 0) (s_tasks sample_end) <= 1 + 1 - 1.
Proof.
  refine (concurrent_limit_bound 1 "r" [Simple "a"] 1 sample_end 0 _ _ _ sample_sys_run);
    unfold is_uN, USIZE_MODULUS; lia.
Defined.
