(* ===== verification/ProxyProtocol.v ===== *)
(** * PROXY protocol v2 headers: [src/src/networking/proxy_protocol.rs]

    [create_v2_header], and a decoder written from the PROXY protocol v2
    specification, the receiver's side of the contract: a backend that decodes
    the header recovers the addresses and finds the client's bytes after it. *)

From S2P Require Import Prelude NetAddr.
Open Scope Z_scope.

(** Bytes are integers below 256. *)
Definition V2_SIG : list Z :=
  [0x0D; 0x0A; 0x0D; 0x0A; 0x00; 0x0D; 0x0A; 0x51; 0x55; 0x49; 0x54; 0x0A].

(** [BufMut::put_u16], big endian. *)
Definition put_u16 (n : Z) : list Z := [Z.shiftr n 8; Z.land n 255].

Definition create_v2_header (src_addr dst_addr : SocketAddr) : list Z :=
  V2_SIG ++ [0x21] ++
  match ip src_addr, ip dst_addr with
  | V4 src, V4 dst =>
      [0x11] ++ put_u16 12 ++ src ++ dst ++ put_u16 (port src_addr) ++ put_u16 (port dst_addr)
  | V6 src, V6 dst =>
      [0x21] ++ put_u16 36 ++ src ++ dst ++ put_u16 (port src_addr) ++ put_u16 (port dst_addr)
  | _, _ => [0x20] ++ [0x00] ++ put_u16 0
  end.

(** ** The receiver *)

(** What a header announces. *)
Inductive announcement :=
| Local                                   (* the proxy's own connection *)
| Proxied (src dst : SocketAddr)          (* a relayed TCP connection *)
| Unspecified (family_protocol : Z).      (* relayed, endpoints not known *)

Definition get_u16 (bs : list Z) : Z :=
  match bs with [hi; lo] => Z.lor (Z.shiftl hi 8) lo | _ => 0 end.

(** The address block of a TCP connection over addresses of [n] bytes. *)
Definition decode_addresses (mk : list Z → IpAddr) (n : nat) (block : list Z) : option announcement :=
  if (length block <? 2 * n + 4)%nat then None
  else Some (Proxied
    {| ip := mk (take n block); port := get_u16 (take 2 (drop (2 * n) block)) |}
    {| ip := mk (take n (drop n block)); port := get_u16 (take 2 (drop (2 * n + 2) block)) |}).

(** Signature, version and command, family and protocol, length of the block,
    the block; the rest is the relayed stream. *)
Definition decode (bs : list Z) : option (announcement * list Z) :=
  if bool_decide (take 12 bs = V2_SIG) then
    match drop 12 bs with
    | ver_cmd :: fam :: hi :: lo :: rest =>
        let len := Z.to_nat (get_u16 [hi; lo]) in
        if (length rest <? len)%nat then None
        else
          let block := take len rest in
          let stream := drop len rest in
          if negb (Z.shiftr ver_cmd 4 =? 2) then None
          else if Z.land ver_cmd 15 =? 0 then Some (Local, stream)
          else if negb (Z.land ver_cmd 15 =? 1) then None
          else if fam =? 0x11 then (λ a, (a, stream)) <$> decode_addresses V4 4 block
          else if fam =? 0x21 then (λ a, (a, stream)) <$> decode_addresses V6 16 block
          else Some (Unspecified fam, stream)
    | _ => None
    end
  else None.

#[local] Arguments put_u16 : simpl never.
#[local] Arguments decode_addresses : simpl never.

(** ** Correctness *)

Definition same_family (a b : SocketAddr) : bool :=
  match ip a, ip b with V4 _, V4 _ | V6 _, V6 _ => true | _, _ => false end.

Lemma get_put_u16 n : is_u16 n → get_u16 (put_u16 n) = n.
Proof.
  intros Hn. unfold get_u16, put_u16. rewrite Z.shiftl_mul_pow2, Z.shiftr_div_pow2 by lia.
  change 255 with (Z.ones 8). rewrite Z.land_ones by lia.
  pose proof (Z.add_lor_land (n / 2 ^ 8 * 2 ^ 8) (n mod 2 ^ 8)) as Hll.
  assert (Z.land (n / 2 ^ 8 * 2 ^ 8) (n mod 2 ^ 8) = 0) as Hz.
  { apply Z.bits_inj'. intros k Hk. rewrite Z.land_spec, Z.bits_0.
    destruct (Z.lt_ge_cases k 8).
    - rewrite Z.mul_pow2_bits_low by lia. done.
    - rewrite Z.mod_pow2_bits_high by lia. apply andb_false_r. }
  pose proof (Z.div_mod n (2 ^ 8) ltac:(lia)). lia.
Qed.

(** The address block of the encoder is read back, for addresses of [n] bytes. *)
Lemma decode_addresses_block mk n src dst p q :
  length src = n → length dst = n → is_u16 p → is_u16 q →
  decode_addresses mk n (src ++ dst ++ put_u16 p ++ put_u16 q) =
  Some (Proxied {| ip := mk src; port := p |} {| ip := mk dst; port := q |}).
Proof.
  intros Hs Hd Hp Hq. unfold decode_addresses.
  rewrite (proj2 (Nat.ltb_ge _ _)) by (rewrite !length_app; simpl; lia).
  do 2 f_equal.
  - rewrite take_app_le, take_ge by lia. f_equal.
    rewrite app_assoc, drop_app_length' by (rewrite length_app; lia).
    rewrite take_app_length' by done. by apply get_put_u16.
  - rewrite drop_app_length' by lia. rewrite take_app_length' by lia. f_equal.
    rewrite (app_assoc src), (app_assoc _ (put_u16 p)), drop_app_length'
      by (rewrite !length_app; simpl; lia).
    rewrite take_ge by done. by apply get_put_u16.
Qed.

(** The fixed part of a header whose block has the announced length. *)
Lemma decode_header ver fam len block stream :
  is_u16 len → Z.to_nat len = length block →
  decode (V2_SIG ++ [ver] ++ [fam] ++ put_u16 len ++ block ++ stream) =
  if negb (Z.shiftr ver 4 =? 2) then None
  else if Z.land ver 15 =? 0 then Some (Local, stream)
  else if negb (Z.land ver 15 =? 1) then None
  else if fam =? 0x11 then (λ a, (a, stream)) <$> decode_addresses V4 4 block
  else if fam =? 0x21 then (λ a, (a, stream)) <$> decode_addresses V6 16 block
  else Some (Unspecified fam, stream).
Proof.
  intros Hlen Hb. unfold decode. rewrite take_app_length' by done.
  rewrite bool_decide_true by done. rewrite drop_app_length' by done.
  pose proof (get_put_u16 len Hlen) as Hg. unfold put_u16 in *. cbn [app].
  rewrite Hg, Hb. rewrite (proj2 (Nat.ltb_ge _ _)) by (rewrite length_app; lia).
  by rewrite take_app_length, drop_app_length.
Qed.

(** C5: a receiver that decodes the header of a connection between addresses
    of the same family recovers exactly the client address and port and the
    local address and port, and finds the relayed stream right after the
    header, whatever the stream is. *)
Theorem v2_header_roundtrip src dst stream :
  sockaddr_wf src → sockaddr_wf dst → same_family src dst = true →
  decode (create_v2_header src dst ++ stream) = Some (Proxied src dst, stream).
Proof.
  destruct src as [[so|so] sp], dst as [[dso|dso] dp]; unfold sockaddr_wf, same_family;
    cbn [ip port ip_wf]; intros [[Hs _] Hsp] [[Hd _] Hdp] Hf; try done; unfold create_v2_header; cbn [ip port];
    rewrite <- !app_assoc.
  - rewrite (app_assoc (put_u16 sp)), (app_assoc dso), (app_assoc so).
    rewrite decode_header by (done || rewrite !length_app, Hs, Hd; done).
    by rewrite (decode_addresses_block V4 4).
  - rewrite (app_assoc (put_u16 sp)), (app_assoc dso), (app_assoc so).
    rewrite decode_header by (done || rewrite !length_app, Hs, Hd; done).
    by rewrite (decode_addresses_block V6 16).
Qed.

(** C38: for addresses of different families the header is malformed: the
    command byte already written says PROXY, so the byte meant as the LOCAL
    command is read as the family and protocol (unknown), and the last header
    byte is left over: the receiver takes a spurious zero byte for the first
    byte of the client's stream. *)
Theorem v2_header_mixed_families src dst stream :
  same_family src dst = false →
  decode (create_v2_header src dst ++ stream) = Some (Unspecified 0x20, 0 :: stream).
Proof.
  destruct src as [[so|so] sp], dst as [[dso|dso] dp]; unfold same_family; simpl; try done;
    intros _; reflexivity.
Qed.

(** The header never outgrows the 128 bytes the buffer is created with,
    and every element of it is a byte. *)
Theorem v2_header_bytes src dst :
  sockaddr_wf src → sockaddr_wf dst →
  (length (create_v2_header src dst) <= 52)%nat ∧ Forall is_u8 (create_v2_header src dst).
Proof.
  assert (Hput : ∀ n, is_u16 n → Forall is_u8 (put_u16 n)).
  { unfold is_uN, put_u16. intros n Hn. rewrite Z.shiftr_div_pow2 by lia.
    change 255 with (Z.ones 8). rewrite Z.land_ones by lia.
    repeat constructor; try (apply Z.div_pos; lia); try (apply Z.div_lt_upper_bound; lia);
      apply Z.mod_pos_bound; lia. }
  assert (Hconst : Forall is_u8 (V2_SIG ++ [0x21] ++ [0x11] ++ [0x20] ++ [0])) by
    (repeat constructor; done).
  destruct src as [[so|so] sp], dst as [[dso|dso] dp]; unfold sockaddr_wf;
    cbn [ip port ip_wf]; intros [[Hs Hs8] Hsp] [[Hd Hd8] Hdp]; unfold create_v2_header; cbn [ip port]; split;
    try (rewrite !length_app, ?Hs, ?Hd; simpl; lia);
    repeat (apply Forall_app; split); auto; try done; repeat constructor; done.
Qed.

Definition sample_client : SocketAddr := {| ip := V4 [203; 0; 113; 7]; port := 51000 |}.
Definition sample_local : SocketAddr := {| ip := V4 [10; 0; 0; 1]; port := 443 |}.

Lemma sample_client_wf : sockaddr_wf sample_client.
Proof. split; [split; [reflexivity|repeat constructor; unfold is_uN; lia]|unfold is_uN; simpl; lia]. Qed.
Lemma sample_local_wf : sockaddr_wf sample_local.
Proof. split; [split; [reflexivity|repeat constructor; unfold is_uN; lia]|unfold is_uN; simpl; lia]. Qed.

Lemma v2_header_roundtrip_witness :
  decode (create_v2_header sample_client sample_local ++ [22; 3; 1]) =
    Some (Proxied sample_client sample_local, [22; 3; 1]).
Proof.
  exact (v2_header_roundtrip sample_client sample_local [22; 3; 1]
    sample_client_wf sample_local_wf eq_refl).
Defined.

Lemma v2_header_mixed_families_witness :
  let dst := {| ip := V6 (replicate 16 0); port := 443 |} in
  decode (create_v2_header sample_client dst ++ [22; 3; 1]) = Some (Unspecified 0x20, [0; 22; 3; 1]).
Proof. intros dst. exact (v2_header_mixed_families sample_client dst [22; 3; 1] eq_refl). Defined.

Lemma v2_header_bytes_witness :
  (length (create_v2_header sample_client sample_local) <= 52)%nat.
Proof. exact (proj1 (v2_header_bytes sample_client sample_local sample_client_wf sample_local_wf)). Defined.

(** The source's unit test, assertion by assertion. *)
Definition slice (a b : nat) (l : list Z) : list Z := take (b - a) (drop a l).
Definition test_v2_header_ipv4 : bool :=
  let src := {| ip := V4 [192; 168; 1; 1]; port := 12345 |} in
  let dst := {| ip := V4 [10; 0; 0; 1]; port := 80 |} in
  let header := create_v2_header src dst in
  (length header =? 28)%nat && bool_decide (slice 0 12 header = V2_SIG)
    && bool_decide (slice 12 16 header = [0x21; 0x11; 0x00; 0x0C])
    && bool_decide (slice 16 20 header = [192; 168; 1; 1]) && bool_decide (slice 20 24 header = [10; 0; 0; 1])
    && bool_decide (slice 24 26 header = [0x30; 0x39]) && bool_decide (slice 26 28 header = [0x00; 0x50]).

Example header_test_passes : test_v2_header_ipv4 = true.
Proof. reflexivity. Qed.
