(* ===== verification/Proxy.v ===== *)
(** * Proxying one connection: [src/src/networking/proxy.rs]

    [proxy_connection] connects to the backend, announces the client, performs
    the TLS handshake if one is configured, relays in both directions and does
    the accounting.  It runs in a monad that threads the metric calls and the
    operations on the backend connection, and stops at the first error, as [?]
    does.  The outcomes of the network operations are given by a [proxy_env]; the
    handshake with the backend can be that of a TLS library, with the verifier
    the configuration selects. *)

From S2P Require Import Prelude Config NetAddr Metrics Balancer ProxyProtocol.
Open Scope Z_scope.

Record ProxyConfig := {
  client_read_limiter : option nat;
  client_write_limiter : option nat;
  backend_read_limiter : option nat;
  backend_write_limiter : option nat;
  backend_tls : option BackendTlsConfig;
  proxy_protocol : bool;
  client_addr : SocketAddr;
  local_addr : SocketAddr;
}.

(** ** The certificate verifier for [ignore_verify]

    A verifier, as rustls asks for it: the certificate chain and server name, the
    handshake signatures of both protocol versions, and the schemes it takes.
    rustls' types of certificates, names and signatures are parameters. *)

Inductive SignatureScheme :=
| RSA_PKCS1_SHA1 | ECDSA_SHA1_Legacy | RSA_PKCS1_SHA256 | ECDSA_NISTP256_SHA256
| RSA_PKCS1_SHA384 | ECDSA_NISTP384_SHA384 | RSA_PKCS1_SHA512 | ECDSA_NISTP521_SHA512
| RSA_PSS_SHA256 | RSA_PSS_SHA384 | RSA_PSS_SHA512 | ED25519 | ED448.

Record ServerCertVerifier (Cert Signed TlsError : Type) := {
  verify_server_cert : Cert → list Cert → string → list Z → Z → result unit TlsError;
  verify_tls12_signature : list Z → Cert → Signed → result unit TlsError;
  verify_tls13_signature : list Z → Cert → Signed → result unit TlsError;
  supported_verify_schemes : list SignatureScheme;
}.
Arguments verify_server_cert {Cert Signed TlsError}.
Arguments verify_tls12_signature {Cert Signed TlsError}.
Arguments verify_tls13_signature {Cert Signed TlsError}.
Arguments supported_verify_schemes {Cert Signed TlsError}.

Definition NoVerify {Cert Signed TlsError : Type} : ServerCertVerifier Cert Signed TlsError := {|
  verify_server_cert := λ _end_entity _intermediates _server_name _ocsp_response _now, Ok tt;
  verify_tls12_signature := λ _message _cert _dss, Ok tt;
  verify_tls13_signature := λ _message _cert _dss, Ok tt;
  supported_verify_schemes :=
    [RSA_PKCS1_SHA1; ECDSA_SHA1_Legacy; RSA_PKCS1_SHA256; ECDSA_NISTP256_SHA256; RSA_PKCS1_SHA384;
     ECDSA_NISTP384_SHA384; RSA_PKCS1_SHA512; ECDSA_NISTP521_SHA512; RSA_PSS_SHA256; RSA_PSS_SHA384;
     RSA_PSS_SHA512; ED25519; ED448];
|}.

(** The verifier of the backend connection: that of the root store, unless it is
    replaced. *)
Definition backend_verifier {Cert Signed TlsError} (roots : ServerCertVerifier Cert Signed TlsError)
    (tls_cfg : BackendTlsConfig) : ServerCertVerifier Cert Signed TlsError :=
  if ignore_verify tls_cfg then NoVerify else roots.

(** What is done to the backend connection, in order.  [Relay] is
    [copy_bidirectional] between the two rate-limited streams, whose read and
    write limiters it names. *)
Inductive action :=
| Connect (addr : string)
| WriteAll (bytes : list Z)
| TlsHandshake (server_name : string) (verify : bool)
| Relay (client backend : option nat * option nat).

(** The outcomes of those operations: for [Relay] the bytes copied from client
    to backend and back. *)
Record proxy_env (E : Type) := {
  env_connect : string → result unit E;
  env_write_all : list Z → result unit E;
  env_tls : string → bool → result unit E;
  env_copy : result (Z * Z) E;
  env_elapsed : Z;
}.
Arguments env_connect {E}.
Arguments env_write_all {E}.
Arguments env_tls {E}.
Arguments env_copy {E}.
Arguments env_elapsed {E}.

Module Proxy.
Section proxy.
Context {E : Type}.

(** ** The monad *)

Definition M (A : Type) : Type := World * list action → World * list action * result A E.

Definition ret {A} (a : A) : M A := λ s, (s, Ok a).
Definition bind {A B} (m : M A) (k : A → M B) : M B := λ s,
  match m s with
  | (s, Ok a) => k a s
  | (s, Err e) => (s, Err e)
  end.
Definition perform {A} (a : action) (r : result A E) : M A := λ '(w, acts), (w, acts ++ [a], r).
Definition metric (c : metric_call) : M unit := λ '(w, acts), (record_call c w, acts, Ok tt).

(** A guard whose [drop] makes a metric call, whichever way the scope is left. *)
Definition with_guard {A} (c : metric_call) (m : M A) : M A := λ s,
  let '(w, acts, r) := m s in (record_call c w, acts, r).

Notation "'let!' x ':=' m 'in' k" := (bind m (λ x, k)) (at level 10, x name, k at level 200).
Notation "m ';;' k" := (bind m (λ _, k)) (at level 100, right associativity).

(** ** [proxy_connection] *)

Definition record_traffic (rule_name : string) (c2b b2c elapsed : Z) : M unit :=
  metric (CounterIncBy TRAFFIC_BYTES [rule_name; "client_in"] c2b) ;;
  metric (CounterIncBy TRAFFIC_BYTES [rule_name; "backend_out"] c2b) ;;
  metric (CounterIncBy TRAFFIC_BYTES [rule_name; "backend_in"] b2c) ;;
  metric (CounterIncBy TRAFFIC_BYTES [rule_name; "client_out"] b2c) ;;
  metric (Observe CONNECTION_DURATION [rule_name] elapsed).

Definition relay (env : proxy_env E) (config : ProxyConfig) : M (Z * Z) :=
  perform (Relay (client_read_limiter config, client_write_limiter config)
                 (backend_read_limiter config, backend_write_limiter config))
          (env_copy env).

Definition proxy_connection (env : proxy_env E) (backend_addr : string) (config : ProxyConfig)
    (rule_name : string) : M unit :=
  metric (GaugeInc ACTIVE_CONNECTIONS [rule_name]) ;;
  metric (CounterInc TOTAL_CONNECTIONS [rule_name]) ;;
  with_guard (GaugeDec ACTIVE_CONNECTIONS [rule_name]) (
    perform (Connect backend_addr) (env_connect env backend_addr) ;;
    (if proxy_protocol config then
       let header := create_v2_header (client_addr config) (local_addr config) in
       perform (WriteAll header) (env_write_all env header)
     else ret tt) ;;
    match backend_tls config with
    | Some tls_cfg =>
        if backend_tls_enabled tls_cfg then
          let verify := negb (ignore_verify tls_cfg) in
          perform (TlsHandshake "localhost" verify) (env_tls env "localhost" verify) ;;
          let! c := relay env config in
          record_traffic rule_name c.1 c.2 (env_elapsed env)
        else
          let! c := relay env config in
          record_traffic rule_name c.1 c.2 (env_elapsed env)
    | None =>
        let! c := relay env config in
        record_traffic rule_name c.1 c.2 (env_elapsed env)
    end).

(** ** The order of operations

    The operations of a connection as a plan, executed until one fails. *)

Definition tls_part (config : ProxyConfig) : list action :=
  match backend_tls config with
  | Some t => if backend_tls_enabled t then [TlsHandshake "localhost" (negb (ignore_verify t))] else []
  | None => []
  end.

Definition header_part (config : ProxyConfig) : list action :=
  if proxy_protocol config
  then [WriteAll (create_v2_header (client_addr config) (local_addr config))] else [].

Definition plan (backend_addr : string) (config : ProxyConfig) : list action :=
  Connect backend_addr :: header_part config ++ tls_part config ++
  [Relay (client_read_limiter config, client_write_limiter config)
         (backend_read_limiter config, backend_write_limiter config)].

Definition result_map {A B} (f : A → B) (r : result A E) : result B E :=
  match r with Ok a => Ok (f a) | Err e => Err e end.

Definition outcome_of (env : proxy_env E) (a : action) : result unit E :=
  match a with
  | Connect addr => env_connect env addr
  | WriteAll bytes => env_write_all env bytes
  | TlsHandshake name verify => env_tls env name verify
  | Relay _ _ => result_map (λ _, tt) (env_copy env)
  end.

Fixpoint execute (env : proxy_env E) (todo : list action) : list action * result unit E :=
  match todo with
  | [] => ([], Ok tt)
  | a :: todo =>
      match outcome_of env a with
      | Ok _ => let (done, r) := execute env todo in (a :: done, r)
      | Err e => ([a], Err e)
      end
  end.

(** The metric calls of a connection, by its outcome. *)
Definition traffic_calls (rule_name : string) (c2b b2c elapsed : Z) : list metric_call :=
  [CounterIncBy TRAFFIC_BYTES [rule_name; "client_in"] c2b;
   CounterIncBy TRAFFIC_BYTES [rule_name; "backend_out"] c2b;
   CounterIncBy TRAFFIC_BYTES [rule_name; "backend_in"] b2c;
   CounterIncBy TRAFFIC_BYTES [rule_name; "client_out"] b2c;
   Observe CONNECTION_DURATION [rule_name] elapsed].

Definition connection_calls (env : proxy_env E) (rule_name : string) (r : result unit E)
    : list metric_call :=
  [GaugeInc ACTIVE_CONNECTIONS [rule_name]; CounterInc TOTAL_CONNECTIONS [rule_name]] ++
  match r, env_copy env with
  | Ok _, Ok (c2b, b2c) => traffic_calls rule_name c2b b2c (env_elapsed env)
  | _, _ => []
  end ++ [GaugeDec ACTIVE_CONNECTIONS [rule_name]].

(** The last operation and the accounting. *)
Lemma relay_run env config rule_name w acts :
  bind (relay env config) (λ c, record_traffic rule_name c.1 c.2 (env_elapsed env)) (w, acts) =
  (match env_copy env with
   | Ok (c2b, b2c) =>
       {| heap := heap w; next_id := next_id w;
          calls := calls w ++ traffic_calls rule_name c2b b2c (env_elapsed env) |}
   | Err _ => w
   end,
   acts ++ [Relay (client_read_limiter config, client_write_limiter config)
                  (backend_read_limiter config, backend_write_limiter config)],
   result_map (λ _, tt) (env_copy env)).
Proof.
  unfold bind, relay, perform. destruct (env_copy env) as [[c2b b2c]|e]; [|done].
  unfold record_traffic, bind, metric, record_call. cbn -[app].
  unfold traffic_calls. by rewrite <-!(assoc_L app).
Qed.

Lemma bind_metric {B} c (k : unit → M B) w acts :
  bind (metric c) k (w, acts) = k tt (record_call c w, acts).
Proof. done. Qed.

Lemma bind_perform {A B} a (r : result A E) (k : A → M B) w acts :
  bind (perform a r) k (w, acts) =
  match r with Ok x => k x (w, acts ++ [a]) | Err e => (w, acts ++ [a], Err e) end.
Proof. by destruct r. Qed.

(** What remains of a connection at its last operation. *)
Definition rest (env : proxy_env E) (config : ProxyConfig) (rule_name : string) : M unit :=
  bind (relay env config) (λ c, record_traffic rule_name c.1 c.2 (env_elapsed env)).

(** The operations before the last one, then the rest. *)
Fixpoint perform_all (env : proxy_env E) (todo : list action) (k : M unit) : M unit :=
  match todo with
  | [] => k
  | a :: todo => bind (perform a (outcome_of env a)) (λ _, perform_all env todo k)
  end.

Lemma proxy_connection_plan env backend_addr config rule_name s :
  proxy_connection env backend_addr config rule_name s =
  bind (metric (GaugeInc ACTIVE_CONNECTIONS [rule_name])) (λ _,
    bind (metric (CounterInc TOTAL_CONNECTIONS [rule_name])) (λ _,
      with_guard (GaugeDec ACTIVE_CONNECTIONS [rule_name])
        (perform_all env (Connect backend_addr :: header_part config ++ tls_part config)
           (rest env config rule_name)))) s.
Proof.
  destruct s as [w acts]. unfold proxy_connection. rewrite !bind_metric.
  unfold with_guard. cbn [perform_all outcome_of]. rewrite !bind_perform.
  destruct (env_connect env backend_addr) as [[]|e]; [|done].
  unfold header_part, tls_part, rest.
  destruct (proxy_protocol config); cbn [app perform_all outcome_of]; rewrite ?bind_perform.
  - destruct (env_write_all env _) as [[]|e]; [|done].
    destruct (backend_tls config) as [t|]; [|done]. by destruct (backend_tls_enabled t).
  - unfold bind at 1. cbn [ret].
    destruct (backend_tls config) as [t|]; [|done]. by destruct (backend_tls_enabled t).
Qed.

Lemma perform_all_run env config rule_name todo w acts :
  let (done, r) := execute env (todo ++
    [Relay (client_read_limiter config, client_write_limiter config)
           (backend_read_limiter config, backend_write_limiter config)]) in
  perform_all env todo (rest env config rule_name) (w, acts) =
  ({| heap := heap w; next_id := next_id w;
      calls := calls w ++ match r, env_copy env with
                          | Ok _, Ok (c2b, b2c) => traffic_calls rule_name c2b b2c (env_elapsed env)
                          | _, _ => []
                          end |}, acts ++ done, r).
Proof.
  revert acts. induction todo as [|a todo IH]; intros acts; cbn [app execute perform_all].
  - unfold rest. rewrite relay_run. cbn [outcome_of].
    destruct (env_copy env) as [[c2b b2c]|e]; cbn [result_map]; [done|].
    rewrite app_nil_r. by destruct w.
  - rewrite bind_perform. destruct (outcome_of env a) as [[]|e].
    + specialize (IH (acts ++ [a])). destruct (execute env _) as [done r]. rewrite IH.
      by rewrite <-(assoc_L app).
    + rewrite app_nil_r. by destruct w.
Qed.

(** The whole connection, in closed form. *)
Lemma proxy_connection_run env backend_addr config rule_name w acts :
  let (done, r) := execute env (plan backend_addr config) in
  proxy_connection env backend_addr config rule_name (w, acts) =
  ({| heap := heap w; next_id := next_id w; calls := calls w ++ connection_calls env rule_name r |},
   acts ++ done, r).
Proof.
  rewrite proxy_connection_plan, !bind_metric. unfold with_guard.
  pose proof (perform_all_run env config rule_name
    (Connect backend_addr :: header_part config ++ tls_part config)
    (record_call (CounterInc TOTAL_CONNECTIONS [rule_name])
      (record_call (GaugeInc ACTIVE_CONNECTIONS [rule_name]) w)) acts) as H.
  rewrite <-app_comm_cons, <-(assoc_L app) in H. fold (plan backend_addr config) in H.
  destruct (execute env (plan backend_addr config)) as [done r]. rewrite H.
  unfold record_call, connection_calls. cbn -[app]. by rewrite <-!(assoc_L app).
Qed.

(** The operations on a backend connection are the plan (connect, the
    announcement of the client if configured, the TLS handshake if configured,
    the relay) executed in that order up to and including the first that
    fails, whose error is the result; nothing is done to the connection after
    an error, and nothing reaches the backend before the announcement. *)
Theorem proxy_connection_follows_plan env backend_addr config rule_name w acts :
  let '(w', acts', r) := proxy_connection env backend_addr config rule_name (w, acts) in
  (acts', r) = (acts ++ (execute env (plan backend_addr config)).1,
                (execute env (plan backend_addr config)).2).
Proof.
  pose proof (proxy_connection_run env backend_addr config rule_name w acts) as H.
  destruct (execute env (plan backend_addr config)) as [done r]. by rewrite H.
Qed.

(** ** Accounting *)

Section accounting.
Context `{Registry R}.

Lemma replay_gauge_other log (r : R) g ls :
  Forall (λ c, (∀ v, c ≠ GaugeSet g ls v) ∧ c ≠ GaugeInc g ls ∧ c ≠ GaugeDec g ls) log →
  read_gauge g ls (replay log r) = read_gauge g ls r.
Proof.
  intros Hl. revert r. induction Hl as [|c log (H1 & H2 & H3) Hl IH]; intros r; [done|].
  change (replay (c :: log) r) with (replay log (apply c r)). by rewrite IH, read_other.
Qed.

Lemma replay_counter_other log (r : R) c ls :
  Forall (λ call, call ≠ CounterInc c ls ∧ ∀ n, call ≠ CounterIncBy c ls n) log →
  read_counter c ls (replay log r) = read_counter c ls r.
Proof.
  intros Hl. revert r. induction Hl as [|call log [H1 H2] Hl IH]; intros r; [done|].
  change (replay (call :: log) r) with (replay log (apply call r)). by rewrite IH, counter_other.
Qed.

(** The gauge is raised at the start and lowered at the end. *)
Lemma connection_calls_gauge env rule_name (res : result unit E) (r : R) g ls :
  read_gauge g ls (replay (connection_calls env rule_name res) r) = read_gauge g ls r.
Proof.
  set (mid := match res, env_copy env with
              | Ok _, Ok (c2b, b2c) => traffic_calls rule_name c2b b2c (env_elapsed env)
              | _, _ => [] end).
  assert (Hmid : ∀ g ls, Forall (λ c, (∀ v, c ≠ GaugeSet g ls v) ∧ c ≠ GaugeInc g ls ∧ c ≠ GaugeDec g ls) mid).
  { intros g' ls'. unfold mid. destruct res, (env_copy env) as [[]|]; by repeat constructor. }
  unfold connection_calls. fold mid. rewrite !replay_app. cbn [replay foldl].
  destruct (decide (g = ACTIVE_CONNECTIONS ∧ ls = [rule_name])) as [[-> ->]|Hne].
  - rewrite read_dec. fold (replay mid). rewrite replay_gauge_other by done.
    rewrite read_other by done. rewrite read_inc. lia.
  - rewrite read_other by naive_solver. fold (replay mid). rewrite replay_gauge_other by done.
    rewrite read_other by done. apply read_other; naive_solver.
Qed.

Lemma execute_ok (env : proxy_env E) todo a :
  (execute env todo).2 = Ok tt → a ∈ todo → outcome_of env a = Ok tt.
Proof.
  induction todo as [|b todo IH]; intros Hr Hin; [by apply not_elem_of_nil in Hin|].
  cbn [execute] in Hr. destruct (outcome_of env b) as [[]|e] eqn:Hb; [|done].
  destruct (execute env todo) as [done r]. cbn [snd] in *.
  apply elem_of_cons in Hin as [->|Hin]; [done|]. by apply IH.
Qed.

(** C20: whichever way a connection ends, it leaves every gauge as it found it
    and counts as one connection of its rule; the bytes copied are added to the
    four traffic counters of the rule when the relay succeeds, and to none when
    any operation fails, the bytes moved before a failing relay included. *)
Theorem connection_accounting env backend_addr config rule_name w acts :
  let '(w', _, r) := proxy_connection env backend_addr config rule_name (w, acts) in
  let before := replay (calls w) (empty_registry : R) in
  let after := replay (calls w') (empty_registry : R) in
  (∀ g ls, read_gauge g ls after = read_gauge g ls before) ∧
  read_counter TOTAL_CONNECTIONS [rule_name] after
    = (read_counter TOTAL_CONNECTIONS [rule_name] before + 1) mod 2 ^ 64 ∧
  match r with
  | Ok _ => ∃ c2b b2c, env_copy env = Ok (c2b, b2c) ∧
      ∀ dir n, (dir, n) ∈ [("client_in", c2b); ("backend_out", c2b); ("backend_in", b2c); ("client_out", b2c)] →
        read_counter TRAFFIC_BYTES [rule_name; dir] after
          = (read_counter TRAFFIC_BYTES [rule_name; dir] before + n) mod 2 ^ 64
  | Err _ => ∀ ls, read_counter TRAFFIC_BYTES ls after = read_counter TRAFFIC_BYTES ls before
  end.
Proof.
  pose proof (proxy_connection_run env backend_addr config rule_name w acts) as Hrun.
  destruct (execute env (plan backend_addr config)) as [done r] eqn:Hex. rewrite Hrun.
  cbn [calls]. rewrite replay_app. set (before := replay (calls w) empty_registry).
  split_and!.
  - intros g ls. apply connection_calls_gauge.
  - unfold connection_calls. rewrite replay_app. rewrite replay_counter_other.
    + cbn [replay foldl]. rewrite counter_inc. by rewrite counter_other.
    + apply Forall_app. split; [|by repeat constructor].
      destruct r, (env_copy env) as [[]|]; [|by constructor..]. by repeat constructor.
  - destruct r as [[]|e].
    + assert (Hcopy : outcome_of env (Relay (client_read_limiter config, client_write_limiter config)
                     (backend_read_limiter config, backend_write_limiter config)) = Ok tt).
      { eapply (execute_ok env (plan backend_addr config)); [by rewrite Hex|].
        unfold plan. set_solver. }
      cbn [outcome_of] in Hcopy. destruct (env_copy env) as [[c2b b2c]|] eqn:Hc; [|done].
      exists c2b, b2c. split; [done|]. intros dir n Hin.
      unfold connection_calls. rewrite Hc. cbn [app traffic_calls].
      rewrite !elem_of_cons in Hin.
      destruct Hin as [[= -> ->]|[[= -> ->]|[[= -> ->]|[[= -> ->]|[]%not_elem_of_nil]]]];
        cbn [replay foldl];
        repeat (rewrite counter_other by (intros; congruence));
        rewrite counter_inc_by; repeat (rewrite counter_other by (intros; congruence)); done.
    + intros ls. apply replay_counter_other. unfold connection_calls. by repeat constructor.
Qed.
End accounting.
End proxy.

(** ** The certificate of the backend *)

Section backend_tls.
Context {Cert Signed TlsError : Type}.

(** A TLS client library, and what the backend presents to it: its certificate
    and chain, an OCSP response, at some time.  A handshake that succeeds has
    asked the verifier for the chain and the name. *)
Record tls_client := {
  tc_connect : ServerCertVerifier Cert Signed TlsError → string → result unit TlsError;
  tc_cert : Cert;
  tc_chain : list Cert;
  tc_ocsp : list Z;
  tc_time : Z;
  tc_verified v name :
    tc_connect v name = Ok tt → verify_server_cert v tc_cert tc_chain name tc_ocsp tc_time = Ok tt;
}.

(** The environment of a connection whose handshakes go through the library. *)
Definition tls_env (client : tls_client) (roots : ServerCertVerifier Cert Signed TlsError)
    (env : proxy_env TlsError) : proxy_env TlsError := {|
  env_connect := env_connect env; env_write_all := env_write_all env;
  env_tls := λ name verify, tc_connect client
    (backend_verifier roots {| backend_tls_enabled := true; ignore_verify := negb verify |}) name;
  env_copy := env_copy env; env_elapsed := env_elapsed env |}.

Lemma execute_app_err {E} (env : proxy_env E) l1 l2 e :
  (execute env l1).2 = Err e → execute env (l1 ++ l2) = execute env l1.
Proof.
  induction l1 as [|a l1 IH]; [done|]. cbn [execute app]. destruct (outcome_of env a); [|done].
  destruct (execute env l1) as [done1 r1] eqn:H1. cbn [snd] in *. intros He. by rewrite IH.
Qed.

Lemma execute_subset {E} (env : proxy_env E) l a : a ∈ (execute env l).1 → a ∈ l.
Proof.
  induction l as [|b l IH]; [done|]. cbn [execute]. destruct (outcome_of env b).
  - destruct (execute env l) as [done1 r1]. cbn [fst] in *. rewrite !elem_of_cons. naive_solver.
  - cbn [fst]. rewrite !elem_of_cons, elem_of_nil. naive_solver.
Qed.

(** C26: unless verification is switched off, a backend whose certificate the root
    store does not verify (for the name [localhost], which is what the code asks
    for whatever the backend) gets no client data: the connection fails at the
    handshake, and no relay is ever started. *)
Theorem unverified_backend_gets_nothing (client : tls_client) roots env backend_addr config t rule_name w acts :
  backend_tls config = Some t → backend_tls_enabled t = true → ignore_verify t = false →
  is_ok (verify_server_cert roots (tc_cert client) (tc_chain client) "localhost" (tc_ocsp client) (tc_time client)) = false →
  (∀ c b, Relay c b ∉ acts) →
  let '(_, acts', r) := proxy_connection (tls_env client roots env) backend_addr config rule_name (w, acts) in
  is_ok r = false ∧ ∀ c b, Relay c b ∉ acts'.
Proof.
  intros Ht Hen Hig Hbad Hacts.
  pose proof (proxy_connection_run (tls_env client roots env) backend_addr config rule_name w acts) as Hrun.
  set (pre := Connect backend_addr :: header_part config ++ tls_part config) in *.
  set (e := tls_env client roots env) in *.
  assert (Hplan : plan backend_addr config = pre ++
    [Relay (client_read_limiter config, client_write_limiter config)
           (backend_read_limiter config, backend_write_limiter config)])
    by (unfold plan, pre; by rewrite <-app_comm_cons, <-(assoc_L app)).
  assert (Hpre : ∃ err, (execute e pre).2 = Err err).
  { destruct (execute e pre) as [done0 [[]|err]] eqn:Hx; [|by eexists]. exfalso.
    assert (Hh : outcome_of e (TlsHandshake "localhost" true) = Ok tt).
    { eapply (execute_ok e pre); [by rewrite Hx|]. unfold pre, tls_part. rewrite Ht, Hen, Hig. set_solver. }
    cbn [outcome_of e tls_env env_tls backend_verifier negb ignore_verify] in Hh.
    apply tc_verified in Hh. by rewrite Hh in Hbad. }
  destruct Hpre as [err Herr]. rewrite Hplan, (execute_app_err _ _ _ _ Herr) in Hrun.
  destruct (execute e pre) as [done0 r] eqn:Hx. cbn [snd] in Herr. subst r. rewrite Hrun. split; [done|].
  intros c b. rewrite elem_of_app. intros [Hin|Hin]; [by eapply Hacts|].
  assert (Hin' : Relay c b ∈ pre) by (apply (execute_subset e); by rewrite Hx).
  revert Hin'. unfold pre, header_part, tls_part. rewrite Ht, Hen. destruct (proxy_protocol config); set_solver.
Qed.
End backend_tls.

(** A library that asks the verifier and nothing else, at a backend with a
    certificate the roots do not know. *)
Definition asking_client : tls_client (Cert := nat) (Signed := unit) (TlsError := string).
Proof.
  refine {| tc_connect v name := verify_server_cert v 7%nat [] name [] 0; tc_cert := 7%nat; tc_chain := [];
            tc_ocsp := []; tc_time := 0 |}.
  done.
Defined.

Lemma unverified_backend_gets_nothing_witness :
  let roots : ServerCertVerifier nat unit string :=
    {| verify_server_cert c _ _ _ _ := if (c =? 1)%nat then Ok tt else Err "unknown issuer";
       verify_tls12_signature _ _ _ := Ok tt; verify_tls13_signature _ _ _ := Ok tt;
       supported_verify_schemes := [ED25519] |} in
  let env : proxy_env string :=
    {| env_connect _ := Ok tt; env_write_all _ := Ok tt; env_tls _ _ := Ok tt; env_copy := Ok (10, 20);
       env_elapsed := 1 |} in
  let a := {| ip := V4 [10; 0; 0; 1]; port := 5000 |} in
  let config ignore := {| client_read_limiter := None; client_write_limiter := None; backend_read_limiter := None;
                   backend_write_limiter := None; proxy_protocol := false; client_addr := a; local_addr := a;
                   backend_tls := Some {| backend_tls_enabled := true; ignore_verify := ignore |} |} in
  is_ok (proxy_connection (tls_env asking_client roots env) "b:443" (config false) "r" (empty_world, [])).2 = false ∧
  is_ok (proxy_connection (tls_env asking_client roots env) "b:443" (config true) "r" (empty_world, [])).2 = true.
Proof.
  intros roots env a config. split; [|reflexivity].
  pose proof (unverified_backend_gets_nothing asking_client roots env "b:443" (config false)
    {| backend_tls_enabled := true; ignore_verify := false |} "r" empty_world [] eq_refl eq_refl eq_refl eq_refl
    (λ c b, not_elem_of_nil _)) as H.
  destruct (proxy_connection _ _ _ _ _) as [[w acts] r]. exact (proj1 H).
Defined.
End Proxy.
