(* ===== verification/Acl.v ===== *)
(** * Access control by network

    [src/src/networking/acl.rs].  The networks are the [ipnet] crate's, which is
    not part of the sources: its operations are the class [IpNetLib] and what
    its documentation promises of them [IpNetLaws]; [cidr] is an instance of
    both, used by the concrete examples. *)

From Stdlib Require Import Ascii.
From S2P Require Import Prelude NetAddr.
Open Scope Z_scope.

Class IpNetLib := {
  IpNet : Type;
  net_from_str : string → option IpNet;      (** [IpNet::from_str] *)
  net_of_ip : IpAddr → IpNet;                (** [IpNet::from(ip)] *)
  net_contains : IpNet → IpAddr → bool       (** [IpNet::contains] *)
}.

(** [from_str] wants a prefix length after a slash, and [from] gives the network
    of that one address (/32 or /128). *)
Class IpNetLaws (L : IpNetLib) := {
  net_from_str_slash s : has_char "/"%char s = false → net_from_str s = None;
  net_of_ip_host a b : ip_wf a → ip_wf b → net_contains (net_of_ip a) b = bool_decide (a = b)
}.

Module AccessControl.
Section acl.
Context `{L : IpNetLib}.

Record AccessControl := { allow_list : list IpNet; deny_list : list IpNet }.

(** The closure of [filter_map] in [parse_cidrs]. *)
Definition parse_entry (s : string) : option IpNet :=
  match net_from_str s with
  | Some net => Some net
  | None =>
      match parse_ip s with
      | Some ip => Some (net_of_ip ip)
      | None => None
      end
  end.

Definition parse_cidrs (input : option (list string)) : list IpNet :=
  match input with
  | Some strs => omap parse_entry strs
  | None => []
  end.

Definition new (allow_strs deny_strs : option (list string)) : AccessControl :=
  {| allow_list := parse_cidrs allow_strs; deny_list := parse_cidrs deny_strs |}.

(** A loop that returns at the first network holding the address. *)
Fixpoint any_contains (nets : list IpNet) (a : IpAddr) : bool :=
  match nets with
  | [] => false
  | net :: nets => if net_contains net a then true else any_contains nets a
  end.

Definition is_allowed (self : AccessControl) (a : IpAddr) : bool :=
  if any_contains (deny_list self) a then false
  else match allow_list self with
       | [] => true
       | _ => if any_contains (allow_list self) a then true else false
       end.

(** What an entry of the configuration means: [denotes s a] says that [s] is a
    network holding [a], or the text of an address standing for itself. *)
Definition denotes (s : string) (a : IpAddr) : Prop :=
  ∃ net, parse_entry s = Some net ∧ net_contains net a = true.
Definition entries (l : option (list string)) : list string := default [] l.
Definition readable (s : string) : Prop := is_Some (parse_entry s).

Lemma any_contains_true nets a :
  any_contains nets a = true ↔ ∃ net, net ∈ nets ∧ net_contains net a = true.
Proof.
  induction nets as [|n nets IH]; simpl.
  - split; [done|]. by intros (? & []%not_elem_of_nil & _).
  - destruct (net_contains n a) eqn:E.
    + split; [|done]. intros _. exists n. by split; [left|].
    + rewrite IH. split; intros (m & Hm & Hc); exists m; (split; [|done]).
      * by right.
      * apply elem_of_cons in Hm as [->|]; [congruence|done].
Qed.

Lemma elem_of_parse_cidrs l net :
  net ∈ parse_cidrs l ↔ ∃ s, s ∈ entries l ∧ parse_entry s = Some net.
Proof.
  destruct l as [l|]; simpl; [apply list_elem_of_omap|].
  split; [by intros []%not_elem_of_nil|]. by intros (? & []%not_elem_of_nil & _).
Qed.

Lemma any_contains_parsed l a :
  any_contains (parse_cidrs l) a = true ↔ ∃ s, s ∈ entries l ∧ denotes s a.
Proof.
  rewrite any_contains_true. unfold denotes. setoid_rewrite elem_of_parse_cidrs.
  naive_solver.
Qed.

Lemma parse_cidrs_nil l : parse_cidrs l = [] ↔ ∀ s, s ∈ entries l → ¬ readable s.
Proof.
  split.
  - intros Hn s Hs [net Hp].
    assert (Hin : net ∈ parse_cidrs l) by (apply elem_of_parse_cidrs; eauto).
    rewrite Hn in Hin. by apply not_elem_of_nil in Hin.
  - intros Hr. apply elem_of_nil_inv. intros net (s & Hs & Hp)%elem_of_parse_cidrs.
    by apply (Hr s Hs); exists net.
Qed.


(** An allow list of which no entry can be read lets every address
    in that the deny list does not name: a mistyped allow list fails open. *)
Theorem unreadable_allow_list_fails_open allow deny a :
  (∀ s, s ∈ allow → net_from_str s = None ∧ parse_ip s = None) →
  is_allowed (new (Some allow) deny) a = is_allowed (new None deny) a.
Proof.
  intros Hall. unfold is_allowed, new. cbn [allow_list deny_list].
  enough (parse_cidrs (Some allow) = []) as -> by done.
  apply parse_cidrs_nil. intros s Hs [net Hp]. unfold parse_entry in Hp.
  by destruct (Hall s Hs) as [E1 E2]; rewrite E1, E2 in Hp.
Qed.

Section laws.
Context `{!IpNetLaws L}.

Lemma denotes_v4 o a : ip_wf (V4 o) → ip_wf a → denotes (ip_to_string (V4 o)) a ↔ a = V4 o.
Proof.
  intros Ho Ha. unfold denotes, parse_entry.
  rewrite net_from_str_slash, parse_print_v4 by (done || apply ipv4_no_slash, Ho).
  split.
  - intros (net & [= <-] & Hc). rewrite net_of_ip_host in Hc by done.
    by apply bool_decide_eq_true in Hc.
  - intros ->. exists (net_of_ip (V4 o)). split; [done|].
    by rewrite net_of_ip_host, bool_decide_true.
Qed.

(** An IPv4 address written without a prefix length stands for itself alone:
    in the deny list it is refused whatever else is configured, and where it is
    all that is configured nothing else is refused. *)
Theorem plain_address_denied allow deny o a :
  ip_wf (V4 o) → ip_wf a →
  (ip_to_string (V4 o) ∈ deny → is_allowed (new allow (Some deny)) (V4 o) = false) ∧
  is_allowed (new None (Some [ip_to_string (V4 o)])) a = negb (bool_decide (a = V4 o)).
Proof.
  intros Ho Ha. unfold is_allowed, new. cbn [allow_list deny_list]. split.
  - intros Hin. replace (any_contains _ _) with true; [done|]. symmetry.
    apply any_contains_parsed. exists (ip_to_string (V4 o)). by rewrite denotes_v4.
  - rewrite (eq_bool_prop_intro (any_contains _ a) (bool_decide (a = V4 o))).
    { by case_bool_decide. }
    rewrite !Is_true_true, any_contains_parsed, bool_decide_eq_true. simpl.
    setoid_rewrite list_elem_of_singleton. rewrite <-(denotes_v4 o a) by done. naive_solver.
Qed.
End laws.
End acl.
End AccessControl.

(** ** Networks in CIDR notation

    An instance of the interface: an address and the number of its leading bits
    that count. *)

Fixpoint value (o : list Z) : Z :=
  match o with [] => 0 | b :: o => b * 256 ^ Z.of_nat (length o) + value o end.

Definition octets (a : IpAddr) : list Z := match a with V4 o => o | V6 o => o end.
Definition width (a : IpAddr) : Z := match a with V4 _ => 32 | V6 _ => 128 end.
Definition is_v4 (a : IpAddr) : bool := match a with V4 _ => true | V6 _ => false end.

Fixpoint split_slash (s : string) : option (string * string) :=
  match s with
  | EmptyString => None
  | String c s =>
      if bool_decide (c = "/"%char) then Some (EmptyString, s)
      else '(l, r) ← split_slash s; Some (String c l, r)
  end.

Definition cidr_from_str (s : string) : option (IpAddr * Z) :=
  '(l, r) ← split_slash s;
  a ← parse_ip l;
  '(p, rest) ← read_number 10 256 3 false r;
  if bool_decide (rest = EmptyString) && (p <=? width a) then Some (a, p) else None.

Definition cidr_contains (net : IpAddr * Z) (b : IpAddr) : bool :=
  let '(a, p) := net in
  Bool.eqb (is_v4 a) (is_v4 b) &&
  (Z.shiftr (value (octets a)) (width a - p) =? Z.shiftr (value (octets b)) (width a - p)).

#[export] Instance cidr : IpNetLib := {|
  IpNet := IpAddr * Z;
  net_from_str := cidr_from_str;
  net_of_ip a := (a, width a);
  net_contains := cidr_contains
|}.

Lemma value_bound o : Forall is_u8 o → 0 <= value o < 256 ^ Z.of_nat (length o).
Proof.
  induction 1 as [|b o Hb Ho IH]; [simpl; lia|]. cbn [value length].
  rewrite Nat2Z.inj_succ, Z.pow_succ_r by lia.
  unfold is_uN in Hb. change (2 ^ 8) with 256 in Hb. nia.
Qed.

Lemma value_inj o1 o2 :
  Forall is_u8 o1 → Forall is_u8 o2 → length o1 = length o2 → value o1 = value o2 → o1 = o2.
Proof.
  intros H1. revert o2. induction H1 as [|b o1 Hb H1 IH]; intros [|c o2] H2 Hl Hv; try done.
  apply Forall_cons in H2 as [Hc H2]. injection Hl as Hl. cbn [value] in Hv.
  rewrite <-Hl in Hv. pose proof (value_bound o1 H1). pose proof (value_bound o2 H2) as B2.
  rewrite <-Hl in B2.
  destruct (Z.div_mod_unique (256 ^ Z.of_nat (length o1)) b c (value o1) (value o2))
    as [-> Hv']; [lia|lia|lia|]. by rewrite (IH o2 H2 Hl Hv').
Qed.

Lemma split_slash_none s : has_char "/"%char s = false → split_slash s = None.
Proof.
  induction s as [|c s IH]; [done|]. simpl. case_bool_decide; [done|]. simpl.
  intros Hs. by rewrite (IH Hs).
Qed.

#[export] Instance cidr_laws : IpNetLaws cidr.
Proof.
  split.
  - intros s Hs. simpl. unfold cidr_from_str. by rewrite split_slash_none.
  - intros a b Ha Hb. simpl. rewrite Z.sub_diag, !Z.shiftr_0_r.
    destruct a as [o1|o1], b as [o2|o2]; try done; simpl;
      destruct Ha as [La Fa], Hb as [Lb Fb];
      (destruct (Z.eqb_spec (value o1) (value o2)) as [E|E];
       [apply value_inj in E as ->; [by rewrite bool_decide_true|done..|congruence]
       |rewrite bool_decide_false; congruence]).
Defined.

(** The unit tests of [acl.rs]. *)
Definition allowed (allow deny : option (list string)) (o : list Z) : bool :=
  AccessControl.is_allowed (AccessControl.new allow deny) (V4 o).

Definition test_allow_deny_logic : bool :=
  let allow := Some ["10.0.0.0/24"] in
  let deny := Some ["10.0.0.1"] in
  negb (allowed allow deny [10; 0; 0; 1]) && allowed allow deny [10; 0; 0; 2]
    && negb (allowed allow deny [192; 168; 1; 1]).

Definition test_no_lists : bool := allowed None None [1; 2; 3; 4].

Definition test_deny_only : bool :=
  negb (allowed None (Some ["127.0.0.1"]) [127; 0; 0; 1]) && allowed None (Some ["127.0.0.1"]) [127; 0; 0; 2].

Example acl_tests_pass : test_allow_deny_logic && test_no_lists && test_deny_only = true.
Proof. reflexivity. Qed.

Lemma unreadable_allow_list_fails_open_witness :
  AccessControl.is_allowed (AccessControl.new (Some ["10.0.0.0/33"; "localhost"]) None)
    (V4 [8; 8; 8; 8]) = true.
Proof.
  rewrite (AccessControl.unreadable_allow_list_fails_open
             ["10.0.0.0/33"; "localhost"] None (V4 [8; 8; 8; 8])); [reflexivity|].
  intros s Hs. rewrite !elem_of_cons in Hs.
  destruct Hs as [->|[->|[]%not_elem_of_nil]]; split; reflexivity.
Defined.

Lemma plain_address_denied_witness :
  AccessControl.is_allowed (AccessControl.new (Some ["10.0.0.0/8"]) (Some ["10.0.0.2"; "10.0.0.1"]))
    (V4 [10; 0; 0; 1]) = false.
Proof.
  refine (proj1 (AccessControl.plain_address_denied (Some ["10.0.0.0/8"])
    ["10.0.0.2"; "10.0.0.1"] [10; 0; 0; 1] (V4 [10; 0; 0; 1]) _ _) _).
  - split; [reflexivity|]. repeat constructor; unfold is_uN; lia.
  - split; [reflexivity|]. repeat constructor; unfold is_uN; lia.
  - right. left.
Defined.
