(* ===== verification/Tls.v ===== *)
(** * Loading a certificate: [src/src/networking/tls.rs] and
    [src/src/common/error.rs]

    The file system, the PEM parser and rustls are a record of operations. *)

From S2P Require Import Prelude.

(** [LbError]; errors of other crates by their text. *)
Inductive LbError :=
| Io (e : string)
| Yaml (e : string)
| AnyhowError (e : string)
| TlsError (e : string).

Definition lb_error_display (e : LbError) : string :=
  match e with
  | Io e => "IO Error: " +:+ e
  | Yaml e => "YAML Error: " +:+ e
  | AnyhowError e => "Anyhow Error: " +:+ e
  | TlsError e => "TLS Error: " +:+ e
  end.

Definition map_err {A E F} (f : E → F) (r : result A E) : result A F :=
  match r with Ok a => Ok a | Err e => Err (f e) end.

(** [collect::<Result<Vec<_>, _>>()]: all the values, or the first error. *)
Fixpoint collect {A E} (items : list (result A E)) : result (list A) E :=
  match items with
  | [] => Ok []
  | r :: items => let? a := r in let? l := collect items in Ok (a :: l)
  end.

Record tls_lib := {
  File : Type;
  Cert : Type;
  Key : Type;
  Acceptor : Type;
  file_open : string → result File string;
  pem_certs : File → list (result Cert string);
  pem_pkcs8_keys : File → list (result Key string);
  with_single_cert : list Cert → Key → result Acceptor string;
}.

Section tls.
Variable lib : tls_lib.

Definition load_tls_config (cert_path key_path : string) : result (Acceptor lib) LbError :=
  let? cert_file := map_err Io (file_open lib cert_path) in
  let? certs := map_err Io (collect (pem_certs lib cert_file)) in
  let? key_file := map_err Io (file_open lib key_path) in
  let? keys := map_err Io (collect (pem_pkcs8_keys lib key_file)) in
  match keys with
  | [] => Err (TlsError "No private keys found")
  | key :: _ => map_err TlsError (with_single_cert lib certs key)
  end.

Lemma collect_ok {A E} (items : list (result A E)) l : collect items = Ok l ↔ items = Ok <$> l.
Proof.
  revert l. induction items as [|r items IH]; intros l; cbn [collect].
  { split; [by intros [= <-]|]. by destruct l. }
  destruct r as [a|e]; cbn [result_bind].
  - destruct (collect items) as [l'|e]; cbn [result_bind].
    + split; [intros [= <-]; by rewrite (proj1 (IH l') eq_refl)|].
      destruct l as [|b l]; [done|]. rewrite fmap_cons. intros [= -> Hl%IH]. congruence.
    + split; [done|]. destruct l as [|b l]; [done|]. rewrite fmap_cons. by intros [= -> Hl%IH].
  - split; [done|]. by destruct l.
Qed.

(** An acceptor is made of every certificate of the certificate file and the
    first PKCS#8 key of the key file, and only when both files can be opened and
    every entry of each can be read. *)
Theorem load_tls_config_ok cert_path key_path acc :
  load_tls_config cert_path key_path = Ok acc ↔
  ∃ cert_file certs key_file key keys,
    file_open lib cert_path = Ok cert_file ∧ pem_certs lib cert_file = Ok <$> certs ∧
    file_open lib key_path = Ok key_file ∧ pem_pkcs8_keys lib key_file = Ok <$> (key :: keys) ∧
    with_single_cert lib certs key = Ok acc.
Proof.
  unfold load_tls_config. split.
  - destruct (file_open lib cert_path) as [cf|] eqn:H1; [|done]. cbn [map_err result_bind].
    destruct (collect (pem_certs lib cf)) as [cs|] eqn:H2; [|done]. cbn [map_err result_bind].
    destruct (file_open lib key_path) as [kf|] eqn:H3; [|done]. cbn [map_err result_bind].
    destruct (collect (pem_pkcs8_keys lib kf)) as [ks|] eqn:H4; [|done]. cbn [map_err result_bind].
    destruct ks as [|k ks]; [done|]. destruct (with_single_cert lib cs k) eqn:H5; [|done].
    intros [= <-]. apply collect_ok in H2, H4. by exists cf, cs, kf, k, ks.
  - intros (cf & cs & kf & k & ks & H1 & H2 & H3 & H4 & H5). apply collect_ok in H2, H4.
    rewrite H1. cbn [map_err result_bind]. rewrite H2. cbn [map_err result_bind].
    rewrite H3. cbn [map_err result_bind]. rewrite H4. cbn [map_err result_bind]. by rewrite H5.
Qed.
End tls.
