(* ===== verification/Server.v ===== *)
(** * The server: [src/src/main.rs]

    Startup builds, per rule, a load balancer, a rate limiter, a bandwidth
    manager and an access list, and spawns acceptors and health checkers; an
    accepted connection passes the access list, the rate limiter and the load
    balancer before it is proxied; a change of the configuration file updates
    the backends.  A [Server] is the state these tasks share.  The sockets, the
    certificate files, the YAML parser and the number of worker threads are the
    environment's. *)

From S2P Require Import Prelude Float64 Config NetAddr Limiter RateLimit BandwidthManager.
From S2P Require Import Metrics Balancer BalancerSpec BalancerInv BalancerConc Health ProxyProtocol Proxy.
From S2P Require Import Acl Tls.
Open Scope Z_scope.

(** An open connection: the task that serves it owns the guard of its backend
    and the configuration of the proxy. *)
Record connection := {
  cn_client : SocketAddr;
  cn_backend : string;
  cn_guard : ConnectionGuard;
  cn_config : ProxyConfig;
}.

(** The runtime that [tokio::main] starts: its worker threads run the tasks. *)
Class Runtime := {
  worker_threads : Z;
  worker_threads_pos : 1 <= worker_threads;
}.

Section server.
Context `{L : IpNetLib}.

(** What the tasks of one rule share.  The backends of a rule are only reachable
    through its load balancer, so each rule has its own [World]. *)
Record Rule := {
  ru_name : string;
  ru_lb : LoadBalancer;
  ru_world : World;
  ru_rate_limiter : RateLimiter;
  ru_bandwidth : BandwidthManager;
  ru_store : LimStore;
  ru_tls : bool;
  ru_backend_tls : option BackendTlsConfig;
  ru_proxy_protocol : bool;
  ru_acl : AccessControl.AccessControl;
  ru_admitted : list (SocketAddr * task);  (** spawned tasks, and how far each is in [next_backend] *)
  ru_connections : list connection;
}.

Definition with_lb (ru : Rule) (lb : LoadBalancer) (w : World) : Rule :=
  {| ru_name := ru_name ru; ru_lb := lb; ru_world := w; ru_rate_limiter := ru_rate_limiter ru;
     ru_bandwidth := ru_bandwidth ru; ru_store := ru_store ru; ru_tls := ru_tls ru;
     ru_backend_tls := ru_backend_tls ru; ru_proxy_protocol := ru_proxy_protocol ru;
     ru_acl := ru_acl ru; ru_admitted := ru_admitted ru;
     ru_connections := ru_connections ru |}.
Definition with_rate_limiter (ru : Rule) (rl : RateLimiter) : Rule :=
  {| ru_name := ru_name ru; ru_lb := ru_lb ru; ru_world := ru_world ru; ru_rate_limiter := rl;
     ru_bandwidth := ru_bandwidth ru; ru_store := ru_store ru; ru_tls := ru_tls ru;
     ru_backend_tls := ru_backend_tls ru; ru_proxy_protocol := ru_proxy_protocol ru;
     ru_acl := ru_acl ru; ru_admitted := ru_admitted ru;
     ru_connections := ru_connections ru |}.
Definition with_bandwidth (ru : Rule) (bm : BandwidthManager) (st : LimStore) : Rule :=
  {| ru_name := ru_name ru; ru_lb := ru_lb ru; ru_world := ru_world ru;
     ru_rate_limiter := ru_rate_limiter ru;
     ru_bandwidth := bm; ru_store := st; ru_tls := ru_tls ru;
     ru_backend_tls := ru_backend_tls ru; ru_proxy_protocol := ru_proxy_protocol ru;
     ru_acl := ru_acl ru; ru_admitted := ru_admitted ru;
     ru_connections := ru_connections ru |}.
Definition with_connections (ru : Rule) (waiting : list (SocketAddr * task)) (cs : list connection) : Rule :=
  {| ru_name := ru_name ru; ru_lb := ru_lb ru; ru_world := ru_world ru;
     ru_rate_limiter := ru_rate_limiter ru;
     ru_bandwidth := ru_bandwidth ru; ru_store := ru_store ru; ru_tls := ru_tls ru;
     ru_backend_tls := ru_backend_tls ru; ru_proxy_protocol := ru_proxy_protocol ru;
     ru_acl := ru_acl ru; ru_admitted := waiting; ru_connections := cs |}.

Record checker := { ck_rule : nat; ck_addr : string; ck_config : HealthCheckConfig }.

Record Server := {
  sv_rules : list Rule;
  sv_lbs : gmap string nat;        (** rule name to rule, for the reload *)
  sv_checkers : list checker;      (** the health check tasks *)
  sv_acceptors : list nat;         (** the acceptor tasks, by rule *)
}.

Definition empty_server : Server :=
  {| sv_rules := []; sv_lbs := ∅; sv_checkers := []; sv_acceptors := [] |}.

(** ** Startup *)

Inductive startup_error :=
| ConfigInvalid (e : ConfigError)
| TlsLoad (e : LbError)
| InvalidAddress (a : string)
| SocketError (e : string).

(** The outcomes of the calls that open the socket of one acceptor. *)
Record socket_calls := {
  sock_new : result unit string;
  sock_set_reuse_port : result unit string;
  sock_set_reuse_address : result unit string;
  sock_bind : SocketAddr → result unit string;
  sock_listen : result unit string;
  sock_set_nonblocking : result unit string;
  sock_from_std : result unit string;
}.

(** What startup asks of the system: the libraries and files of [Tls.v], the
    socket calls of acceptor [k] of rule [i], and the number of acceptors. *)
Record startup_env := {
  env_tls_lib : tls_lib;
  env_socket : nat → nat → socket_calls;
  env_num_acceptors : nat;
}.

Definition default_rate_limit : RateLimitConfig :=
  {| rl_enabled := false; requests_per_second := 0; burst := 0 |}.
Definition default_bandwidth : BandwidthLimitConfig :=
  {| bw_enabled := false; bw_client := None; bw_backend := None |}.

(** The checkers spawned for the backends of a rule. *)
Definition spawn_checkers (i : nat) (rule : LBRule) : list checker :=
  match r_health_check rule with
  | Some hc => (λ c, {| ck_rule := i; ck_addr := (backend_addr_drain c).1; ck_config := hc |}) <$> r_backends rule
  | None => []
  end.

Definition load_tls (env : startup_env) (rule : LBRule) : result bool startup_error :=
  match r_tls rule with
  | Some t =>
      if tls_enabled t then
        match load_tls_config (env_tls_lib env) (tls_cert t) (tls_key t) with
        | Ok _ => Ok true
        | Err e => Err (TlsLoad e)
        end
      else Ok false
  | None => Ok false
  end.

Definition io {A} (r : result A string) : result A startup_error :=
  match r with Ok a => Ok a | Err e => Err (SocketError e) end.

(** The socket of one acceptor, and whether an acceptor is spawned for it: the
    failure of [set_reuse_port] is only logged, and one of the conversion skips
    the acceptor. *)
Definition open_listener (calls : socket_calls) (a : SocketAddr) : result bool startup_error :=
  let? _ := io (sock_new calls) in
  let warned := negb (is_ok (sock_set_reuse_port calls)) in
  let? _ := io (sock_set_reuse_address calls) in
  let? _ := io (sock_bind calls a) in
  let? _ := io (sock_listen calls) in
  let? _ := io (sock_set_nonblocking calls) in
  Ok (is_ok (sock_from_std calls)).

(** The loop over the acceptors of rule [i] still to be opened; the result is
    those that are spawned. *)
Fixpoint listen_all (env : startup_env) (i : nat) (ks : list nat) (a : SocketAddr)
    : result (list nat) startup_error :=
  match ks with
  | [] => Ok []
  | k :: ks =>
      let? spawned := open_listener (env_socket env i k) a in
      let? rest := listen_all env i ks a in
      Ok (if spawned then k :: rest else rest)
  end.

(** The body of the loop over the rules. *)
Definition init_rule (env : startup_env) (rule : LBRule) (sv : Server) : result Server startup_error :=
  let i := length (sv_rules sv) in
  let (lb, w) := LoadBalancer.new (r_name rule) (r_backends rule)
                   (r_backend_connection_limit rule) empty_world in
  let lbs := <[r_name rule := i]> (sv_lbs sv) in
  let checkers := sv_checkers sv ++ spawn_checkers i rule in
  let rate_limiter := RateLimiter.new (default default_rate_limit (r_rate_limit rule)) in
  let bandwidth_manager := BandwidthManager.new (default default_bandwidth (r_bandwidth_limit rule)) in
  let? tls := load_tls env rule in
  let? addr := match parse_socket_addr (r_listen rule) with
               | Some a => Ok a
               | None => Err (InvalidAddress (r_listen rule))
               end in
  let? spawned := listen_all env i (seq 0 (env_num_acceptors env)) addr in
  let ru := {| ru_name := r_name rule; ru_lb := lb; ru_world := w; ru_rate_limiter := rate_limiter;
               ru_bandwidth := bandwidth_manager;
               ru_store := {| lim_next := 0; lim_heap := ∅ |};
               ru_tls := tls; ru_backend_tls := r_backend_tls rule;
               ru_proxy_protocol := r_proxy_protocol rule;
               ru_acl := AccessControl.new (r_allow_list rule) (r_deny_list rule);
               ru_admitted := []; ru_connections := [] |} in
  Ok {| sv_rules := sv_rules sv ++ [ru]; sv_lbs := lbs; sv_checkers := checkers;
        sv_acceptors := sv_acceptors sv ++ ((λ _, i) <$> spawned) |}.

Fixpoint init_rules (env : startup_env) (rules : list LBRule) (sv : Server)
    : result Server startup_error :=
  match rules with
  | [] => Ok sv
  | rule :: rules => let? sv := init_rule env rule sv in init_rules env rules sv
  end.

Definition startup (env : startup_env) (config : Config) : result Server startup_error :=
  match validate config with
  | Err e => Err (ConfigInvalid e)
  | Ok _ => init_rules env (c_rules config) empty_server
  end.

(** ** Accepting a connection *)

Inductive decision := DeniedByAcl | RateLimited | Spawned.

(** The checks of the acceptor, which spawns a task for an admitted connection;
    the bucket of a client not seen before is created at [created] and checked
    at [now]. *)
Definition accept (ru : Rule) (client : SocketAddr) (created now : Z) : Rule * decision :=
  if negb (AccessControl.is_allowed (ru_acl ru) (ip client)) then (ru, DeniedByAcl)
  else
    let (rl, ok) := RateLimiter.check (ru_rate_limiter ru) (ip client) created now in
    let ru := with_rate_limiter ru rl in
    if negb ok then (ru, RateLimited)
    else (with_connections ru (ru_admitted ru ++ [(client, TStart)]) (ru_connections ru), Spawned).

Definition unknown_local : SocketAddr := {| ip := V4 [0; 0; 0; 0]; port := 0 |}.

(** The task of an admitted connection from [next_backend] on to its first wait:
    the four limiters are asked for ([ts] gives the clock readings of the buckets
    created). *)
Definition connected (ru : Rule) (client : SocketAddr) (backend : string * ConnectionGuard)
    (local : option SocketAddr) (ts : nat → Z) : Rule * connection :=
  let (backend_addr, guard) := backend in
  let local_addr := default unknown_local local in
  let key := ip_to_string (ip client) in
  let '(bm, st, client_up) :=
    BandwidthManager.get_client_upload_limiter (ru_bandwidth ru) (ip client) (ts 0%nat) (ru_store ru) in
  let '(bm, st, client_down) := BandwidthManager.get_client_download_limiter bm (ip client) (ts 1%nat) st in
  let '(bm, st, backend_down) := BandwidthManager.get_backend_download_limiter bm key (ts 2%nat) st in
  let '(bm, st, backend_up) := BandwidthManager.get_backend_upload_limiter bm key (ts 3%nat) st in
  let cn := {| cn_client := client; cn_backend := backend_addr; cn_guard := guard;
               cn_config := {| client_read_limiter := client_up; client_write_limiter := client_down;
                               backend_read_limiter := backend_down; backend_write_limiter := backend_up;
                               backend_tls := ru_backend_tls ru; proxy_protocol := ru_proxy_protocol ru;
                               client_addr := client; local_addr := local_addr |} |} in
  let ru := with_bandwidth ru bm st in
  (with_connections ru (ru_admitted ru) (cn :: ru_connections ru), cn).

(** What [next_backend] has returned to a task: [None] while it is still inside;
    [Some None] when no backend is available. *)
Definition returned (t : task) : option (option (string * ConnectionGuard)) :=
  match t with
  | THolding g => Some (Some (g_backend_addr g, g))
  | TDone => Some None
  | _ => None
  end.

(** The rest of the task on that result; without a backend it ends. *)
Definition proceed (ru : Rule) (client : SocketAddr) (r : option (string * ConnectionGuard))
    (local : option SocketAddr) (ts : nat → Z) : Rule * option connection :=
  match r with
  | None => (ru, None)
  | Some backend => let (ru, cn) := connected ru client backend local ts in (ru, Some cn)
  end.

(** The task up to its first wait, when no other task interferes with its
    selection. *)
Definition open_connection (ru : Rule) (client : SocketAddr) (local : option SocketAddr) (ts : nat → Z)
    : Rule * option connection :=
  let '(lb, w, r) := LoadBalancer.next_backend (ru_lb ru) (ru_world ru) in
  proceed (with_lb ru lb w) client r local ts.

(** The rest of the task: the TLS handshake with the client, if the rule has
    one, and the proxy; then the guard is dropped. *)
Definition finish_connection {E} (ru : Rule) (cn : connection) (client_tls : result unit E)
    (env : proxy_env E) : World :=
  let w :=
    if ru_tls ru then
      match client_tls with
      | Ok _ => (Proxy.proxy_connection env (cn_backend cn) (cn_config cn) (ru_name ru) (ru_world ru, [])).1.1
      | Err _ => ru_world ru
      end
    else (Proxy.proxy_connection env (cn_backend cn) (cn_config cn) (ru_name ru) (ru_world ru, [])).1.1 in
  drop_guard (cn_guard cn) w.

(** ** Reload *)

(** The body of the loop over the rules of the new configuration. *)
Definition reload_rule (rule : LBRule) (sv : Server) : Server :=
  match sv_lbs sv !! r_name rule with
  | Some i =>
      match sv_rules sv !! i with
      | Some ru =>
          let (lb, w) := LoadBalancer.update_backends (ru_lb ru) (r_backends rule) (ru_world ru) in
          {| sv_rules := <[i := with_lb ru lb w]> (sv_rules sv); sv_lbs := sv_lbs sv;
             sv_checkers := sv_checkers sv ++ spawn_checkers i rule;
             sv_acceptors := sv_acceptors sv |}
      | None => sv
      end
  | None => sv
  end.

(** A change of the file; [None] when it cannot be read or parsed. *)
Definition reload (new_config : option Config) (sv : Server) : Server :=
  match new_config with
  | Some c => foldl (λ sv rule, reload_rule rule sv) sv (c_rules c)
  | None => sv
  end.

End server.

#[export] Instance decision_eq_dec : EqDecision decision.
Proof. solve_decision. Defined.
