(* ===== verification/ServerSpec.v ===== *)
(** * The server as a whole

    The tasks of the server as a step relation over its shared state, from the
    state that startup builds: every atomic access of a backend selection is a
    step of its own, so that selections interleave.  The counters are exact and
    the connection limit is exceeded by less than the number of worker threads,
    only allowed clients are served, connections draw on the buckets of their
    client, and a reload changes backends and nothing else. *)

From S2P Require Import Prelude Float64 Config NetAddr Limiter RateLimit BandwidthManager.
From S2P Require Import Metrics Balancer BalancerSpec BalancerInv BalancerConc Health ProxyProtocol Proxy.
From S2P Require Import Acl Tls Server.
Open Scope Z_scope.

Import BandwidthManager.
#[local] Opaque SimpleLimiter.new SimpleLimiter.check_n.

Section server.
Context `{L : IpNetLib} `{T : Timer} `{RT : Runtime}.

Definition set_rule (sv : Server) (i : nat) (ru : Rule) : Server :=
  {| sv_rules := <[i := ru]> (sv_rules sv); sv_lbs := sv_lbs sv;
     sv_checkers := sv_checkers sv; sv_acceptors := sv_acceptors sv |}.

(** ** The steps of the tasks *)

(** What can be observed of a step: the decision on a connection of rule [i], with
    the clock readings of its check; the report of a health check on an address;
    that the configuration is reconciled. *)
Inductive label :=
| Decides (i : nat) (client : SocketAddr) (created now : Z) (d : decision)
| Reports (i : nat) (a : string) (h : bool)
| Reconciles
| Internal.

(** A task inside [next_backend] makes one atomic access at a time and occupies a
    worker thread; with its result it proceeds.  The remaining steps are those of
    acceptors, connections that end, rate-limited streams, checkers and reloads. *)
Inductive sv_does : label → Server → Server → Prop :=
| sv_accept sv i ru client created now :
    sv_rules sv !! i = Some ru → sockaddr_wf client →
    RateLimiter.timely (ru_rate_limiter ru) (ip client) created now →
    sv_does (Decides i client created now (accept ru client created now).2)
      sv (set_rule sv i (accept ru client created now).1)
| sv_select sv i ru client cs1 cs2 t lb w t' :
    sv_rules sv !! i = Some ru → ru_admitted ru = cs1 ++ (client, t) :: cs2 → returned t = None →
    task_step (ru_lb ru) (ru_world ru) t = (lb, w, t') →
    count inside (cs1 ++ (client, t') :: cs2).*2 <= worker_threads →
    sv_does Internal sv (set_rule sv i
      (with_connections (with_lb ru lb w) (cs1 ++ (client, t') :: cs2) (ru_connections ru)))
| sv_open sv i ru client cs1 cs2 t r local ts :
    sv_rules sv !! i = Some ru → ru_admitted ru = cs1 ++ (client, t) :: cs2 → returned t = Some r →
    sv_does Internal sv (set_rule sv i
      (proceed (with_connections ru (cs1 ++ cs2) (ru_connections ru)) client r local ts).1)
| sv_finish sv i ru cn cs1 cs2 (client_tls : result unit string) (env : proxy_env string) :
    sv_rules sv !! i = Some ru → ru_connections ru = cs1 ++ cn :: cs2 →
    sv_does Internal sv (set_rule sv i
      (with_connections (with_lb ru (ru_lb ru) (finish_connection ru cn client_tls env))
         (ru_admitted ru) (cs1 ++ cs2)))
| sv_draw sv i ru lid n now l :
    sv_rules sv !! i = Some ru → lim_heap (ru_store ru) !! lid = Some l → is_u32 n →
    SimpleLimiter.in_range (now - last_update (state l)) →
    sv_does Internal sv (set_rule sv i (with_bandwidth ru (ru_bandwidth ru)
      {| lim_next := lim_next (ru_store ru);
         lim_heap := <[lid := (SimpleLimiter.check_n l n now).1]> (lim_heap (ru_store ru)) |}))
| sv_check sv ck ru (net : Health.probe string) :
    ck ∈ sv_checkers sv → sv_rules sv !! ck_rule ck = Some ru →
    sv_does (Reports (ck_rule ck) (ck_addr ck) (Health.check net (ck_addr ck) (ck_config ck))) sv (set_rule sv (ck_rule ck)
      (with_lb ru (ru_lb ru)
         (Health.health_round (ru_lb ru) (ck_addr ck) (ck_config ck) net (ru_world ru))))
| sv_reload sv new_config :
    sv_does Reconciles sv (reload new_config sv).

Definition sv_step (sv sv' : Server) : Prop := ∃ l, sv_does l sv sv'.

(** ** The invariant of a rule *)

Definition guards (ru : Rule) : list ConnectionGuard := cn_guard <$> ru_connections ru.

(** The tasks of a rule, as [BalancerConc.v] sees them. *)
Definition rule_sys (ru : Rule) : sys :=
  {| s_lb := ru_lb ru; s_w := ru_world ru; s_tasks := (ru_admitted ru).*2 ++ (THolding <$> guards ru) |}.

(** The connections that hold backend [id]: those that are served, and those that
    have just been given it. *)
Definition held_on (id : nat) (ru : Rule) : Z :=
  count (holds id) (ru_admitted ru).*2 + open_on id (guards ru).

Lemma count_holding id gs : count (holds id) (THolding <$> gs) = open_on id gs.
Proof.
  induction gs as [|g gs IH]; [done|]. rewrite fmap_cons, count_cons, IH, open_on_cons. simpl.
  by case_bool_decide; case_decide.
Qed.

Lemma held_on_count id ru : held_on id ru = count (holds id) (s_tasks (rule_sys ru)).
Proof. unfold held_on. cbn [rule_sys s_tasks]. by rewrite count_app, count_holding. Qed.

(** The buckets a connection of [client] draws on: the client's own for the
    client side, and those kept under the text of the client's address for the
    backend side. *)
Definition own_buckets (bm : BandwidthManager) (cn : connection) : Prop :=
  let a := ip (cn_client cn) in
  let c := cn_config cn in
  bucket_of bm (ClientUpload a) (client_read_limiter c) ∧
  bucket_of bm (ClientDownload a) (client_write_limiter c) ∧
  bucket_of bm (BackendDownload (ip_to_string a)) (backend_read_limiter c) ∧
  bucket_of bm (BackendUpload (ip_to_string a)) (backend_write_limiter c).

(** A rule as its configuration made it, whatever has happened since. *)
Record rule_inv (rule : LBRule) (ru : Rule) : Prop := {
  ri_sys : sys_inv worker_threads (rule_sys ru);
  ri_limit : connection_limit (ru_lb ru) = r_backend_connection_limit rule;
  ri_acl : ru_acl ru = AccessControl.new (r_allow_list rule) (r_deny_list rule);
  ri_admitted : Forall (λ c, AccessControl.is_allowed (ru_acl ru) (ip c) = true) (ru_admitted ru).*1;
  ri_served : Forall (λ cn, AccessControl.is_allowed (ru_acl ru) (ip (cn_client cn)) = true) (ru_connections ru);
  ri_bandwidth : BandwidthManager.inv (ru_bandwidth ru, ru_store ru);
  ri_config : bm_config (ru_bandwidth ru) = default default_bandwidth (r_bandwidth_limit rule);
  ri_buckets : Forall (own_buckets (ru_bandwidth ru)) (ru_connections ru);
  ri_rate : rl_config (ru_rate_limiter ru) = default default_rate_limit (r_rate_limit rule);
  ri_limiters : RateLimiter.limiters_ok (ru_rate_limiter ru);
  ri_peers : Forall sockaddr_wf ((ru_admitted ru).*1 ++ (cn_client <$> ru_connections ru));
}.

(** The numbers of a rule are of the types its fields have. *)
Definition rule_typed (rule : LBRule) : Prop :=
  (∀ l, r_backend_connection_limit rule = Some l → is_usize l) ∧
  config_wf (default default_bandwidth (r_bandwidth_limit rule)) ∧
  RateLimiter.config_typed (default default_rate_limit (r_rate_limit rule)).

Lemma rule_inv_accept rule ru client created now :
  rule_typed rule → sockaddr_wf client →
  RateLimiter.timely (ru_rate_limiter ru) (ip client) created now →
  rule_inv rule ru → rule_inv rule (accept ru client created now).1.
Proof.
  intros (_ & _ & Hty) Hwf Htime []. unfold accept.
  destruct (AccessControl.is_allowed (ru_acl ru) (ip client)) eqn:Hacl; cbn [negb]; [|done].
  pose proof (RateLimiter.check_config (ru_rate_limiter ru) (ip client) created now) as Hc.
  pose proof (RateLimiter.check_ok (ru_rate_limiter ru) (ip client) created now) as Hok.
  rewrite ri_rate0 in Hok. specialize (Hok Hty ri_limiters0 Htime).
  destruct (RateLimiter.check _ _ _ _) as [rl ok]. cbn [fst] in *.
  destruct ok; cbn [negb fst]; split; try done; cbn; try congruence.
  - eapply sys_retask; [exact ri_sys0|done|done| |]; cbn [s_w s_tasks rule_sys ru_admitted with_connections].
    + apply (si_tasks _ _) in ri_sys0. cbn in ri_sys0. apply Forall_app in ri_sys0 as [? ?].
      rewrite fmap_app, !Forall_app. by repeat constructor.
    + intros id. unfold guards. cbn. by rewrite fmap_app, !count_app, !Z.add_0_r.
  - rewrite fmap_app. apply Forall_app. by repeat constructor.
  - rewrite fmap_app, <-(assoc_L app). rewrite Forall_app in ri_peers0 |- *. destruct ri_peers0. split; [done|].
    apply Forall_app. split; [by apply Forall_singleton|done].
Qed.

Lemma rule_inv_select rule ru client cs1 cs2 t lb w t' :
  ru_admitted ru = cs1 ++ (client, t) :: cs2 → task_step (ru_lb ru) (ru_world ru) t = (lb, w, t') →
  count inside (cs1 ++ (client, t') :: cs2).*2 <= worker_threads → rule_inv rule ru →
  rule_inv rule (with_connections (with_lb ru lb w) (cs1 ++ (client, t') :: cs2) (ru_connections ru)).
Proof.
  intros Had Hst Hwk [Hsys Hlim Hacl Hadm Hsv Hbw Hcfg Hbk Hrl Hlims Hpeers]. unfold rule_sys in Hsys.
  rewrite Had, fmap_app, fmap_cons in Hadm, Hpeers. rewrite Had, fmap_app, fmap_cons in Hsys.
  rewrite fmap_app, fmap_cons in Hwk. cbn [fst snd] in *.
  assert (Hsys' : sys_inv worker_threads {| s_lb := lb; s_w := w;
    s_tasks := cs1.*2 ++ t' :: (cs2.*2 ++ (THolding <$> guards ru)) |}).
  { rewrite <-(assoc_L app) in Hsys. eapply sys_inv_task_mid; [exact Hsys|exact Hst|].
    rewrite count_app, count_cons in Hwk. rewrite count_app, count_cons, count_app.
    rewrite (count_none inside (THolding <$> guards ru)); [lia|].
    apply Forall_fmap, Forall_true. done. }
  split; cbn; rewrite ?fmap_app, ?fmap_cons; try done.
  - unfold rule_sys. cbn. rewrite fmap_app, fmap_cons, <-(assoc_L app). exact Hsys'.
  - rewrite <-Hlim. by eapply task_step_limit.
Qed.

Lemma rule_inv_finish rule ru cn cs1 cs2 (client_tls : result unit string) (env : proxy_env string) :
  ru_connections ru = cs1 ++ cn :: cs2 → rule_inv rule ru →
  rule_inv rule (with_connections (with_lb ru (ru_lb ru) (finish_connection ru cn client_tls env))
                   (ru_admitted ru) (cs1 ++ cs2)).
Proof.
  intros Hcs [Hsys Hlim Hacl Had Hsv Hbw Hcfg Hbk Hrl Hlims Hpeers]. rewrite Hcs in *.
  rewrite fmap_app, fmap_cons, !Forall_app, Forall_cons in Hpeers. destruct Hpeers as (Hp0 & Hp1 & _ & Hp2).
  apply Forall_app in Hsv as [Hs1 [_ Hs2]%Forall_cons].
  apply Forall_app in Hbk as [Hb1 [_ Hb2]%Forall_cons].
  split; cbn; try done; [|by apply Forall_app..|by rewrite fmap_app, !Forall_app].
  unfold rule_sys, guards in *. cbn. rewrite Hcs in Hsys. rewrite fmap_app, fmap_cons in Hsys.
  rewrite !fmap_app, fmap_cons, (assoc_L app) in Hsys. rewrite !fmap_app, (assoc_L app).
  unfold finish_connection. apply sys_inv_drop.
  pose proof (Proxy.proxy_connection_run env (cn_backend cn) (cn_config cn) (ru_name ru) (ru_world ru) []) as Hp.
  destruct (Proxy.execute env _) as [done r]. rewrite Hp. cbn [fst].
  pose proof (si_tasks _ _ Hsys) as Htasks.
  destruct (ru_tls ru); [destruct client_tls|]; [by eapply sys_retask|exact Hsys|by eapply sys_retask].
Qed.

Lemma own_buckets_get s bm now st cn :
  own_buckets bm cn → own_buckets (get s bm now st).1.1 cn.
Proof. intros (?&?&?&?). split_and!; by apply get_keeps_bucket. Qed.

(** The four requests of a connection, as requests for slots. *)
Lemma rule_inv_gets bm st (s1 s2 s3 s4 : slot) (ts : nat → Z) :
  let '(bm1, st1, r1) := get s1 bm (ts 0%nat) st in
  let '(bm2, st2, r2) := get s2 bm1 (ts 1%nat) st1 in
  let '(bm3, st3, r3) := get s3 bm2 (ts 2%nat) st2 in
  let '(bm4, st4, r4) := get s4 bm3 (ts 3%nat) st3 in
  bm_config bm4 = bm_config bm ∧
  (BandwidthManager.inv (bm, st) → BandwidthManager.inv (bm4, st4)) ∧
  (∀ cn, own_buckets bm cn → own_buckets bm4 cn) ∧
  bucket_of bm4 s1 r1 ∧ bucket_of bm4 s2 r2 ∧ bucket_of bm4 s3 r3 ∧ bucket_of bm4 s4 r4.
Proof.
  pose proof (get_config s1 bm (ts 0%nat) st) as C1. pose proof (get_bucket_of s1 bm (ts 0%nat) st) as B1.
  pose proof (inv_get s1 (ts 0%nat) bm st) as I1. pose proof (λ cn, own_buckets_get s1 bm (ts 0%nat) st cn) as O1.
  destruct (get s1 bm (ts 0%nat) st) as [[bm1 st1] r1]. cbn [fst snd] in *.
  pose proof (get_config s2 bm1 (ts 1%nat) st1) as C2. pose proof (get_bucket_of s2 bm1 (ts 1%nat) st1) as B2.
  pose proof (inv_get s2 (ts 1%nat) bm1 st1) as I2. pose proof (λ cn, own_buckets_get s2 bm1 (ts 1%nat) st1 cn) as O2.
  pose proof (λ s r, get_keeps_bucket s s2 bm1 (ts 1%nat) st1 r) as K2.
  destruct (get s2 bm1 (ts 1%nat) st1) as [[bm2 st2] r2]. cbn [fst snd] in *.
  pose proof (get_config s3 bm2 (ts 2%nat) st2) as C3. pose proof (get_bucket_of s3 bm2 (ts 2%nat) st2) as B3.
  pose proof (inv_get s3 (ts 2%nat) bm2 st2) as I3. pose proof (λ cn, own_buckets_get s3 bm2 (ts 2%nat) st2 cn) as O3.
  pose proof (λ s r, get_keeps_bucket s s3 bm2 (ts 2%nat) st2 r) as K3.
  destruct (get s3 bm2 (ts 2%nat) st2) as [[bm3 st3] r3]. cbn [fst snd] in *.
  pose proof (get_config s4 bm3 (ts 3%nat) st3) as C4. pose proof (get_bucket_of s4 bm3 (ts 3%nat) st3) as B4.
  pose proof (inv_get s4 (ts 3%nat) bm3 st3) as I4. pose proof (λ cn, own_buckets_get s4 bm3 (ts 3%nat) st3 cn) as O4.
  pose proof (λ s r, get_keeps_bucket s s4 bm3 (ts 3%nat) st3 r) as K4.
  destruct (get s4 bm3 (ts 3%nat) st3) as [[bm4 st4] r4]. cbn [fst snd] in *.
  split_and!; [congruence|by auto..].
Qed.

Lemma rule_inv_open rule ru client cs1 cs2 t r local ts :
  ru_admitted ru = cs1 ++ (client, t) :: cs2 → returned t = Some r → rule_inv rule ru →
  rule_inv rule (proceed (with_connections ru (cs1 ++ cs2) (ru_connections ru)) client r local ts).1.
Proof.
  intros Had Hret [Hsys Hlim Hacl Hadm Hsv Hbw Hcfg Hbk Hrl Hlims Hpeers]. unfold rule_sys in Hsys.
  rewrite Had, fmap_app, fmap_cons in Hadm, Hpeers. rewrite Had, fmap_app, fmap_cons in Hsys. cbn [fst snd] in *.
  rewrite !Forall_app, Forall_cons in Hpeers. destruct Hpeers as [(Hp1 & Hpc & Hp2) Hp0].
  apply Forall_app in Hadm as [Ha1 [Hc Ha2]%Forall_cons].
  pose proof (si_tasks _ _ Hsys) as Htasks. cbn in Htasks.
  rewrite !Forall_app, Forall_cons in Htasks. destruct Htasks as [(Ht1 & Ht & Ht2) Hts].
  destruct r as [[a g]|]; cbn [proceed].
  - destruct t as [| | | | | |g'|]; try done. injection Hret as <- <-. unfold connected.
    pose proof (rule_inv_gets (ru_bandwidth ru) (ru_store ru) (ClientUpload (ip client))
      (ClientDownload (ip client)) (BackendDownload (ip_to_string (ip client)))
      (BackendUpload (ip_to_string (ip client))) ts) as Hg.
    cbn [get] in Hg. cbn [with_connections ru_bandwidth ru_store].
    destruct (get_client_upload_limiter _ _ _ _) as [[bm1 st1] r1].
    destruct (get_client_download_limiter _ _ _ _) as [[bm2 st2] r2].
    destruct (get_backend_download_limiter _ _ _ _) as [[bm3 st3] r3].
    destruct (get_backend_upload_limiter _ _ _ _) as [[bm4 st4] r4].
    destruct Hg as (Hcfg4 & Hinv4 & Hown & B1 & B2 & B3 & B4).
    split; cbn; rewrite ?fmap_app; try done.
    + eapply sys_retask; [exact Hsys|done|done| |]; cbn.
      * rewrite fmap_app, !Forall_app. split; [by split|]. by constructor.
      * intros id. unfold guards. cbn. rewrite fmap_app, !count_app, !count_cons. split; lia.
    + by apply Forall_app.
    + by constructor.
    + by apply Hinv4.
    + by rewrite Hcfg4.
    + constructor; [by split_and!|]. eapply Forall_impl; [exact Hbk|]. auto.
    + rewrite !Forall_app, Forall_cons. by split_and!.
  - destruct t as [| | | | | |g'|]; try done.
    split; cbn; rewrite ?fmap_app; try done.
    + eapply sys_retask; [exact Hsys|done|done| |]; cbn.
      * rewrite fmap_app, !Forall_app. by split.
      * intros id. unfold guards. cbn. rewrite fmap_app, !count_app, !count_cons. cbn [holds chosen]. split; lia.
    + by apply Forall_app.
    + by rewrite !Forall_app.
Qed.

Lemma rule_inv_draw rule ru lid n now l :
  lim_heap (ru_store ru) !! lid = Some l → is_u32 n →
  SimpleLimiter.in_range (now - last_update (state l)) → rule_inv rule ru →
  rule_inv rule (with_bandwidth ru (ru_bandwidth ru)
    {| lim_next := lim_next (ru_store ru);
       lim_heap := <[lid := (SimpleLimiter.check_n l n now).1]> (lim_heap (ru_store ru)) |}).
Proof.
  intros Hl Hn Hr []. split; try done. cbn. eapply bm_inv_step; [|done]. by apply step_draw.
Qed.

Lemma rule_inv_check rule ru a config (net : Health.probe string) :
  rule_inv rule ru →
  rule_inv rule (with_lb ru (ru_lb ru) (Health.health_round (ru_lb ru) a config net (ru_world ru))).
Proof.
  intros [Hsys]. split; try done. cbn.
  exact (sys_inv_step _ _ _ (sys_health worker_threads _ _ _ a (Health.check net a config)) Hsys).
Qed.

Lemma rule_inv_update rule ru configs lb w :
  LoadBalancer.update_backends (ru_lb ru) configs (ru_world ru) = (lb, w) →
  rule_inv rule ru → rule_inv rule (with_lb ru lb w).
Proof.
  intros Hu [Hsys Hlim]. split; try done; cbn.
  - eapply sys_inv_update; [exact Hsys|exact Hu].
  - rewrite <-Hlim. by eapply (op_step_limit _ _ _ (step_update _ _ (guards ru) _ _ _ Hu)).
Qed.

(** ** The invariant of the server *)

Definition sv_inv (config : Config) (sv : Server) : Prop :=
  Forall2 rule_inv (c_rules config) (sv_rules sv).

Lemma sv_inv_set config sv i ru ru' :
  sv_inv config sv → sv_rules sv !! i = Some ru →
  (∀ rule, c_rules config !! i = Some rule → rule_inv rule ru → rule_inv rule ru') →
  sv_inv config (set_rule sv i ru').
Proof.
  intros Hinv Hi Hru. unfold sv_inv in *. cbn.
  destruct (Forall2_lookup_r _ _ _ _ _ Hinv Hi) as (rule & Hrule & Hr).
  rewrite <-(list_insert_id _ _ _ Hrule). apply Forall2_insert; [done|]. by apply Hru.
Qed.

Lemma sv_inv_reload_rule config rule sv : sv_inv config sv → sv_inv config (reload_rule rule sv).
Proof.
  intros Hinv. unfold reload_rule. destruct (sv_lbs sv !! _) as [i|]; [|done].
  destruct (sv_rules sv !! i) as [ru|] eqn:Hi; [|done].
  destruct (LoadBalancer.update_backends _ _ _) as [lb w] eqn:Hu.
  eapply (sv_inv_set _ _ i ru (with_lb ru lb w)); [done|done|]. intros. by eapply rule_inv_update.
Qed.

Lemma sv_inv_step config sv sv' :
  Forall rule_typed (c_rules config) → sv_step sv sv' → sv_inv config sv → sv_inv config sv'.
Proof.
  intros Hty [l Hstep] Hinv. destruct Hstep.
  - eapply sv_inv_set; [done..|]. intros rule Hrule. apply rule_inv_accept; [|done..].
    by eapply Forall_lookup_1.
  - eapply sv_inv_set; [done..|]. intros. by eapply rule_inv_select.
  - eapply sv_inv_set; [done..|]. intros. by eapply rule_inv_open.
  - eapply sv_inv_set; [done..|]. intros. by apply rule_inv_finish.
  - eapply sv_inv_set; [done..|]. intros. by apply rule_inv_draw.
  - eapply sv_inv_set; [done..|]. intros. by apply rule_inv_check.
  - unfold reload. destruct new_config as [c|]; [|done].
    revert sv Hinv. induction (c_rules c) as [|rule rules IH]; intros sv Hinv; [done|].
    apply IH. by apply sv_inv_reload_rule.
Qed.

(** ** Startup *)

(** A rule as the loop over the rules makes it. *)
Record fresh_rule (rule : LBRule) (ru : Rule) : Prop := {
  fr_name : ru_name ru = r_name rule;
  fr_lb : (ru_lb ru, ru_world ru) =
    LoadBalancer.new (r_name rule) (r_backends rule) (r_backend_connection_limit rule) empty_world;
  fr_rate : ru_rate_limiter ru = RateLimiter.new (default default_rate_limit (r_rate_limit rule));
  fr_bandwidth : ru_bandwidth ru = new (default default_bandwidth (r_bandwidth_limit rule));
  fr_store : ru_store ru = {| lim_next := 0; lim_heap := ∅ |};
  fr_acl : ru_acl ru = AccessControl.new (r_allow_list rule) (r_deny_list rule);
  fr_admitted : ru_admitted ru = [];
  fr_connections : ru_connections ru = [];
}.

(** What a successful turn of the loop adds. *)
Lemma init_rule_adds env rule sv sv' :
  init_rule env rule sv = Ok sv' →
  ∃ ru, fresh_rule rule ru ∧ sv_rules sv' = sv_rules sv ++ [ru] ∧
    sv_checkers sv' = sv_checkers sv ++ spawn_checkers (length (sv_rules sv)) rule ∧
    sv_lbs sv' = <[r_name rule := length (sv_rules sv)]> (sv_lbs sv).
Proof.
  unfold init_rule. destruct (LoadBalancer.new _ _ _ _) as [lb w] eqn:Hlb.
  destruct (load_tls env rule) as [tls|]; [|done]. cbn [result_bind].
  destruct (parse_socket_addr _) as [a|]; [|done]. cbn [result_bind].
  destruct (listen_all _ _ _ _) as [ks|]; [|done]. cbn [result_bind]. intros [= <-]. cbn.
  eexists. split; [|done]. by split.
Qed.

Lemma init_rules_fresh env rules pre sv0 sv :
  Forall2 fresh_rule pre (sv_rules sv0) → init_rules env rules sv0 = Ok sv →
  Forall2 fresh_rule (pre ++ rules) (sv_rules sv).
Proof.
  revert pre sv0. induction rules as [|rule rules IH]; intros pre sv0 Hpre; cbn [init_rules].
  { intros [= <-]. by rewrite app_nil_r. }
  destruct (init_rule env rule sv0) as [sv1|] eqn:H1; [|done]. cbn [result_bind].
  destruct (init_rule_adds _ _ _ _ H1) as (ru & Hru & Hrs & _).
  replace (pre ++ rule :: rules) with ((pre ++ [rule]) ++ rules) by by rewrite <-(assoc_L app).
  apply IH. rewrite Hrs. apply Forall2_app; [done|]. by constructor.
Qed.

Lemma startup_fresh env config sv :
  startup env config = Ok sv → Forall2 fresh_rule (c_rules config) (sv_rules sv).
Proof.
  unfold startup. destruct (validate config); [|done].
  by apply (init_rules_fresh env (c_rules config) [] empty_server).
Qed.

Lemma fresh_rule_inv rule ru : rule_typed rule → fresh_rule rule ru → rule_inv rule ru.
Proof.
  intros (Hlim & Hbw & Hrl) [_ Hlb Hrate Hb Hst Hacl Had Hcn].
  pose proof (sys_inv_initial worker_threads (r_name rule) (r_backends rule)
    (r_backend_connection_limit rule)) as Hinv.
  unfold sys_initial in Hinv. rewrite <-Hlb in Hinv.
  assert (Hl : connection_limit (ru_lb ru) = r_backend_connection_limit rule).
  { change (ru_lb ru) with (ru_lb ru, ru_world ru).1. rewrite Hlb. unfold LoadBalancer.new.
    by destruct (LoadBalancer.new_backends _ _ _). }
  split; unfold rule_sys, guards; rewrite ?Hrate, ?Hb, ?Hst, ?Had, ?Hcn; try done.
  apply inv_new; [done|]. intros lid l. cbn. by rewrite lookup_empty.
Qed.

Lemma startup_inv env config sv :
  Forall rule_typed (c_rules config) → startup env config = Ok sv → sv_inv config sv.
Proof.
  intros Ht Hf%startup_fresh. unfold sv_inv. revert Ht.
  induction Hf; intros Ht; [constructor|]. apply Forall_cons in Ht as [Ht1 Ht2].
  constructor; [by apply fresh_rule_inv|by apply IHHf].
Qed.

(** States the server can reach from its configuration. *)
Definition reachable (env : startup_env) (config : Config) (sv : Server) : Prop :=
  ∃ sv0, startup env config = Ok sv0 ∧ rtc sv_step sv0 sv.

Lemma reachable_inv env config sv :
  Forall rule_typed (c_rules config) → reachable env config sv → sv_inv config sv.
Proof.
  intros Ht (sv0 & Hst & Hrun). assert (Hinv : sv_inv config sv0) by by eapply startup_inv.
  clear Hst. induction Hrun; eauto using sv_inv_step.
Qed.

(** C2: from startup on, through any interleaving of accepts, of the atomic
    accesses of concurrent backend selections, of closures, traffic, health reports
    and reloads, every backend's counter is the number of connections of its rule
    that hold it.  A rule's [backend_connection_limit] is checked and taken in two
    accesses, so it is a soft limit: it is exceeded by less than the number of
    worker threads, and by none with a single one. *)
Theorem server_connection_limit env config sv i rule ru id :
  Forall rule_typed (c_rules config) → reachable env config sv →
  c_rules config !! i = Some rule → sv_rules sv !! i = Some ru →
  (∀ b, heap (ru_world ru) !! id = Some b → active_connections b = usize_wrap (held_on id ru)) ∧
  (∀ l, r_backend_connection_limit rule = Some l → l + worker_threads <= USIZE_MODULUS →
     held_on id ru <= l + worker_threads - 1).
Proof.
  intros Ht Hreach Hrule Hru. pose proof (reachable_inv _ _ _ Ht Hreach) as Hinv.
  destruct (Forall2_lookup_lr _ _ _ _ _ _ Hinv Hrule Hru) as [Hsys Hlim]. rewrite held_on_count.
  split; [intros b; apply (si_count _ _ Hsys)|]. intros l Hl Hm.
  pose proof (si_limit _ _ Hsys l (eq_trans Hlim Hl) Hm id) as Hle.
  pose proof (count_nonneg (chosen id) (s_tasks (rule_sys ru))). pose proof worker_threads_pos.
  rewrite Forall_forall in Ht. destruct (Ht rule (list_elem_of_lookup_2 _ _ _ Hrule)) as [Hu _].
  specialize (Hu l Hl). unfold is_uN in Hu. lia.
Qed.

(** C12: every connection that is served, or admitted and waiting for its task,
    comes from an address that the access list of its rule allows. *)
Theorem server_admits_only_allowed env config sv i rule ru :
  Forall rule_typed (c_rules config) → reachable env config sv →
  c_rules config !! i = Some rule → sv_rules sv !! i = Some ru →
  ∀ client, client ∈ (ru_admitted ru).*1 ++ (cn_client <$> ru_connections ru) →
    AccessControl.is_allowed (AccessControl.new (r_allow_list rule) (r_deny_list rule)) (ip client) = true.
Proof.
  intros Ht Hreach Hrule Hru. pose proof (reachable_inv _ _ _ Ht Hreach) as Hinv.
  destruct (Forall2_lookup_lr _ _ _ _ _ _ Hinv Hrule Hru) as [_ _ Hacl Had Hsv].
  intros client Hc. rewrite <-Hacl. apply elem_of_app in Hc as [Hc|Hc].
  - rewrite Forall_forall in Had. by apply Had.
  - apply list_elem_of_fmap in Hc as (cn & -> & Hcn). rewrite Forall_forall in Hsv. by apply Hsv.
Qed.

(** Every open connection draws on the buckets of its own client: for each
    of its four directions it has no limiter when the configuration sets none,
    and otherwise the one bucket of the slot of its client's address, with the
    configured rate.  (The slots of the backend side are those of the client's
    address too, not of the backend's.) *)
Theorem server_connection_buckets env config sv i rule ru cn :
  Forall rule_typed (c_rules config) → reachable env config sv →
  c_rules config !! i = Some rule → sv_rules sv !! i = Some ru → cn ∈ ru_connections ru →
  own_buckets (ru_bandwidth ru) cn ∧
  ∀ s lid, held (ru_bandwidth ru) s = Some lid →
    ∃ rate l, slot_rate (default default_bandwidth (r_bandwidth_limit rule)) s = Some rate ∧
      lim_heap (ru_store ru) !! lid = Some l ∧ bucket_for rate l.
Proof.
  intros Ht Hreach Hrule Hru Hcn. pose proof (reachable_inv _ _ _ Ht Hreach) as Hinv.
  destruct (Forall2_lookup_lr _ _ _ _ _ _ Hinv Hrule Hru) as [_ _ _ _ _ Hbw Hcfg Hbk].
  split; [rewrite Forall_forall in Hbk; by apply Hbk|].
  intros s lid Hs. rewrite <-Hcfg. by apply (inv_held _ Hbw).
Qed.

(** ** Reload *)

(** A rule after a reload: only its load balancer differs, in its backends; the
    backends that were there keep their counters and their health. *)
Definition reloaded (ru ru' : Rule) : Prop :=
  ∃ lb w, ru' = with_lb ru lb w ∧ extends (ru_world ru) w ∧
    lb_rule_name lb = lb_rule_name (ru_lb ru) ∧ current lb = current (ru_lb ru) ∧
    connection_limit lb = connection_limit (ru_lb ru).

#[local] Instance reloaded_preorder : PreOrder reloaded.
Proof.
  split.
  - intros ru. exists (ru_lb ru), (ru_world ru). split; [by destruct ru|done].
  - intros ru1 ru2 ru3 (lb2 & w2 & -> & E2 & N2 & C2 & L2) (lb3 & w3 & -> & E3 & N3 & C3 & L3). cbn in *.
    exists lb3, w3. split_and!; [done|by etrans|congruence..].
Qed.

(** An address of [rule] that was served before is served by the same backend. *)
Definition keeps (rule : LBRule) (ru ru' : Rule) : Prop :=
  ∀ k c id, r_backends rule !! k = Some c →
    find_addr (ru_world ru) (backend_addr_drain c).1 (lb_backends (ru_lb ru)) = Some id →
    lb_backends (ru_lb ru') !! k = Some id.

Lemma update_reloaded rule ruc ru lb w :
  rule_inv rule ru → LoadBalancer.update_backends (ru_lb ru) (r_backends ruc) (ru_world ru) = (lb, w) →
  reloaded ru (with_lb ru lb w) ∧ keeps ruc ru (with_lb ru lb w).
Proof.
  intros [[Hfr Hall _ _ _ _]] Hu. cbn in *. unfold LoadBalancer.update_backends in Hu.
  pose proof (update_all_spec (lb_rule_name (ru_lb ru)) (lb_backends (ru_lb ru)) (r_backends ruc) _ Hfr Hall) as Hs.
  pose proof (λ k c id, update_all_kept (lb_rule_name (ru_lb ru)) (lb_backends (ru_lb ru)) (r_backends ruc) _ k c id
    Hfr Hall) as Hk.
  destruct (LoadBalancer.update_all _ _ (r_backends ruc) _) as [ids w']. injection Hu as <- <-.
  destruct Hs as (Hext & _). split; [by eexists _, _|]. exact Hk.
Qed.

Lemma reload_rule_reloaded config rule sv i ru :
  sv_inv config sv → sv_rules sv !! i = Some ru →
  ∃ ru', sv_rules (reload_rule rule sv) !! i = Some ru' ∧ reloaded ru ru' ∧
    if decide (sv_lbs sv !! r_name rule = Some i) then keeps rule ru ru' else ru' = ru.
Proof.
  intros Hinv Hi. unfold reload_rule.
  destruct (sv_lbs sv !! r_name rule) as [j|]; [|by exists ru].
  destruct (sv_rules sv !! j) as [ru0|] eqn:Hj'.
  2: { exists ru. rewrite decide_False by congruence. done. }
  destruct (LoadBalancer.update_backends _ _ _) as [lb w] eqn:Hu. cbn.
  destruct (decide (i = j)) as [->|Hne].
  - rewrite Hi in Hj'. simplify_eq. rewrite list_lookup_insert_eq by (by eapply lookup_lt_Some).
    destruct (Forall2_lookup_r _ _ _ _ _ Hinv Hi) as (rule' & _ & Hri).
    eexists. split; [done|]. rewrite decide_True by done. by eapply update_reloaded.
  - rewrite list_lookup_insert_ne by done. exists ru. rewrite decide_False by congruence. done.
Qed.

Lemma reload_rule_lbs rule sv : sv_lbs (reload_rule rule sv) = sv_lbs sv.
Proof.
  unfold reload_rule. destruct (sv_lbs sv !! _); [|done]. destruct (sv_rules sv !! _); [|done].
  by destruct (LoadBalancer.update_backends _ _ _).
Qed.

(** The entries of a configuration that a reload applies to rule [i]. *)
Definition naming (sv : Server) (i : nat) (new_config : option Config) : list LBRule :=
  filter (λ rule, sv_lbs sv !! r_name rule = Some i) (from_option c_rules [] new_config).

Lemma reload_effect config sv new_config i ru :
  sv_inv config sv → sv_rules sv !! i = Some ru →
  ∃ ru', sv_rules (reload new_config sv) !! i = Some ru' ∧ reloaded ru ru' ∧
    match naming sv i new_config with
    | [] => ru' = ru
    | [rule] => keeps rule ru ru'
    | _ => True
    end.
Proof.
  unfold reload, naming. destruct new_config as [c|]; cbn [from_option]; [|intros _ Hi; by exists ru].
  revert sv ru. induction (c_rules c) as [|rule rules IH]; intros sv ru Hinv Hi; [by exists ru|].
  destruct (reload_rule_reloaded config rule sv i ru Hinv Hi) as (ru1 & Hi1 & Hr1 & Heq1).
  destruct (IH (reload_rule rule sv) ru1) as (ru2 & Hi2 & Hr2 & Heq2);
    [by apply sv_inv_reload_rule|done|].
  rewrite reload_rule_lbs in Heq2. exists ru2. split; [exact Hi2|]. split; [by etrans|].
  rewrite filter_cons. destruct (decide (sv_lbs sv !! r_name rule = Some i)); [|by subst ru1].
  destruct (filter _ rules); [by subst ru2|done].
Qed.

(** C18: a reload never interferes with what is running: whatever the new file
    says, every rule keeps its access list, rate limiter, buckets, limits, open and
    selecting connections, its round robin position, and the counter and health of
    every backend it had.  A rule that the file does not name is left as it was;
    of one that it names (once), an address that was served stays with the same
    backend, at the place the file gives it, so that the connections open there
    still count and its health is remembered. *)
Theorem reload_spares_connections env config sv new_config i ru :
  Forall rule_typed (c_rules config) → reachable env config sv → sv_rules sv !! i = Some ru →
  ∃ ru', sv_rules (reload new_config sv) !! i = Some ru' ∧ reloaded ru ru' ∧
    match naming sv i new_config with
    | [] => ru' = ru
    | [rule] => keeps rule ru ru'
    | _ => True
    end.
Proof. intros Ht Hreach. eapply reload_effect. by eapply reachable_inv. Qed.

(** ** A connection without interference *)

Lemma set_rule_twice sv i ru ru' : set_rule (set_rule sv i ru) i ru' = set_rule sv i ru'.
Proof. unfold set_rule. cbn. by rewrite list_insert_insert_eq. Qed.

Lemma returned_selecting t : returned t = None ↔ selecting t = true.
Proof. by destruct t. Qed.

Lemma solo_selects c c' sv i ru client cs :
  rtc solo c c' → is_Some (sv_rules sv !! i) →
  let at_ (c : LoadBalancer * World * task) := with_connections (with_lb ru c.1.1 c.1.2) [(client, c.2)] cs in
  rtc sv_step (set_rule sv i (at_ c)) (set_rule sv i (at_ c')).
Proof.
  intros Hrun Hi at_. induction Hrun as [c|[[lb w] t] [[lb1 w1] t1] c2 [Hsel Hst] _ IH]; [done|].
  eapply rtc_l; [|exact IH]. exists Internal. cbn [fst snd] in Hsel, Hst.
  rewrite <-(set_rule_twice sv i (at_ (lb, w, t)) (at_ (lb1, w1, t1))).
  refine (sv_select _ i (at_ (lb, w, t)) client [] [] t lb1 w1 t1 _ _ _ (eq_sym Hst) _).
  - cbn. apply list_lookup_insert_eq. destruct Hi as [x Hx]. by eapply lookup_lt_Some.
  - done.
  - by apply returned_selecting.
  - pose proof worker_threads_pos. change (count inside [t1] <= worker_threads). rewrite count_cons.
    change (count inside []) with 0. destruct (inside t1); lia.
Qed.

Lemma rule_inv_lb rule ru : rule_inv rule ru → lb_wf (ru_lb ru) (ru_world ru).
Proof. intros [[_ Hl _ _ _ Hc]]. by split. Qed.

(** An admitted connection whose selection nothing interferes with becomes what
    [open_connection] makes of it. *)
Lemma connects sv i ru client created now local ts :
  sv_rules sv !! i = Some ru → ru_admitted ru = [] → lb_wf (ru_lb ru) (ru_world ru) →
  sockaddr_wf client → RateLimiter.timely (ru_rate_limiter ru) (ip client) created now →
  (accept ru client created now).2 = Spawned →
  let ru1 := (accept ru client created now).1 in
  rtc sv_step sv (set_rule sv i
    (open_connection (with_connections ru1 [] (ru_connections ru1)) client local ts).1).
Proof.
  intros Hi Had Hwf Hsock Ht Hsp ru1. eapply rtc_l; [eexists; by apply (sv_accept sv i ru client created now)|].
  assert (Hru1 : ru1 = with_connections (with_lb ru1 (ru_lb ru) (ru_world ru)) [(client, TStart)] (ru_connections ru1) ∧
    lb_wf (ru_lb ru1) (ru_world ru1) ∧ ru_lb ru1 = ru_lb ru ∧ ru_world ru1 = ru_world ru).
  { unfold ru1, accept in *. destruct (negb _); [done|]. destruct (RateLimiter.check _ _ _ _) as [rl ok].
    destruct (negb ok); [done|]. cbn in *. rewrite Had. by destruct ru. }
  fold ru1. destruct Hru1 as (Hru1 & Hwf1 & Hlb & Hw).
  pose proof (solo_refines_next_backend _ _ Hwf) as Hsolo.
  unfold open_connection. cbn [with_connections ru_lb ru_world]. rewrite Hlb, Hw.
  destruct (LoadBalancer.next_backend (ru_lb ru) (ru_world ru)) as [[lb w] r] eqn:Hn.
  assert (Hret : returned (result_task r) = Some r).
  { destruct r as [[a g]|]; [|done]. cbn.
    destruct (next_backend_Some _ _ _ _ _ _ Hwf Hn) as (_ & b & _ & _ & Hsel).
    injection Hsel as _ -> Hg. by rewrite Hg. }
  pose proof (solo_selects _ _ sv i ru1 client (ru_connections ru1) Hsolo ltac:(by exists ru)) as Hrun.
  cbn [fst snd] in Hrun. rewrite <-Hru1 in Hrun. etrans; [exact Hrun|]. apply rtc_once. exists Internal.
  set (ru2 := with_connections (with_lb ru1 lb w) [(client, result_task r)] (ru_connections ru1)).
  pose proof (sv_open (set_rule sv i ru2) i ru2 client [] [] (result_task r) r local ts) as Hopen.
  rewrite set_rule_twice in Hopen. apply Hopen; [|done|done].
  cbn. apply list_lookup_insert_eq. by eapply lookup_lt_Some.
Qed.

(** Whoever connects, no backend is available. *)
Definition refuses (ru : Rule) : Prop :=
  ∀ client local ts, (open_connection ru client local ts).2 = None.

(** C39: a reload does not validate: a file that startup would refuse, with a
    known rule and no backends for it, is applied, and from then on every
    connection of that rule is refused. *)
Theorem reload_skips_validation sv i ru rule :
  sv_lbs sv !! r_name rule = Some i → sv_rules sv !! i = Some ru → r_backends rule = [] →
  let c := {| c_rules := [rule]; c_cluster := None; c_log := None |} in
  is_ok (validate c) = false ∧
  ∃ ru', sv_rules (reload (Some c) sv) !! i = Some ru' ∧
    refuses ru'.
Proof.
  intros Hlbs Hi Hb c. split.
  - unfold c, validate. cbn. unfold validate_rule. by rewrite Hb.
  - cbn. unfold reload_rule. rewrite Hlbs, Hi, Hb. unfold LoadBalancer.update_backends.
    cbn [LoadBalancer.update_all sv_rules].
    rewrite list_lookup_insert_eq by (by eapply lookup_lt_Some). eexists. by split.
Qed.

(** A checker probes the address with that configuration. *)
Definition checked (sv : Server) (a : string) (hc : HealthCheckConfig) : Prop :=
  ∃ ck, ck ∈ sv_checkers sv ∧ ck_addr ck = a ∧ ck_config ck = hc.

(** Startup starts a checker for every backend of a rule that has a
    [health_check] section, with that section as its configuration, also when
    the section says [enabled: false]. *)
Theorem startup_checks_every_backend env config sv rule hc b :
  startup env config = Ok sv → rule ∈ c_rules config → r_health_check rule = Some hc →
  b ∈ r_backends rule →
  checked sv (backend_addr_drain b).1 hc.
Proof.
  intros Hst Hrule Hhc Hb. unfold startup in Hst. destruct (validate config); [|done].
  assert (Hmono : ∀ rules sv1 sv2 ck, init_rules env rules sv1 = Ok sv2 →
    ck ∈ sv_checkers sv1 → ck ∈ sv_checkers sv2).
  { induction rules as [|r rules IH]; intros sv1 sv2 ck; cbn [init_rules]; [by intros [= ->]|].
    destruct (init_rule env r sv1) as [sv'|] eqn:H1; [|done]. cbn [result_bind]. intros H2 Hck.
    eapply IH; [exact H2|].
    destruct (init_rule_adds _ _ _ _ H1) as (ru & _ & _ & -> & _). set_solver. }
  revert Hst. generalize (empty_server (L := L)). induction (c_rules config) as [|r rules IH]; intros sv0;
    [by apply not_elem_of_nil in Hrule|]. cbn [init_rules].
  destruct (init_rule env r sv0) as [sv1|] eqn:H1; [|done]. cbn [result_bind]. intros H2.
  apply elem_of_cons in Hrule as [<-|Hrule]; [|by eapply IH].
  destruct (init_rule_adds _ _ _ _ H1) as (ru & _ & _ & Hk & _). eexists. split.
  - eapply Hmono; [exact H2|]. rewrite Hk. apply elem_of_app. right.
    unfold spawn_checkers. rewrite Hhc. apply list_elem_of_fmap. by exists b.
  - done.
Qed.
End server.

(** ** The properties at a concrete server

    One rule with two acceptors; a client is accepted and connected. *)

#[local] Existing Instance Health.exact_timer.

#[export] Instance two_workers : Runtime := {| worker_threads := 2; worker_threads_pos := ltac:(lia) |}.

Definition sample_rule : LBRule := {|
  r_name := "web"; r_listen := "0.0.0.0:80"; r_backends := [Simple "10.1.0.1:80"; Detailed "10.1.0.2:80" true];
  r_protocol := None; r_proxy_protocol := true; r_tls := None; r_backend_tls := None; r_rate_limit := None;
  r_bandwidth_limit := Some {| bw_enabled := true;
    bw_client := Some {| client_upload_per_sec := 100000; client_download_per_sec := 200000 |}; bw_backend := None |};
  r_backend_connection_limit := Some 2;
  r_health_check := Some {| hc_enabled := false; interval_ms := 1000; timeout_ms := 500;
                            hc_protocol := "tcp"; hc_path := None |};
  r_allow_list := None; r_deny_list := Some ["10.0.0.9"] |}.
Definition sample_cfg : Config := {| c_rules := [sample_rule]; c_cluster := None; c_log := None |}.
Definition no_tls : Tls.tls_lib :=
  {| Tls.File := unit; Tls.Cert := unit; Tls.Key := unit; Tls.Acceptor := unit;
     Tls.file_open := λ _, Err "not found"; Tls.pem_certs := λ _, []; Tls.pem_pkcs8_keys := λ _, [];
     Tls.with_single_cert := λ _ _, Err "no certificate" |}.
Definition sample_env : startup_env :=
  {| env_tls_lib := no_tls; env_num_acceptors := 2;
     env_socket _ _ := {| sock_new := Ok tt; sock_set_reuse_port := Err "not supported";
       sock_set_reuse_address := Ok tt; sock_bind := λ _, Ok tt; sock_listen := Ok tt;
       sock_set_nonblocking := Ok tt; sock_from_std := Ok tt |} |}.
Definition sample_peer : SocketAddr := {| ip := V4 [10; 0; 0; 1]; port := 51000 |}.

Definition sample_ru0 : Rule :=
  let (lb, w) := LoadBalancer.new "web" (r_backends sample_rule) (Some 2) empty_world in
  {| ru_name := "web"; ru_lb := lb; ru_world := w; ru_rate_limiter := RateLimiter.new default_rate_limit;
     ru_bandwidth := new (default default_bandwidth (r_bandwidth_limit sample_rule));
     ru_store := {| lim_next := 0; lim_heap := ∅ |}; ru_tls := false; ru_backend_tls := None;
     ru_proxy_protocol := true; ru_acl := AccessControl.new None (Some ["10.0.0.9"]);
     ru_admitted := []; ru_connections := [] |}.
Definition sample_sv0 : Server :=
  {| sv_rules := [sample_ru0]; sv_lbs := {["web" := 0%nat]};
     sv_checkers := spawn_checkers 0 sample_rule; sv_acceptors := [0; 0]%nat |}.
Definition sample_ru1 : Rule := (accept sample_ru0 sample_peer 0 0).1.
Definition sample_ru2 : Rule :=
  (open_connection (with_connections sample_ru1 [] (ru_connections sample_ru1)) sample_peer None (λ _, 0)).1.
Definition sample_sv : Server := set_rule sample_sv0 0 sample_ru2.

Lemma sample_typed : Forall rule_typed (c_rules sample_cfg).
Proof.
  constructor; [|constructor]. split.
  - intros l [= <-]. unfold is_uN. lia.
  - split; [intros [] rate; cbn; intros [= <-]|]; unfold RateLimiter.config_typed, is_uN; cbn; lia.
Qed.

Lemma sample_startup : startup sample_env sample_cfg = Ok sample_sv0.
Proof. reflexivity. Qed.

Lemma sample_peer_wf : sockaddr_wf sample_peer.
Proof. split; [split; [done|]; repeat constructor; unfold is_uN; lia|]. unfold is_uN. cbn. lia. Qed.

Lemma sample_reachable : reachable sample_env sample_cfg sample_sv.
Proof.
  exists sample_sv0. split; [apply sample_startup|].
  refine (connects sample_sv0 0 sample_ru0 sample_peer 0 0 None (λ _, 0) eq_refl eq_refl _ sample_peer_wf _ eq_refl).
  - split; [unfold is_uN; cbn; lia|]. repeat constructor; by eexists.
  - split; [unfold SimpleLimiter.in_range, NANOS_PER_SEC; lia|]. intros l. cbn. by rewrite lookup_empty.
Qed.

Lemma server_connection_limit_witness : held_on 0 sample_ru2 = 1 ∧ held_on 0 sample_ru2 <= 2 + 2 - 1.
Proof.
  split; [reflexivity|].
  refine (proj2 (server_connection_limit sample_env sample_cfg sample_sv 0 sample_rule sample_ru2 0
    sample_typed sample_reachable eq_refl eq_refl) 2 eq_refl _).
  unfold USIZE_MODULUS. cbn. lia.
Defined.

Lemma server_admits_only_allowed_witness :
  AccessControl.is_allowed (AccessControl.new None (Some ["10.0.0.9"])) (ip sample_peer) = true.
Proof.
  refine (server_admits_only_allowed sample_env sample_cfg sample_sv 0 sample_rule sample_ru2
    sample_typed sample_reachable eq_refl eq_refl sample_peer _). left.
Defined.

Lemma server_connection_buckets_witness :
  ∃ cn, cn ∈ ru_connections sample_ru2 ∧ own_buckets (ru_bandwidth sample_ru2) cn.
Proof.
  eexists. split; [left|].
  refine (proj1 (server_connection_buckets sample_env sample_cfg sample_sv 0 sample_rule sample_ru2 _
    sample_typed sample_reachable eq_refl eq_refl _)). left.
Defined.

(** The file moves the backend that the connection is on behind a new one. *)
Definition moved_rule : LBRule := {|
  r_name := "web"; r_listen := ""; r_backends := [Simple "10.1.0.3:80"; Detailed "10.1.0.1:80" true];
  r_protocol := None; r_proxy_protocol := false; r_tls := None; r_backend_tls := None; r_rate_limit := None;
  r_bandwidth_limit := None; r_backend_connection_limit := None; r_health_check := None;
  r_allow_list := None; r_deny_list := None |}.

Lemma reload_spares_connections_witness :
  let c := {| c_rules := [moved_rule]; c_cluster := None; c_log := None |} in
  ∃ ru', sv_rules (reload (Some c) sample_sv) !! 0%nat = Some ru' ∧ reloaded sample_ru2 ru' ∧
    lb_backends (ru_lb ru') !! 1%nat = Some 0%nat.
Proof.
  intros c. destruct (reload_spares_connections sample_env sample_cfg sample_sv (Some c) 0 sample_ru2
    sample_typed sample_reachable eq_refl) as (ru' & H1 & H2 & H3).
  exists ru'. split; [exact H1|]. split; [exact H2|].
  exact (H3 1%nat (Detailed "10.1.0.1:80" true) 0%nat eq_refl eq_refl).
Defined.

Lemma reload_skips_validation_witness :
  let rule := {| r_name := "web"; r_listen := ""; r_backends := []; r_protocol := None; r_proxy_protocol := false;
    r_tls := None; r_backend_tls := None; r_rate_limit := None; r_bandwidth_limit := None;
    r_backend_connection_limit := None; r_health_check := None; r_allow_list := None; r_deny_list := None |} in
  is_ok (validate {| c_rules := [rule]; c_cluster := None; c_log := None |}) = false.
Proof.
  intros rule. exact (proj1 (reload_skips_validation sample_sv 0 sample_ru2 rule eq_refl eq_refl eq_refl)).
Defined.

Lemma startup_checks_every_backend_witness :
  ∃ ck, ck ∈ sv_checkers sample_sv0 ∧ ck_addr ck = "10.1.0.2:80" ∧ hc_enabled (ck_config ck) = false.
Proof.
  destruct (startup_checks_every_backend sample_env sample_cfg sample_sv0 sample_rule _
    (Detailed "10.1.0.2:80" true) sample_startup ltac:(left) eq_refl ltac:(right; left))
    as (ck & Hck & Ha & Hc).
  exists ck. split; [exact Hck|]. split; [exact Ha|]. rewrite Hc. reflexivity.
Defined.
