(* ===== verification/ServerClients.v ===== *)
(** * What one client gets from the server

    The theorems on the rate limiter and on the rate-limited streams, carried
    to the running server: connections of different clients share no bucket (nor
    do connections of different clients to one backend, although the backend
    limits are documented as per backend), the bytes of one client in one
    direction obey the configured bandwidth however many connections it opens, up
    to what resumed polls move beyond their permits, and its admitted connections
    obey the configured rate. *)

From S2P Require Import Prelude Float64 Config NetAddr AddrText Limiter RateLimit BandwidthManager.
From S2P Require Import Bandwidth BandwidthSpec Metrics Balancer BalancerSpec BalancerInv BalancerConc Health.
From S2P Require Import ProxyProtocol Proxy Acl Tls Server ServerSpec.
Open Scope Z_scope.

Import BandwidthManager.
#[local] Opaque SimpleLimiter.new SimpleLimiter.check_n.

(** The directions in which a connection is limited. *)
Inductive direction := FromClient | ToClient | FromBackend | ToBackend.
#[export] Instance direction_eq_dec : EqDecision direction.
Proof. solve_decision. Defined.

Definition limiter_of (d : direction) (c : ProxyConfig) : option nat :=
  match d with
  | FromClient => client_read_limiter c
  | ToClient => client_write_limiter c
  | FromBackend => backend_read_limiter c
  | ToBackend => backend_write_limiter c
  end.

(** The slot of the bandwidth manager that limits a direction of a client. *)
Definition slot_of (d : direction) (a : IpAddr) : slot :=
  match d with
  | FromClient => ClientUpload a
  | ToClient => ClientDownload a
  | FromBackend => BackendDownload (ip_to_string a)
  | ToBackend => BackendUpload (ip_to_string a)
  end.

Lemma slot_of_inj d d' a b :
  ip_wf a → ip_wf b → slot_of d a = slot_of d' b → d = d' ∧ a = b.
Proof.
  intros Ha Hb. destruct d, d'; simpl; intros Heq; simplify_eq; try done;
    (split; [done|by apply ip_to_string_inj]).
Qed.

Section clients.
Context `{L : IpNetLib} `{T : Timer} `{RT : Runtime}.

Lemma own_buckets_of bm cn d :
  own_buckets bm cn → bucket_of bm (slot_of d (ip (cn_client cn))) (limiter_of d (cn_config cn)).
Proof. intros (?&?&?&?). by destruct d. Qed.

Lemma limiter_held bm cn d lid :
  own_buckets bm cn → limiter_of d (cn_config cn) = Some lid →
  held bm (slot_of d (ip (cn_client cn))) = Some lid.
Proof.
  intros Hown%(own_buckets_of _ _ d) Hl. rewrite Hl in Hown. unfold bucket_of in Hown.
  destruct (slot_rate _ _); [|done]. by destruct Hown.
Qed.

Lemma held_limiter bm st cn d lid :
  BandwidthManager.inv (bm, st) → own_buckets bm cn →
  held bm (slot_of d (ip (cn_client cn))) = Some lid → limiter_of d (cn_config cn) = Some lid.
Proof.
  intros Hinv Hown%(own_buckets_of _ _ d) Hh. unfold bucket_of in Hown.
  destruct (inv_held _ Hinv _ _ Hh) as (rate & l & Hr & _). cbn [fst] in Hr. rewrite Hr, Hh in Hown.
  by destruct Hown.
Qed.

(** ** The state of a rule is well-typed *)

(** Every number is of its type and every handle is live: the counters are
    [usize], the token counts are numbers within their bursts, the backends the
    balancer lists, those a selecting task refers to and the guards of the
    connections point to backends, the limiters of the connections point to
    buckets. *)
Record well_typed (ru : Rule) : Prop := {
  wt_current : is_usize (current (ru_lb ru));
  wt_counters : ∀ id b, heap (ru_world ru) !! id = Some b → is_usize (active_connections b);
  wt_backends : Forall (λ id, is_Some (heap (ru_world ru) !! id)) (lb_backends (ru_lb ru));
  wt_tasks : Forall (task_ok (ru_world ru)) (ru_admitted ru).*2;
  wt_guards : Forall (λ g, is_Some (heap (ru_world ru) !! g_counter g)) (guards ru);
  wt_rate : map_Forall (λ _, SimpleLimiter.wf) (limiters (ru_rate_limiter ru));
  wt_buckets : ∀ cn d lid, cn ∈ ru_connections ru → limiter_of d (cn_config cn) = Some lid →
    ∃ l, lim_heap (ru_store ru) !! lid = Some l ∧ SimpleLimiter.wf l;
  wt_peers : Forall sockaddr_wf ((ru_admitted ru).*1 ++ (cn_client <$> ru_connections ru));
}.

Lemma rule_inv_typed rule ru : rule_inv rule ru → well_typed ru.
Proof.
  intros [[_ Hbk Htasks Hcnt _ Hcur] _ _ _ _ Hbw _ Hown _ Hrl Hpeers]. cbn in *.
  apply Forall_app in Htasks as [Htasks Hg]. split; try done.
  - intros id b Hb. rewrite (Hcnt _ _ Hb). apply usize_wrap_range.
  - rewrite Forall_fmap in Hg. exact Hg.
  - intros a l Hl. by destruct (Hrl a l Hl).
  - intros cn d lid Hcn Hlim. rewrite Forall_forall in Hown.
    destruct (inv_held _ Hbw _ _ (limiter_held _ _ _ _ (Hown _ Hcn) Hlim)) as (rate & l & _ & Hl & Hb).
    exists l. split; [done|]. by destruct Hb as (_ & _ & ?).
Qed.

(** C19: the state of a server started from a well-typed configuration stays
    well-typed whatever its tasks do: counters and cursors are [usize], token
    counts are finite and at most the burst, peer addresses have their four or
    sixteen octets, and no listed backend, backend of a selection, connection guard
    or connection limiter dangles. *)
Theorem server_well_typed env config sv :
  Forall rule_typed (c_rules config) → reachable env config sv → Forall well_typed (sv_rules sv).
Proof.
  intros Ht Hreach. pose proof (reachable_inv _ _ _ Ht Hreach) as Hinv. unfold sv_inv in Hinv.
  clear Ht Hreach. induction Hinv; constructor; [by eapply rule_inv_typed|done].
Qed.

(** ** Clients do not share buckets *)

Lemma peer_wf rule ru cn : rule_inv rule ru → cn ∈ ru_connections ru → ip_wf (ip (cn_client cn)).
Proof.
  intros Hri Hcn. pose proof (ri_peers _ _ Hri) as Hp. rewrite Forall_forall in Hp.
  apply (Hp (cn_client cn)). apply elem_of_app. right. apply list_elem_of_fmap. eauto.
Qed.

Lemma limiter_owner rule ru cn cn' d d' lid :
  rule_inv rule ru → cn ∈ ru_connections ru → cn' ∈ ru_connections ru →
  limiter_of d (cn_config cn) = Some lid → limiter_of d' (cn_config cn') = Some lid →
  d = d' ∧ ip (cn_client cn) = ip (cn_client cn').
Proof.
  intros Hri Hcn Hcn' Hl Hl'. pose proof (ri_buckets _ _ Hri) as Hown. rewrite Forall_forall in Hown.
  apply slot_of_inj; [by eapply peer_wf..|].
  eapply (inv_inj _ (ri_bandwidth _ _ Hri)); by apply limiter_held; [apply Hown|].
Qed.

Lemma limiter_shared rule ru cn cn' d d' lid :
  rule_inv rule ru → cn ∈ ru_connections ru → cn' ∈ ru_connections ru →
  limiter_of d (cn_config cn) = Some lid →
  (limiter_of d' (cn_config cn') = Some lid ↔ d = d' ∧ ip (cn_client cn) = ip (cn_client cn')).
Proof.
  intros Hri Hcn Hcn' Hl. split; [by eapply limiter_owner|]. intros [<- Hip].
  pose proof (ri_buckets _ _ Hri) as Hown. rewrite Forall_forall in Hown.
  eapply held_limiter; [apply (ri_bandwidth _ _ Hri)|by apply Hown|].
  rewrite <-Hip. by apply limiter_held; [apply Hown|].
Qed.

Definition client_side (d : direction) : bool :=
  match d with FromClient | ToClient => true | FromBackend | ToBackend => false end.

(** C13: in any state the server can reach, another connection of a rule draws on
    the bucket that limits a connection towards its client exactly when it is of
    the same client address and draws in the same direction: one client's traffic
    never consumes the client bandwidth of another, and a client gains nothing by
    opening more connections. *)
Theorem clients_isolated env config sv i rule ru cn cn' d d' lid :
  Forall rule_typed (c_rules config) → reachable env config sv →
  c_rules config !! i = Some rule → sv_rules sv !! i = Some ru →
  cn ∈ ru_connections ru → cn' ∈ ru_connections ru → client_side d = true →
  limiter_of d (cn_config cn) = Some lid →
  (limiter_of d' (cn_config cn') = Some lid ↔ d = d' ∧ ip (cn_client cn) = ip (cn_client cn')).
Proof.
  intros Ht Hreach Hrule Hru Hcn Hcn' _ Hl. pose proof (reachable_inv _ _ _ Ht Hreach) as Hinv.
  eapply limiter_shared; [|done..]. exact (Forall2_lookup_lr _ _ _ _ _ _ Hinv Hrule Hru).
Qed.

(** C17: the backend limits are documented as limits per backend, but their
    buckets are kept under the text of the client's address: two connections share
    the bucket that limits them towards their backends exactly when they are of the
    same client, whichever backends they are on.  So the connections of different
    clients to one backend never share a limit, and those of one client to
    different backends do. *)
Theorem backend_limits_are_per_client env config sv i rule ru cn cn' d lid :
  Forall rule_typed (c_rules config) → reachable env config sv →
  c_rules config !! i = Some rule → sv_rules sv !! i = Some ru →
  cn ∈ ru_connections ru → cn' ∈ ru_connections ru → client_side d = false →
  limiter_of d (cn_config cn) = Some lid →
  (limiter_of d (cn_config cn') = Some lid ↔ ip (cn_client cn) = ip (cn_client cn')).
Proof.
  intros Ht Hreach Hrule Hru Hcn Hcn' _ Hl. pose proof (reachable_inv _ _ _ Ht Hreach) as Hinv.
  rewrite (limiter_shared rule ru cn cn' d d lid); [naive_solver| |done..].
  exact (Forall2_lookup_lr _ _ _ _ _ _ Hinv Hrule Hru).
Qed.

(** ** The bandwidth of one client *)

Section bandwidth.
Context `{IO : AsyncIo} `{!AsyncIoLaws IO}.

(** The two streams [proxy_connection] wraps, from the sockets of the client and
    the backend. *)
Definition relay_streams (c : ProxyConfig) (client backend : Stream) : list RateLimitedStream.RateLimitedStream :=
  [RateLimitedStream.new client (client_read_limiter c) (client_write_limiter c);
   RateLimitedStream.new backend (backend_read_limiter c) (backend_write_limiter c)].

(** The streams of all connections of a rule: the client's stream of connection
    [k] at [2 * k], the backend's at [2 * k + 1]. *)
Definition rule_net (ru : Rule) (socks : connection → Stream * Stream) : net :=
  {| streams := mjoin ((λ cn, relay_streams (cn_config cn) (socks cn).1 (socks cn).2) <$> ru_connections ru);
     store := ru_store ru |}.

Definition stream_index (e : event) : nat := match e with PollRead i _ _ | PollWrite i _ _ => i end.

(** The connection a poll is about, and its direction. *)
Definition poll_of (cns : list connection) (e : event) : option (connection * direction) :=
  cn ← cns !! Nat.div2 (stream_index e);
  Some (cn, match e, Nat.even (stream_index e) with
            | PollRead _ _ _, true => FromClient
            | PollWrite _ _ _, true => ToClient
            | PollRead _ _ _, false => FromBackend
            | PollWrite _ _ _, false => ToBackend
            end).

(** The bytes a poll moves. *)
Definition moved (n : net) (e : event) : Z :=
  match streams n !! stream_index e, e with
  | Some s, PollRead _ buf ts =>
      let '(_, buf', _, _) := RateLimitedStream.poll_read s buf ts (store n) in
      len (filled buf') - len (filled buf)
  | Some s, PollWrite _ d ts =>
      let '(_, _, o) := RateLimitedStream.poll_write s d ts (store n) in accepted o id
  | None, _ => 0
  end.

(** The bytes that the connections of client [a] move in direction [d] in a run
    of polls of any connections. *)
Fixpoint client_bytes (cns : list connection) (a : IpAddr) (d : direction) (n : net) (es : list event) : Z :=
  match es with
  | [] => 0
  | e :: es =>
      match poll_of cns e with
      | Some (cn, d') => if decide (ip (cn_client cn) = a ∧ d' = d) then moved n e else 0
      | None => 0
      end + client_bytes cns a d (exec 0 n e).1 es
  end.

Lemma exec_net lid lid' n e : (exec lid n e).1 = (exec lid' n e).1.
Proof.
  destruct e as [i buf ts|i d ts]; simpl; destruct (streams n !! i) as [s|]; try done.
  - by destruct (RateLimitedStream.poll_read s buf ts (store n)) as [[[s' buf'] st] o].
  - by destruct (RateLimitedStream.poll_write s d ts (store n)) as [[s' st] o].
Qed.

(** The limiters of the stream at index [i]. *)
Definition limiters_at (cns : list connection) (i : nat) : option (option nat * option nat) :=
  cn ← cns !! Nat.div2 i;
  Some (if Nat.even i then (client_read_limiter (cn_config cn), client_write_limiter (cn_config cn))
        else (backend_read_limiter (cn_config cn), backend_write_limiter (cn_config cn))).

Definition aligned (cns : list connection) (n : net) : Prop :=
  ∀ i, (λ s, (RateLimitedStream.read_limiter s, RateLimitedStream.write_limiter s)) <$> streams n !! i
       = limiters_at cns i.

Lemma rule_net_aligned ru socks : aligned (ru_connections ru) (rule_net ru socks).
Proof.
  unfold aligned, rule_net, limiters_at. cbn [streams].
  induction (ru_connections ru) as [|cn cns IH]; intros i; [done|].
  rewrite fmap_cons. destruct i as [|[|i]]; [done|done|]. cbn [Nat.div2 Nat.even]. apply IH.
Qed.

Lemma aligned_exec cns lid n e : aligned cns n → aligned cns (exec lid n e).1.
Proof.
  intros Hal i. rewrite <-Hal. destruct e as [j buf ts|j d ts]; simpl;
    (destruct (streams n !! j) as [s|] eqn:Hj; [|done]).
  - destruct (RateLimitedStream.poll_read s buf ts (store n)) as [[[s' buf'] st] o] eqn:Hp. cbn [fst streams].
    destruct (decide (i = j)) as [->|]; [|by rewrite list_lookup_insert_ne].
    rewrite list_lookup_insert_eq by (by eapply lookup_lt_Some). rewrite Hj. simpl.
    by destruct (poll_read_frame _ _ _ _ _ _ _ _ Hp) as ([-> ->] & _).
  - destruct (RateLimitedStream.poll_write s d ts (store n)) as [[s' st] o] eqn:Hp. cbn [fst streams].
    destruct (decide (i = j)) as [->|]; [|by rewrite list_lookup_insert_ne].
    rewrite list_lookup_insert_eq by (by eapply lookup_lt_Some). rewrite Hj. simpl.
    by destruct (poll_write_frame _ _ _ _ _ _ _ Hp) as ([-> ->] & _).
Qed.

(** Counting by owner is counting by bucket, when the bucket is the owner's. *)
Lemma exec_owner cns a d lid n e :
  aligned cns n →
  (∀ cn d', cn ∈ cns → limiter_of d' (cn_config cn) = Some lid ↔ ip (cn_client cn) = a ∧ d' = d) →
  (exec lid n e).2 =
    match poll_of cns e with
    | Some (cn, d') => if decide (ip (cn_client cn) = a ∧ d' = d) then moved n e else 0
    | None => 0
    end.
Proof.
  intros Hal Hown. specialize (Hal (stream_index e)). unfold poll_of, limiters_at, moved in *.
  destruct (cns !! Nat.div2 (stream_index e)) as [cn|] eqn:Hcn; cbn [mbind option_bind] in *.
  2: { destruct e; simpl in *; by destruct (streams n !! i). }
  apply list_elem_of_lookup_2 in Hcn.
  destruct e as [i buf ts|i w ts]; cbn [exec stream_index] in *;
    (destruct (streams n !! i) as [s|]; [|done]); simpl in Hal;
    destruct (Nat.even i); injection Hal as Hr Hw.
  1,2: destruct (RateLimitedStream.poll_read s buf ts (store n)) as [[[s' buf'] st] o]; cbn [snd];
    apply decide_ext; rewrite Hr;
    first [exact (Hown cn FromClient Hcn)|exact (Hown cn FromBackend Hcn)].
  all: destruct (RateLimitedStream.poll_write s w ts (store n)) as [[s' st] o]; cbn [snd];
    apply decide_ext; rewrite Hw;
    first [exact (Hown cn ToClient Hcn)|exact (Hown cn ToBackend Hcn)].
Qed.

Lemma run_owner cns a d lid n es :
  aligned cns n →
  (∀ cn d', cn ∈ cns → limiter_of d' (cn_config cn) = Some lid ↔ ip (cn_client cn) = a ∧ d' = d) →
  client_bytes cns a d n es = (run lid n es).2.
Proof.
  intros Hal Hown. revert n Hal. induction es as [|e es IH]; intros n Hal; [done|]. cbn [client_bytes run].
  rewrite <-(exec_owner cns a d lid n e Hal Hown), (exec_net 0 lid).
  rewrite IH by by apply aligned_exec.
  destruct (exec lid n e) as [n1 k]. cbn [fst snd]. by destruct (run lid n1 es).
Qed.

Lemma rule_net_ok rule ru socks : rule_inv rule ru → net_ok (rule_net ru socks).
Proof.
  intros Hri. pose proof (wt_buckets _ (rule_inv_typed _ _ Hri)) as Hb. unfold net_ok, rule_net. cbn.
  apply Forall_forall. intros s (ss & Hs & Hss)%list_elem_of_join.
  apply list_elem_of_fmap in Hss as (cn & -> & Hcn).
  unfold relay_streams in Hs. rewrite !elem_of_cons in Hs.
  assert (Hlim : ∀ d, limiter_ok (ru_store ru) (limiter_of d (cn_config cn)) None).
  { intros d lid Hd. destruct (Hb cn d lid Hcn Hd) as (l & Hl & _). by split; [exists l|]. }
  destruct Hs as [->|[->|[]%elem_of_nil]].
  - split; [apply (Hlim FromClient)|apply (Hlim ToClient)].
  - split; [apply (Hlim FromBackend)|apply (Hlim ToBackend)].
Qed.

(** C3: in any state the server can reach, with whatever sockets and buffers, the
    bytes that all the connections of one client together move in one limited
    direction are at most the 64 KiB burst plus the configured rate (at least 1024
    bytes per second) times the time since the bucket was last used, up to the
    rounding of the token arithmetic, plus the bytes that resumed polls move beyond
    the permits they had waited for (none, if a waiting stream is polled again with
    a buffer its permit covers), whatever the connections of other clients and the
    other directions do. *)
Theorem client_bandwidth_bound env config sv i rule ru socks cn d rate lid l es :
  Forall rule_typed (c_rules config) → reachable env config sv →
  c_rules config !! i = Some rule → sv_rules sv !! i = Some ru →
  slot_rate (default default_bandwidth (r_bandwidth_limit rule)) (slot_of d (ip (cn_client cn))) = Some rate →
  cn ∈ ru_connections ru → limiter_of d (cn_config cn) = Some lid → lim_heap (ru_store ru) !! lid = Some l →
  let n := rule_net ru socks in
  let ts := mjoin (readings <$> es) in
  let t0 := last_update (state l) in
  SimpleLimiter.nondecreasing t0 ts → SimpleLimiter.in_range (SimpleLimiter.end_time t0 ts - t0) →
  2 ^ 53 * NANOS_PER_SEC * client_bytes (ru_connections ru) (ip (cn_client cn)) d n es <=
  2 ^ 53 * NANOS_PER_SEC * (65536 + overdrawn lid n es)
  + (2 ^ 53 + 4) * (Z.max rate 1024 * (SimpleLimiter.end_time t0 ts - t0))
  + len ts * (NANOS_PER_SEC * 65536) ∧
  (stable_run lid n es → overdrawn lid n es = 0).
Proof.
  intros Ht Hreach Hrule Hru Hrate Hcn Hlim Hl n ts t0 Hmono Hr.
  pose proof (reachable_inv _ _ _ Ht Hreach) as Hinv.
  pose proof (Forall2_lookup_lr _ _ _ _ _ _ Hinv Hrule Hru) as Hri.
  pose proof (ri_buckets _ _ Hri) as Hown. rewrite Forall_forall in Hown.
  pose proof (limiter_held _ _ _ _ (Hown _ Hcn) Hlim) as Hheld.
  destruct (inv_held _ (ri_bandwidth _ _ Hri) _ _ Hheld) as (rate' & l' & Hrate' & Hl' & E1 & E2 & Hwf).
  cbn [fst snd] in *. rewrite (ri_config _ _ Hri) in Hrate'. simplify_eq.
  pose proof (rule_net_ok _ _ socks Hri) as Hok.
  split; [|by destruct (run_charged lid n es l Hok Hl)].
  rewrite (run_owner (ru_connections ru) (ip (cn_client cn)) d lid).
  - unfold BURST in E2. rewrite <-E1, <-E2. by apply run_bound.
  - apply rule_net_aligned.
  - intros cn' d' Hcn'. split.
    + intros Hl2. by destruct (limiter_owner _ _ _ _ _ _ _ Hri Hcn Hcn' Hlim Hl2).
    + intros [Hip ->]. eapply held_limiter; [apply (ri_bandwidth _ _ Hri)|by apply Hown|]. by rewrite Hip.
Qed.

End bandwidth.

(** ** The connection rate of one client *)

(** A run of the server, with what its acceptors decide. *)
Inductive sv_run : Server → list label → Server → Prop :=
| run_nil sv : sv_run sv [] sv
| run_cons sv l sv' ls sv'' : sv_does l sv sv' → sv_run sv' ls sv'' → sv_run sv (l :: ls) sv''.

(** The connections of rule [i] that reach its rate limiter, and its verdicts. *)
Definition rate_check (i : nat) (l : label) : option (RateLimiter.attempt * bool) :=
  match l with
  | Decides j client created now d =>
      if decide (j = i ∧ d ≠ DeniedByAcl)
      then Some ({| RateLimiter.at_ip := ip client; RateLimiter.at_created := created;
                    RateLimiter.at_now := now |}, bool_decide (d = Spawned))
      else None
  | Reports _ _ _ | Reconciles | Internal => None
  end.
Definition rate_checks (i : nat) (ls : list label) : list (RateLimiter.attempt * bool) :=
  omap (rate_check i) ls.

(** The connections of client [a] that rule [i] spawns a task for. *)
Fixpoint spawned (i : nat) (a : IpAddr) (ls : list label) : Z :=
  match ls with
  | Decides j client _ _ Spawned :: ls =>
      (if decide (j = i ∧ ip client = a) then 1 else 0) + spawned i a ls
  | _ :: ls => spawned i a ls
  | [] => 0
  end.

Lemma spawned_admitted i a ls :
  spawned i a ls = RateLimiter.admitted a (rate_checks i ls).*1 (rate_checks i ls).*2.
Proof.
  induction ls as [|[j client created now d| | |] ls IH]; [done| |done..].
  unfold rate_checks in *. cbn [spawned omap list_omap rate_check]. rewrite IH.
  destruct d; repeat case_decide; cbn; repeat case_bool_decide; cbn; solve [lia|tauto|naive_solver].
Qed.

Lemma reload_rate_limiter new_config sv i ru :
  sv_rules sv !! i = Some ru →
  ∃ ru', sv_rules (reload new_config sv) !! i = Some ru' ∧ ru_rate_limiter ru' = ru_rate_limiter ru.
Proof.
  unfold reload. destruct new_config as [c|]; [|by exists ru].
  revert sv ru. induction (c_rules c) as [|rule rules IH]; intros sv ru Hi; [by exists ru|]. cbn [foldl].
  assert (∃ ru1, sv_rules (reload_rule rule sv) !! i = Some ru1 ∧ ru_rate_limiter ru1 = ru_rate_limiter ru)
    as (ru1 & Hi1 & <-); [|by apply IH].
  unfold reload_rule. destruct (sv_lbs sv !! _) as [j|]; [|by exists ru].
  destruct (sv_rules sv !! j) as [ruj|] eqn:Hj; [|by exists ru].
  destruct (LoadBalancer.update_backends _ _ _) as [lb w]. cbn [sv_rules].
  rewrite list_lookup_insert. case_decide as Hd; [|by exists ru]. destruct Hd as [-> _].
  rewrite Hj in Hi. simplify_eq. by eexists.
Qed.

Lemma set_rule_rate_limiter sv i j ru ru' ruj :
  sv_rules sv !! i = Some ru → sv_rules sv !! j = Some ruj →
  ru_rate_limiter ru' = ru_rate_limiter ruj →
  ∃ ru1, sv_rules (set_rule sv j ru') !! i = Some ru1 ∧ (ru_rate_limiter ru, []) = (ru_rate_limiter ru1, @nil bool).
Proof.
  intros Hi Hj Heq. cbn. rewrite list_lookup_insert. case_decide as Hd; [|by exists ru].
  destruct Hd as [-> _]. rewrite Hj in Hi. simplify_eq. eexists. split; [done|]. by rewrite Heq.
Qed.

Lemma open_rate_limiter ru client r local ts :
  ru_rate_limiter (proceed ru client r local ts).1 = ru_rate_limiter ru.
Proof.
  unfold proceed, connected. destruct r as [[a g]|]; [|done].
  repeat (destruct (get_client_upload_limiter _ _ _ _) as [[? ?] ?] || destruct (get_client_download_limiter _ _ _ _) as [[? ?] ?]
    || destruct (get_backend_upload_limiter _ _ _ _) as [[? ?] ?] || destruct (get_backend_download_limiter _ _ _ _) as [[? ?] ?]).
  done.
Qed.

(** One step of the server, seen by the rate limiter of rule [i]. *)
Lemma rate_step i l sv sv' ru :
  sv_does l sv sv' → sv_rules sv !! i = Some ru →
  ∃ ru', sv_rules sv' !! i = Some ru' ∧
    RateLimiter.run (ru_rate_limiter ru) (rate_checks i [l]).*1 =
      (ru_rate_limiter ru', (rate_checks i [l]).*2).
Proof.
  intros Hstep Hi. destruct Hstep as [sv j ruj client created now Hj Hwf Ht|sv j ruj|sv j ruj|sv j ruj|sv j ruj|sv ck ruj|sv c];
    cbn [rate_checks omap list_omap rate_check fmap list_fmap RateLimiter.run].
  - destruct (decide (j = i)) as [->|Hne].
    2: { rewrite decide_False by tauto. cbn. rewrite list_lookup_insert_ne by done. by exists ru. }
    rewrite Hj in Hi. simplify_eq. cbn [set_rule sv_rules].
    rewrite list_lookup_insert_eq by (by eapply lookup_lt_Some). unfold accept.
    destruct (AccessControl.is_allowed _ _); cbn [negb].
    2: { rewrite decide_False by tauto. cbn. by eexists. }
    destruct (RateLimiter.check _ _ _ _) as [rl []] eqn:Hc; cbn [negb fst snd];
      (rewrite decide_True by done); eexists; (split; [done|]);
      cbn [fmap list_fmap fst snd RateLimiter.run RateLimiter.at_ip RateLimiter.at_created RateLimiter.at_now];
      rewrite Hc; done.
  - by eapply set_rule_rate_limiter.
  - eapply set_rule_rate_limiter; [done|done|by rewrite open_rate_limiter].
  - by eapply set_rule_rate_limiter.
  - by eapply set_rule_rate_limiter.
  - by eapply set_rule_rate_limiter.
  - destruct (reload_rate_limiter c sv i ru Hi) as (ru1 & H1 & <-). by exists ru1.
Qed.

Lemma rate_run i sv ls sv' ru :
  sv_run sv ls sv' → sv_rules sv !! i = Some ru →
  ∃ ru', sv_rules sv' !! i = Some ru' ∧
    RateLimiter.run (ru_rate_limiter ru) (rate_checks i ls).*1 = (ru_rate_limiter ru', (rate_checks i ls).*2).
Proof.
  intros Hrun. revert ru. induction Hrun as [sv|sv l sv1 ls sv2 Hstep _ IH]; intros ru Hi; [by exists ru|].
  destruct (rate_step i l sv sv1 ru Hstep Hi) as (ru1 & Hi1 & Hr1).
  destruct (IH ru1 Hi1) as (ru2 & Hi2 & Hr2). exists ru2. split; [done|].
  unfold rate_checks in *. cbn [omap list_omap] in *.
  destruct (rate_check i l) as [[e b]|]; cbn [fmap list_fmap fst snd RateLimiter.run] in *.
  - destruct (RateLimiter.check _ _ _ _) as [rl b']. injection Hr1 as -> ->. by rewrite Hr2.
  - injection Hr1 as ->. done.
Qed.

(** C6: in any run of the server from its configuration, a client that opens
    connections to a rule with a rate limit, from any ports and through any
    acceptors, gets at most [max(burst, 1)] of them plus [max(requests_per_second,
    1)] per second elapsed, up to the rounding of the token arithmetic, whatever
    other clients, other rules and reloads of the configuration do in between. *)
Theorem server_rate_limit env config sv0 ls sv i rule rl a t0 :
  startup env config = Ok sv0 → sv_run sv0 ls sv →
  c_rules config !! i = Some rule → r_rate_limit rule = Some rl →
  rl_enabled rl = true → RateLimiter.config_typed rl →
  let evs := (rate_checks i ls).*1 in
  RateLimiter.ordered t0 evs → SimpleLimiter.in_range (RateLimiter.finish t0 evs - t0) →
  2 ^ 53 * NANOS_PER_SEC * spawned i a ls <=
  2 ^ 53 * NANOS_PER_SEC * Z.max (burst rl) 1
  + (2 ^ 53 + 4) * (Z.max (requests_per_second rl) 1 * (RateLimiter.finish t0 evs - t0))
  + Z.of_nat (length (RateLimiter.of_client a evs)) * (NANOS_PER_SEC * Z.max (burst rl) 1).
Proof.
  intros Hst Hrun Hrule Hrl Hen [Hr Hb] evs Ho Hin.
  destruct (Forall2_lookup_l _ _ _ _ _ (startup_fresh _ _ _ Hst) Hrule) as (ru & Hi & Hfr).
  destruct (rate_run i _ _ _ _ Hrun Hi) as (ru' & _ & Hrr).
  rewrite (fr_rate _ _ Hfr), Hrl in Hrr. change (default _ (Some rl)) with rl in Hrr.
  rewrite spawned_admitted.
  replace ((rate_checks i ls).*2) with ((RateLimiter.run (RateLimiter.new rl) evs).2)
    by (unfold evs; by rewrite Hrr).
  by apply RateLimiter.client_rate_bound.
Qed.
End clients.

(** ** The properties at a concrete server *)

#[local] Existing Instance Health.exact_timer.

Lemma server_well_typed_witness : Forall well_typed (sv_rules sample_sv).
Proof. exact (server_well_typed sample_env sample_cfg sample_sv sample_typed sample_reachable). Defined.

(** The connection of [sample_sv]. *)
Definition sample_cn : connection := default
  {| cn_client := sample_peer; cn_backend := ""; cn_guard := {| g_rule_name := ""; g_backend_addr := ""; g_counter := 0 |};
     cn_config := {| client_read_limiter := None; client_write_limiter := None; backend_read_limiter := None;
                     backend_write_limiter := None; backend_tls := None; proxy_protocol := false;
                     client_addr := sample_peer; local_addr := sample_peer |} |}
  (head (ru_connections sample_ru2)).

Lemma sample_cn_in : sample_cn ∈ ru_connections sample_ru2.
Proof. left. Qed.

Lemma clients_isolated_witness :
  limiter_of ToClient (cn_config sample_cn) = Some 1%nat ∧
  limiter_of FromClient (cn_config sample_cn) ≠ Some 1%nat.
Proof.
  split; [reflexivity|]. intros H.
  destruct (proj1 (clients_isolated sample_env sample_cfg sample_sv 0 sample_rule sample_ru2 sample_cn sample_cn
    ToClient FromClient 1 sample_typed sample_reachable eq_refl eq_refl sample_cn_in sample_cn_in eq_refl eq_refl) H).
  discriminate.
Defined.

(** Two clients on the one backend of a rule that limits it. *)
Definition shared_rule : LBRule := {|
  r_name := "db"; r_listen := "0.0.0.0:5432"; r_backends := [Simple "10.1.0.1:5432"];
  r_protocol := None; r_proxy_protocol := false; r_tls := None; r_backend_tls := None; r_rate_limit := None;
  r_bandwidth_limit := Some {| bw_enabled := true; bw_client := None;
    bw_backend := Some {| backend_upload_per_sec := 50000; backend_download_per_sec := 50000 |} |};
  r_backend_connection_limit := None; r_health_check := None; r_allow_list := None; r_deny_list := None |}.
Definition shared_cfg : Config := {| c_rules := [shared_rule]; c_cluster := None; c_log := None |}.
Definition other_peer : SocketAddr := {| ip := V4 [10; 0; 0; 2]; port := 51000 |}.

(** A rule after a connection that nothing interferes with. *)
Definition serves (ru : Rule) (client : SocketAddr) : Rule :=
  let ru1 := (accept ru client 0 0).1 in
  (open_connection (with_connections ru1 [] (ru_connections ru1)) client None (λ _, 0)).1.
Definition shared_sv0 : Server :=
  match startup sample_env shared_cfg with Ok sv => sv | Err _ => empty_server end.
Definition shared_ru0 : Rule := default sample_ru0 (sv_rules shared_sv0 !! 0%nat).
Definition shared_ru1 : Rule := serves shared_ru0 sample_peer.
Definition shared_ru2 : Rule := serves shared_ru1 other_peer.
Definition shared_sv : Server := set_rule (set_rule shared_sv0 0 shared_ru1) 0 shared_ru2.

Lemma shared_typed : Forall rule_typed (c_rules shared_cfg).
Proof.
  constructor; [|constructor]. split.
  - intros l [=].
  - split; [intros [] rate; cbn; intros [= <-]|]; unfold RateLimiter.config_typed, is_uN; cbn; lia.
Qed.

Lemma shared_reachable : reachable sample_env shared_cfg shared_sv.
Proof.
  assert (Htimely : ∀ a, RateLimiter.timely (RateLimiter.new default_rate_limit) a 0 0).
  { intros a. split; [unfold SimpleLimiter.in_range, NANOS_PER_SEC; lia|]. intros l. cbn. by rewrite lookup_empty. }
  exists shared_sv0. split; [reflexivity|].
  assert (H1 : rtc sv_step shared_sv0 (set_rule shared_sv0 0 shared_ru1)).
  { refine (connects shared_sv0 0 shared_ru0 sample_peer 0 0 None (λ _, 0) eq_refl eq_refl _ sample_peer_wf
      (Htimely _) eq_refl).
    pose proof (startup_inv sample_env shared_cfg shared_sv0 shared_typed eq_refl) as Hinv.
    exact (rule_inv_lb _ _ (Forall2_lookup_lr _ _ _ 0 _ _ Hinv eq_refl eq_refl)). }
  etrans; [exact H1|].
  refine (connects (set_rule shared_sv0 0 shared_ru1) 0 shared_ru1 other_peer 0 0 None (λ _, 0) eq_refl eq_refl
    _ _ (Htimely _) eq_refl).
  - assert (Hreach : reachable sample_env shared_cfg (set_rule shared_sv0 0 shared_ru1)).
    { exists shared_sv0. split; [reflexivity|exact H1]. }
    pose proof (reachable_inv _ _ _ shared_typed Hreach) as Hinv.
    exact (rule_inv_lb _ _ (Forall2_lookup_lr _ _ _ 0 _ _ Hinv eq_refl eq_refl)).
  - split; [split; [done|]; repeat constructor; unfold is_uN; lia|]. unfold is_uN. cbn. lia.
Qed.

(** Its connections, the latest first. *)
Definition shared_cn (k : nat) : connection := default sample_cn (ru_connections shared_ru2 !! k).

Lemma shared_cn_in k : (k < length (ru_connections shared_ru2))%nat → shared_cn k ∈ ru_connections shared_ru2.
Proof.
  intros [cn Hcn]%lookup_lt_is_Some_2. unfold shared_cn. rewrite Hcn. by eapply list_elem_of_lookup_2.
Qed.

Lemma shared_two : length (ru_connections shared_ru2) = 2%nat.
Proof. vm_compute. reflexivity. Qed.

Lemma shared_limited : limiter_of ToBackend (cn_config (shared_cn 1)) = Some 1%nat.
Proof. vm_compute. reflexivity. Qed.

Lemma shared_rule_at : sv_rules shared_sv !! 0%nat = Some shared_ru2.
Proof. reflexivity. Qed.

(** The two connections are on the same backend, which is limited, but share no
    limit. *)
Lemma backend_limits_are_per_client_witness :
  cn_backend (shared_cn 0) = cn_backend (shared_cn 1) ∧
  limiter_of ToBackend (cn_config (shared_cn 0)) ≠ limiter_of ToBackend (cn_config (shared_cn 1)).
Proof.
  split; [vm_compute; reflexivity|]. rewrite shared_limited. intros H.
  assert (Hip : ip (cn_client (shared_cn 1)) = ip (cn_client (shared_cn 0))).
  { apply (backend_limits_are_per_client sample_env shared_cfg shared_sv 0 shared_rule shared_ru2
      (shared_cn 1) (shared_cn 0) ToBackend 1 shared_typed shared_reachable eq_refl shared_rule_at
      (shared_cn_in 1 ltac:(rewrite shared_two; lia)) (shared_cn_in 0 ltac:(rewrite shared_two; lia))
      eq_refl shared_limited). exact H. }
  vm_compute in Hip. discriminate Hip.
Defined.

(** The client sends 30 bytes. *)
Lemma client_bandwidth_bound_witness :
  let socks (_ : connection) := ({| chunks := [Some (replicate 30 7)]; sent := [] |}, {| chunks := []; sent := [] |}) in
  let es := [PollRead 0 (fresh_buf 64) [1000; 2000]] in
  2 ^ 53 * NANOS_PER_SEC *
    client_bytes (ru_connections sample_ru2) (ip sample_peer) FromClient (rule_net sample_ru2 socks) es <=
  2 ^ 53 * NANOS_PER_SEC * 65536 + (2 ^ 53 + 4) * (100000 * 2000) + 2 * (NANOS_PER_SEC * 65536).
Proof.
  intros socks es.
  destruct (client_bandwidth_bound (IO := script_io) sample_env sample_cfg sample_sv 0 sample_rule sample_ru2 socks sample_cn FromClient
    100000 0 (SimpleLimiter.new (Z.max 100000 1024) BURST 0) es sample_typed sample_reachable eq_refl eq_refl
    eq_refl sample_cn_in eq_refl eq_refl) as [Hb Hst].
  - change (SimpleLimiter.nondecreasing 0 [1000; 2000]). cbn. lia.
  - change (SimpleLimiter.in_range (2000 - 0)). unfold SimpleLimiter.in_range, NANOS_PER_SEC. lia.
  - rewrite Hst, Z.add_0_r in Hb; [exact Hb|]. split; exact I.
Defined.

(** One connection per second and a burst of one; a client connects. *)
Definition limited_rule : LBRule := {|
  r_name := "web"; r_listen := "0.0.0.0:80"; r_backends := [Simple "10.1.0.1:80"];
  r_protocol := None; r_proxy_protocol := false; r_tls := None; r_backend_tls := None;
  r_rate_limit := Some {| rl_enabled := true; requests_per_second := 1; burst := 1 |};
  r_bandwidth_limit := None; r_backend_connection_limit := None; r_health_check := None;
  r_allow_list := None; r_deny_list := None |}.
Definition limited_cfg : Config := {| c_rules := [limited_rule]; c_cluster := None; c_log := None |}.
Definition limited_sv0 : Server :=
  match startup sample_env limited_cfg with Ok sv => sv | Err _ => empty_server end.
Definition limited_ru0 : Rule := default sample_ru0 (sv_rules limited_sv0 !! 0%nat).

Lemma limited_run :
  let r := accept limited_ru0 sample_peer 5 7 in
  sv_run limited_sv0 [Decides 0 sample_peer 5 7 r.2] (set_rule limited_sv0 0 r.1).
Proof.
  intros r. eapply run_cons; [|apply run_nil].
  refine (sv_accept limited_sv0 0 limited_ru0 sample_peer 5 7 eq_refl _ _).
  - split; [split; [done|]; repeat constructor; unfold is_uN; lia|]. unfold is_uN. cbn. lia.
  - split; [unfold SimpleLimiter.in_range, NANOS_PER_SEC; lia|]. intros l Hl.
    change (limiters (ru_rate_limiter limited_ru0)) with (∅ : gmap IpAddr SimpleLimiter) in Hl.
    by rewrite lookup_empty in Hl.
Qed.

(** The decision of the rate limiter is not one of the access list. *)
Lemma limited_checked :
  ∃ b, rate_checks 0 [Decides 0 sample_peer 5 7 (accept limited_ru0 sample_peer 5 7).2] =
    [({| RateLimiter.at_ip := ip sample_peer; RateLimiter.at_created := 5; RateLimiter.at_now := 7 |}, b)].
Proof.
  unfold accept. change (AccessControl.is_allowed (ru_acl limited_ru0) (ip sample_peer)) with true. cbn [negb].
  destruct (RateLimiter.check _ _ _ _) as [rl []]; by eexists.
Qed.

Lemma server_rate_limit_witness :
  2 ^ 53 * NANOS_PER_SEC *
    spawned 0 (ip sample_peer) [Decides 0 sample_peer 5 7 (accept limited_ru0 sample_peer 5 7).2] <=
  2 ^ 53 * NANOS_PER_SEC * 1 + (2 ^ 53 + 4) * (1 * 7) + 1 * (NANOS_PER_SEC * 1).
Proof.
  destruct limited_checked as [b Hb].
  pose proof (server_rate_limit sample_env limited_cfg limited_sv0 _ _ 0 limited_rule
    {| rl_enabled := true; requests_per_second := 1; burst := 1 |} (ip sample_peer) 0
    eq_refl limited_run eq_refl eq_refl eq_refl) as H.
  rewrite Hb in H. apply H.
  - split; unfold is_uN; cbn; lia.
  - cbn. lia.
  - unfold SimpleLimiter.in_range, NANOS_PER_SEC. cbn. lia.
Defined.
