(* ===== verification/Reconcile.v ===== *)
(** * The backends of a rule and the configuration

    What the backend list of a running rule says, entry by entry, and how it
    follows the configuration: startup makes it the configured list, the tasks
    of the server leave it alone, and reconciling a rule replaces it. *)

From S2P Require Import Prelude Float64 Config NetAddr Limiter RateLimit BandwidthManager Metrics Balancer.
From S2P Require Import BalancerSpec BalancerInv BalancerConc Health ProxyProtocol Proxy Acl Tls Server ServerSpec.
Open Scope Z_scope.

#[local] Opaque SimpleLimiter.new SimpleLimiter.check_n.

(** The address and drain flag of a backend. *)
Definition entry (w : World) (id : nat) : option (string * bool) := (λ b, (addr b, drain b)) <$> heap w !! id.

Definition same_entries (w w' : World) : Prop := ∀ id, entry w' id = entry w id.

#[export] Instance same_entries_preorder : PreOrder same_entries.
Proof. split; [by intros w id|]. intros w1 w2 w3 H1 H2 id. by rewrite H2, H1. Qed.

Lemma same_entries_put w id b b' :
  heap w !! id = Some b → addr b' = addr b → drain b' = drain b → same_entries w (put id b' w).
Proof.
  intros Hb Ha Hd id'. unfold entry. cbn. rewrite lookup_insert. case_decide as E; [|done].
  subst id'. rewrite Hb. cbn. by rewrite Ha, Hd.
Qed.

(** ** The operations on the load balancer *)

Lemma drop_guard_entries g w : same_entries w (drop_guard g w).
Proof.
  unfold drop_guard. destruct (heap w !! g_counter g) as [b|] eqn:Hb; [|done].
  by apply (same_entries_put w (g_counter g) b).
Qed.

Lemma task_step_entries lb w t lb' w' t' :
  task_step lb w t = (lb', w', t') → lb_backends lb' = lb_backends lb ∧ same_entries w w'.
Proof.
  intros Hst. destruct t as [| | | | |id|g|]; cbn [task_step] in Hst;
    [repeat case_match; simplify_eq; (split; [done|reflexivity])..| | |simplify_eq; split; [done|reflexivity]].
  - destruct (heap w !! id) as [b|] eqn:Hb; simpl in Hst; simplify_eq; (split; [done|]); [|reflexivity].
    by apply (same_entries_put w id b).
  - simplify_eq. split; [done|]. apply drop_guard_entries.
Qed.

Lemma set_backend_health_entries lb a h w : same_entries w (LoadBalancer.set_backend_health lb a h w).
Proof.
  unfold LoadBalancer.set_backend_health. destruct (find_addr _ a _) as [id|]; [|done].
  cbn. destruct (heap w !! id) as [b|] eqn:Hb; [|done]. by apply (same_entries_put w id b).
Qed.

(** ** Rules *)

(** What a rule's list says, and what the configuration says. *)
Definition listed `{L : IpNetLib} (ru : Rule) : list (option (string * bool)) :=
  entry (ru_world ru) <$> lb_backends (ru_lb ru).
Definition wanted (rule : LBRule) : list (option (string * bool)) :=
  (λ c, Some (backend_addr_drain c)) <$> r_backends rule.
Definition distinct_addrs (rule : LBRule) : Prop :=
  NoDup ((λ c, (backend_addr_drain c).1) <$> r_backends rule).

Section reconcile.
Context `{L : IpNetLib} `{T : Timer} `{RT : Runtime}.

Definition same_listing (ru ru' : Rule) : Prop := ru_name ru' = ru_name ru ∧ listed ru' = listed ru.

Lemma same_listing_entries ru lb w :
  lb_backends lb = lb_backends (ru_lb ru) → same_entries (ru_world ru) w →
  listed (with_lb ru lb w) = listed ru.
Proof. intros Hlb Hw. unfold listed. cbn. rewrite Hlb. apply list_fmap_ext. intros. apply Hw. Qed.

Lemma accept_listing ru client created now : same_listing ru (accept ru client created now).1.
Proof.
  unfold accept. destruct (negb _); [done|]. destruct (RateLimiter.check _ _ _ _) as [rl ok].
  by destruct (negb ok).
Qed.

Lemma open_listing ru client r local ts : same_listing ru (proceed ru client r local ts).1.
Proof.
  unfold proceed, connected. destruct r as [[a g]|]; [|done].
  destruct (BandwidthManager.get_client_upload_limiter _ _ _ _) as [[? ?] ?].
  destruct (BandwidthManager.get_client_download_limiter _ _ _ _) as [[? ?] ?].
  destruct (BandwidthManager.get_backend_download_limiter _ _ _ _) as [[? ?] ?].
  by destruct (BandwidthManager.get_backend_upload_limiter _ _ _ _) as [[? ?] ?].
Qed.

Lemma finish_entries {E} ru cn (client_tls : result unit E) (env : proxy_env E) :
  same_entries (ru_world ru) (finish_connection ru cn client_tls env).
Proof.
  unfold finish_connection.
  pose proof (Proxy.proxy_connection_run env (cn_backend cn) (cn_config cn) (ru_name ru) (ru_world ru) []) as Hp.
  destruct (Proxy.execute env _) as [done r]. rewrite Hp. cbn [fst].
  etrans; [|apply drop_guard_entries]. destruct (ru_tls ru); [destruct client_tls|]; by intros id.
Qed.

(** Every step but a reconciliation leaves what the rules list alone. *)
Lemma does_listing l sv sv' i ru :
  sv_does l sv sv' → l ≠ Reconciles → sv_rules sv !! i = Some ru →
  sv_lbs sv' = sv_lbs sv ∧ ∃ ru', sv_rules sv' !! i = Some ru' ∧ same_listing ru ru'.
Proof.
  intros Hstep Hl Hi.
  assert (Hset : ∀ j ruj ru', sv_rules sv !! j = Some ruj → same_listing ruj ru' →
    ∃ ru1, sv_rules (set_rule sv j ru') !! i = Some ru1 ∧ same_listing ru ru1).
  { intros j ruj ru' Hj Hsame. cbn. rewrite list_lookup_insert. case_decide as Hd; [|by exists ru].
    destruct Hd as [-> _]. rewrite Hi in Hj. simplify_eq. by exists ru'. }
  destruct Hstep as [sv j ruj client created now Hj|sv j ruj client cs1 cs2 t lb w t' Hj _ _ Hst|
    sv j ruj client cs1 cs2 t r local ts Hj|sv j ruj cn cs1 cs2 client_tls env Hj|sv j ruj lid n now bk Hj|sv ck ruj net Hck Hj|sv c];
    (split; [done|]); [..|done]; (eapply Hset; [exact Hj|]).
  - apply accept_listing.
  - destruct (task_step_entries _ _ _ _ _ _ Hst) as [Hlb Hw].
    split; [done|]. exact (same_listing_entries ruj lb w Hlb Hw).
  - exact (open_listing (with_connections ruj (cs1 ++ cs2) (ru_connections ruj)) client r local ts).
  - split; [done|].
    exact (same_listing_entries ruj (ru_lb ruj) _ eq_refl (finish_entries ruj cn client_tls env)).
  - done.
  - split; [done|]. apply (same_listing_entries ruj (ru_lb ruj)); [done|]. apply set_backend_health_entries.
Qed.

(** ** Reconciling *)

Lemma entry_with_drain w id b d : heap w !! id = Some (with_drain b d) → entry w id = Some (addr b, d).
Proof. intros H. unfold entry. by rewrite H. Qed.

Lemma update_listed rule ru ruc lb w :
  rule_inv rule ru → distinct_addrs ruc →
  LoadBalancer.update_backends (ru_lb ru) (r_backends ruc) (ru_world ru) = (lb, w) →
  listed (with_lb ru lb w) = wanted ruc.
Proof.
  intros [[Hfr Hall _ _ _ _]] Hnd Hu. cbn in *. unfold LoadBalancer.update_backends in Hu.
  pose proof (update_all_spec (lb_rule_name (ru_lb ru)) (lb_backends (ru_lb ru)) (r_backends ruc) _ Hfr Hall) as Hs.
  pose proof (λ i c, update_all_lookup (lb_rule_name (ru_lb ru)) (lb_backends (ru_lb ru)) (r_backends ruc) _ i c
    Hfr Hall Hnd) as Hl.
  destruct (LoadBalancer.update_all _ _ _ _) as [ids w']. injection Hu as <- <-.
  destruct Hs as (_ & _ & Hlen & _). unfold listed, wanted. cbn in *.
  apply list_eq_same_length with (n := length ids);
    [by rewrite length_fmap|by rewrite length_fmap|].
  intros i x y Hi. rewrite !list_lookup_fmap.
  destruct (lookup_lt_is_Some_2 (r_backends ruc) i ltac:(lia)) as [c Hc].
  destruct (Hl i c Hc) as (id & -> & Hid). rewrite Hc. cbn. intros [= <-] [= <-].
  destruct (find_addr _ _ _) as [id0|] eqn:Hf.
  - destruct Hid as (-> & b & Hb & Hb'). rewrite (entry_with_drain _ _ _ _ Hb').
    destruct (find_addr_Some _ _ _ _ Hf) as (_ & b0 & Hb0 & Ha). rewrite Hb in Hb0. injection Hb0 as ->.
    rewrite Ha. by destruct (backend_addr_drain c).
  - destruct Hid as [_ Hb]. unfold entry. rewrite Hb. cbn. by destruct (backend_addr_drain c).
Qed.

(** The name under which a rule is registered is its own. *)
Definition lbs_ok (sv : Server) : Prop :=
  ∀ name i, sv_lbs sv !! name = Some i → ∃ ru, sv_rules sv !! i = Some ru ∧ ru_name ru = name.

(** The last rule of that name: reconciling takes them in order. *)
Definition last_named (name : string) (rules : list LBRule) : option LBRule :=
  last (filter (λ r, r_name r = name) rules).

Lemma last_named_snoc name rules r :
  last_named name (rules ++ [r]) = if decide (r_name r = name) then Some r else last_named name rules.
Proof.
  unfold last_named. rewrite filter_app, filter_cons, filter_nil. case_decide.
  - by rewrite last_snoc.
  - by rewrite app_nil_r.
Qed.

(** Every registered rule lists what the last rule of its name in [rules] wants. *)
Definition reflects (sv : Server) (rules : list LBRule) : Prop :=
  ∀ name i rule ru, sv_lbs sv !! name = Some i → sv_rules sv !! i = Some ru →
    last_named name rules = Some rule → distinct_addrs rule → listed ru = wanted rule.

Lemma reload_rule_effect config r sv i ru :
  sv_inv config sv → sv_rules sv !! i = Some ru →
  ∃ ru', sv_rules (reload_rule r sv) !! i = Some ru' ∧ ru_name ru' = ru_name ru ∧
    (sv_lbs sv !! r_name r = Some i → distinct_addrs r → listed ru' = wanted r) ∧
    (sv_lbs sv !! r_name r ≠ Some i → ru' = ru).
Proof.
  intros Hinv Hi. unfold reload_rule.
  destruct (sv_lbs sv !! r_name r) as [j|]; [|by exists ru].
  destruct (sv_rules sv !! j) as [ruj|] eqn:Hj.
  2: { exists ru. split_and!; [done|done| |done]. intros [= ->]. by rewrite Hi in Hj. }
  destruct (LoadBalancer.update_backends _ _ _) as [lb w] eqn:Hu. cbn [sv_rules].
  destruct (decide (i = j)) as [<-|Hne].
  - rewrite Hi in Hj. simplify_eq. rewrite list_lookup_insert_eq by (by eapply lookup_lt_Some).
    destruct (Forall2_lookup_r _ _ _ _ _ Hinv Hi) as (rule & _ & Hri).
    eexists. split_and!; [done|done| |done]. intros _ Hd. by eapply update_listed.
  - rewrite list_lookup_insert_ne by done. exists ru. split_and!; [done..| |done]. congruence.
Qed.

Lemma reload_rule_lbs_ok config r sv : sv_inv config sv → lbs_ok sv → lbs_ok (reload_rule r sv).
Proof.
  intros Hinv Hok name i Hn. rewrite reload_rule_lbs in Hn. destruct (Hok _ _ Hn) as (ru & Hi & Hname).
  destruct (reload_rule_effect config r sv i ru Hinv Hi) as (ru' & Hi' & Hn' & _). exists ru'. split; congruence.
Qed.

Lemma reload_rule_reflects config r sv rules :
  sv_inv config sv → lbs_ok sv → reflects sv rules → reflects (reload_rule r sv) (rules ++ [r]).
Proof.
  intros Hinv Hok Href name i rule ru' Hn Hi' Hlast Hd. rewrite reload_rule_lbs in Hn.
  destruct (Hok _ _ Hn) as (ru & Hi & Hname).
  destruct (reload_rule_effect config r sv i ru Hinv Hi) as (ru1 & Hi1 & _ & H1 & H2). simplify_eq.
  rewrite last_named_snoc in Hlast. case_decide as Hr; simplify_eq.
  - apply H1; [|done]. by rewrite Hr.
  - rewrite H2; [by eapply Href|]. intros Hj. destruct (Hok _ _ Hj) as (ru2 & Hi2 & Hname2). congruence.
Qed.

Lemma does_reflects l sv sv' rules :
  sv_does l sv sv' → l ≠ Reconciles → lbs_ok sv → (lbs_ok sv' ∧ (reflects sv rules → reflects sv' rules)).
Proof.
  intros Hstep Hl Hok.
  assert (Hlen : sv_lbs sv' = sv_lbs sv) by (by destruct Hstep).
  split.
  - intros name i Hn. rewrite Hlen in Hn. destruct (Hok _ _ Hn) as (ru & Hi & Hname).
    destruct (does_listing _ _ _ _ _ Hstep Hl Hi) as (_ & ru' & Hi' & Hn' & _). exists ru'. split; congruence.
  - intros Href name i rule ru' Hn Hi' Hlast Hd. rewrite Hlen in Hn.
    destruct (Hok _ _ Hn) as (ru & Hi & _).
    destruct (does_listing _ _ _ _ _ Hstep Hl Hi) as (_ & ru1 & Hi1 & _ & Hls). simplify_eq.
    rewrite Hls. by eapply Href.
Qed.

(** ** Startup *)

Lemma new_backends_entries rule_name configs w :
  heap_fresh w →
  let (ids, w') := LoadBalancer.new_backends rule_name configs w in
  heap_fresh w' ∧ (∀ id, is_Some (heap w !! id) → entry w' id = entry w id) ∧
  (entry w' <$> ids) = ((λ c, Some (backend_addr_drain c)) <$> configs) ∧
  (∀ id, is_Some (heap w !! id) → is_Some (heap w' !! id)).
Proof.
  revert w. induction configs as [|c configs IH]; intros w Hfr; cbn [LoadBalancer.new_backends]; [done|].
  destruct (backend_addr_drain c) as [a d] eqn:Hc. cbn [new_backend alloc].
  set (w1 := {| heap := _; next_id := _; calls := _ |}).
  assert (Hold : ∀ id, is_Some (heap w !! id) → id ≠ next_id w).
  { intros id [b Hb] ->. apply Hfr in Hb. lia. }
  assert (Hfr1 : heap_fresh w1).
  { intros id b. cbn. rewrite lookup_insert. case_decide; [lia|]. intros Hb%Hfr. lia. }
  specialize (IH w1 Hfr1). destruct (LoadBalancer.new_backends rule_name configs w1) as [ids w2].
  destruct IH as (Hfr2 & Hent & Hids & Hsome). split_and!; [done|..].
  - intros id Hid. assert (Hne := Hold id Hid).
    rewrite Hent by (cbn; by rewrite lookup_insert_ne). unfold entry. cbn. by rewrite lookup_insert_ne.
  - rewrite !fmap_cons, Hids, Hc. f_equal. rewrite Hent; unfold entry; cbn; rewrite lookup_insert_eq; eauto.
  - intros id Hid. assert (Hne := Hold id Hid). apply Hsome. cbn. by rewrite lookup_insert_ne.
Qed.

Lemma fresh_rule_listed rule ru : fresh_rule rule ru → listed ru = wanted rule.
Proof.
  intros [_ Hlb _ _ _ _ _ _]. unfold LoadBalancer.new in Hlb.
  pose proof (new_backends_entries (r_name rule) (r_backends rule) empty_world) as Hn.
  destruct (LoadBalancer.new_backends _ _ _) as [ids w]. injection Hlb as Hlb Hw.
  unfold listed, wanted. rewrite Hlb, Hw. cbn. apply Hn. intros id b. cbn. by rewrite lookup_empty.
Qed.

(** Rules registered under a name are the last of that name. *)
Definition registered (rules : list LBRule) (sv : Server) : Prop :=
  length (sv_rules sv) = length rules ∧
  ∀ name i, sv_lbs sv !! name = Some i →
    ∃ r, rules !! i = Some r ∧ r_name r = name ∧ last_named name rules = Some r.

Lemma init_rule_registered env rule sv sv' rules :
  registered rules sv → init_rule env rule sv = Ok sv' → registered (rules ++ [rule]) sv'.
Proof.
  intros [Hlen Hreg] Hinit. destruct (init_rule_adds _ _ _ _ Hinit) as (ru & _ & Hrs & _ & Hlbs).
  split; [rewrite Hrs, !length_app; cbn; lia|]. intros name i. rewrite Hlbs, last_named_snoc, lookup_insert.
  case_decide as Hn.
  - intros [= <-]. subst name. exists rule. rewrite Hlen, lookup_app_r, Nat.sub_diag by lia. done.
  - intros Hi. destruct (Hreg _ _ Hi) as (r & Hr & Hname & Hlast). exists r.
    rewrite lookup_app_l by (by eapply lookup_lt_Some). done.
Qed.

Lemma init_rules_registered env rules pre sv0 sv :
  registered pre sv0 → init_rules env rules sv0 = Ok sv → registered (pre ++ rules) sv.
Proof.
  revert pre sv0. induction rules as [|rule rules IH]; intros pre sv0 Hpre; cbn [init_rules].
  { intros [= <-]. by rewrite app_nil_r. }
  destruct (init_rule env rule sv0) as [sv1|] eqn:H1; [|done]. cbn [result_bind]. intros H.
  replace (pre ++ rule :: rules) with ((pre ++ [rule]) ++ rules) by by rewrite <-(assoc_L app).
  eapply IH; [|exact H]. by eapply init_rule_registered.
Qed.

Lemma startup_reflects env config sv :
  startup env config = Ok sv → lbs_ok sv ∧ reflects sv (c_rules config).
Proof.
  intros Hst. pose proof (startup_fresh _ _ _ Hst) as Hfresh.
  assert (Hreg : registered (c_rules config) sv).
  { unfold startup in Hst. destruct (validate config); [|done].
    apply (init_rules_registered env (c_rules config) [] empty_server sv); [|exact Hst].
    split; [done|]. intros name i. cbn. by rewrite lookup_empty. }
  destruct Hreg as [_ Hreg]. split.
  - intros name i Hi. destruct (Hreg _ _ Hi) as (r & Hr & Hname & _).
    destruct (Forall2_lookup_l _ _ _ _ _ Hfresh Hr) as (ru & Hru & Hf). exists ru. split; [done|].
    by rewrite (fr_name _ _ Hf).
  - intros name i rule ru Hi Hru Hlast _. destruct (Hreg _ _ Hi) as (r & Hr & _ & Hlast'). simplify_eq.
    pose proof (Forall2_lookup_lr _ _ _ _ _ _ Hfresh Hr Hru). by apply fresh_rule_listed.
Qed.
End reconcile.
