(* ===== verification/Cluster.v ===== *)
(** * The cluster actor: [src/src/cluster/mod.rs]

    Nodes exchange usage updates as custom broadcasts of the gossip library
    foca, encoded with bincode; received updates go to the application through
    a bounded channel.  foca and bincode are the classes [FocaLib] and
    [Bincode]; the actor is a function of the inputs its loop selects. *)

From S2P Require Import Prelude NetAddr.
Open Scope Z_scope.

(** ** Data *)

Inductive BroadcastMessage :=
| UsageUpdate (node_id : Z) (key : string) (usage : Z).

Record BroadcastKey := { bk_node_id : Z; bk_key : string }.
#[export] Instance BroadcastKey_eq_dec : EqDecision BroadcastKey.
Proof. solve_decision. Defined.

Definition invalidates (self other : BroadcastKey) : bool := bool_decide (self = other).

Record NodeIdentity := { ni_addr : SocketAddr; ni_id : Z }.

(** [renew]; [random] is the value of [rand::random()]. *)
Definition renew (self : NodeIdentity) (random : Z) : option NodeIdentity :=
  Some {| ni_addr := ni_addr self; ni_id := random |}.
Definition win_addr_conflict (self other : NodeIdentity) : bool := true.

Inductive ClusterCommand :=
| BroadcastUsage (key : string) (usage : Z).

(** The bounded channel to the application, oldest update first. *)
Record channel := { ch_capacity : nat; ch_queue : list (Z * string * Z) }.

Definition try_send (ch : channel) (u : Z * string * Z) : channel :=
  if (length (ch_queue ch) <? ch_capacity ch)%nat
  then {| ch_capacity := ch_capacity ch; ch_queue := ch_queue ch ++ [u] |}
  else ch.

(** ** The libraries *)

Class Bincode := {
  DecodeError : Type;
  encode_to_vec : BroadcastMessage → option (list Z);
  decode_from_slice : list Z → result BroadcastMessage DecodeError;
  bincode_roundtrip m bytes : encode_to_vec m = Some bytes → decode_from_slice bytes = Ok m;
}.

Module Cluster.
Section cluster.
Context `{Bincode}.

Inductive ClusterError :=
| BincodeError (e : DecodeError)
| Anyhow (msg : string).

(** [Display] of the errors; [debug] prints a [DecodeError] with its [Debug]. *)
Definition fmt_cluster_error (debug : DecodeError → string) (e : ClusterError) : string :=
  match e with
  | BincodeError e => "Bincode error: " +:+ debug e
  | Anyhow e => "Error: " +:+ e
  end.

(** ** The broadcast handler *)

Definition receive_item (tx_state : channel) (data : list Z)
    : channel * result (option BroadcastKey) ClusterError :=
  match decode_from_slice data with
  | Err e => (tx_state, Err (BincodeError e))
  | Ok (UsageUpdate node_id key usage) =>
      let bkey := {| bk_node_id := node_id; bk_key := key |} in
      (try_send tx_state (node_id, key, usage), Ok (Some bkey))
  end.

(** foca: what the actor calls, with the handler it was given.  Its effects are
    accumulated in a runtime: datagrams to send, notifications, and timers to
    schedule.  [foca_packet_items] are the custom broadcasts that a datagram
    carries.  The laws say that foca calls the handler on broadcasts of the
    datagram it is given, in their order (none, if it rejects the datagram), and on
    a broadcast that is added, and that this is all that happens to the handler's
    state. *)
Inductive effect :=
| ToSend (dst : NodeIdentity) (data : list Z)
| ToNotify (what : string)
| ToSchedule (after : Z).

Definition handler : Type := channel → list Z → channel * result (option BroadcastKey) ClusterError.

Class FocaLib := {
  Foca : Type;
  FocaError : Type;
  foca_gossip : Foca → Foca * list effect * result unit FocaError;
  foca_handle_data : handler → Foca → channel → list Z → Foca * channel * list effect * result unit FocaError;
  foca_add_broadcast : handler → Foca → channel → list Z → Foca * channel * result unit FocaError;
  foca_packet_items : list Z → list (list Z);
  handle_data_items h f ch data :
    ∃ items, items `sublist_of` foca_packet_items data ∧
      (foca_handle_data h f ch data).1.1.2 = foldl (λ ch d, (h ch d).1) ch items;
  add_broadcast_items h f ch data :
    ∃ items, items `sublist_of` [data] ∧
      (foca_add_broadcast h f ch data).1.2 = foldl (λ ch d, (h ch d).1) ch items;
}.

(** ** The actor *)

Section actor.
Context `{FocaLib}.

Record Cluster := {
  cl_foca : Foca;
  cl_state : channel;                     (** the channel of its handler *)
  cl_identity : NodeIdentity;
  cl_sent : list (SocketAddr * list Z);   (** datagrams handed to the socket *)
}.

(** [Cluster::new] once the socket is bound; [f] is the instance foca returns
    and [id] the random node id. *)
Definition new (bind_addr : SocketAddr) (id : Z) (f : Foca) (tx_state : channel) : Cluster :=
  {| cl_foca := f; cl_state := tx_state;
     cl_identity := {| ni_addr := bind_addr; ni_id := id |}; cl_sent := [] |}.

(** What one [select!] of the loop yields. *)
Inductive input :=
| Tick
| Datagram (received : option (list Z))   (** [None]: [recv_from] failed *)
| Command (cmd : ClusterCommand).

(** [handle_runtime]: datagrams are sent, notifications printed. *)
Fixpoint to_send (effects : list effect) : list (SocketAddr * list Z) :=
  match effects with
  | [] => []
  | ToSend dst data :: effects => (ni_addr dst, data) :: to_send effects
  | _ :: effects => to_send effects
  end.

Definition handle_runtime (effects : list effect) (self : Cluster) : Cluster :=
  {| cl_foca := cl_foca self; cl_state := cl_state self; cl_identity := cl_identity self;
     cl_sent := cl_sent self ++ to_send effects |}.

Definition with_foca (self : Cluster) (f : Foca) (ch : channel) : Cluster :=
  {| cl_foca := f; cl_state := ch; cl_identity := cl_identity self; cl_sent := cl_sent self |}.

(** One turn of the loop of [run]. *)
Definition run_turn (self : Cluster) (i : input) : Cluster :=
  match i with
  | Tick =>
      let '(f, effects, _) := foca_gossip (cl_foca self) in
      handle_runtime effects (with_foca self f (cl_state self))
  | Datagram (Some data) =>
      let '(f, ch, effects, _) := foca_handle_data receive_item (cl_foca self) (cl_state self) data in
      handle_runtime effects (with_foca self f ch)
  | Datagram None => handle_runtime [] self
  | Command (BroadcastUsage key usage) =>
      match encode_to_vec (UsageUpdate (ni_id (cl_identity self)) key usage) with
      | Some bytes =>
          let '(f, ch, _) := foca_add_broadcast receive_item (cl_foca self) (cl_state self) bytes in
          handle_runtime [] (with_foca self f ch)
      | None => handle_runtime [] self
      end
  end.

Definition run (self : Cluster) (inputs : list input) : Cluster := foldl run_turn self inputs.

(** ** Properties *)

(** C33: a usage update broadcast by one node is, when its bytes reach the handler
    of another, queued for the application there with the sender's node id, key
    and usage, if the channel has room, and dropped if it has not; in both cases
    foca is given the key of that sender and usage key, under which a later
    update replaces it and an update of another node or key does not. *)
Theorem usage_update_roundtrip node_id key usage bytes ch :
  encode_to_vec (UsageUpdate node_id key usage) = Some bytes →
  let (ch', r) := receive_item ch bytes in
  ch_queue ch' = ch_queue ch ++
    (if (length (ch_queue ch) <? ch_capacity ch)%nat then [(node_id, key, usage)] else []) ∧
  ∃ bkey, r = Ok (Some bkey) ∧
    ∀ node_id' key', invalidates {| bk_node_id := node_id'; bk_key := key' |} bkey = true ↔
      node_id' = node_id ∧ key' = key.
Proof.
  intros He. unfold receive_item. rewrite (bincode_roundtrip _ _ He). split.
  - unfold try_send. by destruct (_ <? _)%nat; [|rewrite app_nil_r].
  - eexists. split; [done|]. intros node_id' key'. unfold invalidates.
    rewrite bool_decide_eq_true. naive_solver.
Qed.

(** The update that an item encodes. *)
Definition decoded (data : list Z) : option (Z * string * Z) :=
  match decode_from_slice data with
  | Ok (UsageUpdate node_id key usage) => Some (node_id, key, usage)
  | Err _ => None
  end.

(** The updates that an input brings to node [id]: those its datagram carries, or
    the one it is told to broadcast. *)
Definition carried (id : Z) (i : input) : list (Z * string * Z) :=
  match i with
  | Tick | Datagram None => []
  | Datagram (Some data) => omap decoded (foca_packet_items data)
  | Command (BroadcastUsage key usage) => [(id, key, usage)]
  end.

Lemma omap_sublist {A B} (f : A → option B) l l' : l `sublist_of` l' → omap f l `sublist_of` omap f l'.
Proof.
  induction 1 as [|x l l' _ IH|x l l' _ IH]; [done|..]; cbn; destruct (f x); try done.
  - by apply sublist_skip.
  - by apply sublist_cons.
Qed.

(** Calls of the handler append updates of their items, in order. *)
Lemma receive_items_queue items ch :
  let ch' := foldl (λ ch d, (receive_item ch d).1) ch items in
  ch_capacity ch' = ch_capacity ch ∧
  ∃ us, us `sublist_of` omap decoded items ∧ ch_queue ch' = ch_queue ch ++ us.
Proof.
  revert ch. induction items as [|d items IH]; intros ch; cbn [foldl].
  { split; [done|]. exists []. by rewrite app_nil_r. }
  assert (Hone : ch_capacity (receive_item ch d).1 = ch_capacity ch ∧
    ∃ us, us `sublist_of` option_list (decoded d) ∧ ch_queue (receive_item ch d).1 = ch_queue ch ++ us).
  { unfold receive_item, decoded. destruct (decode_from_slice d) as [[n k u]|e].
    2: { split; [done|]. exists []. by rewrite app_nil_r. }
    unfold try_send. destruct (_ <? _)%nat; (split; [done|]); [by exists [(n, k, u)]|].
    exists []. rewrite app_nil_r. split; [apply sublist_nil_l|done]. }
  destruct Hone as [<- (us1 & Hs1 & Hq1)]. destruct (IH (receive_item ch d).1) as [Hc (us2 & Hs2 & Hq2)].
  split; [done|]. exists (us1 ++ us2). rewrite Hq2, Hq1, (assoc_L app). split; [|done].
  replace (omap decoded (d :: items)) with (option_list (decoded d) ++ omap decoded items)
    by (cbn; by destruct (decoded d)).
  by apply sublist_app.
Qed.

(** One turn of the actor: the identity and the capacity stay, and the queue
    grows by updates that the input brings. *)
Lemma run_turn_queue self i :
  cl_identity (run_turn self i) = cl_identity self ∧
  ch_capacity (cl_state (run_turn self i)) = ch_capacity (cl_state self) ∧
  ∃ us, us `sublist_of` carried (ni_id (cl_identity self)) i ∧
    ch_queue (cl_state (run_turn self i)) = ch_queue (cl_state self) ++ us.
Proof.
  destruct i as [|[data|]|[key usage]]; cbn [run_turn].
  - destruct (foca_gossip _) as [[f es] r]. split_and!; [done|done|]. exists []. by rewrite app_nil_r.
  - pose proof (handle_data_items receive_item (cl_foca self) (cl_state self) data) as (items & Hs & Hi).
    destruct (foca_handle_data _ _ _ _) as [[[f ch] es] r]. cbn in *. subst ch.
    destruct (receive_items_queue items (cl_state self)) as (Hc & us & Hus & Hq).
    split_and!; [done|done|]. exists us. split; [|done]. etrans; [exact Hus|by apply omap_sublist].
  - split_and!; [done|done|]. exists []. by rewrite app_nil_r.
  - destruct (encode_to_vec _) as [bytes|] eqn:He.
    2: { split_and!; [done|done|]. exists []. rewrite app_nil_r. split; [apply sublist_nil_l|done]. }
    pose proof (add_broadcast_items receive_item (cl_foca self) (cl_state self) bytes) as (items & Hs & Hi).
    destruct (foca_add_broadcast _ _ _ _) as [[f ch] r]. cbn in *. subst ch.
    destruct (receive_items_queue items (cl_state self)) as (Hc & us & Hus & Hq).
    split_and!; [done|done|]. exists us. split; [|done]. etrans; [exact Hus|].
    apply (omap_sublist decoded) in Hs. cbn in Hs. unfold decoded in Hs at 2.
    by rewrite (bincode_roundtrip _ _ He) in Hs.
Qed.

(** Timers that foca asks for are not acted upon. *)
Lemma timers_ignored effects after : to_send (effects ++ [ToSchedule after]) = to_send effects.
Proof. induction effects as [|[] effects IH]; cbn; congruence. Qed.
End actor.
End cluster.

(** ** Concrete libraries: one datagram carries one broadcast *)

Definition direct_encode (m : BroadcastMessage) : list Z :=
  let 'UsageUpdate n k u := m in [Zpos (encode (n, k, u))].

Definition direct_decode (bytes : list Z) : result BroadcastMessage unit :=
  match bytes with
  | [Zpos p] =>
      match decode p : option (Z * string * Z) with
      | Some (n, k, u) => Ok (UsageUpdate n k u)
      | None => Err tt
      end
  | _ => Err tt
  end.

Lemma direct_roundtrip m : direct_decode (direct_encode m) = Ok m.
Proof. destruct m as [n k u]. unfold direct_decode, direct_encode. by rewrite decode_encode. Qed.

#[export] Instance direct_bincode : Bincode.
Proof.
  refine {| encode_to_vec m := Some (direct_encode m); decode_from_slice := direct_decode |}.
  intros m bytes [= <-]. apply direct_roundtrip.
Defined.

#[export] Program Instance direct_foca : FocaLib := {|
  Foca := unit; FocaError := unit;
  foca_gossip f := (f, [], Ok tt);
  foca_handle_data h f ch data := (f, (h ch data).1, [], Ok tt);
  foca_add_broadcast h f ch data := (f, (h ch data).1, Ok tt);
  foca_packet_items data := [data];
|}.
Next Obligation. intros h f ch data. by exists [data]. Qed.
Next Obligation. intros h f ch data. by exists [data]. Qed.

Lemma usage_update_roundtrip_witness :
  ∃ bytes, encode_to_vec (UsageUpdate 7 "tenant" 42) = Some bytes ∧
    ch_queue (receive_item {| ch_capacity := 2; ch_queue := [] |} bytes).1 = [(7, "tenant", 42)].
Proof.
  eexists. split; [reflexivity|].
  exact (proj1 (usage_update_roundtrip 7 "tenant" 42 _ {| ch_capacity := 2; ch_queue := [] |} eq_refl)).
Defined.

End Cluster.
