(* ===== verification/Main.v ===== *)
(** * The process: [main] of [src/src/main.rs]

    [main] reads the configuration, starts the rules ([Server.v]), the cluster
    ([Cluster.v]), the metrics endpoint and the watcher of the configuration
    file, and then reloads for every notification of the watcher.  [boot] is
    [main] up to its loop; [w_step] are the steps of the watcher, of the loop and
    of the server's tasks.  The file system, the YAML parser and the sockets are
    the environment's. *)

From S2P Require Import Prelude Float64 Config NetAddr Limiter RateLimit BandwidthManager Metrics Balancer.
From S2P Require Import BalancerSpec BalancerInv BalancerConc Health ProxyProtocol Proxy Acl Tls Server ServerSpec.
From S2P Require Import Reconcile Cluster.
Open Scope Z_scope.

Inductive boot_error :=
| ReadError (e : string)
| YamlError (e : string)
| StartupError (e : startup_error)
| WatchError (e : string).

Inductive outcome (A : Type) :=
| Running (a : A)
| Failed (e : boot_error)
| Panicked (msg : string).
Arguments Running {A} a.
Arguments Failed {A} e.
Arguments Panicked {A} msg.

Section main.
Context `{L : IpNetLib} `{T : Timer} `{RT : Runtime} `{B : Bincode} `{F : !Cluster.FocaLib}.

(** What [main] asks of the system. *)
Record system := {
  sys_read_to_string : string → result string string;
  sys_yaml : string → result Config string;
  sys_rust_log : option string;
  sys_startup : startup_env;
  sys_udp_bind : SocketAddr → result unit string;
  sys_random_id : Z;
  sys_foca : Cluster.Foca;            (** what [Foca::with_custom_broadcast] returns *)
  sys_metrics_bind : result unit string;
  sys_watch : string → result unit string;
}.

(** ** Before the loop *)

(** [--config], with its default. *)
Definition config_path (arg : option string) : string := default "lb.yaml" arg.

(** [env_logger] uses [RUST_LOG] if it is set, and this level otherwise. *)
Definition default_log_level (config : Config) : string :=
  match c_log config with Some log_config => log_level log_config | None => "info" end.

Inductive cluster_state :=
| ClusterOff
| ClusterStarted (self : Cluster.Cluster) (seeds : list SocketAddr)
| ClusterFailed (e : string).

Fixpoint parse_seeds (peers : list string) : option (list SocketAddr) :=
  match peers with
  | [] => Some []
  | s :: peers =>
      a ← parse_socket_addr s; rest ← parse_seeds peers; Some (a :: rest)
  end.

(** The cluster setup; the channel to the application holds 1000 updates. *)
Definition start_cluster (sys : system) (config : Config) : outcome cluster_state :=
  match c_cluster config with
  | Some cluster_config =>
      if cluster_enabled cluster_config then
        match parse_socket_addr (bind_addr cluster_config) with
        | None => Panicked "Invalid cluster bind address"
        | Some bind =>
            match parse_seeds (peers cluster_config) with
            | None => Panicked "Invalid seed address"
            | Some seeds =>
                match sys_udp_bind sys bind with
                | Ok _ => Running (ClusterStarted
                    (Cluster.new bind (sys_random_id sys) (sys_foca sys) {| ch_capacity := 1000; ch_queue := [] |}) seeds)
                | Err e => Running (ClusterFailed e)
                end
            end
        end
      else Running ClusterOff
  | None => Running ClusterOff
  end.

(** The process when its loop starts. *)
Record App := {
  app_config : Config;
  app_content : string;        (** the file as it was read *)
  app_log : string;            (** the log filter *)
  app_server : Server;
  app_cluster : cluster_state;
  app_metrics : bool;          (** whether the metrics endpoint listens *)
}.

Definition boot (sys : system) (arg : option string) : outcome App :=
  let path := config_path arg in
  match sys_read_to_string sys path with
  | Err e => Failed (ReadError e)
  | Ok content =>
      match sys_yaml sys content with
      | Err e => Failed (YamlError e)
      | Ok config =>
          match startup (sys_startup sys) config with
          | Err e => Failed (StartupError e)
          | Ok server =>
              match start_cluster sys config with
              | Panicked msg => Panicked msg
              | Failed e => Failed e
              | Running cluster =>
                  match sys_watch sys path with
                  | Err e => Failed (WatchError e)
                  | Ok _ => Running
                      {| app_config := config; app_content := content;
                         app_log := default (default_log_level config) (sys_rust_log sys);
                         app_server := server; app_cluster := cluster;
                         app_metrics := is_ok (sys_metrics_bind sys) |}
                  end
              end
          end
      end
  end.

(** The metrics endpoint: nothing if its port cannot be bound; otherwise each
    accepted connection ([None]: the accept failed) has its requests answered by
    [metrics_handler], with the registry as it is at each request. *)
Definition metrics_server {R} (encode : R → result string string) (format_type : string)
    (bind : result unit string) (accepted : list (option (list R))) : list (list Response) :=
  match bind with
  | Err _ => []
  | Ok _ => omap (λ conn : option (list R), (λ rs : list R, metrics_handler encode format_type <$> rs) <$> conn) accepted
  end.

(** A configuration whose enabled cluster section has an address that is none. *)
Definition bad_cluster (config : Config) : Prop :=
  ∃ cc, c_cluster config = Some cc ∧ cluster_enabled cc = true ∧
    (parse_socket_addr (bind_addr cc) = None ∨ Exists (λ s, parse_socket_addr s = None) (peers cc)).

Lemma parse_seeds_None l : parse_seeds l = None ↔ Exists (λ s, parse_socket_addr s = None) l.
Proof.
  induction l as [|s l IH]; cbn [parse_seeds]; [by rewrite Exists_nil|]. rewrite Exists_cons, <-IH.
  destruct (parse_socket_addr s); cbn [mbind option_bind]; [|naive_solver].
  destruct (parse_seeds l); cbn [mbind option_bind]; naive_solver.
Qed.

Lemma start_cluster_panics sys config :
  (∃ msg, start_cluster sys config = Panicked msg) ↔ bad_cluster config.
Proof.
  unfold start_cluster, bad_cluster.
  destruct (c_cluster config) as [cc|]; [|by split; [intros [? [=]]|intros (? & [=] & _)]].
  destruct (cluster_enabled cc) eqn:He;
    [|by split; [intros [? [=]]|intros (? & [= <-] & He' & _); rewrite He in He']].
  destruct (parse_socket_addr (bind_addr cc)) eqn:Hb; [|split; eauto 6].
  destruct (parse_seeds (peers cc)) eqn:Hs.
  - split; [intros [msg Hm]; by destruct (sys_udp_bind sys _)|].
    intros (cc' & [= <-] & _ & [?|Hex%parse_seeds_None]); congruence.
  - apply parse_seeds_None in Hs. split; eauto 6.
Qed.

Lemma start_cluster_never_fails sys config e : start_cluster sys config ≠ Failed e.
Proof. unfold start_cluster. repeat case_match; congruence. Qed.

(** C36: [main] reaches its loop exactly when the file is read and parsed, its
    rules start, the addresses of an enabled cluster section parse, and the file
    can be watched; what then runs is what that configuration describes.  A
    cluster address that does not parse is not an error but a panic, after the
    rules have started; [validate] does not exclude it.  Neither a cluster socket
    nor a metrics port that cannot be bound stops the process. *)
Theorem boot_outcome sys arg :
  (∀ app, boot sys arg = Running app ↔
     sys_read_to_string sys (config_path arg) = Ok (app_content app) ∧
     sys_yaml sys (app_content app) = Ok (app_config app) ∧
     startup (sys_startup sys) (app_config app) = Ok (app_server app) ∧
     start_cluster sys (app_config app) = Running (app_cluster app) ∧
     is_ok (sys_watch sys (config_path arg)) = true ∧
     app_log app = default (default_log_level (app_config app)) (sys_rust_log sys) ∧
     app_metrics app = is_ok (sys_metrics_bind sys)) ∧
  ((∃ msg, boot sys arg = Panicked msg) ↔
     ∃ content config server, sys_read_to_string sys (config_path arg) = Ok content ∧
       sys_yaml sys content = Ok config ∧ startup (sys_startup sys) config = Ok server ∧ bad_cluster config).
Proof.
  split.
  - intros app. split.
    + unfold boot. intros Hb. repeat case_match; simplify_eq; cbn. by split_and!.
    + intros (H1 & H2 & H3 & H4 & H5 & H6 & H7). unfold boot. rewrite H1, H2, H3, H4.
      destruct (sys_watch _ _); [|done]. destruct app. cbn in *. by rewrite H6, H7.
  - split.
    + intros [msg Hb]. unfold boot in Hb. repeat case_match; simplify_eq.
      eexists _, _, _. split_and!; [done..|]. apply (start_cluster_panics sys). eauto.
    + intros (content & config & server & H1 & H2 & H3 & [msg Hm]%(start_cluster_panics sys)).
      exists msg. unfold boot. by rewrite H1, H2, H3, Hm.
Qed.

(** ** The watcher and the loop *)

(** Events of the watched file, as the [notify] crate classifies them. *)
Inductive fs_event := Modified | OtherKind | WatchFault.

(** [main]'s loop: it waits for a notification, is about to read the file, or has
    the rules of the file still to reconcile. *)
Inductive loop_state := Receiving | Reloading | Applying (rules : list LBRule).

(** The file, the events the watcher has still to hand to its callback, the
    channel of capacity one, and the loop. *)
Record watched := {
  w_file : option string;          (** [None]: it cannot be read *)
  w_events : list fs_event;
  w_channel : bool;
  w_loop : loop_state;
  w_seen : option string;          (** the file as it was last read *)
  w_server : Server;
}.

Section loop.
Variable yaml : string → result Config string.

(** The rules the loop reconciles after reading the file: none if it cannot be
    read or parsed. *)
Definition rules_of (file : option string) : list LBRule :=
  match file with
  | Some content => match yaml content with Ok new_config => c_rules new_config | Err _ => [] end
  | None => []
  end.

(** The callback on an event: a notification for a modification, which waits for
    room in the channel; [None] while it waits. *)
Definition callback (e : fs_event) (channel : bool) : option bool :=
  match e with
  | Modified => if channel then None else Some true
  | OtherKind | WatchFault => Some channel
  end.

Definition with_loop (w : watched) (channel : bool) (l : loop_state) (seen : option string) (sv : Server) : watched :=
  {| w_file := w_file w; w_events := w_events w; w_channel := channel; w_loop := l; w_seen := seen; w_server := sv |}.
Definition with_file (w : watched) (file : option string) (es : list fs_event) (channel : bool) : watched :=
  {| w_file := file; w_events := es; w_channel := channel; w_loop := w_loop w; w_seen := w_seen w;
     w_server := w_server w |}.

(** The steps that are the process's own business: the watcher's thread calls the
    callback, and the loop receives, reads and reconciles, rule by rule. *)
Inductive w_internal : watched → watched → Prop :=
| w_deliver w e es ch :
    w_events w = e :: es → callback e (w_channel w) = Some ch →
    w_internal w (with_file w (w_file w) es ch)
| w_recv w :
    w_channel w = true → w_loop w = Receiving →
    w_internal w (with_loop w false Reloading (w_seen w) (w_server w))
| w_read w :
    w_loop w = Reloading →
    w_internal w (with_loop w (w_channel w) (Applying (rules_of (w_file w))) (w_file w) (w_server w))
| w_apply w rule rules :
    w_loop w = Applying (rule :: rules) →
    w_internal w (with_loop w (w_channel w) (Applying rules) (w_seen w) (reload_rule rule (w_server w)))
| w_applied w :
    w_loop w = Applying [] →
    w_internal w (with_loop w (w_channel w) Receiving (w_seen w) (w_server w)).

(** The steps that leave the file alone: the process's own, other events, and the
    other tasks of the server. *)
Inductive w_calm : watched → watched → Prop :=
| w_own w w' : w_internal w w' → w_calm w w'
| w_other w e : e ≠ Modified → w_calm w (with_file w (w_file w) (w_events w ++ [e]) (w_channel w))
| w_serve w l sv :
    sv_does l (w_server w) sv → l ≠ Reconciles →
    w_calm w (with_loop w (w_channel w) (w_loop w) (w_seen w) sv).

(** The file is changed, and the watcher reports a modification. *)
Definition touched (w : watched) (file : option string) : watched :=
  with_file w file (w_events w ++ [Modified]) (w_channel w).

Inductive w_step : watched → watched → Prop :=
| w_quiet w w' : w_calm w w' → w_step w w'
| w_change w file : w_step w (touched w file).

(** The loop starts once the file is watched; [file] is what it holds then, which
    need not be what [boot] read. *)
Definition watching (app : App) (file : option string) : watched :=
  {| w_file := file; w_events := []; w_channel := false; w_loop := Receiving;
     w_seen := Some (app_content app); w_server := app_server app |}.

(** States that the process reaches with a change of the file on the way. *)
Definition changed (app : App) (file : option string) (w : watched) : Prop :=
  ∃ w0 file', rtc w_step (watching app file) w0 ∧ rtc w_step (touched w0 file') w.

(** A change that has not been read is on its way. *)
Definition on_its_way (w : watched) : Prop :=
  w_seen w = w_file w ∨ Modified ∈ w_events w ∨ w_channel w = true ∨ w_loop w = Reloading.

Lemma on_its_way_calm w w' : w_calm w w' → on_its_way w → on_its_way w'.
Proof.
  unfold on_its_way. intros Hstep Hw. destruct Hstep as [w w' Hstep|w e He|w l sv Hsv Hl]; cbn.
  - destruct Hstep as [w e es ch Hes Hcb|w Hch Hl|w Hl|w r rs Hl|w Hl]; cbn; [|by auto..| |].
    + rewrite Hes in Hw. rewrite elem_of_cons in Hw.
      destruct e; cbn in Hcb; [destruct (w_channel w); naive_solver|naive_solver..].
    + rewrite Hl in Hw. naive_solver.
    + rewrite Hl in Hw. naive_solver.
  - rewrite elem_of_app. naive_solver.
  - done.
Qed.

Lemma on_its_way_touched w file : on_its_way (touched w file).
Proof. right. left. cbn. set_solver. Qed.

Lemma on_its_way_steps w w' : rtc w_step w w' → on_its_way w → on_its_way w'.
Proof.
  induction 1 as [|w1 w2 w3 [w w' Hc|w file] _ IH]; intros Hw; [done|..]; apply IH.
  - by eapply on_its_way_calm.
  - apply on_its_way_touched.
Qed.

(** No change is lost that comes after the watch began. *)
Lemma watched_on_its_way app file w :
  rtc w_step (watching app file) w → changed app file w ∨ file = Some (app_content app) → on_its_way w.
Proof.
  intros Hrun [(w0 & file' & _ & Hrun')| ->].
  - eapply on_its_way_steps; [exact Hrun'|]. apply on_its_way_touched.
  - eapply on_its_way_steps; [exact Hrun|]. by left.
Qed.

(** How much the process has still to do on its own: reading the file costs as
    many steps as there are rules in it, and two more. *)
Definition pending (w : watched) : nat :=
  let reading := S (S (length (rules_of (w_file w)))) in
  length (w_events w) * (2 + reading) + (if w_channel w then 1 + reading else 0) +
  match w_loop w with
  | Receiving => 0
  | Reloading => reading
  | Applying rules => S (length rules)
  end.

Lemma pending_internal w w' : w_internal w w' → (pending w' < pending w)%nat.
Proof.
  unfold pending. intros [w0 e es ch Hes Hcb|w0 Hch Hl|w0 Hl|w0 r rs Hl|w0 Hl]; cbn [with_file with_loop
    w_file w_events w_channel w_loop]; rewrite ?Hl, ?Hch, ?Hes; cbn [length]; try lia.
  destruct e; cbn in Hcb; [destruct (w_channel w0)|..]; simplify_eq; try lia; destruct (w_channel w0); lia.
Qed.

(** No own step is left only when nothing is pending. *)
Lemma pending_stuck w : (∀ w', ¬ w_internal w w') →
  w_loop w = Receiving ∧ w_channel w = false ∧ w_events w = [].
Proof.
  intros Hst. destruct (w_loop w) as [| |[|r rs]] eqn:Hl; [|by destruct (Hst _ (w_read _ Hl))|
    by destruct (Hst _ (w_applied _ Hl))|by destruct (Hst _ (w_apply _ _ _ Hl))].
  destruct (w_channel w) eqn:Hch; [by destruct (Hst _ (w_recv _ Hch Hl))|].
  destruct (w_events w) as [|e es] eqn:Hes; [done|].
  destruct (callback e (w_channel w)) as [ch|] eqn:Hcb; [by destruct (Hst _ (w_deliver _ _ _ _ Hes Hcb))|].
  rewrite Hch in Hcb. by destruct e.
Qed.

(** C14: no change of the configuration file that is made while it is watched is
    lost: from any state the process can reach, left to itself it takes finitely
    many steps (a bounded number, whatever the interleaving of the watcher's thread
    and the loop), and when it has none left, and the file has been changed since
    it is watched or was by then still what [boot] had read, the file was last read
    as it now is, and the loop is done with its rules.  Changes while a notification
    is pending share one reload. *)
Theorem config_change_applied app file w n w' :
  rtc w_step (watching app file) w → nsteps w_internal n w w' →
  (n ≤ pending w)%nat ∧
  ((∀ w'', ¬ w_internal w' w'') → w_loop w' = Receiving ∧
     (changed app file w ∨ file = Some (app_content app) → w_seen w' = w_file w')).
Proof.
  intros Hrun Hown. pose proof (watched_on_its_way _ _ _ Hrun) as Hw. clear Hrun.
  revert Hw. generalize (changed app file w ∨ file = Some (app_content app)) as P. intros P Hw.
  induction Hown as [w|n w w1 w2 Hstep _ IH].
  - split; [lia|]. intros (Hl & Hch & Hes)%pending_stuck. split; [done|]. intros HP.
    specialize (Hw HP). unfold on_its_way in Hw. rewrite Hl, Hch, Hes, elem_of_nil in Hw. naive_solver.
  - pose proof (pending_internal _ _ Hstep). destruct IH as [H1 H2].
    { intros HP. eapply on_its_way_calm; [|by apply Hw]. by apply w_own. }
    split; [lia|done].
Qed.

(** A change made after [boot] has read the file and before it watches it is
    not noticed: as long as the file is not changed again, the process never reads
    it, and goes on with the configuration it was started with. *)
Theorem early_change_unnoticed app file w :
  rtc w_calm (watching app file) w →
  w_seen w = Some (app_content app) ∧ w_file w = file ∧ w_loop w = Receiving.
Proof.
  intros Hrun.
  assert (Hidle : w_seen w = Some (app_content app) ∧ w_file w = file ∧ w_loop w = Receiving ∧
    w_channel w = false ∧ Modified ∉ w_events w); [|naive_solver].
  assert (H0 : w_seen (watching app file) = Some (app_content app) ∧ w_file (watching app file) = file ∧
    w_loop (watching app file) = Receiving ∧ w_channel (watching app file) = false ∧
    Modified ∉ w_events (watching app file)) by (split_and!; [done..|apply not_elem_of_nil]).
  induction Hrun as [w|w1 w2 w3 Hstep _ IH]; [done|]. apply IH. clear IH.
  destruct H0 as (Hs & Hf & Hl & Hc & He). destruct Hstep as [w w' Hstep|w e Hne|w l sv Hsv _]; cbn.
  - destruct Hstep as [w e es ch Hes Hcb|w Hch|w Hl'|w r rs Hl'|w Hl']; cbn; try congruence.
    rewrite Hes in He. rewrite not_elem_of_cons in He. destruct He as [Hne He].
    destruct e; [done|..]; cbn in Hcb; simplify_eq; done.
  - split_and!; [done..|]. rewrite not_elem_of_app, list_elem_of_singleton. naive_solver.
  - done.
Qed.

(** The reconciliation of one rule is a reload of the server. *)
Lemma reload_rule_step rule sv : sv_step sv (reload_rule rule sv).
Proof.
  exists Reconciles. exact (sv_reload sv (Some {| c_rules := [rule]; c_cluster := None; c_log := None |})).
Qed.

Lemma w_step_server w w' : w_step w w' → rtc sv_step (w_server w) (w_server w').
Proof.
  intros [w0 w1 [w2 w3 Hstep|w2 e He|w2 l sv Hsv Hl]|w0 file]; cbn; [|done|by apply rtc_once; exists l|done].
  destruct Hstep; cbn; try done. apply rtc_once, reload_rule_step.
Qed.
End loop.

(** The process is a run of the server: the state behind [main]'s loop is one that
    the server's own steps reach from the configuration [main] was started with. *)
Lemma process_reaches sys arg app file w :
  boot sys arg = Running app → rtc (w_step (sys_yaml sys)) (watching app file) w →
  reachable (sys_startup sys) (app_config app) (w_server w).
Proof.
  intros Hboot Hrun.
  assert (Hst : startup (sys_startup sys) (app_config app) = Ok (app_server app)).
  { unfold boot in Hboot. repeat case_match; simplify_eq. done. }
  exists (app_server app). split; [done|]. change (app_server app) with (w_server (watching app file)).
  clear Hst Hboot. induction Hrun as [w|w1 w2 w3 Hstep _ IH]; [done|]. etrans; [|exact IH].
  by eapply w_step_server.
Qed.

(** ** The running configuration *)

(** The loop has reconciled the rules of the file it read, up to those it still
    has to. *)
Definition reconciled (yaml : string → result Config string) (w : watched) : Prop :=
  match w_loop w with
  | Receiving | Reloading => reflects (w_server w) (rules_of yaml (w_seen w))
  | Applying rest => ∃ applied, rules_of yaml (w_seen w) = applied ++ rest ∧ reflects (w_server w) applied
  end.

Lemma reconciled_step yaml config w w' :
  w_step yaml w w' → sv_inv config (w_server w) → lbs_ok (w_server w) → reconciled yaml w →
  lbs_ok (w_server w') ∧ reconciled yaml w'.
Proof.
  unfold reconciled. intros Hstep Hinv Hok Hw.
  destruct Hstep as [w0 w1 [w w' Hstep|w e He|w l sv Hsv Hl]|w file]; cbn; [|done| |done].
  - destruct Hstep as [w e es ch Hes Hcb|w Hch Hl|w Hl|w r rs Hl|w Hl]; cbn; [done|rewrite Hl in Hw; done|..].
    + split; [done|]. exists []. split; [done|]. intros name i rule ru _ _ [=].
    + rewrite Hl in Hw. destruct Hw as (applied & Hrules & Href). split; [by eapply reload_rule_lbs_ok|].
      exists (applied ++ [r]). split; [by rewrite Hrules, <-(assoc_L app)|]. by eapply reload_rule_reflects.
    + rewrite Hl in Hw. destruct Hw as (applied & -> & Href). rewrite app_nil_r. done.
  - destruct (does_reflects l _ _ [] Hsv Hl Hok) as [Hok' _]. split; [done|].
    destruct (w_loop w); [..|destruct Hw as (applied & Hrules & Href); exists applied; split; [done|]];
      by apply (does_reflects l _ _ _ Hsv Hl Hok).
Qed.

Lemma reconciled_run sys arg app file w :
  boot sys arg = Running app → Forall rule_typed (c_rules (app_config app)) →
  rtc (w_step (sys_yaml sys)) (watching app file) w →
  sv_inv (app_config app) (w_server w) ∧ lbs_ok (w_server w) ∧ reconciled (sys_yaml sys) w.
Proof.
  intros Hboot Hty Hrun.
  assert (Hst : startup (sys_startup sys) (app_config app) = Ok (app_server app) ∧
    sys_yaml sys (app_content app) = Ok (app_config app)).
  { unfold boot in Hboot. repeat case_match; simplify_eq. done. }
  destruct Hst as [Hst Hyaml].
  assert (H0 : sv_inv (app_config app) (w_server (watching app file)) ∧ lbs_ok (w_server (watching app file)) ∧
    reconciled (sys_yaml sys) (watching app file)).
  { split; [by eapply startup_inv|]. unfold reconciled. cbn. rewrite Hyaml. by eapply startup_reflects. }
  clear Hboot Hst Hyaml. induction Hrun as [w|w1 w2 w3 Hstep _ IH]; [done|]. apply IH.
  destruct H0 as (Hinv & Hok & Hrec).
  split; [|by eapply reconciled_step]. pose proof (w_step_server _ _ _ Hstep) as Hs.
  clear IH Hrec Hstep Hok. induction Hs; eauto using sv_inv_step.
Qed.

(** C4: the running configuration converges to the file: whenever the process has
    come to rest after the file was changed while watched (or if the file was, when
    the watch began, still what [boot] had read), every rule it runs that the file
    names lists exactly the backends the file gives it, in order and with their
    drain flags, if their addresses are distinct (the last entry counts where the
    file repeats a name); whatever the file was in between, and whatever
    connections, health checks and traffic went on. *)
Theorem running_config_converges sys arg app file w content new_config name i rule ru :
  boot sys arg = Running app → Forall rule_typed (c_rules (app_config app)) →
  rtc (w_step (sys_yaml sys)) (watching app file) w → (∀ w', ¬ w_internal (sys_yaml sys) w w') →
  changed (sys_yaml sys) app file w ∨ file = Some (app_content app) →
  sv_lbs (w_server w) !! name = Some i → sv_rules (w_server w) !! i = Some ru →
  w_file w = Some content → sys_yaml sys content = Ok new_config →
  last_named name (c_rules new_config) = Some rule → distinct_addrs rule →
  listed ru = wanted rule.
Proof.
  intros Hboot Hty Hrun Hstuck Hch Hn Hi Hfile Hyaml Hlast Hd.
  destruct (reconciled_run _ _ _ _ _ Hboot Hty Hrun) as (_ & _ & Hrec).
  pose proof (watched_on_its_way _ _ _ _ Hrun Hch) as Hw.
  destruct (pending_stuck _ _ Hstuck) as (Hl & Hc & Hes).
  unfold on_its_way in Hw. rewrite Hl, Hc, Hes, elem_of_nil in Hw.
  unfold reconciled in Hrec. rewrite Hl in Hrec.
  destruct Hw as [Hseen|[[]|[[=]|[=]]]]. rewrite Hseen, Hfile in Hrec. cbn [rules_of] in Hrec.
  rewrite Hyaml in Hrec. by eapply Hrec.
Qed.

(** ** The cluster and the application *)

(** The actor runs while the application's task receives and logs updates. *)
Inductive cluster_event := Actor (i : Cluster.input) | Receive.

Definition receive (self : Cluster.Cluster) : Cluster.Cluster * list (Z * string * Z) :=
  match ch_queue (Cluster.cl_state self) with
  | u :: us =>
      (Cluster.with_foca self (Cluster.cl_foca self)
         {| ch_capacity := ch_capacity (Cluster.cl_state self); ch_queue := us |}, [u])
  | [] => (self, [])
  end.

Fixpoint cluster_run (self : Cluster.Cluster) (es : list cluster_event) : Cluster.Cluster * list (Z * string * Z) :=
  match es with
  | [] => (self, [])
  | Actor i :: es => cluster_run (Cluster.run_turn self i) es
  | Receive :: es =>
      let (self, us) := receive self in
      let (self, us') := cluster_run self es in
      (self, us ++ us')
  end.

(** The inputs of the actor in a run. *)
Definition actor_input (e : cluster_event) : option Cluster.input :=
  match e with Actor i => Some i | Receive => None end.

Lemma cluster_run_queue self es :
  (cluster_run self es).2 ++ ch_queue (Cluster.cl_state (cluster_run self es).1) `sublist_of`
  ch_queue (Cluster.cl_state self) ++
    mjoin (Cluster.carried (ni_id (Cluster.cl_identity self)) <$> omap actor_input es).
Proof.
  revert self. induction es as [|[i|] es IH]; intros self; cbn [cluster_run omap list_omap actor_input].
  - by rewrite app_nil_r.
  - destruct (Cluster.run_turn_queue self i) as (Hid & _ & us & Hus & Hq).
    etrans; [apply IH|]. rewrite Hid, Hq, <-(assoc_L app), fmap_cons. cbn [mjoin list_join].
    apply sublist_app; [done|]. by apply sublist_app.
  - pose proof (IH (receive self).1) as Hr. unfold receive in *.
    destruct (ch_queue (Cluster.cl_state self)) as [|u us] eqn:Hq; cbn [fst] in Hr; [rewrite Hq in Hr|].
    + by destruct (cluster_run self es) as [self2 us'].
    + destruct (cluster_run _ es) as [self2 us']. cbn in *. by apply sublist_skip.
Qed.

(** C34: however the actor of the started cluster and the task that consumes its
    updates interleave, the updates the application has logged, followed by those
    waiting for it, are updates that the actor's inputs brought it (decoded from
    broadcasts of the datagrams it received, or its own, with its own node id), in
    the order in which they came, unaltered, and each at most as often. *)
Theorem cluster_updates_unaltered sys config self seeds es :
  start_cluster sys config = Running (ClusterStarted self seeds) →
  let r := cluster_run self es in
  r.2 ++ ch_queue (Cluster.cl_state r.1) `sublist_of`
    mjoin (Cluster.carried (sys_random_id sys) <$> omap actor_input es).
Proof.
  intros Hst r.
  assert (Hself : ch_queue (Cluster.cl_state self) = [] ∧ ni_id (Cluster.cl_identity self) = sys_random_id sys).
  { unfold start_cluster in Hst. repeat case_match; by simplify_eq. }
  pose proof (cluster_run_queue self es) as Hr. destruct Hself as [Hq Hid]. by rewrite Hq, Hid in Hr.
Qed.
End main.

(** ** The properties at a concrete process

    The file ["a"] holds the configuration of [ServerSpec.v]; ["b"] drains its
    first backend and adds one. *)

#[local] Existing Instance Health.exact_timer.
#[local] Existing Instance Cluster.direct_bincode.
#[local] Existing Instance Cluster.direct_foca.

Definition rule_b : LBRule := {|
  r_name := "web"; r_listen := "0.0.0.0:80";
  r_backends := [Detailed "10.1.0.1:80" true; Simple "10.1.0.3:80"];
  r_protocol := None; r_proxy_protocol := true; r_tls := None; r_backend_tls := None; r_rate_limit := None;
  r_bandwidth_limit := None; r_backend_connection_limit := None; r_health_check := None;
  r_allow_list := None; r_deny_list := None |}.
Definition cluster_cfg (addr : string) : Config :=
  {| c_rules := [sample_rule]; c_log := Some {| log_level := "debug" |};
     c_cluster := Some {| cluster_enabled := true; bind_addr := addr; peers := ["10.0.0.2:7946"] |} |}.
Definition sample_yaml (s : string) : result Config string :=
  if bool_decide (s = "a") then Ok sample_cfg
  else if bool_decide (s = "b") then Ok {| c_rules := [rule_b]; c_cluster := None; c_log := None |}
  else if bool_decide (s = "c") then Ok (cluster_cfg "0.0.0.0:7946")
  else if bool_decide (s = "d") then Ok (cluster_cfg "localhost:7946")
  else Err "syntax".
Definition sample_system : system :=
  {| sys_read_to_string p := if bool_decide (p = "lb.yaml") then Ok "a" else Ok p; sys_yaml := sample_yaml;
     sys_rust_log := None; sys_startup := sample_env; sys_udp_bind _ := Ok tt; sys_random_id := 7;
     sys_foca := tt; sys_metrics_bind := Err "in use"; sys_watch _ := Ok tt |}.
Definition sample_app : App :=
  {| app_config := sample_cfg; app_content := "a"; app_log := "info"; app_server := sample_sv0;
     app_cluster := ClusterOff; app_metrics := false |}.

Lemma sample_boot : boot sample_system None = Running sample_app.
Proof. reflexivity. Qed.

(** A cluster address that is a host name: the process panics. *)
Example boot_panics : boot sample_system (Some "d") = Panicked "Invalid cluster bind address".
Proof. reflexivity. Qed.

(** The file, ["a"] when it is first watched, is changed, the watcher tells, and
    [main] reloads. *)
Definition sample_w0 : watched := watching sample_app (Some "a").
Definition sample_w1 : watched := touched sample_w0 (Some "b").
Definition sample_w2 : watched := with_file sample_w1 (Some "b") [] true.
Definition sample_w3 : watched := with_loop sample_w2 false Reloading (Some "a") sample_sv0.
Definition sample_w4 : watched := with_loop sample_w3 false (Applying [rule_b]) (Some "b") sample_sv0.
Definition sample_w5 : watched := with_loop sample_w4 false (Applying []) (Some "b") (reload_rule rule_b sample_sv0).
Definition sample_w6 : watched := with_loop sample_w5 false Receiving (Some "b") (reload_rule rule_b sample_sv0).

Lemma sample_changed : rtc (w_step sample_yaml) sample_w0 sample_w1.
Proof. apply rtc_once. exact (w_change sample_yaml sample_w0 (Some "b")). Qed.

Lemma sample_reloads : nsteps (w_internal sample_yaml) 5 sample_w1 sample_w6.
Proof.
  eapply nsteps_l; [exact (w_deliver sample_yaml sample_w1 Modified [] true eq_refl eq_refl)|].
  eapply nsteps_l; [exact (w_recv sample_yaml sample_w2 eq_refl eq_refl)|].
  eapply nsteps_l; [exact (w_read sample_yaml sample_w3 eq_refl)|].
  eapply nsteps_l; [exact (w_apply sample_yaml sample_w4 rule_b [] eq_refl)|].
  eapply nsteps_l; [exact (w_applied sample_yaml sample_w5 eq_refl)|]. apply nsteps_O.
Qed.

Lemma sample_at_rest w' : ¬ w_internal sample_yaml sample_w6 w'.
Proof. intros H. inversion H; discriminate. Qed.

Lemma sample_reloaded_run : rtc (w_step sample_yaml) sample_w1 sample_w6.
Proof.
  apply (rtc_subrel (w_internal sample_yaml)).
  - intros w w' H. by apply w_quiet, w_own.
  - apply rtc_nsteps. eexists. apply sample_reloads.
Qed.

Lemma process_run : rtc (w_step sample_yaml) sample_w0 sample_w6.
Proof. etrans; [apply sample_changed|apply sample_reloaded_run]. Qed.

Lemma config_change_applied_witness : (5 ≤ pending sample_yaml sample_w1)%nat ∧ w_seen sample_w6 = Some "b".
Proof.
  destruct (config_change_applied sample_yaml sample_app (Some "a") sample_w1 5 sample_w6 sample_changed
    sample_reloads) as [H1 H2].
  split; [exact H1|]. apply (proj2 (H2 sample_at_rest)). left. exists sample_w0, (Some "b").
  split; apply rtc_refl.
Defined.

(** The file is ["b"] already when it is first watched: after any event that is
    no modification the process still runs ["a"]. *)
Lemma early_change_unnoticed_witness :
  let w := with_file (watching sample_app (Some "b")) (Some "b") [OtherKind] false in
  w_seen w = Some "a" ∧ w_file w = Some "b" ∧ w_loop w = Receiving.
Proof.
  intros w. refine (early_change_unnoticed sample_yaml sample_app (Some "b") w _).
  apply rtc_once. exact (w_other sample_yaml (watching sample_app (Some "b")) OtherKind ltac:(discriminate)).
Defined.

Lemma running_config_converges_witness :
  ∃ ru, sv_rules (w_server sample_w6) !! 0%nat = Some ru ∧
    listed ru = [Some ("10.1.0.1:80", true); Some ("10.1.0.3:80", false)].
Proof.
  eexists. split; [reflexivity|].
  refine (running_config_converges sample_system None sample_app (Some "a") sample_w6 "b" _ "web" 0 rule_b _
    sample_boot sample_typed process_run sample_at_rest _ eq_refl eq_refl eq_refl eq_refl eq_refl _).
  - left. exists sample_w0, (Some "b"). split; [apply rtc_refl|exact sample_reloaded_run].
  - apply (bool_decide_unpack _). vm_compute. exact I.
Defined.

(** A node broadcasts an update and receives one of another node. *)
Lemma cluster_updates_unaltered_witness :
  let es := [Actor (Cluster.Command (BroadcastUsage "tenant" 42)); Receive;
             Actor (Cluster.Datagram (Some (Cluster.direct_encode (UsageUpdate 9 "tenant" 3)))); Receive] in
  ∃ self, start_cluster sample_system (cluster_cfg "0.0.0.0:7946") =
      Running (ClusterStarted self [{| ip := V4 [10; 0; 0; 2]; port := 7946 |}]) ∧
    (cluster_run self es).2 = [(7, "tenant", 42); (9, "tenant", 3)] ∧
    (cluster_run self es).2 `sublist_of` [(7, "tenant", 42); (9, "tenant", 3)].
Proof.
  intros es. eexists. split; [reflexivity|]. split; [reflexivity|].
  pose proof (cluster_updates_unaltered sample_system (cluster_cfg "0.0.0.0:7946") _
    [{| ip := V4 [10; 0; 0; 2]; port := 7946 |}] es eq_refl) as H.
  change (mjoin _) with [(7, "tenant", 42); (9, "tenant", 3)] in H. etrans; [|exact H].
  apply sublist_inserts_r. reflexivity.
Defined.
