(* ===== verification/Throughput.v ===== *)
(** * The throughput utility: [src/utilities/throughput.rs]

    A sink server that counts what it receives and reports it every second, and
    a client that floods a target over many connections.  The tasks of each
    interleave freely: a run is a list of events, executed against the state the
    tasks share.  The sockets are the events' outcomes; tokio's [Notify] is the
    class [NotifyLib].  The average that the client prints is left out, and so is
    the panic of a deadline beyond the range of an [Instant]. *)

From Stdlib Require Import Ascii.
From S2P Require Import Prelude Float64 NetAddr AddrText.
Open Scope Z_scope.

(** ** [str::parse] of the unsigned types

    Decimal digits after an optional plus sign; [bound] is one more than the
    largest value of the type. *)
Fixpoint parse_digits (bound acc : Z) (s : string) : option Z :=
  match s with
  | EmptyString => Some acc
  | String c s =>
      d ← to_digit 10 c;
      let acc := acc * 10 + d in
      if bound <=? acc then None else parse_digits bound acc s
  end.

Definition parse_uint (bound : Z) (s : string) : option Z :=
  match s with
  | EmptyString => None
  | String c s' =>
      if bool_decide (c = "+"%char)
      then match s' with EmptyString => None | _ => parse_digits bound 0 s' end
      else parse_digits bound 0 s
  end.

(** ** [main] *)

Inductive dispatch :=
| Usage
| IndexPanic             (** [args[0]] of an empty argument list *)
| MissingTarget          (** the panic of [expect] *)
| ParseFailed
| RunServer (port : Z)
| RunClient (target : string) (connections seconds : Z)
| InvalidMode.

Definition main (args : list string) : dispatch :=
  if (length args <? 2)%nat
  then match args with [] => IndexPanic | _ => Usage end
  else
    match args !! 1%nat with
    | Some mode =>
        if bool_decide (mode = "server") then
          match parse_uint (2 ^ 16) (default "9001" (args !! 2%nat)) with
          | Some port => RunServer port
          | None => ParseFailed
          end
        else if bool_decide (mode = "client") then
          match args !! 2%nat with
          | None => MissingTarget
          | Some addr =>
              match parse_uint (2 ^ 64) (default "1" (args !! 3%nat)) with
              | None => ParseFailed
              | Some connections =>
                  match parse_uint (2 ^ 64) (default "10" (args !! 4%nat)) with
                  | None => ParseFailed
                  | Some duration => RunClient addr connections duration
                  end
              end
          end
        else InvalidMode
    | None => IndexPanic
    end.

Lemma parse_digits_text bound acc ds :
  0 <= acc → Forall (is_digit 10) ds → digits_value 10 acc ds < bound →
  parse_digits bound acc (digits_text ds "") = Some (digits_value 10 acc ds).
Proof.
  intros Ha Hds. revert acc Ha. induction Hds as [|d ds Hd Hds IH]; intros acc Ha Hv; [done|].
  cbn [digits_text parse_digits digits_value] in *. rewrite to_digit_char by (unfold is_digit in Hd; lia).
  cbn [mbind option_bind]. unfold is_digit in Hd.
  pose proof (digits_value_ge 10 (acc * 10 + d) ds ltac:(lia) ltac:(lia) Hds).
  destruct (Z.leb_spec bound (acc * 10 + d)); [lia|]. apply IH; lia.
Qed.

Lemma digit_not_plus d : is_digit 10 d → bool_decide (digit_char d = "+"%char) = false.
Proof.
  unfold is_digit. intros Hd. apply bool_decide_eq_false. intros Heq.
  pose proof (to_digit_char 10 d Hd ltac:(lia)) as Ht. rewrite Heq in Ht. discriminate Ht.
Qed.

(** The server can be started on every port, given in decimal. *)
Theorem server_port prog p : is_u16 p → main [prog; "server"; fmt_uint 10 p] = RunServer p.
Proof.
  unfold is_uN. intros Hp.
  destruct (fmt_digits_text 16 10 p "" ltac:(lia) Hp ltac:(lia)) as (ds & Ht & Hne & Hds & Hv & _).
  unfold main. cbn -[parse_uint fmt_uint Z.pow]. unfold fmt_uint. rewrite Ht.
  destruct ds as [|d ds]; [done|]. pose proof Hds as [Hd _]%Forall_cons.
  unfold parse_uint. cbn [digits_text]. rewrite (digit_not_plus d Hd).
  change (String (digit_char d) (digits_text ds "")) with (digits_text (d :: ds) "").
  rewrite parse_digits_text by (done || lia). by rewrite Hv.
Qed.

(** ** [run_server] *)

(** What the reporter prints: gigabytes per second, with [{:.2}] in hundredths,
    and whole megabytes per second. *)
Record report := { rp_gb : Z; rp_mb : Z }.

(** The format [{:.2}] prints the nearest number of hundredths. *)
Definition hundredths (x : Z) : Z := rdiv (x * 100) F64_ONE.

Definition speed (delta : Z) : report :=
  let gb_s := fdiv (f64_of_int delta) (f64_of_int 1000000000) in
  {| rp_gb := hundredths gb_s; rp_mb := delta / 1000000 |}.

(** The state of the sink: the shared counter, the local of the reporter, what it
    has printed and whether it still runs, and which connections still read. *)
Record sink := {
  bytes_received : Z;
  last_bytes : Z;
  reports : list report;
  reporting : bool;
  reading : list bool;
}.

Definition new_sink : sink :=
  {| bytes_received := 0; last_bytes := 0; reports := []; reporting := true; reading := [] |}.

(** Events: a connection is accepted, the [read] of a connection returns ([None]
    for an error), the interval of the reporter ticks. *)
Inductive sink_event :=
| Accepted
| ReadDone (k : nat) (r : option nat)
| Tick.

Definition with_counter (s : sink) (n : Z) : sink :=
  {| bytes_received := n; last_bytes := last_bytes s; reports := reports s; reporting := reporting s;
     reading := reading s |}.
Definition with_reading (s : sink) (rs : list bool) : sink :=
  {| bytes_received := bytes_received s; last_bytes := last_bytes s; reports := reports s;
     reporting := reporting s; reading := rs |}.

(** The turn of a connection's loop after a [read]. *)
Definition sink_read (s : sink) (k : nat) (r : option nat) : sink :=
  match r with
  | Some 0%nat => with_reading s (<[k := false]> (reading s))
  | Some n => with_counter s (usize_wrap (bytes_received s + Z.of_nat n))
  | None => with_reading s (<[k := false]> (reading s))
  end.

Section sink.
(** Whether the build checks arithmetic for overflow, as the development profile
    does and the release profile does not. *)
Variable overflow_checks : bool.

(** The turn of the reporter after a tick.  With checks, a subtraction below zero
    panics, which ends the reporter and nothing else. *)
Definition sink_tick (s : sink) : sink :=
  if negb (reporting s) then s
  else
    let current := bytes_received s in
    if overflow_checks && (current <? last_bytes s)
    then {| bytes_received := bytes_received s; last_bytes := last_bytes s; reports := reports s;
            reporting := false; reading := reading s |}
    else
      let delta := usize_wrap (current - last_bytes s) in
      {| bytes_received := bytes_received s; last_bytes := current; reports := reports s ++ [speed delta];
         reporting := true; reading := reading s |}.

Definition sink_exec (s : sink) (e : sink_event) : sink :=
  match e with
  | Accepted => with_reading s (reading s ++ [true])
  | ReadDone k r => if bool_decide (reading s !! k = Some true) then sink_read s k r else s
  | Tick => sink_tick s
  end.

Definition sink_run (s : sink) (es : list sink_event) : sink := foldl sink_exec s es.

(** The specification: the bytes read between one tick and the next, counted
    without bound, and those read after the last one; [acc] since the last tick,
    [open] the connections still read. *)
Fixpoint intervals (open : list bool) (acc : Z) (es : list sink_event) : list Z * Z :=
  match es with
  | [] => ([], acc)
  | Accepted :: es => intervals (open ++ [true]) acc es
  | ReadDone k r :: es =>
      if bool_decide (open !! k = Some true) then
        match r with
        | Some 0%nat | None => intervals (<[k := false]> open) acc es
        | Some n => intervals open (acc + Z.of_nat n) es
        end
      else intervals open acc es
  | Tick :: es => let (is_, rest) := intervals open 0 es in (acc :: is_, rest)
  end.

Definition total (r : list Z * Z) : Z := foldr Z.add r.2 r.1.

Lemma intervals_total open acc es :
  0 <= acc → acc <= total (intervals open acc es) ∧ Forall (λ n, 0 <= n) (intervals open acc es).1.
Proof.
  revert open acc. induction es as [|e es IH]; intros open acc Hacc; cbn [intervals].
  { unfold total. cbn. split; [lia|constructor]. }
  destruct e as [|k [[|n]|]|]; try (by apply IH);
    try (destruct (bool_decide _); [|by apply IH]); try (by apply IH).
  - destruct (IH open (acc + Z.of_nat (S n)) ltac:(lia)). split; [lia|done].
  - destruct (IH open 0 ltac:(lia)) as [H1 H2]. destruct (intervals open 0 es) as [is_ rest].
    unfold total in *. cbn in *. split; [lia|]. by constructor.
Qed.

(** The subtraction of the reporter never goes below zero. *)
Definition unchecked (s : sink) (acc : Z) (es : list sink_event) : Prop :=
  overflow_checks = false ∨
  (0 <= last_bytes s ∧ 0 <= acc ∧ bytes_received s = last_bytes s + acc ∧
   last_bytes s + total (intervals (reading s) acc es) < USIZE_MODULUS).

Lemma sink_run_intervals s acc es :
  reporting s = true → usize_wrap (bytes_received s - last_bytes s) = usize_wrap acc → unchecked s acc es →
  Forall is_usize (intervals (reading s) acc es).1 →
  reports (sink_run s es) = reports s ++ (speed <$> (intervals (reading s) acc es).1).
Proof.
  revert s acc. induction es as [|e es IH]; intros s acc Hrep Hacc Hun Hall; [by rewrite app_nil_r|].
  change (sink_run s (e :: es)) with (sink_run (sink_exec s e) es). unfold unchecked in Hun.
  destruct e as [|k r|]; cbn [intervals sink_exec] in *.
  - by rewrite (IH _ acc).
  - destruct (bool_decide _); [|by rewrite (IH _ acc)].
    destruct r as [[|n]|]; cbn [sink_read]; [by rewrite (IH _ acc)| |by rewrite (IH _ acc)].
    rewrite (IH _ (acc + Z.of_nat (S n))); [done|done| | |done]; cbn [with_counter bytes_received last_bytes reading].
    + unfold usize_wrap in *. rewrite Zminus_mod_idemp_l.
      replace (bytes_received s + Z.of_nat (S n) - last_bytes s)
        with (bytes_received s - last_bytes s + Z.of_nat (S n)) by lia.
      by rewrite Z.add_mod, Hacc, <-Z.add_mod by done.
    + destruct Hun as [?|(H1 & H2 & H3 & H4)]; [by left|]. right.
      destruct (intervals_total (reading s) (acc + Z.of_nat (S n)) es ltac:(lia)) as [H5 _].
      cbn [with_counter bytes_received last_bytes reading].
      rewrite usize_wrap_small by (unfold is_uN, USIZE_MODULUS in *; lia). split_and!; lia.
  - destruct (intervals (reading s) 0 es) as [is_ rest] eqn:Hi. cbn [fst] in *.
    apply Forall_cons in Hall as [Hd Hall]. unfold sink_tick. rewrite Hrep. cbn [negb].
    assert (Hck : overflow_checks && (bytes_received s <? last_bytes s) = false).
    { destruct Hun as [-> |(H1 & H2 & H3 & H4)]; [done|]. rewrite (proj2 (Z.ltb_ge _ _)) by lia. apply andb_false_r. }
    rewrite Hck, Hacc, usize_wrap_small by done.
    rewrite (IH _ 0); cbn [bytes_received last_bytes reports reporting reading]; rewrite ?Hi.
    + cbn [fst]. by rewrite fmap_cons, <-(assoc_L app).
    + done.
    + by rewrite Z.sub_diag.
    + destruct Hun as [?|(H1 & H2 & H3 & H4)]; [by left|]. right.
      cbn [bytes_received last_bytes reading]. rewrite Hi. unfold total in *. cbn in *. split_and!; lia.
    + done.
Qed.

(** How far the printed gigabytes are off. *)
Lemma hundredths_close n :
  is_usize n → Z.abs (rp_gb (speed n) * 10 ^ 7 - n) <= 5 * 10 ^ 6 + 2 ^ 13.
Proof.
  unfold is_uN. intros Hn. unfold speed, hundredths. cbn [rp_gb].
  rewrite (f64_of_int_exact 1000000000) by lia. unfold fdiv.
  pose proof F64_ONE_pos as HO. set (x := f64_of_int n).
  assert (Hx : (2 ^ 53 - 1) * (n * F64_ONE) <= 2 ^ 53 * x <= (2 ^ 53 + 1) * (n * F64_ONE)).
  { apply fround_unit_rel. apply Z.mul_nonneg_nonneg; lia. }
  set (f := fround (x * F64_ONE) (1000000000 * F64_ONE)).
  assert (Hf : (2 ^ 53 - 1) * x <= 2 ^ 53 * (1000000000 * f) <= (2 ^ 53 + 1) * x).
  { assert (Hr : x * F64_ONE = 0 ∨ 2 ^ 52 * (1000000000 * F64_ONE) <= x * F64_ONE).
    { destruct (decide (n = 0)) as [->|]; [left; lia|right].
      pose proof F64_ONE_ge. assert (2 ^ 52 * 1000000000 <= x) by nia. nia. }
    pose proof (fround_rel (x * F64_ONE) (1000000000 * F64_ONE) ltac:(lia) Hr) as Hfr. fold f in Hfr. nia. }
  pose proof (rdiv_bounds (f * 100) F64_ONE HO) as Hg. set (g := rdiv (f * 100) F64_ONE) in *.
  assert (Hup : 2 ^ 106 * 10 ^ 9 * (2 * g - 1) <= 200 * (2 ^ 53 + 1) ^ 2 * n) by nia.
  assert (Hlo : 200 * (2 ^ 53 - 1) ^ 2 * n <= 2 ^ 106 * 10 ^ 9 * (2 * g + 1)) by nia.
  lia.
Qed.

(** C37: whatever connections come and go, the sink prints one report per tick, on
    exactly the bytes read since the report before, as long as these are below
    [2^64]: the megabytes are their number divided by [10^6], rounded down, and the
    gigabytes, in hundredths, are off by at most half a hundredth and 8 KiB.  This
    holds also when the shared counter wraps around, in a build without overflow
    checks; with them, as long as fewer than [2^64] bytes are received in all. *)
Theorem sink_reports_exact es :
  let r := intervals [] 0 es in
  Forall is_usize r.1 → overflow_checks = false ∨ total r < USIZE_MODULUS →
  reports (sink_run new_sink es) = speed <$> r.1 ∧
  Forall (λ n, rp_mb (speed n) * 10 ^ 6 <= n < (rp_mb (speed n) + 1) * 10 ^ 6 ∧
               Z.abs (rp_gb (speed n) * 10 ^ 7 - n) <= 5 * 10 ^ 6 + 2 ^ 13) r.1.
Proof.
  intros r Hall Hun. split.
  - rewrite (sink_run_intervals new_sink 0 es); [done|done|done| |done].
    destruct Hun as [?|Ht]; [by left|]. right. cbn. unfold r in Ht. lia.
  - eapply Forall_impl; [exact Hall|]. intros n Hn. split; [|by apply hundredths_close].
    cbn [speed rp_mb]. pose proof (Z.div_mod n 1000000 ltac:(lia)).
    pose proof (Z.mod_pos_bound n 1000000 ltac:(lia)). lia.
Qed.
End sink.

(** With checks, the counter wrapping around ends the reports: after [2^64 - 1]
    bytes, two more and a tick there is none. *)
Example wrap_ends_reports :
  let s := {| bytes_received := 2 ^ 64 - 1; last_bytes := 2 ^ 64 - 1; reports := []; reporting := true;
              reading := [true] |} in
  let es := [ReadDone 0 (Some 2%nat); Tick; ReadDone 0 (Some 5%nat); Tick] in
  reports (sink_run true s es) = [] ∧ length (reports (sink_run false s es)) = 2%nat.
Proof. split; reflexivity. Qed.

(** ** [run_client] *)

(** What the documentation of tokio's [Notify] says of [notify_waiters]: the
    tasks already waiting are woken, and nothing is stored for others. *)
Class NotifyLib := {
  woken : bool → bool;
  woken_waiting : woken true = true;
  woken_other : woken false = false;
}.

Section client.
Context `{N : NotifyLib} (seconds : Z).

(** Where a connection's task stands. *)
Inductive task :=
| Connecting
| Connected                  (** before [start.notified()] *)
| Waiting                    (** in [start.notified().await] *)
| Started                    (** woken *)
| Flooding (deadline : Z)
| Finished.

(** Where [run_client] itself stands. *)
Inductive phase :=
| Establishing               (** in the first sleep *)
| Measuring                  (** after [notify_waiters] *)
| Reported (total : Z).

Record flood := {
  tasks : list task;
  bytes_sent : Z;
  main_phase : phase;
}.

Definition NANOS : Z := 1000000000.
Definition CHUNK : Z := 128 * 1024.

(** The tasks spawned by the loop over the connections. *)
Definition new_flood (connections : nat) : flood :=
  {| tasks := replicate connections Connecting; bytes_sent := 0; main_phase := Establishing |}.

Inductive flood_event :=
| ConnectDone (k : nat) (ok : bool)
| Await (k : nat)                        (** the task calls [notified()] *)
| Begin (k : nat) (now : Z)              (** the woken task computes its deadline *)
| Turn (k : nat) (now : Z) (ok : bool)   (** the loop condition, and [write_all] if it holds *)
| NotifyWaiters
| Load.

Definition set_task (f : flood) (k : nat) (t : task) : flood :=
  {| tasks := <[k := t]> (tasks f); bytes_sent := bytes_sent f; main_phase := main_phase f |}.

(** One event; an event the state does not allow changes nothing.  The second
    component is the task that has sent a chunk. *)
Definition flood_exec (f : flood) (e : flood_event) : flood * option nat :=
  match e with
  | ConnectDone k ok =>
      match tasks f !! k with
      | Some Connecting => (set_task f k (if ok then Connected else Finished), None)
      | _ => (f, None)
      end
  | Await k =>
      match tasks f !! k with
      | Some Connected => (set_task f k Waiting, None)
      | _ => (f, None)
      end
  | Begin k now =>
      match tasks f !! k with
      | Some Started => (set_task f k (Flooding (now + seconds * NANOS)), None)
      | _ => (f, None)
      end
  | Turn k now ok =>
      match tasks f !! k with
      | Some (Flooding deadline) =>
          if now <? deadline then
            if ok then
              ({| tasks := tasks f; bytes_sent := usize_wrap (bytes_sent f + CHUNK);
                  main_phase := main_phase f |}, Some k)
            else (set_task f k Finished, None)
          else (set_task f k Finished, None)
      | _ => (f, None)
      end
  | NotifyWaiters =>
      match main_phase f with
      | Establishing =>
          ({| tasks := (λ t, if woken (match t with Waiting => true | _ => false end) then Started else t) <$> tasks f;
              bytes_sent := bytes_sent f; main_phase := Measuring |}, None)
      | _ => (f, None)
      end
  | Load =>
      match main_phase f with
      | Measuring => ({| tasks := tasks f; bytes_sent := bytes_sent f; main_phase := Reported (bytes_sent f) |}, None)
      | _ => (f, None)
      end
  end.

(** A run, with the tasks that sent a chunk, in order. *)
Fixpoint flood_run (f : flood) (es : list flood_event) : flood * list nat :=
  match es with
  | [] => (f, [])
  | e :: es =>
      let (f, w) := flood_exec f e in
      let (f, ws) := flood_run f es in
      (f, option_list w ++ ws)
  end.

(** A task that was not waiting when the others were woken. *)
Definition late (f : flood) (k : nat) : Prop :=
  main_phase f ≠ Establishing ∧
  match tasks f !! k with
  | Some (Connecting | Connected | Waiting | Finished) | None => True
  | Some (Started | Flooding _) => False
  end.

Lemma late_set f k j t :
  late f k → match t with Started | Flooding _ => j ≠ k | _ => True end → late (set_task f j t) k.
Proof.
  intros [Hp Hk] Ht. split; [done|]. cbn. rewrite list_lookup_insert. case_decide as Hd; [|done].
  destruct Hd as [-> _]. by destruct t.
Qed.

Lemma flood_exec_late f e k : late f k → late (flood_exec f e).1 k ∧ (flood_exec f e).2 ≠ Some k.
Proof.
  intros Hl. assert (Hk := Hl). destruct Hk as [Hp Hk].
  destruct e as [j ok|j|j now|j now ok| |]; cbn [flood_exec].
  - destruct (tasks f !! j) as [[]|]; try done. split; [|done]. apply late_set; [done|by destruct ok].
  - destruct (tasks f !! j) as [[]|]; try done. split; [|done]. by apply late_set.
  - destruct (tasks f !! j) as [[]|] eqn:Hj; try done. split; [|done]. apply late_set; [done|].
    intros ->. by rewrite Hj in Hk.
  - destruct (tasks f !! j) as [[]|] eqn:Hj; try done. destruct (now <? deadline).
    + destruct ok; [|split; [by apply late_set|done]]. split; [done|]. intros [= ->]. by rewrite Hj in Hk.
    + split; [by apply late_set|done].
  - by destruct (main_phase f).
  - by destruct (main_phase f).
Qed.

Lemma flood_run_late f es k : late f k → late (flood_run f es).1 k ∧ k ∉ (flood_run f es).2.
Proof.
  revert f. induction es as [|e es IH]; intros f Hl; [split; [done|apply not_elem_of_nil]|].
  destruct (flood_exec_late f e k Hl) as [H1 H2]. cbn [flood_run].
  destruct (flood_exec f e) as [f1 w]. cbn [fst snd] in *. destruct (IH f1 H1) as [H3 H4].
  destruct (flood_run f1 es) as [f2 ws]. cbn [fst snd] in *. split; [done|].
  destruct w as [w|]; cbn [option_list app]; [|done]. apply not_elem_of_cons. split; [congruence|done].
Qed.

(** C40: the start signal is lost on a task that is not yet waiting for it: a
    connection that is still being established when [run_client] calls
    [notify_waiters] never sends a byte, however long the client runs. *)
Theorem late_connection_never_sends f es k :
  main_phase f = Establishing →
  match tasks f !! k with Some (Connecting | Connected) => True | _ => False end →
  let f' := (flood_exec f NotifyWaiters).1 in
  k ∉ (flood_run f' es).2.
Proof.
  intros Hp Hk f'. apply flood_run_late. unfold f'. cbn [flood_exec]. rewrite Hp. split; [done|].
  cbn. rewrite list_lookup_fmap. by destruct (tasks f !! k) as [[]|]; cbn; rewrite ?woken_other.
Qed.

(** The counter counts the chunks. *)
Lemma flood_run_bytes f es :
  is_usize (bytes_sent f) →
  bytes_sent (flood_run f es).1 = usize_wrap (bytes_sent f + CHUNK * Z.of_nat (length (flood_run f es).2)).
Proof.
  revert f. induction es as [|e es IH]; intros f Hb; cbn [flood_run].
  { cbn. by rewrite Z.add_0_r, usize_wrap_small. }
  assert (He : bytes_sent (flood_exec f e).1 =
    usize_wrap (bytes_sent f + CHUNK * Z.of_nat (length (option_list (flood_exec f e).2)))).
  { destruct e; cbn [flood_exec]; repeat case_match;
      cbn [fst snd option_list length bytes_sent set_task]; change (Z.of_nat 0) with 0; change (Z.of_nat 1) with 1;
      rewrite ?Z.mul_0_r, ?Z.add_0_r, ?Z.mul_1_r; first [done|by rewrite usize_wrap_small]. }
  destruct (flood_exec f e) as [f1 w]. cbn [fst snd] in He.
  specialize (IH f1 ltac:(rewrite He; apply usize_wrap_range)).
  destruct (flood_run f1 es) as [f2 ws]. cbn [fst snd] in *. rewrite IH, He, length_app. unfold usize_wrap.
  rewrite Z.add_mod_idemp_l by done. f_equal. lia.
Qed.

(** What a task may send: nothing after its deadline, which lies [seconds] after
    it began. *)
Definition task_deadline (f : flood) (k : nat) : option Z :=
  match tasks f !! k with Some (Flooding d) => Some d | _ => None end.

(** The client counts 128 KiB per chunk a task sends, modulo [2^64]; a task
    sends only while the clock is before its deadline, and its first turn at or
    after the deadline ends it. *)
Theorem flood_accounting connections es k now ok :
  let r := flood_run (new_flood connections) es in
  bytes_sent r.1 = usize_wrap (CHUNK * Z.of_nat (length r.2)) ∧
  let t := flood_exec r.1 (Turn k now ok) in
  match task_deadline r.1 k with
  | None => t = (r.1, None)
  | Some deadline =>
      if now <? deadline then t.2 = (if ok then Some k else None)
      else t.2 = None ∧ tasks t.1 !! k = Some Finished
  end.
Proof.
  intros r. split; [apply (flood_run_bytes (new_flood connections) es); unfold is_uN; cbn; lia|].
  intros t. unfold t, task_deadline. cbn [flood_exec].
  destruct (tasks r.1 !! k) as [[]|] eqn:Hk; try done.
  destruct (now <? deadline); [by destruct ok|]. split; [done|]. cbn.
  apply list_lookup_insert_eq. by eapply lookup_lt_Some.
Qed.
End client.

(** ** At concrete inputs *)

#[export] Instance exact_notify : NotifyLib := {|
  woken b := b; woken_waiting := eq_refl; woken_other := eq_refl |}.

Example main_server : main ["throughput"; "server"] = RunServer 9001.
Proof. reflexivity. Qed.
Example main_client : main ["throughput"; "client"; "10.0.0.1:80"; "8"] = RunClient "10.0.0.1:80" 8 10.
Proof. reflexivity. Qed.
Example main_bad_port : main ["throughput"; "server"; "65536"] = ParseFailed.
Proof. reflexivity. Qed.
Example main_no_target : main ["throughput"; "client"] = MissingTarget.
Proof. reflexivity. Qed.

Lemma sink_reports_exact_witness :
  let es := [Accepted; ReadDone 0 (Some 100%nat); Tick; ReadDone 0 (Some 20%nat); Accepted;
    ReadDone 1 (Some 3%nat); ReadDone 0 (Some 0%nat); ReadDone 0 (Some 5%nat); Tick] in
  reports (sink_run true new_sink es) = speed <$> [100; 23].
Proof.
  intros es. refine (proj1 (sink_reports_exact true es _ _)).
  - cbn. repeat constructor; unfold is_uN; lia.
  - right. reflexivity.
Defined.

Lemma late_connection_never_sends_witness :
  let f := (flood_run 1 (new_flood 2) [ConnectDone 0 true; Await 0; ConnectDone 1 true]).1 in
  let f' := (flood_exec 1 f NotifyWaiters).1 in
  let es := [Await 1; Begin 0 5; Begin 1 5; Turn 0 6 true; Turn 1 6 true] in
  (flood_run 1 f' es).2 = [0%nat] ∧ 1%nat ∉ (flood_run 1 f' es).2.
Proof.
  intros f f' es. split; [reflexivity|].
  exact (late_connection_never_sends 1 f es 1 eq_refl I).
Defined.
